(** * kelp: Reed-Solomon erasure coding over GF(2^8) and block spreading

    A shallow embedding of [rs.c], [rs_avx2.c] and [blockaio.c].

    Conventions.
    - A C [int] or [size_t] is a [Z]; every index computed below stays far
      inside the 32-bit range for the sizes the coder accepts (at most 255
      shards), so no wrap-around occurs.
    - A [gf] (an [unsigned char]) is a [Z] in [0, 256).
    - A C array is a [list Z]; [aget] reads a cell and [aset] writes one.
    - Code that can stop the process ([exit], [abort]) or touch memory
      outside an allocation returns a [result]. *)

From Stdlib Require Import ZArith List Lia Bool Sorted.
Import ListNotations.
Open Scope Z_scope.

(** ** Outcomes of a call *)

Inductive result (A : Type) : Type :=
| Ok (a : A)          (* normal return *)
| Exit (code : Z)     (* the process was terminated by exit(code) *)
| Fault.              (* a read or write outside the allocation *)
Arguments Ok {A} a.
Arguments Exit {A} code.
Arguments Fault {A}.

Definition bind {A B} (m : result A) (k : A -> result B) : result B :=
  match m with
  | Ok a => k a
  | Exit c => Exit c
  | Fault => Fault
  end.

Notation "x <- m ;; k" := (bind m (fun x => k))
  (at level 61, m at next level, right associativity).

(** ** Arrays *)

Fixpoint upd_nth {A} (n : nat) (l : list A) (v : A) : list A :=
  match l, n with
  | [], _ => []
  | _ :: t, O => v :: t
  | h :: t, S k => h :: upd_nth k t v
  end.

(** [a[i]] *)
Definition aget (a : list Z) (i : Z) : Z :=
  if i <? 0 then 0 else nth (Z.to_nat i) a 0.

(** [a[i] = v] *)
Definition aset (a : list Z) (i : Z) (v : Z) : list Z :=
  if i <? 0 then a else upd_nth (Z.to_nat i) a v.

Definition alen (a : list Z) : Z := Z.of_nat (length a).

(** A zero-filled array: static storage, or [malloc] followed by
    [memset(.., 0, ..)]; also used for a fresh [malloc] whose every cell is
    written before it is read. *)
Definition zeros (n : Z) : list Z := repeat 0 (Z.to_nat n).

(** ** Counted loops *)

(** [for (i = lo; cnt iterations; i++) s = body i s] *)
Fixpoint for_loop {S : Type} (cnt : nat) (i : Z) (body : Z -> S -> S) (s : S) : S :=
  match cnt with
  | O => s
  | Datatypes.S c => for_loop c (i + 1) body (body i s)
  end.

(** [for (i = lo; i < hi; i++) s = body i s] *)
Definition for_range {S : Type} (lo hi : Z) (body : Z -> S -> S) (s : S) : S :=
  for_loop (Z.to_nat (hi - lo)) lo body s.

Fixpoint for_loopM {S : Type} (cnt : nat) (i : Z) (body : Z -> S -> result S) (s : S)
  : result S :=
  match cnt with
  | O => Ok s
  | Datatypes.S c => s' <- body i s ;; for_loopM c (i + 1) body s'
  end.

Definition for_rangeM {S : Type} (lo hi : Z) (body : Z -> S -> result S) (s : S)
  : result S :=
  for_loopM (Z.to_nat (hi - lo)) lo body s.

(** The indices [start .. start + cnt - 1] and [0 .. n-1]. *)
Fixpoint zseq (cnt : nat) (start : Z) : list Z :=
  match cnt with
  | O => []
  | Datatypes.S c => start :: zseq c (start + 1)
  end.

Definition zrange (n : nat) : list Z := zseq n 0.

(** ** GF(2^8): rs.h, rs.c *)

Definition GF_SIZE : Z := 256.

(** The four global tables of rs.c. *)
Record gf_tables : Type := mk_tables {
  gf_exp : list Z;        (* gf  gf_exp[GF_SIZE * 2] *)
  gf_log : list Z;        (* int gf_log[GF_SIZE] *)
  gf_mul_table : list Z;  (* gf  gf_mul_table[GF_SIZE * GF_SIZE] *)
  gf_div_table : list Z   (* gf  gf_div_table[GF_SIZE * GF_SIZE] *)
}.

(** [gf_mul_direct]; reads [gf_exp] and [gf_log]. *)
Definition gf_mul_direct (E L : list Z) (a b : Z) : Z :=
  if (a =? 0) || (b =? 0) then 0
  else aget E (Z.rem (aget L a + aget L b) (GF_SIZE - 1)).

(** [gf_div_direct]; [exit(1)] on a zero divisor once [a] is known nonzero. *)
Definition gf_div_direct (E L : list Z) (a b : Z) : result Z :=
  if a =? 0 then Ok 0
  else if b =? 0 then Exit 1
  else Ok (aget E (Z.rem (aget L a - aget L b + (GF_SIZE - 1)) (GF_SIZE - 1))).

(** First loop of [init_gf]: the state is [(x, gf_exp, gf_log)]. *)
Definition init_exp_log_body (i : Z) (s : Z * list Z * list Z) : Z * list Z * list Z :=
  let '(x, E, L) := s in
  let E := aset E i x in
  let L := aset L x i in
  let x := Z.lxor (Z.shiftl x 1) (if Z.land x 128 =? 0 then 0 else 29) in
  let x := Z.land x 255 in
  (x, E, L).

(** Body of the inner table loop of [init_gf]: the state is
    [(gf_mul_table, gf_div_table)]. *)
Definition init_tables_body (E L : list Z) (i j : Z) (s : list Z * list Z)
  : result (list Z * list Z) :=
  let '(MT, DT) := s in
  let MT := aset MT (i * GF_SIZE + j) (gf_mul_direct E L i j) in
  if j =? 0 then Ok (MT, DT)
  else d <- gf_div_direct E L i j ;; Ok (MT, aset DT (i * GF_SIZE + j) d).

(** The first half of [init_gf], run on the zero-initialised globals: the
    exp and log tables. *)
Definition init_exp_log : list Z * list Z :=
  let '(_, E, L) :=
    for_range 0 (GF_SIZE - 1) init_exp_log_body
      (1, zeros (GF_SIZE * 2), zeros GF_SIZE) in
  let E := aset E (GF_SIZE - 1) 1 in
  let L := aset L 0 (-1) in
  let E := for_range GF_SIZE (GF_SIZE * 2)
             (fun i E => aset E i (aget E (i - (GF_SIZE - 1)))) E in
  (E, L).

(** [init_gf]: the exp and log tables, then the multiplication and division
    tables. *)
Definition init_gf : result gf_tables :=
  let '(E, L) := init_exp_log in
  s <- for_rangeM 0 GF_SIZE
         (fun i s => for_rangeM 0 GF_SIZE (init_tables_body E L i) s)
         (zeros (GF_SIZE * GF_SIZE), zeros (GF_SIZE * GF_SIZE)) ;;
  Ok (mk_tables E L (fst s) (snd s)).

Section WithTables.

Variable T : gf_tables.

(** [gf_mul]: table lookup. *)
Definition gf_mul (a b : Z) : Z := aget (gf_mul_table T) (a * GF_SIZE + b).

(** [gf_div]: table lookup, no test on the divisor. *)
Definition gf_div (a b : Z) : Z := aget (gf_div_table T) (a * GF_SIZE + b).

(** [gf_pow] *)
Definition gf_pow (a n : Z) : Z :=
  if n =? 0 then 1
  else if a =? 0 then 0
  else aget (gf_exp T) (Z.rem (aget (gf_log T) a * n) (GF_SIZE - 1)).

End WithTables.


(** * Caller buffers and the AVX2 kernels: rs_avx2.c *)

(** The byte buffers a call works on, by number; a pointer to the start of
    a buffer is its number. Two pointers alias exactly when they are equal. *)
Definition mem : Type := list (list Z).
Definition ptr : Type := nat.

Definition buf (m : mem) (p : ptr) : list Z := nth p m [].

(** [p[i]] and [p[i] = v]. A store is modelled inside its buffer: for an
    index past the end, where the C store is undefined, [aset] leaves the
    buffer as it is. Statements about calls that store therefore bound the
    sizes by the lengths of the buffers. *)
Definition loadb (m : mem) (p : ptr) (i : Z) : Z := aget (buf m p) i.
Definition storeb (m : mem) (p : ptr) (i : Z) (v : Z) : mem :=
  upd_nth p m (aset (buf m p) i v).

(** [memcpy(dst, src, n)] and [memset(dst, v, n)] *)
Definition memcpy (m : mem) (dst src : ptr) (n : Z) : mem :=
  for_range 0 n (fun k m => storeb m dst k (loadb m src k)) m.
Definition memset (m : mem) (dst : ptr) (v : Z) (n : Z) : mem :=
  for_range 0 n (fun k m => storeb m dst k v) m.

(** ** The intrinsics: a vector register is the list of its bytes, lowest
    address first. *)
Definition lanes (n : nat) (f : Z -> Z) : list Z := map f (zrange n).

Definition _mm_loadu_si128 (a : list Z) (off : Z) : list Z :=
  lanes 16 (fun k => aget a (off + k)).
Definition _mm256_loadu_si256 (a : list Z) (off : Z) : list Z :=
  lanes 32 (fun k => aget a (off + k)).
Definition _mm256_storeu_si256 (a : list Z) (off : Z) (v : list Z) : list Z :=
  for_range 0 32 (fun k a => aset a (off + k) (aget v k)) a.
Definition _mm256_broadcastsi128_si256 (x : list Z) : list Z := x ++ x.
Definition _mm256_set1_epi8 (v : Z) : list Z := lanes 32 (fun _ => v).
Definition _mm256_and_si256 (x y : list Z) : list Z :=
  lanes 32 (fun k => Z.land (aget x k) (aget y k)).
Definition _mm256_xor_si256 (x y : list Z) : list Z :=
  lanes 32 (fun k => Z.lxor (aget x k) (aget y k)).

(** The 64-bit little-endian word [q] of a register. *)
Definition qword (x : list Z) (q : Z) : Z :=
  fold_right (fun k acc => aget x (8 * q + k) + 256 * acc) 0 [0; 1; 2; 3; 4; 5; 6; 7].

(** Logical right shift of each 64-bit word. *)
Definition _mm256_srli_epi64 (x : list Z) (imm : Z) : list Z :=
  lanes 32 (fun k => Z.land (Z.shiftr (Z.shiftr (qword x (k / 8)) imm) (8 * (k mod 8))) 255).

(** Byte shuffle inside each 128-bit half: byte [k] of the result is byte
    [b[k] & 15] of the same half of [a], or 0 when bit 7 of [b[k]] is set. *)
Definition _mm256_shuffle_epi8 (a b : list Z) : list Z :=
  lanes 32 (fun k =>
    if Z.land (aget b k) 128 =? 0
    then aget a (16 * (k / 16) + Z.land (aget b k) 15)
    else 0).

(** [for (i = 0; i + 64 <= sz; i += 64) s = body i s]; returns the final
    [i] with the state. *)
Fixpoint chunk_loop {S : Type} (fuel : nat) (i sz : Z) (body : Z -> S -> S) (s : S)
  : Z * S :=
  match fuel with
  | O => (i, s)
  | Datatypes.S f =>
      if i + 64 <=? sz then chunk_loop f (i + 64) sz body (body i s) else (i, s)
  end.

Section Kernels.

Variable T : gf_tables.

(** The eight shuffle tables of [mul1_avx2] and [mul_add1_avx2]:
    [lut = &gf_mul_table[c << 8]], 16 bytes from [lut[16 * t]] broadcast to
    both halves, for [t] = 0 .. 7. *)
Definition shuffle_table (c t : Z) : list Z :=
  _mm256_broadcastsi128_si256 (_mm_loadu_si128 (gf_mul_table T) (Z.shiftl c 8 + 16 * t)).

(** The body of the 64-byte loop up to the two stores: the low and the high
    32 result bytes for the input at [src + i]. *)
Definition mul_chunk (c : Z) (src : list Z) (i : Z) : list Z * list Z :=
  let t0_lo := shuffle_table c 0 in
  let t1_lo := shuffle_table c 1 in
  let t2_lo := shuffle_table c 2 in
  let t3_lo := shuffle_table c 3 in
  let t0_hi := shuffle_table c 4 in
  let t1_hi := shuffle_table c 5 in
  let t2_hi := shuffle_table c 6 in
  let t3_hi := shuffle_table c 7 in
  let clr_mask := _mm256_set1_epi8 15 in
  let src_lo := _mm256_loadu_si256 src i in
  let src_hi := _mm256_loadu_si256 src (i + 32) in
  let data_0 := _mm256_and_si256 src_lo clr_mask in
  let dst_lo_0 := _mm256_shuffle_epi8 t0_lo data_0 in
  let dst_hi_0 := _mm256_shuffle_epi8 t0_hi data_0 in
  let data_1 := _mm256_and_si256 (_mm256_srli_epi64 src_lo 4) clr_mask in
  let dst_lo_1 := _mm256_shuffle_epi8 t1_lo data_1 in
  let dst_hi_1 := _mm256_shuffle_epi8 t1_hi data_1 in
  let data_0 := _mm256_and_si256 src_hi clr_mask in
  let dst_lo_0 := _mm256_xor_si256 dst_lo_0 (_mm256_shuffle_epi8 t2_lo data_0) in
  let dst_hi_0 := _mm256_xor_si256 dst_hi_0 (_mm256_shuffle_epi8 t2_hi data_0) in
  let data_1 := _mm256_and_si256 (_mm256_srli_epi64 src_hi 4) clr_mask in
  let dst_lo_1 := _mm256_xor_si256 dst_lo_1 (_mm256_shuffle_epi8 t3_lo data_1) in
  let dst_hi_1 := _mm256_xor_si256 dst_hi_1 (_mm256_shuffle_epi8 t3_hi data_1) in
  (_mm256_xor_si256 dst_lo_0 dst_lo_1, _mm256_xor_si256 dst_hi_0 dst_hi_1).

(** [mul1_avx2(dst, src, c, sz)]: dst = src * c. *)
Definition mul1_avx2 (m : mem) (dst src : ptr) (c sz : Z) : mem :=
  let '(i, m) :=
    chunk_loop (Z.to_nat sz) 0 sz
      (fun i m =>
         let '(lo, hi) := mul_chunk c (buf m src) i in
         let m := upd_nth dst m (_mm256_storeu_si256 (buf m dst) i lo) in
         upd_nth dst m (_mm256_storeu_si256 (buf m dst) (i + 32) hi))
      m in
  for_range i sz
    (fun i m => storeb m dst i (aget (gf_mul_table T) (Z.shiftl c 8 + loadb m src i))) m.

(** [mul_add1_avx2(dst, src, c, sz)]: dst ^= src * c. *)
Definition mul_add1_avx2 (m : mem) (dst src : ptr) (c sz : Z) : mem :=
  let '(i, m) :=
    chunk_loop (Z.to_nat sz) 0 sz
      (fun i m =>
         let '(lo, hi) := mul_chunk c (buf m src) i in
         let m := upd_nth dst m
                    (_mm256_storeu_si256 (buf m dst) i
                       (_mm256_xor_si256 (_mm256_loadu_si256 (buf m dst) i) lo)) in
         upd_nth dst m
           (_mm256_storeu_si256 (buf m dst) (i + 32)
              (_mm256_xor_si256 (_mm256_loadu_si256 (buf m dst) (i + 32)) hi)))
      m in
  for_range i sz
    (fun i m =>
       storeb m dst i
         (Z.lxor (loadb m dst i) (aget (gf_mul_table T) (Z.shiftl c 8 + loadb m src i)))) m.

(** [add1_avx2(dst, src, sz)]: dst ^= src. *)
Definition add1_avx2 (m : mem) (dst src : ptr) (sz : Z) : mem :=
  let '(i, m) :=
    chunk_loop (Z.to_nat sz) 0 sz
      (fun i m =>
         let src_lo := _mm256_loadu_si256 (buf m src) i in
         let src_hi := _mm256_loadu_si256 (buf m src) (i + 32) in
         let dst_lo := _mm256_loadu_si256 (buf m dst) i in
         let dst_hi := _mm256_loadu_si256 (buf m dst) (i + 32) in
         let m := upd_nth dst m
                    (_mm256_storeu_si256 (buf m dst) i (_mm256_xor_si256 src_lo dst_lo)) in
         upd_nth dst m
           (_mm256_storeu_si256 (buf m dst) (i + 32) (_mm256_xor_si256 src_hi dst_hi)))
      m in
  for_range i sz
    (fun i m => storeb m dst i (Z.lxor (loadb m dst i) (loadb m src i))) m.

End Kernels.

(** * The matrix engine and the coder: rs.c *)

(** [a[i]] with the bounds of the allocation checked. *)
Definition rd (a : list Z) (i : Z) : result Z :=
  if (0 <=? i) && (i <? alen a) then Ok (aget a i) else Fault.

(** [p[i]] for an array of buffer pointers. *)
Definition rd_ptr (p : list ptr) (i : Z) : result ptr :=
  if (0 <=? i) && (i <? Z.of_nat (length p)) then Ok (nth (Z.to_nat i) p 0%nat) else Fault.

(** The coder: [reed_solomon] of rs.h. *)
Record reed_solomon : Type := mk_rs {
  data_shards : Z;
  parity_shards : Z;
  shards : Z;
  matrix : list Z;
  parity : list Z
}.

Definition DATA_SHARDS_MAX : Z := 255.

Section Engine.

Variable T : gf_tables.

(** [cauchy(rows, cols)]. In the index [256*1 + i ^ (rows + j)] the sum binds
    tighter than the exclusive or. *)
Definition cauchy (rows cols : Z) : list Z :=
  for_range 0 rows
    (fun i m =>
       for_range 0 cols
         (fun j m =>
            aset m (i * cols + j)
              (aget (gf_div_table T) (Z.lxor (256 * 1 + i) (rows + j)))) m)
    (zeros (rows * cols)).

(** [sub_matrix]: state [(ptr, new_m)]. *)
Definition sub_matrix (m : list Z) (rmin cmin rmax cmax nrows ncols : Z) : list Z :=
  snd (for_range rmin rmax
         (fun i s =>
            for_range cmin cmax
              (fun j s => (fst s + 1, aset (snd s) (fst s) (aget m (i * ncols + j)))) s)
         (0, zeros ((rmax - rmin) * (cmax - cmin)))).

(** [matrix_multiply(a, b, result, n)] *)
Definition matrix_multiply (a b res : list Z) (n : Z) : list Z :=
  for_range 0 n
    (fun i res =>
       for_range 0 n
         (fun j res =>
            let res := aset res (i * n + j) 0 in
            for_range 0 n
              (fun k res =>
                 aset res (i * n + j)
                   (Z.lxor (aget res (i * n + j))
                           (gf_mul T (aget a (i * n + k)) (aget b (k * n + j))))) res)
         res)
    res.

(** [multiply1(a, ar, ac, b, br, bc)]: state [(ptr, new_m)]; a failed
    [assert] aborts the process. *)
Definition multiply1 (a : list Z) (ar ac : Z) (b : list Z) (br bc : Z) : result (list Z) :=
  if negb (ac =? br) then Exit 134
  else
    Ok (snd (for_range 0 ar
               (fun r s =>
                  for_range 0 bc
                    (fun c s =>
                       let tg :=
                         for_range 0 ac
                           (fun i tg =>
                              Z.lxor tg (gf_mul T (aget a (r * ac + i)) (aget b (i * bc + c))))
                           0 in
                       (fst s + 1, aset (snd s) (fst s) tg)) s)
               (0, zeros (ar * bc)))).

(** [is_identity] *)
Definition is_identity (m : list Z) (n : Z) : Z :=
  if forallb (fun i => forallb (fun j =>
       if i =? j then aget m (i * n + j) =? 1 else aget m (i * n + j) =? 0)
       (zrange (Z.to_nat n))) (zrange (Z.to_nat n))
  then 1 else 0.

(** ** [matrix_invert]: the state of its loops is [(matrix, inverse)]. *)

(** Exchange of the cells [k] of rows [i] and [j], in both arrays. *)
Definition swap_rows_body (n i j k : Z) (s : list Z * list Z) : list Z * list Z :=
  let '(matrix, inverse) := s in
  let temp := aget matrix (i * n + k) in
  let matrix := aset matrix (i * n + k) (aget matrix (j * n + k)) in
  let matrix := aset matrix (j * n + k) temp in
  let temp := aget inverse (i * n + k) in
  let inverse := aset inverse (i * n + k) (aget inverse (j * n + k)) in
  let inverse := aset inverse (j * n + k) temp in
  (matrix, inverse).

(** The pivot search [for (j = i + 1; j < n; j++)] with its [break]; returns
    the value of [j] on exit. *)
Fixpoint pivot_loop (cnt : nat) (n i j : Z) (s : list Z * list Z)
  : Z * (list Z * list Z) :=
  match cnt with
  | O => (j, s)
  | Datatypes.S c =>
      if negb (aget (fst s) (j * n + i) =? 0)
      then (j, for_range 0 n (swap_rows_body n i j) s)
      else pivot_loop c n i (j + 1) s
  end.

Definition scale_row_body (n i temp j : Z) (s : list Z * list Z) : list Z * list Z :=
  let '(matrix, inverse) := s in
  (aset matrix (i * n + j) (gf_mul T (aget matrix (i * n + j)) temp),
   aset inverse (i * n + j) (gf_mul T (aget inverse (i * n + j)) temp)).

Definition eliminate_body (n i j temp k : Z) (s : list Z * list Z) : list Z * list Z :=
  let '(matrix, inverse) := s in
  (aset matrix (j * n + k)
     (Z.lxor (aget matrix (j * n + k)) (gf_mul T temp (aget matrix (i * n + k)))),
   aset inverse (j * n + k)
     (Z.lxor (aget inverse (j * n + k)) (gf_mul T temp (aget inverse (i * n + k))))).

(** "Find pivot": [inl] is the early [return 0] of [matrix_invert], with the
    state it leaves. *)
Definition find_pivot (n i : Z) (s : list Z * list Z)
  : (list Z * list Z) + (list Z * list Z) :=
  if aget (fst s) (i * n + i) =? 0
  then let '(j, s) := pivot_loop (Z.to_nat (n - (i + 1))) n i (i + 1) s in
       if j =? n then inl s else inr s
  else inr s.

(** "Scale row" *)
Definition scale_row (n i : Z) (s : list Z * list Z) : list Z * list Z :=
  if negb (aget (fst s) (i * n + i) =? 1)
  then let temp := aget (gf_div_table T) (256 * 1 + aget (fst s) (i * n + i)) in
       for_range 0 n (scale_row_body n i temp) s
  else s.

(** "Eliminate" *)
Definition eliminate (n i : Z) (s : list Z * list Z) : list Z * list Z :=
  for_range 0 n
    (fun j s =>
       if negb (i =? j)
       then let temp := aget (fst s) (j * n + i) in
            if negb (temp =? 0)
            then for_range 0 n (eliminate_body n i j temp) s
            else s
       else s) s.

(** One round of the Gauss-Jordan loop. *)
Definition invert_step (n i : Z) (s : list Z * list Z)
  : (list Z * list Z) + (list Z * list Z) :=
  match find_pivot n i s with
  | inl s => inl s
  | inr s => inr (eliminate n i (scale_row n i s))
  end.

Fixpoint invert_loop (cnt : nat) (n i : Z) (s : list Z * list Z)
  : (list Z * list Z) + (list Z * list Z) :=
  match cnt with
  | O => inr s
  | Datatypes.S c =>
      match invert_step n i s with
      | inl s => inl s
      | inr s => invert_loop c n (i + 1) s
      end
  end.

(** [matrix_invert(matrix, n)]: the return value and the contents of
    [matrix] afterwards. *)
Definition matrix_invert (m : list Z) (n : Z) : Z * list Z :=
  let inverse := for_range 0 n (fun i inv => aset inv (i * n + i) 1) (zeros (n * n)) in
  match invert_loop (Z.to_nat n) n 0 (m, inverse) with
  | inl (m, _) => (0, m)
  | inr (m, inverse) => (1, for_range 0 (n * n) (fun k m => aset m k (aget inverse k)) m)
  end.

(** [rs_new(data_shards, parity_shards)]; [None] is the [NULL] return. The
    arguments are [int]s and [shards] is their sum, which is the [int] sum
    of the code whenever that one does not overflow. *)
Definition rs_new (data_shards parity_shards : Z) : result (option reed_solomon) :=
  let shards := data_shards + parity_shards in
  if (shards >? DATA_SHARDS_MAX) || (data_shards <=? 0) || (parity_shards <=? 0)
  then Ok None
  else
    let vm := cauchy shards data_shards in
    let top := sub_matrix vm 0 0 data_shards data_shards shards data_shards in
    let '(err, top) := matrix_invert top data_shards in
    if err =? 0 then Ok None
    else
      m <- multiply1 vm shards data_shards top data_shards data_shards ;;
      let parity := sub_matrix m data_shards 0 shards data_shards shards data_shards in
      Ok (Some (mk_rs data_shards parity_shards shards m parity)).

(** ** Encoding and decoding *)

(** The memory a call sees: the coder and the caller's byte buffers. *)
Record heap : Type := mk_heap {
  coder : reed_solomon;
  bufs : mem
}.

(** One term [coeff * data[j]] of an output, as [rs_encode] and
    [rs_generic_galois_coding] add it: the state is [(first, m)]. *)
Definition code_term (dst src : ptr) (coeff shard_size : Z) (s : bool * mem) : bool * mem :=
  let '(first, m) := s in
  if coeff =? 0 then (first, m)
  else if first
       then (false,
             if coeff =? 1 then memcpy m dst src shard_size
             else mul1_avx2 T m dst src coeff shard_size)
       else (first,
             if coeff =? 1 then add1_avx2 m dst src shard_size
             else mul_add1_avx2 T m dst src coeff shard_size).

(** [rs_encode(rs, data, parity, shard_size)] *)
Definition rs_encode (h : heap) (data parity : list ptr) (shard_size : Z) : heap :=
  let rs := coder h in
  mk_heap rs
    (for_range 0 (parity_shards rs)
       (fun i m =>
          snd (for_range 0 (data_shards rs)
                 (fun j s =>
                    let coeff := aget (matrix rs) ((data_shards rs + i) * data_shards rs + j) in
                    code_term (nth (Z.to_nat i) parity 0%nat) (nth (Z.to_nat j) data 0%nat)
                      coeff shard_size s)
                 (true, m)))
       (bufs h)).

(** A block fresh from [malloc(n)]: [n] cells whose contents [junk] are
    indeterminate. *)
Definition malloc (n : Z) (junk : Z -> Z) : list Z := map junk (zrange (Z.to_nat n)).

(** [a[i] = v] with the bounds of the allocation checked. *)
Definition wr (a : list Z) (i v : Z) : result (list Z) :=
  if (0 <=? i) && (i <? alen a) then Ok (aset a i v) else Fault.

(** [memcpy(&dst[d], &src[s], n)] between two arrays. *)
Definition copy_cells (dst : list Z) (d : Z) (src : list Z) (s n : Z) : result (list Z) :=
  for_rangeM 0 n (fun k dst => v <- rd src (s + k) ;; wr dst (d + k) v) dst.

(** The survivor scan of [rs_decode]:
    [for (i = 0; i < total_shards && valid_count < data_shards; i++)];
    the state is [(submatrix, valid_shards, valid_count)]. *)
Fixpoint scan_loop (rs : reed_solomon) (erasures : list Z) (cnt : nat) (i : Z)
    (s : list Z * list Z * Z) : result (list Z * list Z * Z) :=
  match cnt with
  | O => Ok s
  | Datatypes.S c =>
      let '(submatrix, valid_shards, valid_count) := s in
      if valid_count <? data_shards rs then
        e <- rd erasures i ;;
        if e =? 0 then
          submatrix <- copy_cells submatrix (valid_count * data_shards rs)
                         (matrix rs) (i * data_shards rs) (data_shards rs) ;;
          valid_shards <- wr valid_shards valid_count i ;;
          scan_loop rs erasures c (i + 1) (submatrix, valid_shards, valid_count + 1)
        else scan_loop rs erasures c (i + 1) s
      else Ok s
  end.

(** [rs_decode(rs, shards, erasures, erasure_count, shard_size)]: the return
    value and the memory afterwards. [junk_sub] and [junk_valid] are the
    indeterminate contents of the two scratch blocks. *)
Definition rs_decode (junk_sub junk_valid : Z -> Z) (h : heap) (shards : list ptr)
    (erasures : list Z) (erasure_count shard_size : Z) : result (Z * heap) :=
  let rs := coder h in
  let data_shards := data_shards rs in
  let total_shards := data_shards + parity_shards rs in
  if total_shards - erasure_count <? data_shards then Ok (0, h)
  else
    let submatrix := malloc (data_shards * data_shards) junk_sub in
    let valid_shards := malloc data_shards junk_valid in
    s <- scan_loop rs erasures (Z.to_nat total_shards) 0 (submatrix, valid_shards, 0) ;;
    let '(submatrix, valid_shards, _) := s in
    let '(ok, submatrix) := matrix_invert submatrix data_shards in
    if ok =? 0 then Ok (0, h)
    else
      m <- for_rangeM 0 total_shards
             (fun i m =>
                e <- rd erasures i ;;
                if e =? 1 then
                  dst <- rd_ptr shards i ;;
                  let m := memset m dst 0 shard_size in
                  for_rangeM 0 data_shards
                    (fun j m =>
                       v <- rd valid_shards j ;;
                       shard <- rd_ptr shards v ;;
                       coeff <- rd submatrix (i * data_shards + j) ;;
                       Ok (mul_add1_avx2 T m dst shard coeff shard_size)) m
                else Ok m)
             (bufs h) ;;
      Ok (1, mk_heap rs m).

(** [rs_generic_galois_coding(rs, shard_ids, input_count, output_count,
    shard_size, shards)]; the three [junk] arguments are the indeterminate
    contents of its scratch blocks. *)
Definition rs_generic_galois_coding (junk_in junk_out junk_rec : Z -> Z) (h : heap)
    (shard_ids : list Z) (input_count output_count shard_size : Z) (shards : list ptr)
  : result (Z * heap) :=
  let rs := coder h in
  let data_shards := input_count in
  let input_matrix := malloc (data_shards * data_shards) junk_in in
  let output_matrix := malloc (output_count * data_shards) junk_out in
  (* Create submatrix *)
  input_matrix <-
    for_rangeM 0 data_shards
      (fun i im =>
         id <- rd shard_ids i ;;
         if id <? data_shards
         then copy_cells im (i * data_shards) (matrix rs) (id * data_shards) data_shards
         else Ok im) input_matrix ;;
  (* Invert the submatrix *)
  let '(ok, input_matrix) := matrix_invert input_matrix data_shards in
  if ok =? 0 then Ok (0, h)
  else
    (* construct output matrix *)
    output_matrix <-
      for_rangeM 0 output_count
        (fun i om =>
           id <- rd shard_ids i ;;
           copy_cells om (i * data_shards) (matrix rs) ((data_shards + id) * data_shards)
             data_shards) output_matrix ;;
    let reconstruction_matrix := malloc (output_count * data_shards) junk_rec in
    let reconstruction_matrix :=
      matrix_multiply output_matrix input_matrix reconstruction_matrix output_count in
    (* Reconstruct missing shards *)
    m <- for_rangeM 0 output_count
           (fun i m =>
              dst <- rd_ptr shards i ;;
              s <- for_rangeM 0 data_shards
                     (fun j s =>
                        coeff <- rd reconstruction_matrix (i * data_shards + j) ;;
                        src <- rd_ptr shards j ;;
                        Ok (code_term dst src coeff shard_size s))
                     (true, m) ;;
              Ok (snd s))
           (bufs h) ;;
    Ok (1, mk_heap rs m).

End Engine.

(** ** The other matrix constructors of rs.c *)

Section Generators.

Variable T : gf_tables.

(** [vandermonde(rows, cols)] *)
Definition vandermonde (rows cols : Z) : list Z :=
  for_range 0 rows
    (fun i m =>
       for_range 0 cols
         (fun j m =>
            if (i =? 0) || (j =? 0)
            then aset m (i * cols + j) 1
            else aset m (i * cols + j) (aget (gf_exp T) (Z.rem (i * j) 255))) m)
    (zeros (rows * cols)).



End Generators.

(** * Block headers and spreading: blockaio.c *)

(** [struct header_block] *)
Record header_block : Type := mk_header {
  magic_number : list Z;          (* unsigned char magic_number[32] *)
  version_number : Z;
  volume_prefix_id : Z;
  primary_index_offset : Z;
  secondary_index_offset : Z;
  tail_offset : Z;
  shard_ids : list Z;             (* uint8_t shard_ids[8] *)
  header_crc32c : Z
}.

(** The loop of [get_k_blocks_in_stripe],
    [while (count > 1 && ids[count - 2] == ids[count - 1]) count--;],
    by recursion on [count]. *)
Fixpoint count_loop (ids : list Z) (count : nat) : nat :=
  match count with
  | Datatypes.S (Datatypes.S c as count') =>
      if aget ids (Z.of_nat c) =? aget ids (Z.of_nat count')
      then count_loop ids count'
      else count
  | _ => count
  end.

(** [get_k_blocks_in_stripe(header)] *)
Definition get_k_blocks_in_stripe (header : header_block) : Z :=
  Z.of_nat (count_loop (shard_ids header) 8).

(** [_mm_storeu_si128]: 16 bytes written at [a + off]. *)
Definition _mm_storeu_si128 (a : list Z) (off : Z) (v : list Z) : list Z :=
  for_range 0 16 (fun k a => aset a (off + k) (aget v k)) a.

(** A [size_t] holds 64 bits. *)
Definition size_t (v : Z) : Z := v mod 2 ^ 64.

(** One round of the loop of [spread_data]: the state is
    [(src, offset, dest)], [src] counted in bytes from [input]. *)
Definition spread_round (input : list Z) (k : Z) (s : Z * list Z * list (list Z))
  : Z * list Z * list (list Z) :=
  for_range 0 k
    (fun i s =>
       let '(src, offset, dest) := s in
       let data := _mm_loadu_si128 input src in
       let dest := upd_nth (Z.to_nat i) dest
                     (_mm_storeu_si128 (nth (Z.to_nat i) dest []) (aget offset i) data) in
       (src + 16, aset offset i (aget offset i + 16), dest)) s.

(** [while (input_size >= 16 * k) { round; input_size -= 16 * k; }];
    [None] when the fuel runs out before the loop ends. *)
Fixpoint spread_loop (fuel : nat) (input : list Z) (k input_size : Z)
    (s : Z * list Z * list (list Z)) : option (list (list Z)) :=
  if input_size >=? size_t (16 * k) then
    match fuel with
    | O => None
    | Datatypes.S f =>
        spread_loop f input k (size_t (input_size - 16 * k)) (spread_round input k s)
    end
  else Some (snd s).

(** [spread_data(input, output_blocks, input_size, k)]: the [k] output
    buffers afterwards. The buffers are pairwise distinct and distinct from
    [input]. *)
Definition spread_data (input : list Z) (output_blocks : list (list Z)) (input_size k : Z)
  : option (list (list Z)) :=
  let offset := for_range 0 k (fun i offset => aset offset i 0) (zeros k) in
  spread_loop (Z.to_nat input_size) input k input_size (0, offset, output_blocks).

(** One round of the loop of [unspread_data]: the state is
    [(dest, offset, output)], [dest] counted in bytes from [output]. *)
Definition unspread_round (src : list (list Z)) (k : Z) (s : Z * list Z * list Z)
  : Z * list Z * list Z :=
  for_range 0 k
    (fun i s =>
       let '(dest, offset, output) := s in
       let data := _mm_loadu_si128 (nth (Z.to_nat i) src []) (aget offset i) in
       let output := _mm_storeu_si128 output dest data in
       (dest + 16, aset offset i (aget offset i + 16), output)) s.

Fixpoint unspread_loop (fuel : nat) (src : list (list Z)) (k output_size : Z)
    (s : Z * list Z * list Z) : option (list Z) :=
  if output_size >=? size_t (16 * k) then
    match fuel with
    | O => None
    | Datatypes.S f =>
        unspread_loop f src k (size_t (output_size - 16 * k)) (unspread_round src k s)
    end
  else Some (snd s).

(** [unspread_data(input_blocks, output, output_size, k)]: the output buffer
    afterwards. *)
Definition unspread_data (input_blocks : list (list Z)) (output : list Z)
    (output_size k : Z) : option (list Z) :=
  let offset := for_range 0 k (fun i offset => aset offset i 0) (zeros k) in
  unspread_loop (Z.to_nat output_size) input_blocks k output_size (0, offset, output).

(** ** Block offsets: blockaio.c *)

(** The conversion of a [size_t] to the [int] a function returns. *)
Definition to_int (v : Z) : Z :=
  let w := v mod 2 ^ 32 in
  if w <? 2 ^ 31 then w else w - 2 ^ 32.

(** The search loop of [compute_offset_to_block],
    [for (i = 0; i < 8; i++) { if (ids[i] == shard_id) return offset; offset += 4096; }],
    followed by [abort()], which ends the process like a failed [assert]. *)
Fixpoint offset_loop (ids : list Z) (shard_id : Z) (cnt : nat) (i : Z) (offset : Z)
  : result Z :=
  match cnt with
  | O => Exit 134
  | Datatypes.S c =>
      if aget ids i =? shard_id then Ok (to_int offset)
      else offset_loop ids shard_id c (i + 1) (size_t (offset + 4096))
  end.

(** [compute_offset_to_block(header, stripe_number, shard_id)]. The [int]
    product [4096 * k * stripe_number] is taken exactly; it is added to the
    [size_t] offset. *)
Definition compute_offset_to_block (header : header_block) (stripe_number shard_id : Z)
  : result Z :=
  let offset := 0 in
  let offset := size_t (offset + 4096 * get_k_blocks_in_stripe header * stripe_number) in
  offset_loop (shard_ids header) shard_id 8 0 offset.

(** ** Checksums: blockaio.c *)

(** The CRC32 instruction works on the bit-reflected CRC-32C register
    (polynomial 0x11EDC6F41, reflected 0x82F63B78). One step of the
    register: *)
Definition crc32c_step (crc : Z) : Z :=
  Z.lxor (Z.shiftr crc 1) (if Z.odd crc then 0x82F63B78 else 0).

(** The instruction on an operand of [bits] bits: the operand is added to
    the register, which then takes [bits] steps. *)
Definition crc32_accumulate (bits : nat) (crc v : Z) : Z :=
  Nat.iter bits crc32c_step (Z.lxor crc v).

Definition _mm_crc32_u8 (crc v : Z) : Z := crc32_accumulate 8 crc v.
Definition _mm_crc32_u64 (crc v : Z) : Z := crc32_accumulate 64 crc v.

(** [~x] on a [uint32_t]. *)
Definition not32 (x : Z) : Z := Z.lxor x 0xFFFFFFFF.

(** [*(uint64_t* )(data + pos)] and [*(uint32_t* )(data + pos)], little-endian. *)
Definition load64 (data : list Z) (pos : Z) : Z :=
  fold_right (fun k acc => aget data (pos + k) + 256 * acc) 0 [0; 1; 2; 3; 4; 5; 6; 7].
Definition load32 (data : list Z) (pos : Z) : Z :=
  fold_right (fun k acc => aget data (pos + k) + 256 * acc) 0 [0; 1; 2; 3].

(** The three loops of [crc32c_sse42]; the state is [(crc, current, length)],
    [current] counted in bytes from [data], which lies at address [addr]. *)

(** [while (length && ((uintptr_t)current & 7))] *)
Fixpoint crc_head (fuel : nat) (addr : Z) (data : list Z) (s : Z * Z * Z) : Z * Z * Z :=
  match fuel with
  | O => s
  | Datatypes.S f =>
      let '(crc, current, length) := s in
      if negb (length =? 0) && negb (Z.land (addr + current) 7 =? 0)
      then crc_head f addr data (_mm_crc32_u8 crc (aget data current), current + 1, length - 1)
      else s
  end.

(** [while (length >= 8)]; the 64-bit result is stored in a [uint32_t]. *)
Fixpoint crc_words (fuel : nat) (data : list Z) (s : Z * Z * Z) : Z * Z * Z :=
  match fuel with
  | O => s
  | Datatypes.S f =>
      let '(crc, current, length) := s in
      if length >=? 8
      then crc_words f data
             (_mm_crc32_u64 crc (load64 data current) mod 2 ^ 32, current + 8, length - 8)
      else s
  end.

(** [while (length--)] *)
Fixpoint crc_tail (fuel : nat) (data : list Z) (s : Z * Z * Z) : Z * Z * Z :=
  match fuel with
  | O => s
  | Datatypes.S f =>
      let '(crc, current, length) := s in
      if negb (length =? 0)
      then crc_tail f data (_mm_crc32_u8 crc (aget data current), current + 1, length - 1)
      else s
  end.

(** [crc32c_sse42(data, length, previousCrc32)] for a buffer at address
    [addr]; no loop runs more than [length] rounds. *)
Definition crc32c_sse42 (addr : Z) (data : list Z) (length previousCrc32 : Z) : Z :=
  let crc := not32 previousCrc32 in
  let s := crc_head (Z.to_nat length) addr data (crc, 0, length) in
  let s := crc_words (Z.to_nat length) data s in
  let s := crc_tail (Z.to_nat length) data s in
  not32 (fst (fst s)).

(** [struct block] as it lies in memory: 4096 bytes, the checksum in the
    first four. *)
Definition block_checksum (blk : list Z) : Z := load32 blk 0.

(** [validate_block(block)] for a block at address [addr]. *)
Definition validate_block (addr : Z) (blk : list Z) : Z :=
  let computed_checksum := crc32c_sse42 (addr + 4) (skipn 4 blk) (4096 - 4) 0 in
  if negb (computed_checksum =? block_checksum blk) then 0 else 1.

(** * Definitions for the statements and the proofs *)

(** [init_gf(); return f();] *)
Definition after_init {A} (f : gf_tables -> A) : result A :=
  T <- init_gf ;; Ok (f T).

(** ** The tables [init_gf] computes *)

(** The exp and log tables, evaluated. *)
Definition exp_log_tables : list Z * list Z := Eval vm_compute in init_exp_log.

Definition EXP : list Z := fst exp_log_tables.
Definition LOG : list Z := snd exp_log_tables.

(** The value [gf_div_direct] returns when it returns. *)
Definition gf_div_value (a b : Z) : Z :=
  if a =? 0 then 0
  else aget EXP (Z.rem (aget LOG a - aget LOG b + (GF_SIZE - 1)) (GF_SIZE - 1)).

(** The cells of the two big tables after [init_gf], by flat index. *)
Definition mul_cell (k : Z) : Z := gf_mul_direct EXP LOG (k / GF_SIZE) (k mod GF_SIZE).
Definition div_cell (k : Z) : Z :=
  if k mod GF_SIZE =? 0 then 0 else gf_div_value (k / GF_SIZE) (k mod GF_SIZE).

Definition MULT : list Z := map mul_cell (zrange (Z.to_nat 65536)).
Definition DIVT : list Z := map div_cell (zrange (Z.to_nat 65536)).

Definition TABLES : gf_tables := mk_tables EXP LOG MULT DIVT.

(** Invariant of the table loops: cells below [bound] are final, the
    division table is still zero from [bound] on. *)
Definition tables_inv (bound : Z) (s : list Z * list Z) : Prop :=
  alen (fst s) = 65536 /\ alen (snd s) = 65536 /\
  (forall k, 0 <= k < bound -> aget (fst s) k = mul_cell k /\ aget (snd s) k = div_cell k) /\
  (forall k, bound <= k -> aget (snd s) k = 0).

(** ** Field elements *)

Definition byte (x : Z) : Prop := 0 <= x < 256.

(** Multiplication by a fixed byte is linear over GF(2): the product is the
    XOR of the products with the powers of two present in the other factor. *)
Definition sel (p : bool) (v : Z) : Z := if p then v else 0.

Fixpoint lin_sum (basis : list Z) (k : Z) (x : Z) : Z :=
  match basis with
  | [] => 0
  | v :: r => Z.lxor (sel (Z.testbit x k) v) (lin_sum r (k + 1) x)
  end.

Definition mul_basis (a : Z) : list Z :=
  map (fun k => gf_mul_direct EXP LOG a (2 ^ k)) [0; 1; 2; 3; 4; 5; 6; 7].

(** The reciprocal as [matrix_invert] and [cauchy] read it:
    [gf_div_table[256*1 + a]]. *)
Definition gf_inv (a : Z) : Z := aget (gf_div_table TABLES) (256 * 1 + a).

(** The laws the matrix engine needs of a set of tables. *)
Record gf_field (T : gf_tables) : Prop := mk_field {
  fld_byte : forall a b, byte a -> byte b -> byte (gf_mul T a b);
  fld_comm : forall a b, byte a -> byte b -> gf_mul T a b = gf_mul T b a;
  fld_assoc : forall a b c, byte a -> byte b -> byte c ->
      gf_mul T (gf_mul T a b) c = gf_mul T a (gf_mul T b c);
  fld_lxor_r : forall a b c, byte a -> byte b -> byte c ->
      gf_mul T a (Z.lxor b c) = Z.lxor (gf_mul T a b) (gf_mul T a c);
  fld_1_l : forall a, byte a -> gf_mul T 1 a = a;
  fld_0_l : forall a, byte a -> gf_mul T 0 a = 0;
  fld_inv : forall a, byte a -> a <> 0 ->
      byte (aget (gf_div_table T) (256 * 1 + a)) /\
      aget (gf_div_table T) (256 * 1 + a) <> 0 /\
      gf_mul T a (aget (gf_div_table T) (256 * 1 + a)) = 1;
  fld_div_byte : forall k, byte (aget (gf_div_table T) k)
}.

(** ** Sums and matrices over the field *)

(** The XOR of [f 0 .. f (n-1)], accumulated as the C loops do. *)
Definition xsum (n : Z) (f : Z -> Z) : Z :=
  for_range 0 n (fun k acc => Z.lxor acc (f k)) 0.

(** Cell [(r, c)] of a matrix with [n] columns. *)
Definition ent (n : Z) (m : list Z) (r c : Z) : Z := aget m (r * n + c).

Definition delta (r c : Z) : Z := if r =? c then 1 else 0.

Section InvertDefs.

Variable T : gf_tables.
Variable n : Z.

Definition in_range (r : Z) : Prop := 0 <= r < n.

(** The loop bodies of [matrix_invert], on one array. *)
Definition swap1 (i j k : Z) (m : list Z) : list Z :=
  aset (aset m (i * n + k) (aget m (j * n + k))) (j * n + k) (aget m (i * n + k)).

Definition scale1 (i t k : Z) (m : list Z) : list Z :=
  aset m (i * n + k) (gf_mul T (aget m (i * n + k)) t).

Definition elim1 (i j t k : Z) (m : list Z) : list Z :=
  aset m (j * n + k) (Z.lxor (aget m (j * n + k)) (gf_mul T t (aget m (i * n + k)))).

Definition vec (x : Z -> Z) : Prop := forall k, in_range k -> byte (x k).

Definition bytes_mat (m : list Z) : Prop :=
  alen m = n * n /\ forall r c, in_range r -> in_range c -> byte (ent n m r c).

(** Row [r] of [m] applied to the vector [x]. *)
Definition dotr (m : list Z) (r : Z) (x : Z -> Z) : Z :=
  xsum n (fun c => gf_mul T (ent n m r c) (x c)).

Definition WF (s : list Z * list Z) : Prop := bytes_mat (fst s) /\ bytes_mat (snd s).

(** [x] and [y] satisfy [matrix . x = inverse . y]. *)
Definition Sol (s : list Z * list Z) (x y : Z -> Z) : Prop :=
  forall r, in_range r -> dotr (fst s) r x = dotr (snd s) r y.

(** The first [i] columns of [m] are those of the identity. *)
Definition Cols (i : Z) (m : list Z) : Prop :=
  forall r c, in_range r -> 0 <= c < i -> ent n m r c = delta r c.

(** Every solution of the current system solves the initial system [s0]. *)
Definition Back (s0 s : list Z * list Z) : Prop :=
  forall x y, vec x -> vec y -> Sol s x y -> Sol s0 x y.

Definition Inv (s0 : list Z * list Z) (i : Z) (s : list Z * list Z) : Prop :=
  WF s /\ Cols i (fst s) /\ Back s0 s.

End InvertDefs.

(** ** Test data of the repository *)

(** The coder of the repository's tests: [rs_new(4, 2)]. *)
Definition rs_4_2 : reed_solomon :=
  mk_rs 4 2 6
    [1; 0; 0; 0; 0; 1; 0; 0; 0; 0; 1; 0; 0; 0; 0; 1; 192; 11; 146; 203; 11; 192; 203; 146]
    [192; 11; 146; 203; 11; 192; 203; 146].

(** The data shards of the repository's decode test, with room for the two
    parity shards. *)
Definition test_shards : mem :=
  [[0; 1; 2; 3]; [4; 5; 6; 7]; [8; 9; 10; 11]; [12; 13; 14; 15]; [0; 0; 0; 0]; [0; 0; 0; 0]].

(** [rs_new(K, M); rs_encode(shards[0..K), shards[K..K+M))], erase the
    flagged shards with [memset(.., 0, ..)], then [rs_decode]. *)
Definition encode_erase_decode (T : gf_tables) (junk_sub junk_valid : Z -> Z)
    (K M : Z) (contents : mem) (erasures : list Z) (erasure_count shard_size : Z)
  : result (Z * heap) :=
  r <- rs_new T K M ;;
  match r with
  | None => Exit 1
  | Some rs =>
      let ps := seq 0 (Z.to_nat (K + M)) in
      let h := rs_encode T (mk_heap rs contents)
                 (firstn (Z.to_nat K) ps) (skipn (Z.to_nat K) ps) shard_size in
      let m := for_range 0 (K + M)
                 (fun i m => if aget erasures i =? 1
                             then memset m (Z.to_nat i) 0 shard_size else m) (bufs h) in
      rs_decode T junk_sub junk_valid (mk_heap rs m) ps erasures erasure_count shard_size
  end.

(** ** Spreading *)

Section SpreadDefs.

Variable k q : Z.
Variable input : list Z.
Variable dest0 : list (list Z).

(** The place in the logical buffer of byte [j] of shard [i]. *)
Definition logical (i j : Z) : Z := 16 * k * (j / 16) + 16 * i + j mod 16.

(** The state of [spread_data] after [t] rounds and [i] blocks of the next. *)
Definition spread_inv (t i : Z) (s : Z * list Z * list (list Z)) : Prop :=
  let '(src, offset, dest) := s in
  src = 16 * k * t + 16 * i /\
  alen offset = k /\
  (forall i', 0 <= i' < k -> aget offset i' = if i' <? i then 16 * (t + 1) else 16 * t) /\
  length dest = length dest0 /\
  (forall i', 0 <= i' < k -> alen (nth (Z.to_nat i') dest []) = 16 * q) /\
  (forall i' j, 0 <= i' < k -> 0 <= j < (if i' <? i then 16 * (t + 1) else 16 * t) ->
     aget (nth (Z.to_nat i') dest []) j = aget input (logical i' j)).

(** The state of [unspread_data] after [t] rounds and [i] blocks of the
    next. *)
Definition unspread_inv (t i : Z) (s : Z * list Z * list Z) : Prop :=
  let '(dest, offset, output) := s in
  dest = 16 * k * t + 16 * i /\
  alen offset = k /\
  (forall i', 0 <= i' < k -> aget offset i' = if i' <? i then 16 * (t + 1) else 16 * t) /\
  alen output = 16 * k * q /\
  (forall j, 0 <= j < 16 * k * t + 16 * i -> aget output j = aget input j).

End SpreadDefs.

(** ** Solutions carried forward by [matrix_invert] *)

(** Every solution of the initial system [s0] solves the current one. *)
Definition Fwd (T : gf_tables) (n : Z) (s0 s : list Z * list Z) : Prop :=
  forall x y, vec n x -> vec n y -> Sol T n s0 x y -> Sol T n s x y.

(** A matrix of [rows] rows and [cols] columns whose cells are bytes. *)
Definition byte_matrix (rows cols : Z) (m : list Z) : Prop :=
  alen m = rows * cols /\ forall k, 0 <= k < rows * cols -> 0 <= aget m k <= 255.

(** The vector [x] is in the kernel of the [n] x [n] matrix [m]. *)
Definition in_kernel (T : gf_tables) (n : Z) (m : list Z) (x : Z -> Z) : Prop :=
  forall r, 0 <= r < n -> xsum n (fun c => gf_mul T (aget m (r * n + c)) (x c)) = 0.

(** ** What a bulk kernel leaves in memory *)

(** [m'] is [m] after [dst[i] = g(dst[i], src[i])] for [i < sz]: nothing
    else has changed. *)
Definition bytewise (g : Z -> Z -> Z) (m : mem) (dst src : ptr) (sz : Z) (m' : mem) : Prop :=
  length m' = length m /\
  (forall p, p <> dst -> buf m' p = buf m p) /\
  alen (buf m' dst) = alen (buf m dst) /\
  (forall i, 0 <= i < sz -> loadb m' dst i = g (loadb m dst i) (loadb m src i)) /\
  (forall i, sz <= i -> loadb m' dst i = loadb m dst i).

(** [m'] differs from [m] at most in the buffer [dst], which keeps its size. *)
Definition only_writes (dst : ptr) (m m' : mem) : Prop :=
  length m' = length m /\
  (forall p, p <> dst -> buf m' p = buf m p) /\
  alen (buf m' dst) = alen (buf m dst).

(** ** The loops of [rs_encode] *)

(** [ptrs[i]] for an array of shard pointers. *)
Definition shard_ptr (ptrs : list ptr) (i : Z) : ptr := nth (Z.to_nat i) ptrs 0%nat.

(** The coefficient of data shard [j] in parity shard [i]. *)
Definition parity_coeff (rs : reed_solomon) (i j : Z) : Z :=
  aget (matrix rs) ((data_shards rs + i) * data_shards rs + j).

Section EncodeDefs.

Variable T : gf_tables.
Variable rs : reed_solomon.
Variable data parity : list ptr.
Variable m0 : mem.
Variable sz : Z.

(** The inner loop of [rs_encode] for parity shard [i]. *)
Definition encode_row (i : Z) (m : mem) : mem :=
  snd (for_range 0 (data_shards rs)
         (fun j s =>
            let coeff := aget (matrix rs) ((data_shards rs + i) * data_shards rs + j) in
            code_term T (nth (Z.to_nat i) parity 0%nat) (nth (Z.to_nat j) data 0%nat)
              coeff sz s)
         (true, m)).

(** The state of [rs_encode] after the first [i] parity shards: only they
    have been written. *)
Definition encoded (i : Z) (m : mem) : Prop :=
  length m = length m0 /\
  (forall p, alen (buf m p) = alen (buf m0 p)) /\
  (forall p, (forall i', 0 <= i' < i -> p <> shard_ptr parity i') -> buf m p = buf m0 p).

(** With shards below 64 bytes, each of the first [i] parity shards is the
    product of its matrix row with the data, unless the row is zero and the
    shard was never written. *)
Definition encoded_rows (i : Z) (m : mem) : Prop :=
  encoded i m /\
  forall i', 0 <= i' < i ->
    ((forall j, 0 <= j < data_shards rs -> parity_coeff rs i' j = 0) ->
       buf m (shard_ptr parity i') = buf m0 (shard_ptr parity i')) /\
    ((exists j, 0 <= j < data_shards rs /\ parity_coeff rs i' j <> 0) ->
       forall b, 0 <= b < sz ->
         loadb m (shard_ptr parity i') b
         = xsum (data_shards rs)
             (fun j => gf_mul T (parity_coeff rs i' j) (loadb m0 (shard_ptr data j) b))).

End EncodeDefs.

(** ** The loops of [rs_decode] *)

(** The number of shards among [i .. i + cnt - 1] whose flag is 0. *)
Fixpoint survivors (erasures : list Z) (i : Z) (cnt : nat) : Z :=
  match cnt with
  | O => 0
  | Datatypes.S c => (if aget erasures i =? 0 then 1 else 0) + survivors erasures (i + 1) c
  end.

Section DecodeDefs.

Variable T : gf_tables.
Variable rs : reed_solomon.
Variable shards : list ptr.
Variable erasures : list Z.
Variable m0 : mem.
Variable sz : Z.

(** The state [(submatrix, valid_shards, valid_count)] of the survivor scan
    before shard [i]: row [j] of [submatrix] is the row of the generator
    matrix of the unflagged shard [valid_shards[j]]. *)
Definition scanned (i : Z) (s : list Z * list Z * Z) : Prop :=
  let '(sub, vs, vc) := s in
  alen sub = data_shards rs * data_shards rs /\
  alen vs = data_shards rs /\
  0 <= vc <= data_shards rs /\
  forall j, 0 <= j < vc ->
    0 <= aget vs j < i /\ aget erasures (aget vs j) = 0 /\
    forall c, 0 <= c < data_shards rs ->
      aget sub (j * data_shards rs + c) = aget (matrix rs) (aget vs j * data_shards rs + c).

(** The inner loop of the reconstruction for the flagged shard [i]. *)
Definition rebuild_row (sub vs : list Z) (i : Z) (dst : ptr) (m : mem) : result mem :=
  for_rangeM 0 (data_shards rs)
    (fun j m =>
       v <- rd vs j ;;
       shard <- rd_ptr shards v ;;
       coeff <- rd sub (i * data_shards rs + j) ;;
       Ok (mul_add1_avx2 T m dst shard coeff sz)) m.

(** One round of the reconstruction loop. *)
Definition rebuild_step (sub vs : list Z) (i : Z) (m : mem) : result mem :=
  e <- rd erasures i ;;
  if e =? 1 then
    dst <- rd_ptr shards i ;;
    let m := memset m dst 0 sz in
    for_rangeM 0 (data_shards rs)
      (fun j m =>
         v <- rd vs j ;;
         shard <- rd_ptr shards v ;;
         coeff <- rd sub (i * data_shards rs + j) ;;
         Ok (mul_add1_avx2 T m dst shard coeff sz)) m
  else Ok m.

(** The memory after the reconstruction of the flagged shards below [i],
    with shards below 64 bytes: only they have been written, and each holds
    its row of [sub] applied to the survivors. *)
Definition rebuilt (sub vs : list Z) (i : Z) (m : mem) : Prop :=
  length m = length m0 /\
  (forall p, alen (buf m p) = alen (buf m0 p)) /\
  (forall p, (forall i', 0 <= i' < i -> aget erasures i' = 1 -> p <> shard_ptr shards i') ->
     buf m p = buf m0 p) /\
  forall i', 0 <= i' < i -> aget erasures i' = 1 ->
    forall b, 0 <= b < sz ->
      loadb m (shard_ptr shards i') b
      = xsum (data_shards rs)
          (fun j => gf_mul T (aget sub (i' * data_shards rs + j))
                      (loadb m0 (shard_ptr shards (aget vs j)) b)).

End DecodeDefs.

(** ** Erasing shards *)

(** The erasure of the flagged shards in [encode_erase_decode]. *)
Definition erase_flagged (erasures : list Z) (total sz : Z) (m : mem) : mem :=
  for_range 0 total
    (fun i m => if aget erasures i =? 1 then memset m (Z.to_nat i) 0 sz else m) m.

(** ** Test data *)


(** The bytes of the data shards of [test_shards]. *)
Definition test_data (c b : Z) : Z := loadb test_shards (Z.to_nat c) b.

(** [i] is the first index of [ids], among the eight, that holds [v]. *)
Definition first_index (ids : list Z) (v i : Z) : Prop :=
  0 <= i < 8 /\ aget ids i = v /\ forall j, 0 <= j < i -> aget ids j <> v.

(** [x] fits in [n] bits. *)
Definition word (n x : Z) : Prop := 0 <= x < 2 ^ n.

(** The little-endian value of a list of bytes. *)
Definition le_value (bs : list Z) : Z := fold_right (fun b acc => b + 256 * acc) 0 bs.

(** The checksum register after the bytes [bs], taken one at a time. *)
Definition crc32c_bytes (crc : Z) (bs : list Z) : Z := fold_left _mm_crc32_u8 bs crc.

(** The state of [crc32c_sse42] between two rounds of any of its loops:
    [current] bytes of the [L] are in the register. *)
Definition crc_inv (data : list Z) (c0 L : Z) (s : Z * Z * Z) : Prop :=
  let '(crc, current, len) := s in
  0 <= current /\ 0 <= len /\ current + len = L /\
  crc = crc32c_bytes c0 (firstn (Z.to_nat current) data).

(** The state of [unspread_data] after [t] rounds and [i] blocks of the
    next, for an output buffer that may be longer than the [16 * k * q]
    bytes the rounds write. *)
Definition unspread_tail_inv (k q : Z) (input output0 : list Z) (t i : Z)
    (s : Z * list Z * list Z) : Prop :=
  let '(dest, offset, output) := s in
  dest = 16 * k * t + 16 * i /\
  alen offset = k /\
  (forall i', 0 <= i' < k -> aget offset i' = if i' <? i then 16 * (t + 1) else 16 * t) /\
  alen output = alen output0 /\
  (forall j, 0 <= j < 16 * k * t + 16 * i -> aget output j = aget input j) /\
  (forall j, 16 * k * q <= j -> aget output j = aget output0 j).
(** * Array and loop lemmas *)

Lemma upd_nth_length {A} (l : list A) : forall n v, length (upd_nth n l v) = length l.
Proof. induction l as [|h t IH]; intros [|n] v; simpl; auto. Qed.

Lemma nth_upd_nth_same {A} (l : list A) : forall n v d,
  (n < length l)%nat -> nth n (upd_nth n l v) d = v.
Proof.
  induction l as [|h t IH]; intros [|n] v d Hn; simpl in *; try lia; auto.
  apply IH; lia.
Qed.

Lemma nth_upd_nth_other {A} (l : list A) : forall n m v d,
  n <> m -> nth m (upd_nth n l v) d = nth m l d.
Proof.
  induction l as [|h t IH]; intros [|n] [|m] v d Hnm; simpl; auto; try congruence.
Qed.

Lemma alen_aset a i v : alen (aset a i v) = alen a.
Proof.
  unfold alen, aset. destruct (i <? 0); auto. now rewrite upd_nth_length.
Qed.

Lemma alen_nonneg a : 0 <= alen a.
Proof. unfold alen; lia. Qed.

Lemma aget_aset_same a i v : 0 <= i < alen a -> aget (aset a i v) i = v.
Proof.
  unfold alen, aget, aset. intros Hi.
  destruct (Z.ltb_spec i 0); [lia|]. apply nth_upd_nth_same. lia.
Qed.

Lemma aget_aset_other a i j v : i <> j -> aget (aset a i v) j = aget a j.
Proof.
  unfold aget, aset. intros Hij.
  destruct (Z.ltb_spec j 0); auto.
  destruct (Z.ltb_spec i 0); auto.
  apply nth_upd_nth_other. lia.
Qed.

Lemma aget_aset a i j v :
  0 <= i < alen a -> aget (aset a i v) j = if i =? j then v else aget a j.
Proof.
  intros Hi. destruct (Z.eqb_spec i j) as [->|Hne].
  - now apply aget_aset_same.
  - now apply aget_aset_other.
Qed.

Lemma alen_zeros n : 0 <= n -> alen (zeros n) = n.
Proof. intros. unfold alen, zeros. rewrite repeat_length. lia. Qed.

Lemma aget_zeros n k : aget (zeros n) k = 0.
Proof.
  unfold aget, zeros. destruct (k <? 0); auto.
  generalize (Z.to_nat k) as m. generalize (Z.to_nat n) as c.
  induction c; intros [|m]; simpl; auto.
Qed.

Lemma aget_out a k : alen a <= k -> aget a k = 0.
Proof.
  unfold aget, alen. intros. destruct (Z.ltb_spec k 0); auto.
  apply nth_overflow. lia.
Qed.

(** Two arrays of the same length with the same cells are equal. *)
Lemma array_ext a b :
  alen a = alen b -> (forall k, 0 <= k < alen a -> aget a k = aget b k) -> a = b.
Proof.
  unfold alen, aget. intros Hl H.
  apply nth_ext with (d := 0) (d' := 0); [lia|].
  intros n Hn. specialize (H (Z.of_nat n)).
  destruct (Z.ltb_spec (Z.of_nat n) 0); [lia|].
  rewrite Nat2Z.id in H. apply H. lia.
Qed.

Lemma for_loop_inv {S} (P : Z -> S -> Prop) (body : Z -> S -> S) :
  forall cnt i s,
    P i s ->
    (forall k s, i <= k < i + Z.of_nat cnt -> P k s -> P (k + 1) (body k s)) ->
    P (i + Z.of_nat cnt) (for_loop cnt i body s).
Proof.
  induction cnt as [|c IH]; intros i s H0 Hstep; simpl for_loop.
  - now replace (i + Z.of_nat 0) with i by lia.
  - replace (i + Z.of_nat (Datatypes.S c)) with ((i + 1) + Z.of_nat c) by lia.
    apply IH.
    + apply Hstep; [lia | exact H0].
    + intros k s' Hk. apply Hstep. lia.
Qed.

(** The invariant rule for [for (i = lo; i < hi; i++)]. *)
Lemma for_range_inv {S} (P : Z -> S -> Prop) lo hi (body : Z -> S -> S) s :
  lo <= hi ->
  P lo s ->
  (forall k s, lo <= k < hi -> P k s -> P (k + 1) (body k s)) ->
  P hi (for_range lo hi body s).
Proof.
  intros Hle H0 Hstep. unfold for_range.
  replace hi with (lo + Z.of_nat (Z.to_nat (hi - lo))) at 1 by lia.
  apply for_loop_inv; auto. intros k s' Hk. apply Hstep. lia.
Qed.

Lemma for_loopM_inv {S} (P : Z -> S -> Prop) (body : Z -> S -> result S) :
  forall cnt i s,
    P i s ->
    (forall k s, i <= k < i + Z.of_nat cnt -> P k s ->
                 exists s', body k s = Ok s' /\ P (k + 1) s') ->
    exists s', for_loopM cnt i body s = Ok s' /\ P (i + Z.of_nat cnt) s'.
Proof.
  induction cnt as [|c IH]; intros i s H0 Hstep; simpl for_loopM.
  - exists s. split; auto. now replace (i + Z.of_nat 0) with i by lia.
  - destruct (Hstep i s) as (s1 & E1 & P1); [lia | exact H0 |].
    rewrite E1. cbn [bind].
    replace (i + Z.of_nat (Datatypes.S c)) with ((i + 1) + Z.of_nat c) by lia.
    apply IH; auto. intros k s' Hk. apply Hstep. lia.
Qed.

Lemma for_rangeM_inv {S} (P : Z -> S -> Prop) lo hi (body : Z -> S -> result S) s :
  lo <= hi ->
  P lo s ->
  (forall k s, lo <= k < hi -> P k s -> exists s', body k s = Ok s' /\ P (k + 1) s') ->
  exists s', for_rangeM lo hi body s = Ok s' /\ P hi s'.
Proof.
  intros Hle H0 Hstep. unfold for_rangeM.
  destruct (for_loopM_inv P body (Z.to_nat (hi - lo)) lo s H0) as (s' & E & HP).
  - intros k s' Hk. apply Hstep. lia.
  - exists s'. split; auto. now replace hi with (lo + Z.of_nat (Z.to_nat (hi - lo))) by lia.
Qed.

Lemma length_zseq cnt : forall start, length (zseq cnt start) = cnt.
Proof. induction cnt; intros; simpl; auto. Qed.

Lemma nth_zseq cnt : forall start k d,
  (k < cnt)%nat -> nth k (zseq cnt start) d = start + Z.of_nat k.
Proof.
  induction cnt as [|c IH]; intros start [|k] d Hk; simpl zseq; try lia.
  - simpl. lia.
  - cbn [nth]. rewrite IH by lia. lia.
Qed.

Lemma in_zrange n k : 0 <= k < Z.of_nat n -> In k (zrange n).
Proof.
  intros Hk. unfold zrange.
  replace k with (nth (Z.to_nat k) (zseq n 0) 0) by (rewrite nth_zseq; lia).
  apply nth_In. rewrite length_zseq. lia.
Qed.

Lemma forallb_zrange (f : Z -> bool) n :
  forallb f (zrange n) = true -> forall k, 0 <= k < Z.of_nat n -> f k = true.
Proof.
  intros H k Hk. rewrite forallb_forall in H. apply H. now apply in_zrange.
Qed.

Lemma alen_map_zrange f n : alen (map f (zrange n)) = Z.of_nat n.
Proof. unfold alen, zrange. now rewrite length_map, length_zseq. Qed.

Lemma aget_map_zrange f n k :
  0 <= k < Z.of_nat n -> aget (map f (zrange n)) k = f k.
Proof.
  intros Hk. unfold aget, zrange. destruct (Z.ltb_spec k 0); [lia|].
  rewrite nth_indep with (d' := f 0) by (rewrite length_map, length_zseq; lia).
  rewrite map_nth, nth_zseq by lia. f_equal. lia.
Qed.

Lemma gf_div_direct_value a b : b <> 0 -> gf_div_direct EXP LOG a b = Ok (gf_div_value a b).
Proof.
  intros Hb. unfold gf_div_direct, gf_div_value.
  destruct (a =? 0); auto. destruct (Z.eqb_spec b 0); [contradiction | reflexivity].
Qed.

Lemma init_tables_body_inv i j s :
  0 <= i < 256 -> 0 <= j < 256 ->
  tables_inv (i * 256 + j) s ->
  exists s', init_tables_body EXP LOG i j s = Ok s' /\ tables_inv (i * 256 + (j + 1)) s'.
Proof.
  intros Hi Hj (HlM & HlD & Hlow & Hhigh). destruct s as [MT DT]. simpl in *.
  unfold init_tables_body, GF_SIZE.
  assert (Hdiv : (i * 256 + j) / 256 = i).
  { rewrite Z.add_comm, Z.div_add by lia. rewrite Z.div_small by lia. lia. }
  assert (Hmod : (i * 256 + j) mod 256 = j).
  { rewrite Z.add_comm, Z.mod_add by lia. apply Z.mod_small; lia. }
  assert (Hmul : mul_cell (i * 256 + j) = gf_mul_direct EXP LOG i j).
  { unfold mul_cell, GF_SIZE. now rewrite Hdiv, Hmod. }
  destruct (Z.eqb_spec j 0) as [Hj0|Hj0].
  - eexists; split; [reflexivity|]. unfold tables_inv; simpl.
    rewrite alen_aset. repeat split; auto.
    + destruct (Z.eq_dec k (i * 256 + j)) as [->|Hne].
      * rewrite aget_aset_same by lia. auto.
      * rewrite aget_aset_other by lia. apply Hlow; lia.
    + destruct (Z.eq_dec k (i * 256 + j)) as [->|Hne].
      * rewrite Hhigh by lia. unfold div_cell, GF_SIZE. rewrite Hmod, Hj0. reflexivity.
      * apply Hlow; lia.
    + intros k Hk. apply Hhigh; lia.
  - rewrite gf_div_direct_value by auto. simpl.
    eexists; split; [reflexivity|]. unfold tables_inv; simpl.
    rewrite !alen_aset. repeat split; auto.
    + destruct (Z.eq_dec k (i * 256 + j)) as [->|Hne].
      * rewrite aget_aset_same by lia. auto.
      * rewrite aget_aset_other by lia. apply Hlow; lia.
    + destruct (Z.eq_dec k (i * 256 + j)) as [->|Hne].
      * rewrite aget_aset_same by lia. unfold div_cell, GF_SIZE. rewrite Hmod, Hdiv.
        destruct (Z.eqb_spec j 0); [contradiction | reflexivity].
      * rewrite aget_aset_other by lia. apply Hlow; lia.
    + intros k Hk. rewrite aget_aset_other by lia. apply Hhigh; lia.
Qed.

Lemma init_exp_log_eq : init_exp_log = (EXP, LOG).
Proof. vm_compute. reflexivity. Qed.

(** [init_gf] returns, and its tables are [TABLES]. *)
Lemma init_gf_tables : init_gf = Ok TABLES.
Proof.
  unfold init_gf. rewrite init_exp_log_eq.
  destruct (for_rangeM_inv (fun i s => tables_inv (i * 256) s) 0 GF_SIZE
              (fun i s => for_rangeM 0 GF_SIZE (init_tables_body EXP LOG i) s)
              (zeros (GF_SIZE * GF_SIZE), zeros (GF_SIZE * GF_SIZE)))
    as (s & Es & HlM & HlD & Hlow & _).
  - unfold GF_SIZE; lia.
  - unfold tables_inv, GF_SIZE; simpl. rewrite !alen_zeros by lia.
    repeat split; auto; try lia. intros. apply aget_zeros.
  - intros i s Hi Hinv. unfold GF_SIZE in Hi.
    destruct (for_rangeM_inv (fun j s => tables_inv (i * 256 + j) s) 0 GF_SIZE
                (init_tables_body EXP LOG i) s) as (s' & Es' & Hinv').
    + unfold GF_SIZE; lia.
    + now rewrite Z.add_0_r.
    + intros j s1 Hj. unfold GF_SIZE in Hj. now apply init_tables_body_inv.
    + exists s'. split; auto. unfold GF_SIZE in Hinv'.
      now replace ((i + 1) * 256) with (i * 256 + 256) by lia.
  - rewrite Es. cbn [bind]. unfold TABLES, MULT, DIVT. f_equal. f_equal.
    + apply array_ext.
      * rewrite alen_map_zrange. lia.
      * intros k Hk. rewrite aget_map_zrange by lia. apply Hlow. unfold GF_SIZE. lia.
    + apply array_ext.
      * rewrite alen_map_zrange. lia.
      * intros k Hk. rewrite aget_map_zrange by lia. apply Hlow. unfold GF_SIZE. lia.
Qed.

(** * Field laws of the tables *)

Lemma forallb_bytes (f : Z -> bool) :
  forallb f (zrange 256) = true -> forall a, byte a -> f a = true.
Proof. intros H a Ha. apply (forallb_zrange f 256 H). unfold byte in Ha. lia. Qed.

Lemma forallb_bytes2 (f : Z -> Z -> bool) :
  forallb (fun a => forallb (f a) (zrange 256)) (zrange 256) = true ->
  forall a b, byte a -> byte b -> f a b = true.
Proof.
  intros H a b Ha Hb.
  apply (forallb_bytes (f a)); auto.
  apply (forallb_bytes (fun a => forallb (f a) (zrange 256))); auto.
Qed.

Lemma flat_index_div a b : byte b -> (a * GF_SIZE + b) / GF_SIZE = a.
Proof.
  unfold byte, GF_SIZE. intros. rewrite Z.add_comm, Z.div_add by lia.
  rewrite Z.div_small by lia. lia.
Qed.

Lemma flat_index_mod a b : byte b -> (a * GF_SIZE + b) mod GF_SIZE = b.
Proof.
  unfold byte, GF_SIZE. intros. rewrite Z.add_comm, Z.mod_add by lia.
  apply Z.mod_small; lia.
Qed.

(** After [init_gf], [gf_mul] agrees with [gf_mul_direct]. *)
Lemma gf_mul_direct_eq a b :
  byte a -> byte b -> gf_mul TABLES a b = gf_mul_direct EXP LOG a b.
Proof.
  intros Ha Hb. unfold gf_mul. change (gf_mul_table TABLES) with MULT. unfold MULT.
  rewrite aget_map_zrange by (unfold byte, GF_SIZE in *; lia).
  unfold mul_cell. now rewrite flat_index_div, flat_index_mod.
Qed.

(** After [init_gf], [gf_div] agrees with [gf_div_direct] off column 0, and
    column 0 still holds its initial zero. *)
Lemma gf_div_direct_eq a b :
  byte a -> byte b ->
  gf_div TABLES a b = if b =? 0 then 0 else gf_div_value a b.
Proof.
  intros Ha Hb. unfold gf_div. change (gf_div_table TABLES) with DIVT. unfold DIVT.
  rewrite aget_map_zrange by (unfold byte, GF_SIZE in *; lia).
  unfold div_cell. now rewrite flat_index_div, flat_index_mod.
Qed.

Lemma DIVT_cells k : 0 <= k < 65536 -> aget DIVT k = div_cell k.
Proof. intros Hk. unfold DIVT. rewrite aget_map_zrange by lia. reflexivity. Qed.

Lemma alen_DIVT : alen DIVT = 65536.
Proof. unfold DIVT. rewrite alen_map_zrange. lia. Qed.

Global Opaque MULT DIVT.

Lemma log_exp_inverse a :
  1 <= a < 256 -> 0 <= aget LOG a < 255 /\ aget EXP (aget LOG a) = a.
Proof.
  intros Ha.
  assert (H : forallb (fun a => (a =? 0) ||
                ((0 <=? aget LOG a) && (aget LOG a <? 255) && (aget EXP (aget LOG a) =? a)))
                (zrange 256) = true) by (vm_compute; reflexivity).
  apply forallb_bytes with (a := a) in H; [|unfold byte; lia].
  destruct (Z.eqb_spec a 0); [lia|]. simpl in H.
  apply andb_prop in H as [H H3]. apply andb_prop in H as [H1 H2]. lia.
Qed.

Lemma exp_log_inverse k :
  0 <= k < 255 -> 1 <= aget EXP k < 256 /\ aget LOG (aget EXP k) = k.
Proof.
  intros Hk.
  assert (H : forallb (fun k => (1 <=? aget EXP k) && (aget EXP k <? 256)
                                && (aget LOG (aget EXP k) =? k))
                (zrange 255) = true) by (vm_compute; reflexivity).
  apply forallb_zrange with (k := k) in H; [|lia].
  apply andb_prop in H as [H H3]. apply andb_prop in H as [H1 H2]. lia.
Qed.

(** Multiplication of nonzero bytes adds logarithms modulo 255. *)
Lemma gf_mul_direct_nonzero a b :
  1 <= a < 256 -> 1 <= b < 256 ->
  gf_mul_direct EXP LOG a b = aget EXP ((aget LOG a + aget LOG b) mod 255) /\
  1 <= gf_mul_direct EXP LOG a b < 256 /\
  aget LOG (gf_mul_direct EXP LOG a b) = (aget LOG a + aget LOG b) mod 255.
Proof.
  intros Ha Hb.
  destruct (log_exp_inverse a Ha) as [La _], (log_exp_inverse b Hb) as [Lb _].
  assert (E : gf_mul_direct EXP LOG a b = aget EXP ((aget LOG a + aget LOG b) mod 255)).
  { unfold gf_mul_direct, GF_SIZE.
    destruct (Z.eqb_spec a 0); [lia|]. destruct (Z.eqb_spec b 0); [lia|]. simpl.
    change (256 - 1) with 255. rewrite Z.rem_mod_nonneg by lia. reflexivity. }
  rewrite E. split; auto.
  apply exp_log_inverse. apply Z.mod_pos_bound. lia.
Qed.

(** Equations between XORs, bit by bit. *)
Ltac xor_bits :=
  apply Z.bits_inj'; intros ? ?; rewrite ?Z.lxor_spec, ?Z.bits_0;
  repeat match goal with |- context [Z.testbit ?x ?n] => destruct (Z.testbit x n) end;
  reflexivity.

Section FieldLaws.

Local Infix "*g" := (gf_mul TABLES) (at level 40, left associativity).

Lemma gf_mul_byte a b : byte a -> byte b -> byte (a *g b).
Proof.
  intros Ha Hb. rewrite gf_mul_direct_eq by auto.
  destruct (Z.eq_dec a 0) as [->|Ha0]; [unfold byte, gf_mul_direct; simpl; lia|].
  destruct (Z.eq_dec b 0) as [->|Hb0].
  { unfold gf_mul_direct. rewrite orb_true_r. unfold byte; lia. }
  unfold byte in *.
  destruct (gf_mul_direct_nonzero a b) as (_ & H & _); lia.
Qed.

Lemma gf_mul_0_l a : byte a -> 0 *g a = 0.
Proof. intros Ha. rewrite gf_mul_direct_eq by (unfold byte in *; lia). reflexivity. Qed.

Lemma gf_mul_0_r a : byte a -> a *g 0 = 0.
Proof.
  intros Ha. rewrite gf_mul_direct_eq by (unfold byte in *; lia).
  unfold gf_mul_direct. now rewrite orb_true_r.
Qed.

Lemma gf_mul_comm a b : byte a -> byte b -> a *g b = b *g a.
Proof.
  intros Ha Hb. rewrite !gf_mul_direct_eq by auto. unfold gf_mul_direct.
  now rewrite orb_comm, Z.add_comm.
Qed.

Lemma gf_mul_1_r a : byte a -> a *g 1 = a.
Proof.
  intros Ha. rewrite gf_mul_direct_eq by (unfold byte in *; lia).
  destruct (Z.eq_dec a 0) as [->|Ha0]; [reflexivity|].
  unfold byte in Ha.
  destruct (gf_mul_direct_nonzero a 1) as (E & _); [lia | lia|].
  rewrite E. change (aget LOG 1) with 0. rewrite Z.add_0_r.
  destruct (log_exp_inverse a) as [L E']; [lia|].
  rewrite Z.mod_small by lia. exact E'.
Qed.

Lemma gf_mul_1_l a : byte a -> 1 *g a = a.
Proof.
  intros Ha. rewrite gf_mul_comm by (unfold byte in *; lia). now apply gf_mul_1_r.
Qed.

Lemma gf_mul_nonzero a b : byte a -> byte b -> a <> 0 -> b <> 0 -> a *g b <> 0.
Proof.
  intros Ha Hb Ha0 Hb0. rewrite gf_mul_direct_eq by auto. unfold byte in *.
  destruct (gf_mul_direct_nonzero a b) as (_ & H & _); lia.
Qed.

Lemma gf_mul_assoc a b c : byte a -> byte b -> byte c -> (a *g b) *g c = a *g (b *g c).
Proof.
  intros Ha Hb Hc.
  destruct (Z.eq_dec a 0) as [->|Ha0].
  { rewrite (gf_mul_0_l b) by auto. rewrite !gf_mul_0_l by auto using gf_mul_byte. reflexivity. }
  destruct (Z.eq_dec b 0) as [->|Hb0].
  { rewrite (gf_mul_0_r a), (gf_mul_0_l c), gf_mul_0_r by auto. reflexivity. }
  destruct (Z.eq_dec c 0) as [->|Hc0].
  { rewrite (gf_mul_0_r b) by auto. rewrite !gf_mul_0_r by auto using gf_mul_byte. reflexivity. }
  pose proof (gf_mul_byte a b Ha Hb) as Hab. pose proof (gf_mul_byte b c Hb Hc) as Hbc.
  rewrite (gf_mul_direct_eq (a *g b) c), (gf_mul_direct_eq a (b *g c)) by auto.
  rewrite (gf_mul_direct_eq a b), (gf_mul_direct_eq b c) by auto.
  unfold byte in *.
  destruct (gf_mul_direct_nonzero a b) as (_ & Nab & Lab); [lia | lia|].
  destruct (gf_mul_direct_nonzero b c) as (_ & Nbc & Lbc); [lia | lia|].
  destruct (gf_mul_direct_nonzero (gf_mul_direct EXP LOG a b) c) as (E1 & _); [lia | lia|].
  destruct (gf_mul_direct_nonzero a (gf_mul_direct EXP LOG b c)) as (E2 & _); [lia | lia|].
  rewrite E1, E2, Lab, Lbc.
  rewrite Z.add_mod_idemp_l, Z.add_mod_idemp_r by lia.
  now rewrite Z.add_assoc.
Qed.

Lemma byte_lxor a b : byte a -> byte b -> byte (Z.lxor a b).
Proof.
  intros Ha Hb.
  assert (H : forallb (fun a => forallb (fun b => (0 <=? Z.lxor a b) && (Z.lxor a b <? 256))
                                  (zrange 256)) (zrange 256) = true)
    by (vm_compute; reflexivity).
  pose proof (forallb_bytes2 _ H a b Ha Hb) as Hc. simpl in Hc.
  apply andb_prop in Hc as [H1 H2]. unfold byte. lia.
Qed.

Lemma lin_sum_lxor basis : forall k x y,
  lin_sum basis k (Z.lxor x y) = Z.lxor (lin_sum basis k x) (lin_sum basis k y).
Proof.
  induction basis as [|v r IH]; intros k x y; simpl.
  - reflexivity.
  - rewrite IH, Z.lxor_spec.
    generalize (lin_sum r (k + 1) x) (lin_sum r (k + 1) y). intros A B.
    destruct (Z.testbit x k), (Z.testbit y k); unfold sel; simpl xorb; cbv iota; xor_bits.
Qed.

Lemma gf_mul_direct_lin a x :
  byte a -> byte x -> gf_mul_direct EXP LOG a x = lin_sum (mul_basis a) 0 x.
Proof.
  intros Ha Hx.
  assert (H : forallb (fun a => let basis := mul_basis a in
                forallb (fun x => gf_mul_direct EXP LOG a x =? lin_sum basis 0 x)
                        (zrange 256)) (zrange 256) = true)
    by (vm_compute; reflexivity).
  pose proof (forallb_bytes2
                (fun a x => gf_mul_direct EXP LOG a x =? lin_sum (mul_basis a) 0 x)
                H a x Ha Hx) as Hc.
  now apply Z.eqb_eq.
Qed.

Lemma gf_mul_lxor_r a b c :
  byte a -> byte b -> byte c -> a *g Z.lxor b c = Z.lxor (a *g b) (a *g c).
Proof.
  intros Ha Hb Hc.
  rewrite !gf_mul_direct_eq by auto using byte_lxor.
  rewrite !gf_mul_direct_lin by auto using byte_lxor.
  apply lin_sum_lxor.
Qed.

Lemma gf_mul_lxor_l a b c :
  byte a -> byte b -> byte c -> Z.lxor a b *g c = Z.lxor (a *g c) (b *g c).
Proof.
  intros Ha Hb Hc.
  rewrite (gf_mul_comm (Z.lxor a b)), (gf_mul_comm a c), (gf_mul_comm b c)
    by auto using byte_lxor.
  now apply gf_mul_lxor_r.
Qed.

Lemma gf_inv_eq a : gf_inv a = gf_div TABLES 1 a.
Proof. unfold gf_inv, gf_div, GF_SIZE. f_equal. Qed.

Lemma gf_inv_spec a :
  byte a -> a <> 0 -> byte (gf_inv a) /\ gf_inv a <> 0 /\ a *g gf_inv a = 1.
Proof.
  intros Ha Ha0.
  assert (E : gf_inv a = gf_div_value 1 a).
  { rewrite gf_inv_eq, gf_div_direct_eq by (unfold byte in *; lia).
    destruct (Z.eqb_spec a 0); [contradiction | reflexivity]. }
  assert (H : forallb (fun a => (a =? 0) ||
                ((1 <=? gf_div_value 1 a) && (gf_div_value 1 a <? 256)
                 && (gf_mul_direct EXP LOG a (gf_div_value 1 a) =? 1)))
                (zrange 256) = true) by (vm_compute; reflexivity).
  pose proof (forallb_bytes _ H a Ha) as Hc. cbv beta in Hc.
  destruct (Z.eqb_spec a 0); [contradiction|]. cbn [orb] in Hc.
  apply andb_prop in Hc as [Hc H3]. apply andb_prop in Hc as [H1 H2].
  rewrite E. assert (Hb : byte (gf_div_value 1 a)) by (unfold byte; lia).
  repeat split; try (unfold byte in Hb; lia).
  rewrite gf_mul_direct_eq by auto. lia.
Qed.

(** Cancellation of a nonzero factor. *)
Lemma gf_mul_cancel_l c a b :
  byte a -> byte b -> byte c -> c <> 0 -> c *g a = c *g b -> a = b.
Proof.
  intros Ha Hb Hc Hc0 E.
  destruct (gf_inv_spec c Hc Hc0) as (Hi & _ & Hinv).
  rewrite <- (gf_mul_1_l a), <- (gf_mul_1_l b) by auto.
  rewrite <- Hinv, (gf_mul_comm c (gf_inv c)) by auto.
  rewrite !gf_mul_assoc by auto. now rewrite E.
Qed.

End FieldLaws.

Lemma aget_EXP_byte k : byte (aget EXP k).
Proof.
  assert (H : forallb (fun v => (0 <=? v) && (v <? 256)) EXP = true) by (vm_compute; reflexivity).
  rewrite forallb_forall in H. unfold aget. destruct (k <? 0); [unfold byte; lia|].
  destruct (Nat.lt_ge_cases (Z.to_nat k) (length EXP)) as [Hlt|Hge].
  - specialize (H _ (nth_In EXP 0 Hlt)). apply andb_prop in H as [H1 H2]. unfold byte. lia.
  - rewrite nth_overflow by auto. unfold byte; lia.
Qed.

Lemma aget_DIVT_byte k : byte (aget (gf_div_table TABLES) k).
Proof.
  change (gf_div_table TABLES) with DIVT.
  destruct (Z_lt_ge_dec k 0) as [Hneg|Hpos].
  { unfold aget. destruct (Z.ltb_spec k 0); [unfold byte|]; lia. }
  destruct (Z_lt_ge_dec k 65536) as [Hlt|Hge].
  - rewrite DIVT_cells by lia.
    unfold div_cell. destruct (k mod GF_SIZE =? 0); [unfold byte; lia|].
    unfold gf_div_value. destruct (k / GF_SIZE =? 0); [unfold byte; lia|].
    apply aget_EXP_byte.
  - rewrite aget_out; [unfold byte; lia|]. rewrite alen_DIVT. lia.
Qed.

Lemma TABLES_field : gf_field TABLES.
Proof.
  constructor.
  - exact gf_mul_byte.
  - exact gf_mul_comm.
  - exact gf_mul_assoc.
  - exact gf_mul_lxor_r.
  - exact gf_mul_1_l.
  - exact gf_mul_0_l.
  - exact gf_inv_spec.
  - exact aget_DIVT_byte.
Qed.

(** * Scalar field operations run after [init_gf] *)

Lemma after_init_eq {A} (f : gf_tables -> A) : after_init f = Ok (f TABLES).
Proof. unfold after_init. now rewrite init_gf_tables. Qed.

Lemma mul_div_roundtrip a b :
  byte a -> 1 <= b <= 255 ->
  gf_div TABLES (gf_mul TABLES a b) b = a /\ gf_mul TABLES (gf_div TABLES a b) b = a.
Proof.
  intros Ha Hb. assert (Hb' : byte b) by (unfold byte; lia).
  assert (H : forallb (fun a => forallb (fun b => (b =? 0) ||
                ((gf_div_value (gf_mul_direct EXP LOG a b) b =? a)
                 && (0 <=? gf_div_value a b) && (gf_div_value a b <? 256)
                 && (gf_mul_direct EXP LOG (gf_div_value a b) b =? a)))
                (zrange 256)) (zrange 256) = true) by (vm_compute; reflexivity).
  pose proof (forallb_bytes2 _ H a b Ha Hb') as Hc. cbv beta in Hc.
  destruct (Z.eqb_spec b 0); [lia|]. cbn [orb] in Hc.
  apply andb_prop in Hc as [Hc H4]. apply andb_prop in Hc as [Hc H3].
  apply andb_prop in Hc as [H1 H2].
  rewrite (gf_mul_direct_eq a b), !gf_div_direct_eq by (auto; rewrite <- gf_mul_direct_eq by auto; auto using gf_mul_byte).
  destruct (Z.eqb_spec b 0); [lia|].
  rewrite gf_mul_direct_eq by (auto; unfold byte; lia).
  lia.
Qed.

(** C5. After [init_gf], for every a in [0,255] and b in [1,255]:
    gf_div(gf_mul(a,b), b) = a and gf_mul(gf_div(a,b), b) = a. *)
Theorem gf_mul_div_inverse T a b :
  init_gf = Ok T ->
  0 <= a <= 255 -> 1 <= b <= 255 ->
  gf_div T (gf_mul T a b) b = a /\ gf_mul T (gf_div T a b) b = a.
Proof.
  intros HT Ha Hb. rewrite init_gf_tables in HT. injection HT as <-.
  apply mul_div_roundtrip; [unfold byte; lia | lia].
Qed.

Lemma gf_mul_div_inverse_witness :
  init_gf = Ok TABLES /\ 0 <= 83 <= 255 /\ 1 <= 202 <= 255 /\
  gf_div TABLES (gf_mul TABLES 83 202) 202 = 83 /\
  gf_mul TABLES (gf_div TABLES 83 202) 202 = 83.
Proof.
  split; [exact init_gf_tables|]. split; [lia|]. split; [lia|].
  apply (gf_mul_div_inverse TABLES 83 202); [exact init_gf_tables | lia | lia].
Defined.

(** C6 as stated fails: [gf_div(1, 0)] returns a value, it does not stop the
    process. *)
Lemma gf_div_by_zero_returns :
  after_init (fun T => gf_div T 1 0) = Ok 0 /\
  ~ (exists code, after_init (fun T => gf_div T 1 0) = Exit code).
Proof.
  assert (E : after_init (fun T => gf_div T 1 0) = Ok 0).
  { rewrite after_init_eq. now rewrite gf_div_direct_eq by (unfold byte; lia). }
  split; [exact E|]. intros [c Hc]. rewrite E in Hc. discriminate.
Qed.

(** C6, amended. For every a in [0,255], [gf_div(a, 0)] after [init_gf]
    returns 0: [init_gf] skips column 0 of the division table, which keeps
    its initial zero, and [gf_div] only reads the table. Only
    [gf_div_direct(a, 0)] with a nonzero [a] ends the process, with
    [exit(1)]; [gf_div_direct(0, 0)] returns 0. *)
Theorem gf_div_by_zero T a :
  init_gf = Ok T ->
  0 <= a <= 255 ->
  gf_div T a 0 = 0 /\
  gf_div_direct (gf_exp T) (gf_log T) a 0 = (if a =? 0 then Ok 0 else Exit 1).
Proof.
  intros HT Ha. rewrite init_gf_tables in HT. injection HT as <-. split.
  - now rewrite gf_div_direct_eq by (unfold byte; lia).
  - unfold gf_div_direct. destruct (a =? 0); reflexivity.
Qed.

Lemma gf_div_by_zero_witness :
  init_gf = Ok TABLES /\ 0 <= 7 <= 255 /\
  gf_div TABLES 7 0 = 0 /\
  gf_div_direct (gf_exp TABLES) (gf_log TABLES) 7 0 = Exit 1.
Proof.
  split; [exact init_gf_tables|]. split; [lia|].
  apply (gf_div_by_zero TABLES 7); [exact init_gf_tables | lia].
Defined.

(** C9 as stated fails: in the field of polynomial 0x11D the product
    0x53 * 0xCA is not 0x01, and 0x01 / 0x53 is not 0xCA. *)
Lemma gf_sanity_values_differ :
  after_init (fun T => gf_mul T 0x53 0xCA) <> Ok 0x01 /\
  after_init (fun T => gf_div T 0x01 0x53) <> Ok 0xCA.
Proof.
  rewrite (after_init_eq (fun T => gf_mul T 0x53 0xCA)).
  rewrite (after_init_eq (fun T => gf_div T 0x01 0x53)).
  rewrite gf_mul_direct_eq, gf_div_direct_eq by (unfold byte; lia).
  split; vm_compute; discriminate.
Qed.

(** C9, amended. After [init_gf]: gf_mul(0x53, 0xCA) = 0x8F,
    gf_div(0x01, 0x53) = 0x8C and gf_pow(2, 8) = 0x1D. *)
Theorem gf_sanity_values :
  after_init (fun T => (gf_mul T 0x53 0xCA, gf_div T 0x01 0x53, gf_pow T 2 8))
  = Ok (0x8F, 0x8C, 0x1D).
Proof.
  rewrite after_init_eq.
  rewrite gf_mul_direct_eq, gf_div_direct_eq by (unfold byte; lia).
  vm_compute. reflexivity.
Qed.

(** * The bulk kernels *)

Lemma buf_storeb_same m p i v :
  (p < length m)%nat -> buf (storeb m p i v) p = aset (buf m p) i v.
Proof. intros Hp. unfold buf, storeb. now apply nth_upd_nth_same. Qed.

Lemma buf_storeb_other m p p' i v : p <> p' -> buf (storeb m p i v) p' = buf m p'.
Proof. intros Hp. unfold buf, storeb. now apply nth_upd_nth_other. Qed.

Lemma length_storeb m p i v : length (storeb m p i v) = length m.
Proof. unfold storeb. apply upd_nth_length. Qed.

Lemma chunk_loop_short {S} fuel sz (body : Z -> S -> S) s :
  sz < 64 -> chunk_loop fuel 0 sz body s = (0, s).
Proof.
  intros Hsz. destruct fuel; [reflexivity|]. cbn [chunk_loop].
  destruct (Z.leb_spec (0 + 64) sz); [lia | reflexivity].
Qed.

(** Below 64 bytes [mul1_avx2] is its scalar loop, which stores the table
    products; [dst] and [src] may be the same buffer. *)
Lemma mul1_avx2_scalar T m dst src c sz :
  0 <= sz < 64 -> (dst < length m)%nat -> sz <= alen (buf m dst) ->
  forall i, 0 <= i < sz ->
    loadb (mul1_avx2 T m dst src c sz) dst i
    = aget (gf_mul_table T) (Z.shiftl c 8 + loadb m src i).
Proof.
  intros Hsz Hdst Hlen. unfold mul1_avx2. rewrite chunk_loop_short by lia.
  set (tbl := fun v => aget (gf_mul_table T) (Z.shiftl c 8 + v)).
  destruct (for_range_inv
              (fun i m' =>
                 length m' = length m /\ alen (buf m' dst) = alen (buf m dst) /\
                 (forall p, p <> dst -> buf m' p = buf m p) /\
                 (forall j, 0 <= j < i -> loadb m' dst j = tbl (loadb m src j)) /\
                 (forall j, i <= j -> loadb m' dst j = loadb m dst j))
              0 sz (fun i m => storeb m dst i (tbl (loadb m src i))) m)
    as (_ & _ & _ & Hdone & _); auto; try lia.
  - repeat split; auto. intros; lia.
  - intros i m' Hi (Hl & Hbl & Hother & Hlow & Hhigh).
    assert (Hsrc : loadb m' src i = loadb m src i).
    { destruct (Nat.eq_dec src dst) as [->|Hne]; [apply Hhigh; lia|].
      unfold loadb. now rewrite Hother. }
    rewrite Hsrc. split; [now rewrite length_storeb|].
    split; [rewrite buf_storeb_same, alen_aset by lia; exact Hbl|].
    split; [intros p Hp; rewrite buf_storeb_other by auto; now apply Hother|].
    split; intros j Hj; unfold loadb; rewrite buf_storeb_same by lia.
    + rewrite aget_aset by lia. destruct (Z.eqb_spec i j) as [<-|]; auto.
      apply Hlow; lia.
    + rewrite aget_aset_other by lia. apply Hhigh; lia.
Qed.

(** C2. At c = 1, a 64-byte source whose first byte is 16 and n = 64, the
    64-byte shuffle path of [mul1_avx2] stores dst[0] = 1, while
    MUL[1][16] = 16: [lut[16..31]] is used as the table of the high nibble,
    but it holds the products with 16 + h, not with 16 * h. With n = 63 the
    scalar loop stores 16. *)
Theorem mul1_avx2_chunk_differs_from_table :
  after_init (fun T =>
    (loadb (mul1_avx2 T [zeros 64; 16 :: zeros 63] 0%nat 1%nat 1 64) 0%nat 0,
     loadb (mul1_avx2 T [zeros 64; 16 :: zeros 63] 0%nat 1%nat 1 63) 0%nat 0,
     aget (gf_mul_table T) (1 * 256 + 16)))
  = Ok (1, 16, 16).
Proof. rewrite after_init_eq. vm_compute. reflexivity. Qed.

(** * Sums over GF(2^8) *)

Lemma for_loop_snoc {S} (body : Z -> S -> S) : forall cnt i s,
  for_loop (Datatypes.S cnt) i body s = body (i + Z.of_nat cnt) (for_loop cnt i body s).
Proof.
  induction cnt as [|c IH]; intros i s.
  - simpl. now rewrite Z.add_0_r.
  - change (for_loop (Datatypes.S (Datatypes.S c)) i body s)
      with (for_loop (Datatypes.S c) (i + 1) body (body i s)).
    rewrite IH. change (for_loop (Datatypes.S c) i body s)
      with (for_loop c (i + 1) body (body i s)).
    f_equal. lia.
Qed.

Lemma for_range_snoc {S} lo hi (body : Z -> S -> S) s :
  lo <= hi -> for_range lo (hi + 1) body s = body hi (for_range lo hi body s).
Proof.
  intros Hle. unfold for_range.
  replace (Z.to_nat (hi + 1 - lo)) with (Datatypes.S (Z.to_nat (hi - lo))) by lia.
  rewrite for_loop_snoc. f_equal. lia.
Qed.

Lemma for_range_empty {S} lo hi (body : Z -> S -> S) s :
  hi <= lo -> for_range lo hi body s = s.
Proof.
  intros Hle. unfold for_range. now replace (Z.to_nat (hi - lo)) with O by lia.
Qed.

(** A loop on a pair whose body treats the two components separately. *)
Lemma for_range_pair {A B} lo hi (f : Z -> A -> A) (g : Z -> B -> B) a b :
  for_range lo hi (fun k s => (f k (fst s), g k (snd s))) (a, b)
  = (for_range lo hi f a, for_range lo hi g b).
Proof.
  unfold for_range. generalize (Z.to_nat (hi - lo)) as cnt. intros cnt.
  revert lo a b. induction cnt as [|c IH]; intros lo a b; simpl; auto.
Qed.

Lemma for_range_ext {S} lo hi (f g : Z -> S -> S) s :
  (forall k s, lo <= k < hi -> f k s = g k s) ->
  for_range lo hi f s = for_range lo hi g s.
Proof.
  unfold for_range. intros H.
  assert (G : forall cnt i s, lo <= i -> i + Z.of_nat cnt <= Z.max lo hi ->
              for_loop cnt i f s = for_loop cnt i g s).
  { induction cnt as [|c IH]; intros i s' Hi Hc; simpl; auto.
    rewrite H by lia. apply IH; lia. }
  apply G; lia.
Qed.

Lemma xsum_0 f : xsum 0 f = 0.
Proof. reflexivity. Qed.

Lemma xsum_succ n f : 0 <= n -> xsum (n + 1) f = Z.lxor (xsum n f) (f n).
Proof. intros Hn. unfold xsum. now rewrite for_range_snoc. Qed.

(** Induction on the upper bound of a sum. *)
Lemma upto_ind (P : Z -> Prop) :
  P 0 -> (forall n, 0 <= n -> P n -> P (n + 1)) -> forall n, 0 <= n -> P n.
Proof. intros H0 Hs n Hn. apply natlike_ind; auto. Qed.

Lemma xsum_ext n f g :
  (forall k, 0 <= k < n -> f k = g k) -> xsum n f = xsum n g.
Proof.
  intros H. unfold xsum. apply for_range_ext. intros k s Hk. now rewrite H.
Qed.

Lemma xsum_byte n f : 0 <= n -> (forall k, 0 <= k < n -> byte (f k)) -> byte (xsum n f).
Proof.
  intros Hn. revert f. pattern n. apply upto_ind; auto.
  - intros f _. rewrite xsum_0. unfold byte; lia.
  - intros m Hm IH f Hf. rewrite xsum_succ by auto.
    apply byte_lxor; [apply IH; intros; apply Hf; lia | apply Hf; lia].
Qed.

Lemma xsum_lxor n f g :
  0 <= n -> xsum n (fun k => Z.lxor (f k) (g k)) = Z.lxor (xsum n f) (xsum n g).
Proof.
  intros Hn. pattern n. apply upto_ind; auto.
  intros m Hm IH. rewrite !xsum_succ by auto. rewrite IH. xor_bits.
Qed.

(** A sum with a single nonzero term. *)
Lemma xsum_single n c f :
  0 <= n -> xsum n (fun k => if k =? c then f k else 0) = if (0 <=? c) && (c <? n) then f c else 0.
Proof.
  intros Hn. pattern n. apply upto_ind; auto.
  - rewrite xsum_0. destruct (Z.leb_spec 0 c), (Z.ltb_spec c 0); simpl; auto; lia.
  - intros m Hm IH. rewrite xsum_succ, IH by auto.
    destruct (Z.eqb_spec m c) as [->|Hne].
    + destruct (Z.leb_spec 0 c), (Z.ltb_spec c c), (Z.ltb_spec c (c + 1));
        simpl; try lia; apply Z.lxor_0_l.
    + rewrite Z.lxor_0_r.
      destruct (Z.leb_spec 0 c), (Z.ltb_spec c m), (Z.ltb_spec c (m + 1)); simpl; auto; lia.
Qed.

(** * Row-major matrices *)

Lemma cell_index_bounds n r c rows :
  0 <= r < rows -> 0 <= c < n -> 0 <= r * n + c < rows * n.
Proof.
  intros Hr Hc.
  assert (0 <= r * n) by (apply Z.mul_nonneg_nonneg; lia).
  assert (r * n <= (rows - 1) * n) by (apply Z.mul_le_mono_nonneg_r; lia).
  lia.
Qed.

Lemma cell_index_inj n r c r' c' :
  0 <= c < n -> 0 <= c' < n -> r * n + c = r' * n + c' -> r = r' /\ c = c'.
Proof.
  intros Hc Hc' E.
  assert (r = r').
  { destruct (Z.lt_trichotomy r r') as [H|[H|H]]; auto.
    - assert ((r + 1) * n <= r' * n) by (apply Z.mul_le_mono_nonneg_r; lia). lia.
    - assert ((r' + 1) * n <= r * n) by (apply Z.mul_le_mono_nonneg_r; lia). lia. }
  subst. lia.
Qed.

Lemma ent_aset n rows m i k v r c :
  alen m = rows * n -> 0 <= i < rows -> 0 <= k < n -> 0 <= c < n ->
  ent n (aset m (i * n + k) v) r c = if (i =? r) && (k =? c) then v else ent n m r c.
Proof.
  intros Hl Hi Hk Hc. unfold ent.
  rewrite aget_aset by (rewrite Hl; apply cell_index_bounds; auto).
  destruct (Z.eqb_spec (i * n + k) (r * n + c)) as [E|E].
  - apply cell_index_inj in E as [-> ->]; auto. now rewrite !Z.eqb_refl.
  - destruct (Z.eqb_spec i r) as [->|]; auto.
    destruct (Z.eqb_spec k c) as [->|]; auto. contradiction.
Qed.

(** A block filled cell after cell through a running index, as [sub_matrix]
    and [multiply1] do. *)
Lemma fill_rows (g : Z -> Z -> Z) rows cols :
  0 <= rows -> 0 <= cols ->
  let s := for_range 0 rows
             (fun r s => for_range 0 cols
                (fun c s => (fst s + 1, aset (snd s) (fst s) (g r c))) s)
             (0, zeros (rows * cols)) in
  alen (snd s) = rows * cols /\
  forall r c, 0 <= r < rows -> 0 <= c < cols -> ent cols (snd s) r c = g r c.
Proof.
  intros Hr Hc s.
  assert (G : fst s = rows * cols /\ alen (snd s) = rows * cols /\
              forall r c, 0 <= r < rows -> 0 <= c < cols -> ent cols (snd s) r c = g r c).
  { subst s.
    apply (for_range_inv
             (fun r s => fst s = r * cols /\ alen (snd s) = rows * cols /\
                forall r' c, 0 <= r' < r -> 0 <= c < cols -> ent cols (snd s) r' c = g r' c)).
    - auto.
    - simpl. rewrite alen_zeros by nia. repeat split; auto. intros; lia.
    - intros r s Hr' (Hp & Hl & Hcells).
      destruct (for_range_inv
               (fun c s => fst s = r * cols + c /\ alen (snd s) = rows * cols /\
                  forall r' c', 0 <= r' < r \/ (r' = r /\ 0 <= c' < c) -> 0 <= c' < cols ->
                                ent cols (snd s) r' c' = g r' c')
               0 cols (fun c s => (fst s + 1, aset (snd s) (fst s) (g r c))) s)
        as (Hp' & Hl' & Hcells').
      + auto.
      + repeat split; auto; try lia. intros r' c' [H|H] Hc'; [now apply Hcells | lia].
      + intros c s' Hc' (Hp' & Hl' & Hcells'). simpl. rewrite alen_aset.
        repeat split; auto; try lia.
        intros r' c' H Hc''. rewrite Hp'.
        rewrite (ent_aset cols rows) by (auto; lia).
        destruct (Z.eqb_spec r r') as [<-|Hne]; simpl.
        * destruct (Z.eqb_spec c c') as [<-|Hne']; auto. apply Hcells'; auto. lia.
        * apply Hcells'; auto. lia.
      + repeat split; auto; try lia.
        intros r' c' H Hc''. apply Hcells'; auto.
        destruct (Z.eq_dec r' r); [right | left]; lia. }
  destruct G as (_ & Hl & H). auto.
Qed.

(** * Gauss-Jordan inversion *)

Lemma lxor_cancel_r a b c : Z.lxor a c = Z.lxor b c -> a = b.
Proof.
  intros E.
  assert (H : Z.lxor (Z.lxor a c) c = Z.lxor (Z.lxor b c) c) by now rewrite E.
  now rewrite !Z.lxor_assoc, !Z.lxor_nilpotent, !Z.lxor_0_r in H.
Qed.

Section Invert.

Variable T : gf_tables.
Hypothesis FT : gf_field T.

Variable n : Z.
Hypothesis Hn : 0 <= n.

Local Abbreviation cell := (ent n).
Local Infix "*g" := (gf_mul T) (at level 40, left associativity).

(** ** Loops that rewrite a matrix column by column *)

Lemma column_loop (step : Z -> list Z -> list Z) (F : Z -> (Z -> Z) -> Z) m :
  alen m = n * n ->
  (forall r col col', in_range n r -> (forall r', in_range n r' -> col r' = col' r') ->
     F r col = F r col') ->
  (forall k mk, in_range n k -> alen mk = n * n ->
     alen (step k mk) = n * n /\
     forall r c, in_range n r -> in_range n c ->
       cell (step k mk) r c = if c =? k then F r (fun r' => cell mk r' k) else cell mk r c) ->
  alen (for_range 0 n step m) = n * n /\
  forall r c, in_range n r -> in_range n c ->
    cell (for_range 0 n step m) r c = F r (fun r' => cell m r' c).
Proof.
  intros Hl Fext Hstep.
  destruct (for_range_inv
              (fun k mk => alen mk = n * n /\
                 forall r c, in_range n r -> in_range n c ->
                   cell mk r c = if c <? k then F r (fun r' => cell m r' c) else cell m r c)
              0 n step m) as (Hl' & Hcells); auto.
  - split; auto. intros r c Hr Hc. destruct (Z.ltb_spec c 0); auto. unfold in_range in Hc. lia.
  - intros k mk Hk (Hlk & Hck). destruct (Hstep k mk Hk Hlk) as (Hl1 & Hc1).
    split; auto. intros r c Hr Hc. rewrite Hc1 by auto.
    destruct (Z.eqb_spec c k) as [->|Hne].
    + destruct (Z.ltb_spec k (k + 1)); [|lia]. apply Fext; auto. intros r' Hr'.
      rewrite Hck by auto. destruct (Z.ltb_spec k k); [lia | reflexivity].
    + rewrite Hck by auto.
      destruct (Z.ltb_spec c k), (Z.ltb_spec c (k + 1)); auto; lia.
  - split; auto. intros r c Hr Hc. rewrite Hcells by auto.
    destruct (Z.ltb_spec c n); auto. unfold in_range in Hc. lia.
Qed.

Ltac cases :=
  repeat match goal with
    | |- context [Z.eqb ?a ?b] => destruct (Z.eqb_spec a b); subst; simpl
    | |- context [Z.ltb ?a ?b] => destruct (Z.ltb_spec a b); simpl
    end; try reflexivity; try lia; try congruence.

Lemma swap_rows_loop i j m :
  alen m = n * n -> in_range n i -> in_range n j -> i <> j ->
  alen (for_range 0 n (swap1 n i j) m) = n * n /\
  forall r c, in_range n r -> in_range n c ->
    cell (for_range 0 n (swap1 n i j) m) r c
    = if r =? i then cell m j c else if r =? j then cell m i c else cell m r c.
Proof.
  intros Hl Hi Hj Hij.
  apply (column_loop (swap1 n i j)
           (fun r col => if r =? i then col j else if r =? j then col i else col r)); auto.
  - intros r col col' Hr H. cases; apply H; auto.
  - intros k mk Hk Hlk. unfold swap1. rewrite !alen_aset. split; auto.
    intros r c Hr Hc. unfold in_range in *.
    rewrite (ent_aset n n) by (rewrite ?alen_aset; auto).
    rewrite (ent_aset n n) by auto. unfold ent. cases.
Qed.

Lemma scale_row_loop i t m :
  alen m = n * n -> in_range n i ->
  alen (for_range 0 n (scale1 T n i t) m) = n * n /\
  forall r c, in_range n r -> in_range n c ->
    cell (for_range 0 n (scale1 T n i t) m) r c
    = if r =? i then cell m i c *g t else cell m r c.
Proof.
  intros Hl Hi.
  apply (column_loop (scale1 T n i t) (fun r col => if r =? i then col i *g t else col r)); auto.
  - intros r col col' Hr H. destruct (Z.eqb_spec r i).
    + f_equal. apply H; auto.
    + apply H; auto.
  - intros k mk Hk Hlk. unfold scale1. rewrite !alen_aset. split; auto.
    intros r c Hr Hc. unfold in_range in *.
    rewrite (ent_aset n n) by auto. unfold ent. cases.
Qed.

Lemma eliminate_row_loop i j t m :
  alen m = n * n -> in_range n i -> in_range n j ->
  alen (for_range 0 n (elim1 T n i j t) m) = n * n /\
  forall r c, in_range n r -> in_range n c ->
    cell (for_range 0 n (elim1 T n i j t) m) r c
    = if r =? j then Z.lxor (cell m j c) (t *g cell m i c) else cell m r c.
Proof.
  intros Hl Hi Hj.
  apply (column_loop (elim1 T n i j t)
           (fun r col => if r =? j then Z.lxor (col j) (t *g col i) else col r)); auto.
  - intros r col col' Hr H. destruct (Z.eqb_spec r j).
    + f_equal; [|f_equal]; apply H; auto.
    + apply H; auto.
  - intros k mk Hk Hlk. unfold elim1. rewrite !alen_aset. split; auto.
    intros r c Hr Hc. unfold in_range in *.
    rewrite (ent_aset n n) by auto. unfold ent. cases.
Qed.

(** The loop bodies of [matrix_invert] act on the two arrays alike. *)
Lemma swap_rows_pair i j s :
  for_range 0 n (swap_rows_body n i j) s
  = (for_range 0 n (swap1 n i j) (fst s), for_range 0 n (swap1 n i j) (snd s)).
Proof.
  destruct s as [M N]. rewrite <- for_range_pair. apply for_range_ext.
  intros k [M' N'] _. reflexivity.
Qed.

Lemma scale_row_pair i t s :
  for_range 0 n (scale_row_body T n i t) s
  = (for_range 0 n (scale1 T n i t) (fst s), for_range 0 n (scale1 T n i t) (snd s)).
Proof.
  destruct s as [M N]. rewrite <- for_range_pair. apply for_range_ext.
  intros k [M' N'] _. reflexivity.
Qed.

Lemma eliminate_pair i j t s :
  for_range 0 n (eliminate_body T n i j t) s
  = (for_range 0 n (elim1 T n i j t) (fst s), for_range 0 n (elim1 T n i j t) (snd s)).
Proof.
  destruct s as [M N]. rewrite <- for_range_pair. apply for_range_ext.
  intros k [M' N'] _. reflexivity.
Qed.

(** ** Consequences of the field laws *)

Lemma byte_0 : byte 0.
Proof. unfold byte; lia. Qed.

Lemma byte_1 : byte 1.
Proof. unfold byte; lia. Qed.

Lemma byte_delta r c : byte (delta r c).
Proof. unfold delta. destruct (r =? c); [apply byte_1 | apply byte_0]. Qed.

Lemma fmul_0_r a : byte a -> a *g 0 = 0.
Proof. intros Ha. rewrite (fld_comm T FT) by auto using byte_0. now apply (fld_0_l T FT). Qed.

Lemma fmul_1_r a : byte a -> a *g 1 = a.
Proof. intros Ha. rewrite (fld_comm T FT) by auto using byte_1. now apply (fld_1_l T FT). Qed.

Lemma fmul_cancel_l c a b :
  byte a -> byte b -> byte c -> c <> 0 -> c *g a = c *g b -> a = b.
Proof.
  intros Ha Hb Hc Hc0 E.
  destruct (fld_inv T FT c Hc Hc0) as (Hi & _ & Hinv).
  rewrite <- (fld_1_l T FT a), <- (fld_1_l T FT b) by auto.
  rewrite <- Hinv, (fld_comm T FT c) by auto.
  rewrite !(fld_assoc T FT) by auto. now rewrite E.
Qed.

Lemma xsum_fmul_l t f :
  byte t -> (forall k, in_range n k -> byte (f k)) ->
  xsum n (fun k => t *g f k) = t *g xsum n f.
Proof.
  intros Ht. unfold in_range. generalize Hn. pattern n. apply upto_ind; auto.
  - intros _ _. rewrite !xsum_0. now rewrite fmul_0_r.
  - intros m Hm IH _ Hf. rewrite !xsum_succ by auto.
    rewrite IH by (auto; intros; apply Hf; lia).
    assert (Hb : byte (xsum m f)) by (apply xsum_byte; auto; intros; apply Hf; lia).
    assert (Hb' : byte (f m)) by (apply Hf; lia).
    now rewrite (fld_lxor_r T FT).
Qed.

(** ** Rows as linear forms *)

Lemma dotr_byte m r x : bytes_mat n m -> vec n x -> in_range n r -> byte (dotr T n m r x).
Proof.
  intros [_ Hm] Hx Hr. apply xsum_byte; auto. intros k Hk.
  apply (fld_byte T FT); [apply Hm | apply Hx]; auto.
Qed.

Lemma dotr_row_eq m m' r r' x :
  (forall c, in_range n c -> cell m' r c = cell m r' c) -> dotr T n m' r x = dotr T n m r' x.
Proof. intros H. apply xsum_ext. intros k Hk. now rewrite H. Qed.

Lemma dotr_scaled m m' r i t x :
  bytes_mat n m -> vec n x -> byte t -> in_range n i ->
  (forall c, in_range n c -> cell m' r c = cell m i c *g t) ->
  dotr T n m' r x = t *g dotr T n m i x.
Proof.
  intros [_ Hm] Hx Ht Hi H. unfold dotr.
  rewrite <- xsum_fmul_l; auto.
  - apply xsum_ext. intros k Hk. rewrite H by auto.
    rewrite (fld_comm T FT (cell m i k) t) by auto.
    apply (fld_assoc T FT); auto.
  - intros k Hk. apply (fld_byte T FT); auto.
Qed.

Lemma dotr_eliminated m m' r i j t x :
  bytes_mat n m -> vec n x -> byte t -> in_range n i -> in_range n j ->
  (forall c, in_range n c -> cell m' r c = Z.lxor (cell m j c) (t *g cell m i c)) ->
  dotr T n m' r x = Z.lxor (dotr T n m j x) (t *g dotr T n m i x).
Proof.
  intros [_ Hm] Hx Ht Hi Hj H. unfold dotr.
  rewrite <- xsum_fmul_l; auto.
  - rewrite <- xsum_lxor by auto. apply xsum_ext. intros k Hk. rewrite H by auto.
    assert (B1 : byte (cell m j k)) by auto.
    assert (B2 : byte (cell m i k)) by auto.
    assert (B3 : byte (x k)) by auto.
    assert (B4 : byte (t *g cell m i k)) by (apply (fld_byte T FT); auto).
    rewrite (fld_comm T FT (Z.lxor _ _)) by auto using byte_lxor.
    rewrite (fld_lxor_r T FT) by auto.
    rewrite (fld_comm T FT (x k) (cell m j k)), (fld_comm T FT (x k) (t *g _)) by auto.
    now rewrite (fld_assoc T FT) by auto.
  - intros k Hk. apply (fld_byte T FT); auto.
Qed.

Lemma dotr_identity m r x :
  vec n x -> in_range n r ->
  (forall c, in_range n c -> cell m r c = delta r c) -> dotr T n m r x = x r.
Proof.
  intros Hx Hr H. unfold dotr.
  rewrite (xsum_ext n _ (fun c => if c =? r then x c else 0)).
  - rewrite xsum_single by auto. unfold in_range in Hr.
    destruct (Z.leb_spec 0 r), (Z.ltb_spec r n); simpl; auto; lia.
  - intros k Hk. rewrite H by auto. unfold delta.
    rewrite (Z.eqb_sym k r). destruct (r =? k).
    + apply (fld_1_l T FT). now apply Hx.
    + apply (fld_0_l T FT). now apply Hx.
Qed.

Lemma dotr_unit m r c0 :
  bytes_mat n m -> in_range n r -> in_range n c0 ->
  dotr T n m r (fun k => delta k c0) = cell m r c0.
Proof.
  intros [_ Hm] Hr Hc. unfold dotr.
  rewrite (xsum_ext n _ (fun c => if c =? c0 then cell m r c else 0)).
  - rewrite xsum_single by auto. unfold in_range in Hc.
    destruct (Z.leb_spec 0 c0), (Z.ltb_spec c0 n); simpl; auto; lia.
  - intros k Hk. unfold delta. destruct (k =? c0).
    + apply fmul_1_r. now apply Hm.
    + apply fmul_0_r. now apply Hm.
Qed.

(** ** The state of [matrix_invert] and the system it stands for *)

Lemma swap_state i j s :
  WF n s -> in_range n i -> in_range n j -> i <> j ->
  let s' := for_range 0 n (swap_rows_body n i j) s in
  WF n s' /\
  (forall r c, in_range n r -> in_range n c ->
     cell (fst s') r c
     = if r =? i then cell (fst s) j c else if r =? j then cell (fst s) i c
       else cell (fst s) r c) /\
  (forall x y, vec n x -> vec n y -> Sol T n s' x y -> Sol T n s x y).
Proof.
  intros [[HlM HM] [HlN HN]] Hi Hj Hij s'. subst s'. rewrite swap_rows_pair. simpl fst; simpl snd.
  destruct (swap_rows_loop i j (fst s) HlM Hi Hj Hij) as (HlM' & HM').
  destruct (swap_rows_loop i j (snd s) HlN Hi Hj Hij) as (HlN' & HN').
  set (M' := for_range 0 n (swap1 n i j) (fst s)) in *.
  set (N' := for_range 0 n (swap1 n i j) (snd s)) in *.
  split; [|split]; auto.
  - split; (split; [auto|]); intros r c Hr Hc; rewrite ?HM', ?HN' by auto;
      destruct (r =? i); auto; destruct (r =? j); auto.
  - intros x y Hx Hy HS r Hr. unfold Sol in HS. simpl fst in HS; simpl snd in HS.
    destruct (Z.eq_dec r i) as [->|Hri]; [|destruct (Z.eq_dec r j) as [->|Hrj]].
    + rewrite <- (dotr_row_eq (fst s) M' j i x), <- (dotr_row_eq (snd s) N' j i y); auto.
      * intros c Hc. rewrite HN' by auto.
        destruct (Z.eqb_spec j i); [congruence|]. now rewrite Z.eqb_refl.
      * intros c Hc. rewrite HM' by auto.
        destruct (Z.eqb_spec j i); [congruence|]. now rewrite Z.eqb_refl.
    + rewrite <- (dotr_row_eq (fst s) M' i j x), <- (dotr_row_eq (snd s) N' i j y); auto.
      * intros c Hc. rewrite HN' by auto. now rewrite Z.eqb_refl.
      * intros c Hc. rewrite HM' by auto. now rewrite Z.eqb_refl.
    + rewrite <- (dotr_row_eq (fst s) M' r r x), <- (dotr_row_eq (snd s) N' r r y); auto.
      * intros c Hc. rewrite HN' by auto.
        destruct (Z.eqb_spec r i); [congruence|]. destruct (Z.eqb_spec r j); [congruence|]. auto.
      * intros c Hc. rewrite HM' by auto.
        destruct (Z.eqb_spec r i); [congruence|]. destruct (Z.eqb_spec r j); [congruence|]. auto.
Qed.

Lemma scale_state i t s :
  WF n s -> in_range n i -> byte t -> t <> 0 ->
  let s' := for_range 0 n (scale_row_body T n i t) s in
  WF n s' /\
  (forall r c, in_range n r -> in_range n c ->
     cell (fst s') r c = if r =? i then cell (fst s) i c *g t else cell (fst s) r c) /\
  (forall x y, vec n x -> vec n y -> Sol T n s' x y -> Sol T n s x y).
Proof.
  intros [[HlM HM] [HlN HN]] Hi Ht Ht0 s'. subst s'. rewrite scale_row_pair. simpl fst; simpl snd.
  destruct (scale_row_loop i t (fst s) HlM Hi) as (HlM' & HM').
  destruct (scale_row_loop i t (snd s) HlN Hi) as (HlN' & HN').
  set (M' := for_range 0 n (scale1 T n i t) (fst s)) in *.
  set (N' := for_range 0 n (scale1 T n i t) (snd s)) in *.
  split; [|split]; auto.
  - split; (split; [auto|]); intros r c Hr Hc; rewrite ?HM', ?HN' by auto;
      destruct (r =? i); auto; apply (fld_byte T FT); auto.
  - intros x y Hx Hy HS r Hr. unfold Sol in HS. simpl fst in HS; simpl snd in HS.
    specialize (HS r Hr).
    destruct (Z.eq_dec r i) as [->|Hri].
    + rewrite (dotr_scaled (fst s) M' i i t x) in HS; auto; [|split; auto|].
      2:{ intros c Hc. rewrite HM' by auto. now rewrite Z.eqb_refl. }
      rewrite (dotr_scaled (snd s) N' i i t y) in HS; auto; [|split; auto|].
      2:{ intros c Hc. rewrite HN' by auto. now rewrite Z.eqb_refl. }
      apply fmul_cancel_l in HS; auto; apply dotr_byte; auto; split; auto.
    + rewrite <- (dotr_row_eq (fst s) M' r r x), <- (dotr_row_eq (snd s) N' r r y); auto.
      * intros c Hc. rewrite HN' by auto. destruct (Z.eqb_spec r i); [congruence|]. auto.
      * intros c Hc. rewrite HM' by auto. destruct (Z.eqb_spec r i); [congruence|]. auto.
Qed.

Lemma eliminate_state i j t s :
  WF n s -> in_range n i -> in_range n j -> i <> j -> byte t ->
  let s' := for_range 0 n (eliminate_body T n i j t) s in
  WF n s' /\
  (forall r c, in_range n r -> in_range n c ->
     cell (fst s') r c
     = if r =? j then Z.lxor (cell (fst s) j c) (t *g cell (fst s) i c)
       else cell (fst s) r c) /\
  (forall x y, vec n x -> vec n y -> Sol T n s' x y -> Sol T n s x y).
Proof.
  intros [[HlM HM] [HlN HN]] Hi Hj Hij Ht s'. subst s'. rewrite eliminate_pair.
  simpl fst; simpl snd.
  destruct (eliminate_row_loop i j t (fst s) HlM Hi Hj) as (HlM' & HM').
  destruct (eliminate_row_loop i j t (snd s) HlN Hi Hj) as (HlN' & HN').
  set (M' := for_range 0 n (elim1 T n i j t) (fst s)) in *.
  set (N' := for_range 0 n (elim1 T n i j t) (snd s)) in *.
  split; [|split]; auto.
  - split; (split; [auto|]); intros r c Hr Hc; rewrite ?HM', ?HN' by auto;
      destruct (r =? j); auto; apply byte_lxor; auto; apply (fld_byte T FT); auto.
  - intros x y Hx Hy HS r Hr. unfold Sol in HS. simpl fst in HS; simpl snd in HS.
    assert (Hrow : forall r, in_range n r -> r <> j ->
                     dotr T n (fst s) r x = dotr T n (snd s) r y).
    { intros r' Hr' Hne.
      rewrite <- (dotr_row_eq (fst s) M' r' r' x), <- (dotr_row_eq (snd s) N' r' r' y); auto.
      - intros c Hc. rewrite HN' by auto. destruct (Z.eqb_spec r' j); [congruence|]. auto.
      - intros c Hc. rewrite HM' by auto. destruct (Z.eqb_spec r' j); [congruence|]. auto. }
    destruct (Z.eq_dec r j) as [->|Hrj]; [|now apply Hrow].
    specialize (HS j Hj).
    rewrite (dotr_eliminated (fst s) M' j i j t x) in HS; auto; [|split; auto|].
    2:{ intros c Hc. rewrite HM' by auto. now rewrite Z.eqb_refl. }
    rewrite (dotr_eliminated (snd s) N' j i j t y) in HS; auto; [|split; auto|].
    2:{ intros c Hc. rewrite HN' by auto. now rewrite Z.eqb_refl. }
    rewrite (Hrow i Hi Hij) in HS. now apply lxor_cancel_r in HS.
Qed.

(** ** The invariant of the Gauss-Jordan loop *)

Lemma pivot_loop_spec i s :
  in_range n i ->
  forall cnt j, i < j -> j + Z.of_nat cnt = n ->
    (fst (pivot_loop cnt n i j s) = n /\ snd (pivot_loop cnt n i j s) = s) \/
    (in_range n (fst (pivot_loop cnt n i j s)) /\ i < fst (pivot_loop cnt n i j s) /\
     cell (fst s) (fst (pivot_loop cnt n i j s)) i <> 0 /\
     snd (pivot_loop cnt n i j s)
     = for_range 0 n (swap_rows_body n i (fst (pivot_loop cnt n i j s))) s).
Proof.
  intros Hi. induction cnt as [|c IH]; intros j Hij Hc; cbn [pivot_loop].
  - left. simpl. split; auto. lia.
  - destruct (Z.eqb_spec (aget (fst s) (j * n + i)) 0) as [E|E]; cbn [negb].
    + apply IH; lia.
    + right. cbn [fst snd]. unfold in_range in *. repeat split; auto; lia.
Qed.

Lemma find_pivot_inv s0 i s s1 :
  in_range n i -> Inv T n s0 i s -> find_pivot n i s = inr s1 ->
  Inv T n s0 i s1 /\ cell (fst s1) i i <> 0.
Proof.
  intros Hi (HWF & HC & HB). unfold find_pivot.
  destruct (Z.eqb_spec (aget (fst s) (i * n + i)) 0) as [E|E].
  - assert (H := pivot_loop_spec i s Hi (Z.to_nat (n - (i + 1))) (i + 1)).
    assert (H1 : i < i + 1) by lia.
    assert (H2 : i + 1 + Z.of_nat (Z.to_nat (n - (i + 1))) = n)
      by (unfold in_range in Hi; lia).
    specialize (H H1 H2). clear H1 H2.
    destruct (pivot_loop (Z.to_nat (n - (i + 1))) n i (i + 1) s) as [j s'].
    cbn [fst snd] in H.
    destruct H as [[-> ->] | (Hj & Hij & Hnz & ->)].
    + rewrite Z.eqb_refl. discriminate.
    + destruct (Z.eqb_spec j n) as [->|_]; [unfold in_range in Hj; lia|].
      intros [= <-].
      destruct (swap_state i j s HWF Hi Hj) as (HWF' & Hcell & HS); [lia|].
      split; [split; [|split]|]; auto.
      * intros r c Hr Hc. rewrite Hcell by (auto; unfold in_range in *; lia).
        assert (Z0 : forall r', in_range n r' -> i <= r' -> cell (fst s) r' c = 0).
        { intros r' Hr' Hle. rewrite HC by auto. unfold delta.
          destruct (Z.eqb_spec r' c); auto; lia. }
        destruct (Z.eqb_spec r i) as [->|]; [|destruct (Z.eqb_spec r j) as [->|]].
        -- rewrite Z0 by (auto; lia). unfold delta. destruct (Z.eqb_spec i c); auto; lia.
        -- rewrite Z0 by (auto; lia). unfold delta. destruct (Z.eqb_spec j c); auto; lia.
        -- now apply HC.
      * intros x y Hx Hy H. apply HB; auto.
      * rewrite Hcell by auto. now rewrite Z.eqb_refl.
  - intros [= <-]. split; [split; [|split]; assumption | exact E].
Qed.

Lemma scale_row_inv s0 i s :
  in_range n i -> Inv T n s0 i s -> cell (fst s) i i <> 0 ->
  Inv T n s0 i (scale_row T n i s) /\ cell (fst (scale_row T n i s)) i i = 1.
Proof.
  intros Hi (HWF & HC & HB) Hp. unfold scale_row.
  destruct (Z.eqb_spec (aget (fst s) (i * n + i)) 1) as [E|E]; cbn [negb].
  - split; [split; [|split]; assumption | exact E].
  - assert (Hpb : byte (cell (fst s) i i)) by (apply HWF; auto).
    destruct (fld_inv T FT _ Hpb Hp) as (Ht & Ht0 & Hinv).
    destruct (scale_state i _ s HWF Hi Ht Ht0) as (HWF' & Hcell & HS).
    split; [split; [|split]|]; auto.
    + intros r c Hr Hc. rewrite Hcell by (auto; unfold in_range in *; lia).
      destruct (Z.eqb_spec r i) as [->|]; [|now apply HC].
      rewrite HC by auto. unfold delta. destruct (Z.eqb_spec i c); [lia|].
      now apply (fld_0_l T FT).
    + intros x y Hx Hy H. apply HB; auto.
    + rewrite Hcell by auto. rewrite Z.eqb_refl. exact Hinv.
Qed.

Lemma eliminate_inv s0 i s :
  in_range n i -> Inv T n s0 i s -> cell (fst s) i i = 1 ->
  Inv T n s0 (i + 1) (eliminate T n i s).
Proof.
  intros Hi HI Hp. unfold eliminate.
  destruct (for_range_inv
              (fun j s => Inv T n s0 i s /\ cell (fst s) i i = 1 /\
                 forall r, 0 <= r < j -> r <> i -> cell (fst s) r i = 0)
              0 n
              (fun j s =>
                 if negb (i =? j)
                 then let temp := aget (fst s) (j * n + i) in
                      if negb (temp =? 0)
                      then for_range 0 n (eliminate_body T n i j temp) s
                      else s
                 else s) s) as ((HWF & HC & HB) & Hp' & Hz); auto.
  - split; [exact HI | split; [exact Hp | intros; lia]].
  - intros j s' Hj ((HWF & HC & HB) & Hp' & Hz).
    destruct (Z.eqb_spec i j) as [<-|Hij]; cbn [negb].
    { split; [split; [|split]; assumption | split; [assumption|]].
      intros r Hr Hne. apply Hz; lia. }
    cbv zeta. fold (cell (fst s') j i).
    destruct (Z.eqb_spec (cell (fst s') j i) 0) as [E|E]; cbn [negb].
    { split; [split; [|split]; assumption | split; [assumption|]].
      intros r Hr Hne.
      destruct (Z.eq_dec r j) as [->|]; auto. apply Hz; lia. }
    assert (Htb : byte (cell (fst s') j i)) by (apply HWF; auto).
    destruct (eliminate_state i j _ s' HWF Hi Hj Hij Htb) as (HWF' & Hcell & HS).
    split; [split; [|split]|split]; auto.
    + intros r c Hr Hc. rewrite Hcell by (auto; unfold in_range in *; lia).
      destruct (Z.eqb_spec r j) as [->|]; [|now apply HC].
      rewrite (HC i c) by auto. unfold delta at 1. destruct (Z.eqb_spec i c); [lia|].
      rewrite fmul_0_r by auto. rewrite Z.lxor_0_r. now apply HC.
    + intros x y Hx Hy H. apply HB; auto.
    + rewrite Hcell by auto. destruct (Z.eqb_spec i j); [contradiction | auto].
    + intros r Hr Hne. rewrite Hcell by (auto; unfold in_range in *; lia).
      destruct (Z.eqb_spec r j) as [->|].
      * rewrite Hp', fmul_1_r by auto. apply Z.lxor_nilpotent.
      * apply Hz; lia.
  - split; [|split]; auto.
    intros r c Hr Hc. destruct (Z.eq_dec c i) as [->|Hne]; [|apply HC; auto; lia].
    unfold delta. destruct (Z.eqb_spec r i) as [->|]; auto.
Qed.

Lemma invert_step_inv s0 i s s' :
  in_range n i -> Inv T n s0 i s -> invert_step T n i s = inr s' -> Inv T n s0 (i + 1) s'.
Proof.
  intros Hi HI. unfold invert_step.
  destruct (find_pivot n i s) as [s1|s1] eqn:EP; [discriminate|].
  intros [= <-].
  destruct (find_pivot_inv s0 i s s1 Hi HI EP) as (HI1 & Hp1).
  destruct (scale_row_inv s0 i s1 Hi HI1 Hp1) as (HI2 & Hp2).
  now apply eliminate_inv.
Qed.

Lemma invert_loop_inv s0 : forall cnt i s s',
  0 <= i -> i + Z.of_nat cnt = n -> Inv T n s0 i s ->
  invert_loop T cnt n i s = inr s' -> Inv T n s0 n s'.
Proof.
  induction cnt as [|c IH]; intros i s s' Hi Hc HI; cbn [invert_loop].
  - intros [= <-]. assert (i = n) by lia. now subst i.
  - destruct (invert_step T n i s) as [s1|s1] eqn:ES; [discriminate|].
    apply IH; [lia | lia |].
    apply (invert_step_inv s0 i s s1); auto. unfold in_range. lia.
Qed.

(** The identity that [matrix_invert] starts its shadow from. *)
Lemma identity_init :
  bytes_mat n (for_range 0 n (fun i inv => aset inv (i * n + i) 1) (zeros (n * n))) /\
  forall r c, in_range n r -> in_range n c ->
    cell (for_range 0 n (fun i inv => aset inv (i * n + i) 1) (zeros (n * n))) r c
    = delta r c.
Proof.
  assert (Hnn : 0 <= n * n) by (apply Z.mul_nonneg_nonneg; auto).
  destruct (for_range_inv
              (fun k m => alen m = n * n /\
                 forall r c, in_range n r -> in_range n c ->
                   cell m r c = if (r =? c) && (r <? k) then 1 else 0)
              0 n (fun i inv => aset inv (i * n + i) 1) (zeros (n * n))) as (Hl & Hc); auto.
  - split; [now apply alen_zeros|]. intros r c Hr Hc. unfold ent. rewrite aget_zeros.
    unfold in_range in Hr. destruct (Z.ltb_spec r 0); [lia|]. now rewrite andb_false_r.
  - intros k m Hk (Hl & Hc). rewrite alen_aset. split; auto.
    intros r c Hr Hc'. unfold in_range in *.
    rewrite (ent_aset n n) by auto. rewrite Hc by auto.
    destruct (Z.eqb_spec k r), (Z.eqb_spec k c), (Z.eqb_spec r c),
             (Z.ltb_spec r k), (Z.ltb_spec r (k + 1)); simpl; auto; lia.
  - assert (Hd : forall r c, in_range n r -> in_range n c ->
             cell (for_range 0 n (fun i inv => aset inv (i * n + i) 1) (zeros (n * n))) r c
             = delta r c).
    { intros r c Hr Hc'. rewrite Hc by auto. unfold delta, in_range in *.
      destruct (Z.eqb_spec r c), (Z.ltb_spec r n); simpl; auto; lia. }
    split; auto. split; auto. intros r c Hr Hc'. rewrite Hd by auto. apply byte_delta.
Qed.

(** The final [memcpy(matrix, inverse, n * n)]. *)
Lemma copy_back m src :
  alen m = n * n -> alen src = n * n ->
  for_range 0 (n * n) (fun k m => aset m k (aget src k)) m = src.
Proof.
  intros Hm Hs.
  assert (Hnn : 0 <= n * n) by (apply Z.mul_nonneg_nonneg; auto).
  destruct (for_range_inv
              (fun k m' => alen m' = n * n /\ forall j, 0 <= j < k -> aget m' j = aget src j)
              0 (n * n) (fun k m => aset m k (aget src k)) m) as (Hl & Hc); auto.
  - split; auto. intros; lia.
  - intros k m' Hk (Hl & Hc). rewrite alen_aset. split; auto.
    intros j Hj. rewrite aget_aset by lia.
    destruct (Z.eqb_spec k j) as [->|]; auto. apply Hc; lia.
  - apply array_ext; [lia|]. intros k Hk. apply Hc. lia.
Qed.

(** When [matrix_invert] returns 1, what it leaves in [matrix] is a right
    inverse of what it found there. *)
Theorem matrix_invert_right_inverse A E :
  bytes_mat n A -> matrix_invert T A n = (1, E) ->
  bytes_mat n E /\
  forall r c, in_range n r -> in_range n c ->
    xsum n (fun k => cell A r k *g cell E k c) = delta r c.
Proof.
  intros HA. unfold matrix_invert.
  destruct identity_init as (HI & HId).
  set (I0 := for_range 0 n (fun i inv => aset inv (i * n + i) 1) (zeros (n * n))) in *.
  destruct (invert_loop T (Z.to_nat n) n 0 (A, I0)) as [[m inv]|[m inv]] eqn:EL;
    [discriminate|].
  intros [= <-].
  assert (HInv : Inv T n (A, I0) n (m, inv)).
  { apply (invert_loop_inv (A, I0) (Z.to_nat n) 0 (A, I0)); auto; try lia.
    split; [split; auto|split].
    - intros r c Hr Hc. lia.
    - intros x y _ _ H. exact H. }
  destruct HInv as ((HWm & HWi) & HC & HB). cbn [fst snd] in *.
  rewrite copy_back by (apply HWm || apply HWi).
  split; auto. intros r c Hr Hc.
  set (y := fun k => delta k c). set (x := fun k => cell inv k c).
  assert (Hx : vec n x) by (intros k Hk; apply HWi; auto).
  assert (Hy : vec n y) by (intros k Hk; apply byte_delta).
  assert (HS : Sol T n (m, inv) x y).
  { intros r' Hr'. cbn [fst snd].
    rewrite (dotr_identity m r' x) by (auto; intros; apply HC; auto).
    unfold y. now rewrite dotr_unit. }
  specialize (HB x y Hx Hy HS r Hr). cbn [fst snd] in HB.
  rewrite (dotr_identity I0 r y) in HB by auto.
  exact HB.
Qed.

End Invert.

(** * The coder *)

Lemma cauchy_spec T rows cols :
  0 <= rows -> 0 <= cols ->
  alen (cauchy T rows cols) = rows * cols /\
  forall i j, 0 <= i < rows -> 0 <= j < cols ->
    ent cols (cauchy T rows cols) i j
    = aget (gf_div_table T) (Z.lxor (256 * 1 + i) (rows + j)).
Proof.
  intros Hr Hc. unfold cauchy.
  set (v := fun i j => aget (gf_div_table T) (Z.lxor (256 * 1 + i) (rows + j))).
  destruct (for_range_inv
              (fun i m => alen m = rows * cols /\
                 forall r c, 0 <= r < i -> 0 <= c < cols -> ent cols m r c = v r c)
              0 rows
              (fun i m => for_range 0 cols (fun j m => aset m (i * cols + j) (v i j)) m)
              (zeros (rows * cols))) as (Hl & Hcells); auto.
  - split; [apply alen_zeros; apply Z.mul_nonneg_nonneg; auto | intros; lia].
  - intros i m Hi (Hl & Hcells).
    destruct (for_range_inv
                (fun j m' => alen m' = rows * cols /\
                   forall r c, 0 <= r < i \/ (r = i /\ 0 <= c < j) -> 0 <= c < cols ->
                               ent cols m' r c = v r c)
                0 cols (fun j m => aset m (i * cols + j) (v i j)) m) as (Hl' & Hcells'); auto.
    + split; auto. intros r c [H|H] Hc'; [now apply Hcells | lia].
    + intros j m' Hj (Hl' & Hcells'). rewrite alen_aset. split; auto.
      intros r c H Hc'. rewrite (ent_aset cols rows) by auto.
      destruct (Z.eqb_spec i r) as [<-|Hne]; simpl.
      * destruct (Z.eqb_spec j c) as [<-|Hne']; auto. apply Hcells'; auto. lia.
      * apply Hcells'; auto. lia.
    + split; auto. intros r c H Hc'. apply Hcells'; auto.
      destruct (Z.eq_dec r i); [right | left]; lia.
Qed.

(** [sub_matrix] taken from the top left corner. *)
Lemma sub_matrix_top m rmax cmax nrows ncols :
  0 <= rmax -> 0 <= cmax ->
  alen (sub_matrix m 0 0 rmax cmax nrows ncols) = rmax * cmax /\
  forall r c, 0 <= r < rmax -> 0 <= c < cmax ->
    ent cmax (sub_matrix m 0 0 rmax cmax nrows ncols) r c = aget m (r * ncols + c).
Proof.
  intros Hr Hc. unfold sub_matrix. rewrite !Z.sub_0_r.
  apply (fill_rows (fun r c => aget m (r * ncols + c))); auto.
Qed.

Lemma multiply1_spec T a ar ac b bc :
  0 <= ar -> 0 <= bc ->
  exists m, multiply1 T a ar ac b ac bc = Ok m /\
    alen m = ar * bc /\
    forall r c, 0 <= r < ar -> 0 <= c < bc ->
      ent bc m r c = xsum ac (fun i => gf_mul T (aget a (r * ac + i)) (aget b (i * bc + c))).
Proof.
  intros Hr Hc. unfold multiply1. rewrite Z.eqb_refl. cbn [negb].
  eexists. split; [reflexivity|].
  apply (fill_rows
           (fun r c => xsum ac (fun i => gf_mul T (aget a (r * ac + i)) (aget b (i * bc + c)))));
    auto.
Qed.

Lemma matrix_invert_code T m n :
  fst (matrix_invert T m n) = 0 \/ fst (matrix_invert T m n) = 1.
Proof.
  unfold matrix_invert.
  destruct (invert_loop T (Z.to_nat n) n 0 _) as [[? ?]|[? ?]]; auto.
Qed.

(** The generator matrix of a coder is systematic. *)
Lemma rs_new_systematic T K M rs :
  gf_field T ->
  rs_new T K M = Ok (Some rs) ->
  data_shards rs = K /\ parity_shards rs = M /\
  forall i j, 0 <= i < K -> 0 <= j < K ->
    aget (matrix rs) (i * K + j) = if i =? j then 1 else 0.
Proof.
  intros FT. unfold rs_new, DATA_SHARDS_MAX.
  destruct (Z.gtb_spec (K + M) 255); [discriminate|].
  destruct (Z.leb_spec K 0); [discriminate|].
  destruct (Z.leb_spec M 0); [discriminate|]. cbn [orb].
  set (vm := cauchy T (K + M) K).
  set (top := sub_matrix vm 0 0 K K (K + M) K).
  destruct (cauchy_spec T (K + M) K) as (Hlv & Hv); [lia | lia|]. fold vm in Hlv, Hv.
  destruct (sub_matrix_top vm K K (K + M) K) as (Hlt & Ht); [lia | lia|]. fold top in Hlt, Ht.
  pose proof (matrix_invert_code T top K) as Hcode.
  destruct (matrix_invert T top K) as [err E] eqn:EI. cbn [fst] in Hcode.
  destruct Hcode as [-> | ->]; [discriminate|]. cbn [Z.eqb].
  destruct (multiply1_spec T vm (K + M) K E K) as (m & Em & Hlm & Hm); [lia | lia|].
  rewrite Em. cbn [bind]. intros [= <-]. cbn [data_shards parity_shards matrix].
  split; auto. split; auto.
  assert (Htop : bytes_mat K top).
  { split; auto. intros r c Hr Hc. unfold in_range in *.
    rewrite Ht by auto. fold (ent K vm r c). rewrite Hv by lia. apply (fld_div_byte T FT). }
  destruct (matrix_invert_right_inverse T FT K ltac:(lia) top E Htop EI) as (_ & Hinv).
  intros i j Hi Hj. fold (ent K m i j). rewrite Hm by lia.
  change (if i =? j then 1 else 0) with (delta i j).
  rewrite <- (Hinv i j) by (unfold in_range; lia).
  apply xsum_ext. intros k Hk. rewrite Ht by lia. reflexivity.
Qed.

(** C4. K = 2 and M = 253 lie in the range of the claim, 1 <= K, 1 <= M,
    K + M <= 255, which is also the range the guard of [rs_new] lets
    through, and [rs_new(2, 253)] returns NULL: there is no coder and no
    identity block. The top block of [cauchy(255, 2)] is [253 0; 126 0]: at
    [rows + j = 256] the table index [256*1 + i ^ (rows + j)], read as
    [(256 + i) ^ (rows + j)], falls into row 0 of the division table, and
    [matrix_invert] returns 0 on a block with a zero column. *)
Theorem rs_new_2_253_returns_null :
  1 <= 2 /\ 1 <= 253 /\ 2 + 253 <= DATA_SHARDS_MAX /\
  after_init (fun T => rs_new T 2 253) = Ok (Ok None) /\
  after_init (fun T => sub_matrix (cauchy T 255 2) 0 0 2 2 255 2)
  = Ok [253; 0; 126; 0] /\
  after_init (fun T => fst (matrix_invert T [253; 0; 126; 0] 2)) = Ok 0.
Proof.
  split; [lia|]. split; [lia|]. split; [unfold DATA_SHARDS_MAX; lia|].
  unfold after_init. rewrite init_gf_tables. vm_compute.
  split; [|split]; reflexivity.
Qed.

(** The entry of the commented-out line of [cauchy],
    [gf_div(1, i ^ (rows + j))] with its [gf] (8-bit) arguments, gives the
    block [253 0; 126 1] for [cauchy(255, 2)], and [matrix_invert] returns 1
    on it. *)
Lemma cauchy_255_2_commented_entry :
  after_init (fun T =>
    map (fun ij => gf_div T 1 (Z.lxor (fst ij) (255 + snd ij) mod 256))
        [(0, 0); (0, 1); (1, 0); (1, 1)])
  = Ok [253; 0; 126; 1] /\
  after_init (fun T => fst (matrix_invert T [253; 0; 126; 1] 2)) = Ok 1.
Proof. unfold after_init. rewrite init_gf_tables. vm_compute. split; reflexivity. Qed.

Lemma rs_new_4_2 : rs_new TABLES 4 2 = Ok (Some rs_4_2).
Proof. vm_compute. reflexivity. Qed.

(** C10. When [erasure_count] exceeds [parity_shards], [rs_decode] returns 0
    and the memory is as it was passed in, whatever the shard pointers, the
    erasure flags and the buffers hold. *)
Theorem rs_decode_too_many_erasures T junk_sub junk_valid h shards erasures
    erasure_count shard_size :
  parity_shards (coder h) < erasure_count ->
  rs_decode T junk_sub junk_valid h shards erasures erasure_count shard_size = Ok (0, h).
Proof.
  intros H. unfold rs_decode.
  destruct (Z.ltb_spec (data_shards (coder h) + parity_shards (coder h) - erasure_count)
              (data_shards (coder h))); [reflexivity | lia].
Qed.

Lemma rs_decode_too_many_erasures_witness :
  parity_shards (coder (mk_heap rs_4_2 test_shards)) < 3 /\
  rs_decode TABLES (fun _ => 0) (fun _ => 0) (mk_heap rs_4_2 test_shards)
    [0; 1; 2; 3; 4; 5]%nat [1; 0; 1; 0; 1; 0] 3 4
  = Ok (0, mk_heap rs_4_2 test_shards).
Proof.
  split; [simpl; lia|].
  apply (rs_decode_too_many_erasures TABLES (fun _ => 0) (fun _ => 0)
           (mk_heap rs_4_2 test_shards)). simpl. lia.
Defined.

(** C1. With K = 4, M = 2, 4-byte shards and the first parity shard erased,
    [rs_decode] reads [submatrix[16..19]], outside its 16-byte block: the
    reconstruction indexes the inverted K x K matrix with the shard number,
    which is only right for data shards. With K = 1, M = 1, 64-byte shards
    and the data shard erased, [rs_decode] returns 1 and leaves shard 0 all
    zero instead of 1 .. 64: the bulk kernels go through their 64-byte path. *)
Theorem rs_decode_does_not_restore junk_sub junk_valid :
  after_init (fun T =>
    encode_erase_decode T junk_sub junk_valid 4 2 test_shards [0; 0; 0; 0; 1; 0] 1 4)
  = Ok Fault /\
  after_init (fun T =>
    match encode_erase_decode T junk_sub junk_valid 1 1
            [map (fun k => k + 1) (zrange 64); zeros 64] [1; 0] 1 64 with
    | Ok (ret, h) => Ok (ret, buf (bufs h) 0%nat)
    | Exit c => Exit c
    | Fault => Fault
    end)
  = Ok (Ok (1, zeros 64)).
Proof.
  rewrite !after_init_eq.
  split; vm_compute; reflexivity.
Qed.

(** The same round trip restores erased data shards when the shards are
    shorter than 64 bytes: the second decode test of the repository. *)
Lemma rs_decode_restores_short_data_shard junk_sub junk_valid :
  after_init (fun T =>
    match encode_erase_decode T junk_sub junk_valid 4 2 test_shards [0; 1; 0; 0; 0; 0] 1 4 with
    | Ok (ret, h) => Ok (ret, firstn 4 (bufs h))
    | Exit c => Exit c
    | Fault => Fault
    end)
  = Ok (Ok (1, firstn 4 test_shards)).
Proof. rewrite after_init_eq. vm_compute. reflexivity. Qed.

(** C3. With the coder of [rs_new(1, 1)], input shard 0 holding the byte 5
    and output shard 1, the reconstruction row is R = B . A^-1 = [245] and
    245 * 5 = 6; [rs_generic_galois_coding] returns 1, has written 6 over the
    input buffer [shards[0]] and has left the output buffer [shards[1]]
    untouched. *)
Theorem rs_generic_galois_coding_overwrites_input junk_in junk_out junk_rec :
  after_init (fun T =>
    r <- rs_new T 1 1 ;;
    match r with
    | None => Exit 1
    | Some rs =>
        out <- rs_generic_galois_coding T junk_in junk_out junk_rec
                 (mk_heap rs [[5]; [0]]) [0; 1] 1 1 1 [0; 1]%nat ;;
        Ok (fst out, bufs (snd out), gf_mul T 245 5)
    end)
  = Ok (Ok (1, [[6]; [0]], 6)).
Proof. rewrite after_init_eq. vm_compute. reflexivity. Qed.

(** With the parity shard as the only input, the input row [245] is
    invertible, but it is never copied into [input_matrix]: the call inverts
    whatever the fresh block holds, and returns 0 when that is a zero. *)
Lemma rs_generic_galois_coding_parity_input junk_out junk_rec :
  after_init (fun T =>
    r <- rs_new T 1 1 ;;
    match r with
    | None => Exit 1
    | Some rs =>
        out <- rs_generic_galois_coding T (fun _ => 0) junk_out junk_rec
                 (mk_heap rs [[0]; [6]]) [1; 0] 1 1 1 [1; 0]%nat ;;
        Ok (fst out)
    end)
  = Ok (Ok 0).
Proof. rewrite after_init_eq. vm_compute. reflexivity. Qed.

(** * Block headers *)

Lemma aget_app_l a b k : 0 <= k < alen a -> aget (a ++ b) k = aget a k.
Proof.
  unfold aget, alen. intros Hk. destruct (Z.ltb_spec k 0); [lia|].
  apply app_nth1. lia.
Qed.

Lemma aget_app_r a b k : alen a <= k -> aget (a ++ b) k = aget b (k - alen a).
Proof.
  unfold aget, alen. intros Hk. pose proof (Zle_0_nat (length a)).
  destruct (Z.ltb_spec k 0); [lia|].
  destruct (Z.ltb_spec (k - Z.of_nat (length a)) 0); [lia|].
  rewrite app_nth2 by lia. f_equal. lia.
Qed.

Lemma aget_repeat v c k : 0 <= k < Z.of_nat c -> aget (repeat v c) k = v.
Proof.
  unfold aget. intros Hk. destruct (Z.ltb_spec k 0); [lia|].
  apply nth_repeat_lt. lia.
Qed.

Lemma count_loop_step ids c :
  count_loop ids (S (S c))
  = if aget ids (Z.of_nat c) =? aget ids (Z.of_nat (S c))
    then count_loop ids (S c) else S (S c).
Proof. reflexivity. Qed.

(** [count_loop] reads no cell at or above [count]. *)
Lemma count_loop_app ids extra : forall c,
  (c <= length ids)%nat -> count_loop (ids ++ extra) c = count_loop ids c.
Proof.
  induction c as [|c IH]; intros Hc; [reflexivity|].
  destruct c as [|c']; [reflexivity|].
  rewrite !count_loop_step.
  rewrite !aget_app_l by (unfold alen; lia).
  destruct (_ =? _); [|reflexivity]. apply IH. lia.
Qed.

(** On distinct ids followed by copies of the last one, the loop stops at
    the first copy. *)
Lemma count_loop_trailing pre v :
  (forall pre' x, pre = pre' ++ [x] -> x <> v) ->
  forall r, count_loop (pre ++ repeat v (S r)) (length pre + S r) = S (length pre).
Proof.
  intros Hlast. induction r as [|r IH].
  - replace (length pre + 1)%nat with (S (length pre)) by lia.
    destruct pre as [|x0 pre0] eqn:Epre; [reflexivity|]. rewrite <- Epre in *.
    destruct (exists_last (l := pre)) as (pre' & x & E); [congruence|]. clear Epre.
    subst pre. rewrite length_app. cbn [length].
    replace (length pre' + 1)%nat with (S (length pre')) by lia.
    rewrite count_loop_step.
    assert (Hx : aget ((pre' ++ [x]) ++ repeat v 1) (Z.of_nat (length pre')) = x).
    { rewrite <- app_assoc, aget_app_r by (unfold alen; lia).
      unfold alen. rewrite Z.sub_diag. reflexivity. }
    assert (Hv : aget ((pre' ++ [x]) ++ repeat v 1) (Z.of_nat (S (length pre'))) = v).
    { rewrite aget_app_r by (unfold alen; rewrite length_app; simpl; lia).
      unfold alen. rewrite length_app. cbn [length].
      replace (Z.of_nat (S (length pre')) - Z.of_nat (length pre' + 1)) with 0 by lia.
      reflexivity. }
    rewrite Hx, Hv. specialize (Hlast pre' x eq_refl).
    destruct (Z.eqb_spec x v); [contradiction | reflexivity].
  - replace (length pre + S (S r))%nat with (S (S (length pre + r))) by lia.
    rewrite count_loop_step.
    assert (Hc : forall k, (length pre <= k < length pre + S (S r))%nat ->
                   aget (pre ++ repeat v (S (S r))) (Z.of_nat k) = v).
    { intros k Hk. rewrite aget_app_r by (unfold alen; lia).
      apply aget_repeat. unfold alen. lia. }
    rewrite !Hc by lia. rewrite Z.eqb_refl.
    replace (repeat v (S (S r))) with (repeat v (S r) ++ [v])
      by (rewrite <- repeat_cons; reflexivity).
    rewrite app_assoc, count_loop_app by (rewrite length_app, repeat_length; lia).
    replace (S (length pre + r)) with (length pre + S r)%nat by lia.
    exact IH.
Qed.

Lemma nodup_repeat v r : nodup Z.eq_dec (repeat v (S r)) = [v].
Proof.
  induction r as [|r IH]; [reflexivity|].
  change (repeat v (S (S r))) with (v :: repeat v (S r)). cbn [nodup].
  destruct (in_dec Z.eq_dec v (repeat v (S r))) as [_|Hn]; [exact IH|].
  exfalso. apply Hn. now left.
Qed.

Lemma nodup_trailing pre v r :
  NoDup (pre ++ [v]) -> nodup Z.eq_dec (pre ++ repeat v (S r)) = pre ++ [v].
Proof.
  induction pre as [|x pre IH]; intros Hnd.
  - apply nodup_repeat.
  - cbn [app] in *. inversion Hnd as [|? ? Hx Hnd']; subst. cbn [nodup].
    destruct (in_dec Z.eq_dec x (pre ++ repeat v (S r))) as [Hin|_].
    + exfalso. apply Hx. apply in_app_iff in Hin as [Hin|Hin]; apply in_app_iff.
      * now left.
      * right. apply repeat_spec in Hin. subst. now left.
    + f_equal. now apply IH.
Qed.

Lemma StronglySorted_lt_NoDup l : StronglySorted Z.lt l -> NoDup l.
Proof.
  induction 1 as [|x l Hs IH Hall]; constructor; auto.
  intros Hin. rewrite Forall_forall in Hall. specialize (Hall x Hin). lia.
Qed.

Lemma StronglySorted_lt_last pre x v :
  StronglySorted Z.lt ((pre ++ [x]) ++ [v]) -> x <> v.
Proof.
  intros Hs. apply StronglySorted_lt_NoDup in Hs.
  rewrite <- app_assoc in Hs. apply NoDup_remove_2 in Hs.
  intros ->. apply Hs. apply in_app_iff. right. now left.
Qed.

(** C8 as stated fails: these ids are sorted non-decreasing and hold seven
    distinct values, and [get_k_blocks_in_stripe] returns 8. *)
Lemma get_k_blocks_in_stripe_inner_duplicate :
  let h := mk_header (zeros 32) 1 16777216 0 0 0 [1; 1; 2; 3; 4; 5; 6; 7] 0 in
  StronglySorted Z.le (shard_ids h) /\
  get_k_blocks_in_stripe h = 8 /\
  Z.of_nat (length (nodup Z.eq_dec (shard_ids h))) = 7.
Proof.
  cbv zeta. split; [|split; reflexivity].
  cbn [shard_ids]. repeat (constructor; [|repeat constructor; lia]). constructor.
Qed.

(** C8, amended. For every header whose eight shard_ids are strictly
    increasing up to the last id, which is repeated to the end of the array,
    [get_k_blocks_in_stripe] returns the number of distinct values in
    shard_ids. *)
Theorem get_k_blocks_in_stripe_distinct h pre v r :
  shard_ids h = pre ++ repeat v (S r) ->
  length (shard_ids h) = 8%nat ->
  StronglySorted Z.lt (pre ++ [v]) ->
  get_k_blocks_in_stripe h = Z.of_nat (length (nodup Z.eq_dec (shard_ids h))).
Proof.
  intros E Hlen Hs. unfold get_k_blocks_in_stripe. rewrite E in *.
  rewrite length_app, repeat_length in Hlen.
  rewrite nodup_trailing by now apply StronglySorted_lt_NoDup.
  rewrite length_app. cbn [length].
  replace 8%nat with (length pre + S r)%nat by lia.
  rewrite count_loop_trailing; [f_equal; lia|].
  intros pre' x ->. now apply (StronglySorted_lt_last pre').
Qed.

Lemma get_k_blocks_in_stripe_distinct_witness :
  let h := mk_header (zeros 32) 1 16777216 0 0 0 [1; 2; 3; 3; 3; 3; 3; 3] 0 in
  shard_ids h = [1; 2] ++ repeat 3 (S 5) /\
  length (shard_ids h) = 8%nat /\
  StronglySorted Z.lt ([1; 2] ++ [3]) /\
  get_k_blocks_in_stripe h = 3.
Proof.
  cbv zeta.
  assert (Hs : StronglySorted Z.lt ([1; 2] ++ [3])).
  { cbn [app]. repeat (constructor; [|repeat constructor; lia]). constructor. }
  split; [reflexivity|]. split; [reflexivity|]. split; [exact Hs|].
  exact (get_k_blocks_in_stripe_distinct
           (mk_header (zeros 32) 1 16777216 0 0 0 [1; 2; 3; 3; 3; 3; 3; 3] 0)
           [1; 2] 3 5%nat eq_refl eq_refl Hs).
Defined.

(** * Spreading and unspreading *)

Lemma aget_lanes c f k :
  0 <= k < Z.of_nat c -> aget (lanes c f) k = f k.
Proof. intros Hk. unfold lanes. now apply aget_map_zrange. Qed.

Lemma store16_spec a off v :
  0 <= off -> off + 16 <= alen a ->
  alen (_mm_storeu_si128 a off v) = alen a /\
  forall j, aget (_mm_storeu_si128 a off v) j
            = if (off <=? j) && (j <? off + 16) then aget v (j - off) else aget a j.
Proof.
  intros Hoff Hlen. unfold _mm_storeu_si128.
  destruct (for_range_inv
              (fun k a' => alen a' = alen a /\
                 forall j, aget a' j
                           = if (off <=? j) && (j <? off + k) then aget v (j - off) else aget a j)
              0 16 (fun k a => aset a (off + k) (aget v k)) a) as (Hl & Hc); auto; try lia.
  - split; auto. intros j.
    destruct (Z.leb_spec off j), (Z.ltb_spec j (off + 0)); cbn [andb]; auto; lia.
  - intros k a' Hk (Hl & Hc). rewrite alen_aset. split; auto.
    intros j. rewrite aget_aset by lia. rewrite Hc.
    destruct (Z.eqb_spec (off + k) j) as [<-|Hne].
    + destruct (Z.leb_spec off (off + k)), (Z.ltb_spec (off + k) (off + (k + 1)));
        cbn [andb]; try lia. f_equal. lia.
    + destruct (Z.leb_spec off j), (Z.ltb_spec j (off + k)), (Z.ltb_spec j (off + (k + 1)));
        cbn [andb]; auto; lia.
Qed.

(** Sixteen bytes copied from [b + boff] to [a + off]. *)
Lemma copy16_spec a off b boff :
  0 <= off -> off + 16 <= alen a ->
  alen (_mm_storeu_si128 a off (_mm_loadu_si128 b boff)) = alen a /\
  forall j, aget (_mm_storeu_si128 a off (_mm_loadu_si128 b boff)) j
            = if (off <=? j) && (j <? off + 16) then aget b (boff + (j - off)) else aget a j.
Proof.
  intros Hoff Hlen. destruct (store16_spec a off (_mm_loadu_si128 b boff) Hoff Hlen) as (Hl & Hc).
  split; auto. intros j. rewrite Hc.
  destruct (Z.leb_spec off j), (Z.ltb_spec j (off + 16)); cbn [andb]; auto.
  unfold _mm_loadu_si128.
  rewrite (aget_lanes 16 (fun k => aget b (boff + k))) by (cbn; lia). reflexivity.
Qed.

(** The [offset] array after its initialisation loop. *)
Lemma offset_init k :
  0 <= k ->
  alen (for_range 0 k (fun i offset => aset offset i 0) (zeros k)) = k /\
  forall i, aget (for_range 0 k (fun i offset => aset offset i 0) (zeros k)) i = 0.
Proof.
  intros Hk.
  apply (for_range_inv (fun (_ : Z) a => alen a = k /\ forall i, aget a i = 0)); auto.
  - split; [now apply alen_zeros | intros; apply aget_zeros].
  - intros i a Hi (Hl & Hz). rewrite alen_aset. split; auto.
    intros j. rewrite aget_aset by lia. destruct (i =? j); auto.
Qed.

Lemma size_t_small v : 0 <= v < 2 ^ 64 -> size_t v = v.
Proof. intros H. unfold size_t. now apply Z.mod_small. Qed.

Section Spread.

Variable k q : Z.
Hypothesis Hk : 1 <= k.
Hypothesis Hkmax : 16 * k <= 2147483647.
Hypothesis Hq : 0 <= q.
Hypothesis Hsize : 16 * k * q < 2 ^ 64.

Lemma logical_chunk t i d : 0 <= d < 16 -> logical k i (16 * t + d) = 16 * k * t + 16 * i + d.
Proof.
  intros Hd. unfold logical.
  replace (16 * t + d) with (d + t * 16) by lia.
  rewrite Z.div_add, Z.mod_add by lia.
  rewrite Z.div_small, Z.mod_small by lia. lia.
Qed.

Variable input : list Z.
Variable dest0 : list (list Z).
Hypothesis Hdest0 : Z.of_nat (length dest0) = k.
Hypothesis Hblocks : forall i, 0 <= i < k -> alen (nth (Z.to_nat i) dest0 []) = 16 * q.

Lemma spread_round_inv t s :
  0 <= t < q -> spread_inv k q input dest0 t 0 s -> spread_inv k q input dest0 (t + 1) 0 (spread_round input k s).
Proof.
  intros Ht H0. unfold spread_round.
  assert (G : spread_inv k q input dest0 t k
                (for_range 0 k
                   (fun i s =>
                      let '(src, offset, dest) := s in
                      let data := _mm_loadu_si128 input src in
                      let dest := upd_nth (Z.to_nat i) dest
                                    (_mm_storeu_si128 (nth (Z.to_nat i) dest [])
                                       (aget offset i) data) in
                      (src + 16, aset offset i (aget offset i + 16), dest)) s)).
  { apply (for_range_inv (fun i s => spread_inv k q input dest0 t i s)); auto; [lia|].
    intros i [[src offset] dest] Hi (Hsrc & Hlo & Hoff & Hld & Hlb & Hcells).
    cbv zeta. unfold spread_inv.
    assert (Hoi : aget offset i = 16 * t).
    { rewrite Hoff by lia. destruct (Z.ltb_spec i i); [lia | reflexivity]. }
    destruct (copy16_spec (nth (Z.to_nat i) dest []) (16 * t) input src) as (Hl16 & Hc16);
      [lia | rewrite Hlb by lia; lia |].
    rewrite Hoi.
    split; [lia|]. split; [now rewrite alen_aset|].
    split; [|split; [now rewrite upd_nth_length|split]].
    - intros i' Hi'. rewrite aget_aset by lia.
      destruct (Z.eqb_spec i i') as [<-|Hne].
      + destruct (Z.ltb_spec i (i + 1)); lia.
      + rewrite Hoff by lia.
        destruct (Z.ltb_spec i' i), (Z.ltb_spec i' (i + 1)); lia.
    - intros i' Hi'. destruct (Z.eq_dec i i') as [<-|Hne].
      + rewrite nth_upd_nth_same by lia. rewrite Hl16. apply Hlb; lia.
      + rewrite nth_upd_nth_other by lia. apply Hlb; lia.
    - intros i' j Hi' Hj. destruct (Z.eq_dec i i') as [<-|Hne].
      + rewrite nth_upd_nth_same by lia. rewrite Hc16.
        destruct (Z.ltb_spec i (i + 1)); [|lia].
        destruct (Z.leb_spec (16 * t) j), (Z.ltb_spec j (16 * t + 16)); cbn [andb]; try lia.
        * replace j with (16 * t + (j - 16 * t)) at 2 by lia.
          rewrite logical_chunk by lia. f_equal. lia.
        * apply Hcells; [lia|]. destruct (Z.ltb_spec i i); lia.
      + rewrite nth_upd_nth_other by lia. apply Hcells; [lia|].
        destruct (Z.ltb_spec i' i), (Z.ltb_spec i' (i + 1)); lia. }
  destruct (for_range 0 k _ s) as [[src offset] dest].
  destruct G as (Hsrc & Hlo & Hoff & Hld & Hlb & Hcells).
  unfold spread_inv. split; [lia|]. split; auto. split; [|split; [auto|split; auto]].
  - intros i' Hi'. rewrite Hoff by auto.
    destruct (Z.ltb_spec i' k), (Z.ltb_spec i' 0); lia.
  - intros i' j Hi' Hj. apply Hcells; auto.
    destruct (Z.ltb_spec i' k), (Z.ltb_spec i' 0); lia.
Qed.

Lemma spread_loop_runs : forall fuel t s,
  0 <= t <= q -> (Z.to_nat (q - t) <= fuel)%nat -> spread_inv k q input dest0 t 0 s ->
  exists dest, spread_loop fuel input k (16 * k * (q - t)) s = Some dest /\
    (forall i, 0 <= i < k -> alen (nth (Z.to_nat i) dest []) = 16 * q) /\
    forall i j, 0 <= i < k -> 0 <= j < 16 * q ->
      aget (nth (Z.to_nat i) dest []) j = aget input (logical k i j).
Proof.
  assert (H16 : size_t (16 * k) = 16 * k).
  { apply size_t_small. change (2 ^ 64) with 18446744073709551616. lia. }
  induction fuel as [|f IH]; intros t s Ht Hf Hinv.
  - assert (t = q) by lia. subst t. cbn [spread_loop].
    rewrite H16, Z.sub_diag, Z.mul_0_r.
    destruct (Z.geb_spec 0 (16 * k)); [lia|].
    destruct s as [[src offset] dest]. destruct Hinv as (_ & _ & _ & _ & Hld & Hcells).
    exists dest. split; auto. split; auto. intros i j Hi Hj. apply Hcells; auto.
    destruct (Z.ltb_spec i 0); lia.
  - cbn [spread_loop]. rewrite H16.
    destruct (Z.eq_dec t q) as [->|Hne].
    + rewrite Z.sub_diag, Z.mul_0_r.
      destruct (Z.geb_spec 0 (16 * k)); [lia|].
      destruct s as [[src offset] dest]. destruct Hinv as (_ & _ & _ & _ & Hld & Hcells).
      exists dest. split; auto. split; auto. intros i j Hi Hj. apply Hcells; auto.
      destruct (Z.ltb_spec i 0); lia.
    + destruct (Z.geb_spec (16 * k * (q - t)) (16 * k)); [|nia].
      rewrite size_t_small by nia.
      replace (16 * k * (q - t) - 16 * k) with (16 * k * (q - (t + 1))) by lia.
      apply IH; [lia | lia |]. apply spread_round_inv; auto. lia.
Qed.

(** [spread_data] returns, and byte [j] of shard [i] is the byte of the
    logical k buffer at [logical k i j]. *)
Lemma spread_data_spec :
  exists dest, spread_data input dest0 (16 * k * q) k = Some dest /\
    (forall i, 0 <= i < k -> alen (nth (Z.to_nat i) dest []) = 16 * q) /\
    forall i j, 0 <= i < k -> 0 <= j < 16 * q ->
      aget (nth (Z.to_nat i) dest []) j = aget input (logical k i j).
Proof.
  unfold spread_data. destruct (offset_init k) as (Hlo & Hoz); [lia|].
  destruct (spread_loop_runs (Z.to_nat (16 * k * q)) 0
              (0, for_range 0 k (fun i offset => aset offset i 0) (zeros k), dest0))
    as (dest & E & Hl & Hc).
  - lia.
  - nia.
  - unfold spread_inv. split; [lia|]. split; auto. split; [|split; [auto|split; auto]].
    + intros i Hi. rewrite Hoz. destruct (Z.ltb_spec i 0); lia.
    + intros i j Hi Hj. destruct (Z.ltb_spec i 0); lia.
  - rewrite Z.sub_0_r in E. exists dest. auto.
Qed.

End Spread.

(** ** Unspreading what was spread *)

Section Unspread.

Variable k q : Z.
Hypothesis Hk : 1 <= k.
Hypothesis Hkmax : 16 * k <= 2147483647.
Hypothesis Hq : 0 <= q.
Hypothesis Hsize : 16 * k * q < 2 ^ 64.

Variable input : list Z.
Variable src_blocks : list (list Z).
Hypothesis Hsrc_cells : forall i j, 0 <= i < k -> 0 <= j < 16 * q ->
  aget (nth (Z.to_nat i) src_blocks []) j = aget input (logical k i j).

Variable output0 : list Z.
Hypothesis Hout : alen output0 = 16 * k * q.

Lemma unspread_round_inv t s :
  0 <= t < q -> unspread_inv k q input t 0 s -> unspread_inv k q input (t + 1) 0 (unspread_round src_blocks k s).
Proof.
  intros Ht H0. unfold unspread_round.
  assert (G : unspread_inv k q input t k
                (for_range 0 k
                   (fun i s =>
                      let '(dest, offset, output) := s in
                      let data := _mm_loadu_si128 (nth (Z.to_nat i) src_blocks [])
                                    (aget offset i) in
                      let output := _mm_storeu_si128 output dest data in
                      (dest + 16, aset offset i (aget offset i + 16), output)) s)).
  { apply (for_range_inv (fun i s => unspread_inv k q input t i s)); auto; [lia|].
    intros i [[dest offset] output] Hi (Hdest & Hlo & Hoff & Hlout & Hcells).
    cbv zeta. unfold unspread_inv.
    assert (Hoi : aget offset i = 16 * t).
    { rewrite Hoff by lia. destruct (Z.ltb_spec i i); [lia | reflexivity]. }
    destruct (copy16_spec output dest (nth (Z.to_nat i) src_blocks []) (16 * t))
      as (Hl16 & Hc16); [nia | nia |].
    rewrite Hoi.
    split; [lia|]. split; [now rewrite alen_aset|]. split; [|split; [lia|]].
    - intros i' Hi'. rewrite aget_aset by lia.
      destruct (Z.eqb_spec i i') as [<-|Hne].
      + destruct (Z.ltb_spec i (i + 1)); lia.
      + rewrite Hoff by lia.
        destruct (Z.ltb_spec i' i), (Z.ltb_spec i' (i + 1)); lia.
    - intros j Hj. rewrite Hc16.
      destruct (Z.leb_spec dest j), (Z.ltb_spec j (dest + 16)); cbn [andb]; try lia.
      + rewrite Hsrc_cells by lia. rewrite logical_chunk by lia. f_equal. lia.
      + apply Hcells. lia. }
  destruct (for_range 0 k _ s) as [[dest offset] output].
  destruct G as (Hdest & Hlo & Hoff & Hlout & Hcells).
  unfold unspread_inv. split; [lia|]. split; auto. split; [|split; auto].
  - intros i' Hi'. rewrite Hoff by auto.
    destruct (Z.ltb_spec i' k), (Z.ltb_spec i' 0); lia.
  - intros j Hj. apply Hcells. lia.
Qed.

Lemma unspread_loop_runs : forall fuel t s,
  0 <= t <= q -> (Z.to_nat (q - t) <= fuel)%nat -> unspread_inv k q input t 0 s ->
  exists output, unspread_loop fuel src_blocks k (16 * k * (q - t)) s = Some output /\
    alen output = 16 * k * q /\
    forall j, 0 <= j < 16 * k * q -> aget output j = aget input j.
Proof.
  assert (H16 : size_t (16 * k) = 16 * k).
  { apply size_t_small. change (2 ^ 64) with 18446744073709551616. lia. }
  assert (Hdone : forall s, unspread_inv k q input q 0 s ->
            alen (snd s) = 16 * k * q /\
            forall j, 0 <= j < 16 * k * q -> aget (snd s) j = aget input j).
  { intros [[dest offset] output] (_ & _ & _ & Hlout & Hcells). cbn [snd].
    split; auto. intros j Hj. apply Hcells. lia. }
  induction fuel as [|f IH]; intros t s Ht Hf Hinv.
  - assert (t = q) by lia. subst t. cbn [unspread_loop].
    rewrite H16, Z.sub_diag, Z.mul_0_r.
    destruct (Z.geb_spec 0 (16 * k)); [lia|].
    exists (snd s). split; auto.
  - cbn [unspread_loop]. rewrite H16.
    destruct (Z.eq_dec t q) as [->|Hne].
    + rewrite Z.sub_diag, Z.mul_0_r.
      destruct (Z.geb_spec 0 (16 * k)); [lia|].
      exists (snd s). split; auto.
    + destruct (Z.geb_spec (16 * k * (q - t)) (16 * k)); [|nia].
      rewrite size_t_small by nia.
      replace (16 * k * (q - t) - 16 * k) with (16 * k * (q - (t + 1))) by lia.
      apply IH; [lia | lia |]. apply unspread_round_inv; auto. lia.
Qed.

Lemma unspread_data_spec :
  alen input = 16 * k * q ->
  unspread_data src_blocks output0 (16 * k * q) k = Some input.
Proof.
  intros Hin. unfold unspread_data. destruct (offset_init k) as (Hlo & Hoz); [lia|].
  destruct (unspread_loop_runs (Z.to_nat (16 * k * q)) 0
              (0, for_range 0 k (fun i offset => aset offset i 0) (zeros k), output0))
    as (output & E & Hl & Hc).
  - lia.
  - nia.
  - unfold unspread_inv. split; [lia|]. split; auto. split; [|split; auto].
    + intros i Hi. rewrite Hoz. destruct (Z.ltb_spec i 0); lia.
    + intros j Hj. lia.
  - rewrite Z.sub_0_r in E. rewrite E. f_equal.
    apply array_ext; [lia|]. intros j Hj. apply Hc. lia.
Qed.

End Unspread.

(** C7. For every K >= 1 and every buffer x whose length is a multiple of
    16 K, spreading x over K shard buffers of length |x| / K and unspreading
    them yields x. K is an [int] with 16 K in range, |x| a [size_t]. *)
Theorem unspread_spread x blocks out k q :
  1 <= k -> 16 * k <= 2147483647 -> 0 <= q ->
  alen x = 16 * k * q -> alen x < 2 ^ 64 ->
  Z.of_nat (length blocks) = k ->
  (forall i, 0 <= i < k -> alen (nth (Z.to_nat i) blocks []) = 16 * q) ->
  alen out = alen x ->
  exists shards,
    spread_data x blocks (alen x) k = Some shards /\
    unspread_data shards out (alen x) k = Some x.
Proof.
  intros Hk Hkmax Hq Hx Hsz Hb Hbl Hout. rewrite Hx in *.
  destruct (spread_data_spec k q Hk Hkmax Hq Hsz x blocks Hb Hbl) as (shards & E & Hl & Hc).
  exists shards. split; auto.
  apply (unspread_data_spec k q Hk Hkmax Hq Hsz x shards Hc out Hout Hx).
Qed.

Lemma unspread_spread_witness :
  1 <= 3 /\ 16 * 3 <= 2147483647 /\ 0 <= 2 /\
  alen (zrange 96) = 16 * 3 * 2 /\ alen (zrange 96) < 2 ^ 64 /\
  Z.of_nat (length [zeros 32; zeros 32; zeros 32]) = 3 /\
  alen (zeros 96) = alen (zrange 96) /\
  exists shards,
    spread_data (zrange 96) [zeros 32; zeros 32; zeros 32] (alen (zrange 96)) 3 = Some shards /\
    unspread_data shards (zeros 96) (alen (zrange 96)) 3 = Some (zrange 96).
Proof.
  assert (Hbl : forall i, 0 <= i < 3 ->
            alen (nth (Z.to_nat i) [zeros 32; zeros 32; zeros 32] []) = 16 * 2).
  { intros i Hi. assert (Hc : i = 0 \/ i = 1 \/ i = 2) by lia.
    destruct Hc as [-> | [-> | ->]]; reflexivity. }
  repeat (split; [vm_compute; congruence|]).
  apply (unspread_spread (zrange 96) [zeros 32; zeros 32; zeros 32] (zeros 96) 3 2);
    try (vm_compute; congruence). exact Hbl.
Defined.

(** * The header's shard count and block offsets *)

Lemma count_loop_spec ids : forall c, (1 <= c)%nat ->
  (1 <= count_loop ids c <= c)%nat /\
  (forall i, Z.of_nat (count_loop ids c) - 1 <= i < Z.of_nat c ->
             aget ids i = aget ids (Z.of_nat c - 1)) /\
  ((1 < count_loop ids c)%nat ->
   aget ids (Z.of_nat (count_loop ids c) - 2) <> aget ids (Z.of_nat c - 1)).
Proof.
  induction c as [|c IH]; intros Hc; [lia|].
  destruct c as [|c'].
  - cbn [count_loop]. split; [lia|]. split; [|lia].
    intros i Hi. f_equal. lia.
  - rewrite count_loop_step.
    destruct (Z.eqb_spec (aget ids (Z.of_nat c')) (aget ids (Z.of_nat (S c')))) as [E|E].
    + destruct IH as (B & Run & Stop); [lia|].
      replace (Z.of_nat (S c') - 1) with (Z.of_nat c') in Run, Stop by lia.
      replace (Z.of_nat (S (S c')) - 1) with (Z.of_nat (S c')) by lia.
      split; [lia|]. split.
      * intros i Hi. destruct (Z.eq_dec i (Z.of_nat (S c'))) as [->|Hne]; [reflexivity|].
        rewrite <- E. apply Run. lia.
      * intros Hk. rewrite <- E. now apply Stop.
    + split; [lia|]. split.
      * intros i Hi. f_equal. lia.
      * intros _.
        replace (Z.of_nat (S (S c')) - 2) with (Z.of_nat c') by lia.
        replace (Z.of_nat (S (S c')) - 1) with (Z.of_nat (S c')) by lia.
        exact E.
Qed.

Lemma get_k_blocks_run h :
  1 <= get_k_blocks_in_stripe h <= 8 /\
  forall i, get_k_blocks_in_stripe h - 1 <= i < 8 ->
    aget (shard_ids h) i = aget (shard_ids h) 7.
Proof.
  unfold get_k_blocks_in_stripe.
  destruct (count_loop_spec (shard_ids h) 8) as (B & Run & _); [lia|].
  split; [lia|]. intros i Hi. apply Run. lia.
Qed.

(** For every header, [get_k_blocks_in_stripe] returns a [k] between 1 and
    8 such that the cells [k - 1 .. 7] of shard_ids all hold the last id
    and, when [k > 1], the cell [k - 2] holds another one: 8 less the
    length of the run of copies that ends the array. Cells before that run
    are never compared with each other. *)
Theorem get_k_blocks_in_stripe_trailing_run h :
  1 <= get_k_blocks_in_stripe h <= 8 /\
  (forall i, get_k_blocks_in_stripe h - 1 <= i < 8 ->
     aget (shard_ids h) i = aget (shard_ids h) 7) /\
  (1 < get_k_blocks_in_stripe h ->
     aget (shard_ids h) (get_k_blocks_in_stripe h - 2) <> aget (shard_ids h) 7).
Proof.
  unfold get_k_blocks_in_stripe.
  destruct (count_loop_spec (shard_ids h) 8) as (B & Run & Stop); [lia|].
  split; [lia|]. split.
  - intros i Hi. apply Run. lia.
  - intros Hk. apply Stop. lia.
Qed.

Lemma to_int_small v : 0 <= v < 2 ^ 31 -> to_int v = v.
Proof.
  intros Hv. unfold to_int. rewrite Z.mod_small by lia.
  destruct (Z.ltb_spec v (2 ^ 31)); lia.
Qed.

Lemma offset_loop_found ids shard_id : forall cnt i0 off i,
  i0 <= i < i0 + Z.of_nat cnt ->
  aget ids i = shard_id ->
  (forall j, i0 <= j < i -> aget ids j <> shard_id) ->
  0 <= off -> off + 4096 * Z.of_nat cnt < 2 ^ 64 ->
  offset_loop ids shard_id cnt i0 off = Ok (to_int (off + 4096 * (i - i0))).
Proof.
  induction cnt as [|c IH]; intros i0 off i Hi Hv Hfirst Hoff Hmax; [lia|].
  cbn [offset_loop].
  destruct (Z.eqb_spec (aget ids i0) shard_id) as [E|E].
  - destruct (Z.eq_dec i i0) as [->|Hne].
    + do 2 f_equal. lia.
    + exfalso. apply (Hfirst i0); [lia|exact E].
  - assert (Hne : i <> i0) by (intros ->; contradiction).
    rewrite size_t_small by lia.
    rewrite (IH (i0 + 1) (off + 4096) i); [do 2 f_equal; lia|lia|exact Hv| |lia|lia].
    intros j Hj. apply Hfirst. lia.
Qed.

Lemma offset_loop_absent ids shard_id : forall cnt i0 off,
  (forall j, i0 <= j < i0 + Z.of_nat cnt -> aget ids j <> shard_id) ->
  offset_loop ids shard_id cnt i0 off = Exit 134.
Proof.
  induction cnt as [|c IH]; intros i0 off Habs; [reflexivity|].
  cbn [offset_loop].
  destruct (Z.eqb_spec (aget ids i0) shard_id) as [E|E].
  - exfalso. apply (Habs i0); [lia|exact E].
  - apply IH. intros j Hj. apply Habs. lia.
Qed.

(** Either some cell among the first [n] holds [v], and then there is a
    first one, or none does. *)
Lemma first_or_absent ids v : forall n : nat,
  (exists i, 0 <= i < Z.of_nat n /\ aget ids i = v /\
             forall j, 0 <= j < i -> aget ids j <> v) \/
  (forall j, 0 <= j < Z.of_nat n -> aget ids j <> v).
Proof.
  induction n as [|n IH]; [right; intros j Hj; lia|].
  destruct IH as [(i & Hi & Hv & Hf)|Habs].
  - left. exists i. split; [lia|]. split; assumption.
  - destruct (Z.eq_dec (aget ids (Z.of_nat n)) v) as [E|E].
    + left. exists (Z.of_nat n). split; [lia|]. split; [exact E|].
      intros j Hj. apply Habs. lia.
    + right. intros j Hj. destruct (Z.eq_dec j (Z.of_nat n)) as [->|Hne]; [exact E|].
      apply Habs. lia.
Qed.

(** The first index of an id lies below the shard count. *)
Lemma first_index_below_k h v i :
  first_index (shard_ids h) v i -> i < get_k_blocks_in_stripe h.
Proof.
  intros (Hi & Hv & Hfirst).
  destruct (get_k_blocks_run h) as (Hk & Run).
  destruct (Z.lt_ge_cases i (get_k_blocks_in_stripe h)) as [Hlt|Hge]; [exact Hlt|].
  exfalso. apply (Hfirst (get_k_blocks_in_stripe h - 1)); [lia|].
  rewrite Run by lia. rewrite <- Hv. symmetry. apply Run. lia.
Qed.

Lemma first_index_unique ids v i i' :
  first_index ids v i -> first_index ids v i' -> i = i'.
Proof.
  intros (Hi & Hv & Hf) (Hi' & Hv' & Hf').
  destruct (Z.lt_trichotomy i i') as [Hlt|[E|Hgt]]; [|exact E|].
  - exfalso. apply (Hf' i); [lia|exact Hv].
  - exfalso. apply (Hf i'); [lia|exact Hv'].
Qed.

Lemma compute_offset_found h stripe shard_id i :
  0 <= stripe <= 65535 ->
  first_index (shard_ids h) shard_id i ->
  compute_offset_to_block h stripe shard_id
  = Ok (4096 * (get_k_blocks_in_stripe h * stripe + i)).
Proof.
  intros Hs Hfi.
  pose proof (first_index_below_k h shard_id i Hfi) as Hik.
  destruct Hfi as (Hi & Hv & Hfirst).
  destruct (get_k_blocks_run h) as (Hk & _).
  assert (Hprod : 0 <= get_k_blocks_in_stripe h * stripe <= 8 * 65535) by nia.
  unfold compute_offset_to_block. cbv zeta.
  rewrite size_t_small by lia.
  rewrite (offset_loop_found _ _ 8 0 _ i); [|lia|exact Hv| |lia|lia].
  - rewrite to_int_small by lia. f_equal. lia.
  - intros j Hj. apply Hfirst. lia.
Qed.

Lemma compute_offset_ok_inv h stripe shard_id o :
  0 <= stripe <= 65535 ->
  compute_offset_to_block h stripe shard_id = Ok o ->
  exists i, first_index (shard_ids h) shard_id i /\
            o = 4096 * (get_k_blocks_in_stripe h * stripe + i).
Proof.
  intros Hs Hok.
  destruct (first_or_absent (shard_ids h) shard_id 8) as [(i & Hi & Hv & Hf)|Habs].
  - assert (Hfi : first_index (shard_ids h) shard_id i).
    { split; [lia|]. split; assumption. }
    exists i. split; [exact Hfi|].
    rewrite (compute_offset_found h stripe shard_id i Hs Hfi) in Hok. congruence.
  - unfold compute_offset_to_block in Hok. cbv zeta in Hok.
    rewrite offset_loop_absent in Hok; [discriminate|].
    intros j Hj. apply Habs. lia.
Qed.

(** For a stripe number in [0 .. 65535], [compute_offset_to_block] returns
    [4096 * (k * stripe_number + i)], where [k] is the header's shard count
    and [i] the first index of shard_ids that holds shard_id, and that
    index is below [k]; when no cell of shard_ids holds shard_id, the call
    ends the process through [abort()]. *)
Theorem compute_offset_to_block_result h stripe shard_id :
  0 <= stripe <= 65535 ->
  (forall i, first_index (shard_ids h) shard_id i ->
     compute_offset_to_block h stripe shard_id
     = Ok (4096 * (get_k_blocks_in_stripe h * stripe + i)) /\
     i < get_k_blocks_in_stripe h) /\
  ((forall i, 0 <= i < 8 -> aget (shard_ids h) i <> shard_id) <->
   compute_offset_to_block h stripe shard_id = Exit 134).
Proof.
  intros Hs. split.
  - intros i Hfi. split.
    + now apply compute_offset_found.
    + now apply (first_index_below_k h shard_id).
  - split.
    + intros Habs. unfold compute_offset_to_block. cbv zeta.
      apply offset_loop_absent. intros j Hj. apply Habs. lia.
    + intros Hexit i Hi Hv.
      destruct (first_or_absent (shard_ids h) shard_id 8) as [(i' & Hi' & Hv' & Hf')|Habs].
      * assert (Hfi : first_index (shard_ids h) shard_id i').
        { split; [lia|]. split; assumption. }
        rewrite (compute_offset_found h stripe shard_id i' Hs Hfi) in Hexit.
        discriminate.
      * apply (Habs i); [lia|exact Hv].
Qed.

Lemma compute_offset_to_block_result_witness :
  let h := mk_header (zeros 32) 1 16777216 0 0 0 [10; 20; 30; 30; 30; 30; 30; 30] 0 in
  0 <= 5 <= 65535 /\
  compute_offset_to_block h 5 30 = Ok (4096 * (3 * 5 + 2)) /\
  compute_offset_to_block h 5 40 = Exit 134.
Proof.
  cbv zeta. assert (Hs : 0 <= 5 <= 65535) by lia.
  split; [exact Hs|].
  destruct (compute_offset_to_block_result
              (mk_header (zeros 32) 1 16777216 0 0 0 [10; 20; 30; 30; 30; 30; 30; 30] 0)
              5 30 Hs) as (Hfound & _).
  split; [|reflexivity].
  apply (Hfound 2).
  unfold first_index. split; [lia|]. split; [reflexivity|].
  intros j Hj. assert (j = 0 \/ j = 1) as [-> | ->] by lia; discriminate.
Defined.

(** For stripe numbers in [0 .. 65535] and any header, two calls of
    [compute_offset_to_block] that return the same offset were made with
    the same stripe number and the same shard_id. *)
Theorem compute_offset_to_block_injective h stripe1 shard1 stripe2 shard2 o :
  0 <= stripe1 <= 65535 -> 0 <= stripe2 <= 65535 ->
  compute_offset_to_block h stripe1 shard1 = Ok o ->
  compute_offset_to_block h stripe2 shard2 = Ok o ->
  stripe1 = stripe2 /\ shard1 = shard2.
Proof.
  intros Hs1 Hs2 H1 H2.
  destruct (compute_offset_ok_inv h stripe1 shard1 o Hs1 H1) as (i1 & Hf1 & E1).
  destruct (compute_offset_ok_inv h stripe2 shard2 o Hs2 H2) as (i2 & Hf2 & E2).
  pose proof (first_index_below_k h shard1 i1 Hf1) as B1.
  pose proof (first_index_below_k h shard2 i2 Hf2) as B2.
  destruct Hf1 as (Hi1 & Hv1 & _). destruct Hf2 as (Hi2 & Hv2 & _).
  destruct (get_k_blocks_run h) as (Hk & _).
  assert (Hs : stripe1 = stripe2) by nia.
  split; [exact Hs|].
  assert (Hi : i1 = i2) by nia.
  rewrite <- Hv1, <- Hv2, Hi. reflexivity.
Qed.

Lemma compute_offset_to_block_injective_witness :
  let h := mk_header (zeros 32) 1 16777216 0 0 0 [10; 20; 30; 30; 30; 30; 30; 30] 0 in
  compute_offset_to_block h 5 30 = Ok 69632 /\ 5 = 5 /\ 30 = 30.
Proof.
  cbv zeta. split; [reflexivity|].
  apply (compute_offset_to_block_injective
           (mk_header (zeros 32) 1 16777216 0 0 0 [10; 20; 30; 30; 30; 30; 30; 30] 0)
           5 30 5 30 69632); try lia; reflexivity.
Defined.

(** * The checksum: blockaio.c *)

(** ** Words *)

Lemma word_high n x m : 0 <= n -> word n x -> n <= m -> Z.testbit x m = false.
Proof.
  intros Hn Hx Hm. rewrite <- (Z.mod_small x (2 ^ n)) by exact Hx.
  apply Z.mod_pow2_bits_high. lia.
Qed.

Lemma word_of_bits n x : 0 <= n -> x mod 2 ^ n = x -> word n x.
Proof.
  intros Hn E. unfold word. rewrite <- E. apply Z.mod_pos_bound. lia.
Qed.

Lemma word_lxor n a b : 0 <= n -> word n a -> word n b -> word n (Z.lxor a b).
Proof.
  intros Hn Ha Hb. apply word_of_bits; [exact Hn|].
  apply Z.bits_inj'. intros m Hm.
  destruct (Z.lt_ge_cases m n) as [Hlt|Hge].
  - apply Z.mod_pow2_bits_low. lia.
  - rewrite Z.mod_pow2_bits_high by lia.
    rewrite Z.lxor_spec, (word_high n a m), (word_high n b m) by assumption.
    reflexivity.
Qed.

Lemma word_le n n' x : 0 <= n <= n' -> word n x -> word n' x.
Proof.
  intros Hn (H0 & H1). split; [exact H0|].
  apply Z.lt_le_trans with (2 ^ n); [exact H1|].
  apply Z.pow_le_mono_r; lia.
Qed.

(** A byte and a multiple of 256 add without carry. *)
Lemma byte_add_lxor b x : byte b -> b + 256 * x = Z.lxor b (2 ^ 8 * x).
Proof.
  intros Hb. change 256 with (2 ^ 8). apply Z.add_nocarry_lxor.
  apply Z.bits_inj'. intros m Hm. rewrite Z.land_spec, Z.bits_0.
  destruct (Z.lt_ge_cases m 8) as [Hlt|Hge].
  - rewrite (Z.mul_comm (2 ^ 8)), Z.mul_pow2_bits_low by lia.
    apply andb_false_r.
  - rewrite (word_high 8 b m); [reflexivity|lia|exact Hb|exact Hge].
Qed.

(** ** One step of the register *)

Lemma crc32c_step_lxor a b :
  crc32c_step (Z.lxor a b) = Z.lxor (crc32c_step a) (crc32c_step b).
Proof.
  unfold crc32c_step. rewrite Z.shiftr_lxor.
  rewrite <- !Z.bit0_odd, Z.lxor_spec.
  apply Z.bits_inj'. intros n Hn. rewrite !Z.lxor_spec.
  destruct (Z.testbit a 0), (Z.testbit b 0); cbn [xorb];
    rewrite ?Z.bits_0;
    destruct (Z.testbit (Z.shiftr a 1) n), (Z.testbit (Z.shiftr b 1) n),
             (Z.testbit 2197175160 n); reflexivity.
Qed.

Lemma crc32c_step_double t : crc32c_step (2 * t) = t.
Proof.
  unfold crc32c_step. rewrite Z.odd_mul. cbn [Z.odd andb].
  rewrite Z.lxor_0_r, Z.shiftr_div_pow2 by lia.
  change (2 ^ 1) with 2. rewrite Z.mul_comm. apply Z.div_mul. lia.
Qed.

Lemma crc32c_step_word c : word 32 c -> word 32 (crc32c_step c).
Proof.
  intros Hc. unfold crc32c_step. apply word_lxor; [lia| |].
  - rewrite Z.shiftr_div_pow2 by lia. change (2 ^ 1) with 2.
    unfold word in *. split; [apply Z.div_pos; lia|].
    apply Z.div_lt_upper_bound; lia.
  - destruct (Z.odd c); unfold word; lia.
Qed.

(** The top bit of the register after a step is the bit that was shifted
    out: the polynomial has its top bit set. *)
Lemma crc32c_step_top c : word 32 c -> Z.testbit (crc32c_step c) 31 = Z.odd c.
Proof.
  intros Hc. unfold crc32c_step. rewrite Z.lxor_spec, Z.shiftr_spec by lia.
  rewrite (word_high 32 c (31 + 1)); [|lia|exact Hc|lia].
  destruct (Z.odd c); reflexivity.
Qed.

Lemma crc32c_step_inj a b :
  word 32 a -> word 32 b -> crc32c_step a = crc32c_step b -> a = b.
Proof.
  intros Ha Hb E.
  assert (Hodd : Z.odd a = Z.odd b).
  { rewrite <- (crc32c_step_top a Ha), <- (crc32c_step_top b Hb), E. reflexivity. }
  unfold crc32c_step in E. rewrite Hodd in E.
  apply lxor_cancel_r in E.
  rewrite !Z.shiftr_div_pow2 in E by lia. change (2 ^ 1) with 2 in E.
  rewrite (Z.div_mod a 2), (Z.div_mod b 2), E by lia.
  rewrite !Zmod_odd, Hodd. reflexivity.
Qed.

Lemma iter_step_lxor : forall n a b,
  Nat.iter n crc32c_step (Z.lxor a b)
  = Z.lxor (Nat.iter n crc32c_step a) (Nat.iter n crc32c_step b).
Proof.
  induction n as [|n IH]; intros a b; [reflexivity|].
  rewrite !Nat.iter_succ, IH. apply crc32c_step_lxor.
Qed.

Lemma iter_step_shift : forall n t,
  Nat.iter n crc32c_step (2 ^ Z.of_nat n * t) = t.
Proof.
  induction n as [|n IH]; intros t.
  - change (1 * t = t). lia.
  - rewrite Nat.iter_succ_r.
    replace (2 ^ Z.of_nat (S n) * t) with (2 * (2 ^ Z.of_nat n * t)).
    + rewrite crc32c_step_double. apply IH.
    + rewrite Nat2Z.inj_succ, Z.pow_succ_r by lia. lia.
Qed.

Lemma iter_step_word : forall n c, word 32 c -> word 32 (Nat.iter n crc32c_step c).
Proof.
  induction n as [|n IH]; intros c Hc; [exact Hc|].
  rewrite Nat.iter_succ. apply crc32c_step_word, IH, Hc.
Qed.

Lemma iter_step_inj : forall n a b,
  word 32 a -> word 32 b ->
  Nat.iter n crc32c_step a = Nat.iter n crc32c_step b -> a = b.
Proof.
  induction n as [|n IH]; intros a b Ha Hb E; [exact E|].
  rewrite !Nat.iter_succ in E.
  apply crc32c_step_inj in E; [|apply iter_step_word; assumption..].
  now apply IH.
Qed.

(** ** Bytes in the register *)

Lemma byte_word32 b : byte b -> word 32 b.
Proof. unfold byte, word. lia. Qed.

Lemma crc32_u8_eq c b : _mm_crc32_u8 c b = Nat.iter 8 crc32c_step (Z.lxor c b).
Proof. reflexivity. Qed.

Lemma crc32c_bytes_cons c b r :
  crc32c_bytes c (b :: r) = crc32c_bytes (_mm_crc32_u8 c b) r.
Proof. reflexivity. Qed.

Lemma crc32c_bytes_nil c : crc32c_bytes c [] = c.
Proof. reflexivity. Qed.

Lemma le_value_cons b r : le_value (b :: r) = b + 256 * le_value r.
Proof. reflexivity. Qed.

Lemma iter_step_shift8 t : Nat.iter 8 crc32c_step (2 ^ 8 * t) = t.
Proof. exact (iter_step_shift 8 t). Qed.

Lemma crc32_u8_word c b : word 32 c -> byte b -> word 32 (_mm_crc32_u8 c b).
Proof.
  intros Hc Hb. rewrite crc32_u8_eq.
  apply iter_step_word, word_lxor; [lia|exact Hc|now apply byte_word32].
Qed.

Lemma crc32c_bytes_word : forall bs c,
  word 32 c -> Forall byte bs -> word 32 (crc32c_bytes c bs).
Proof.
  induction bs as [|b r IH]; intros c Hc Hbs; [exact Hc|].
  inversion Hbs; subst. rewrite crc32c_bytes_cons.
  apply IH; [now apply crc32_u8_word|assumption].
Qed.

Lemma crc32c_bytes_app c a b :
  crc32c_bytes c (a ++ b) = crc32c_bytes (crc32c_bytes c a) b.
Proof. unfold crc32c_bytes. apply fold_left_app. Qed.

Lemma le_value_word : forall bs,
  Forall byte bs -> word (8 * Z.of_nat (length bs)) (le_value bs).
Proof.
  induction bs as [|b r IH]; intros Hbs.
  - unfold word. cbn. lia.
  - inversion Hbs as [|? ? Hb Hr]; subst. specialize (IH Hr).
    unfold word in *. cbn [le_value fold_right length].
    fold (le_value r).
    replace (8 * Z.of_nat (S (length r))) with (8 + 8 * Z.of_nat (length r)) by lia.
    rewrite Z.pow_add_r by lia. change (2 ^ 8) with 256.
    unfold byte in Hb. nia.
Qed.

Lemma le_value_inj : forall a b,
  length a = length b -> Forall byte a -> Forall byte b ->
  le_value a = le_value b -> a = b.
Proof.
  induction a as [|x a IH]; intros [|y b] Hlen Ha Hb E; try discriminate; [reflexivity|].
  inversion Ha as [|? ? Hx Ha']; inversion Hb as [|? ? Hy Hb']; subst.
  cbn [le_value fold_right] in E. fold (le_value a) in E. fold (le_value b) in E.
  unfold byte in Hx, Hy.
  assert (x = y /\ le_value a = le_value b) as (-> & E') by lia.
  f_equal. apply IH; [now inversion Hlen|assumption..].
Qed.

(** The register after a list of bytes taken one at a time is the register
    after one operand of as many bits: what [_mm_crc32_u64] does with eight
    bytes. *)
Lemma crc32c_bytes_accumulate : forall bs c,
  Forall byte bs ->
  crc32c_bytes c bs = crc32_accumulate (8 * length bs) c (le_value bs).
Proof.
  induction bs as [|b r IH]; intros c Hbs.
  - unfold crc32_accumulate. cbn. now rewrite Z.lxor_0_r.
  - inversion Hbs as [|? ? Hb Hr]; subst.
    rewrite crc32c_bytes_cons, (IH _ Hr), crc32_u8_eq, le_value_cons.
    unfold crc32_accumulate. cbn [length].
    replace (8 * S (length r))%nat with (8 * length r + 8)%nat by lia.
    rewrite Nat.iter_add. f_equal.
    rewrite byte_add_lxor by exact Hb.
    rewrite <- Z.lxor_assoc.
    rewrite (iter_step_lxor 8 (Z.lxor c b) (2 ^ 8 * le_value r)).
    rewrite iter_step_shift8. reflexivity.
Qed.

(** Two different runs of at most four bytes leave different registers. *)
Lemma crc32c_bytes_window c w w' :
  word 32 c -> Forall byte w -> Forall byte w' ->
  length w = length w' -> (length w <= 4)%nat ->
  crc32c_bytes c w = crc32c_bytes c w' -> w = w'.
Proof.
  intros Hc Hw Hw' Hlen H4 E.
  rewrite !crc32c_bytes_accumulate in E by assumption.
  unfold crc32_accumulate in E. rewrite <- Hlen in E.
  assert (W : forall l, Forall byte l -> (length l <= 4)%nat -> word 32 (le_value l)).
  { intros l Hl H. apply (word_le (8 * Z.of_nat (length l))); [lia|].
    now apply le_value_word. }
  apply iter_step_inj in E.
  - apply le_value_inj; try assumption.
    apply (lxor_cancel_r _ _ c). now rewrite !(Z.lxor_comm _ c).
  - apply word_lxor; [lia|exact Hc|now apply W].
  - apply word_lxor; [lia|exact Hc|apply W; [assumption|lia]].
Qed.

(** Different registers stay different, whatever bytes follow. *)
Lemma crc32c_bytes_inj : forall bs c c',
  word 32 c -> word 32 c' -> Forall byte bs ->
  crc32c_bytes c bs = crc32c_bytes c' bs -> c = c'.
Proof.
  induction bs as [|b r IH]; intros c c' Hc Hc' Hbs E; [exact E|].
  inversion Hbs as [|? ? Hb Hr]; subst.
  rewrite !crc32c_bytes_cons in E.
  apply IH in E; [|now apply crc32_u8_word..|exact Hr].
  rewrite !crc32_u8_eq in E.
  apply iter_step_inj in E;
    [|apply word_lxor; [lia|assumption|now apply byte_word32]..].
  now apply lxor_cancel_r in E.
Qed.

Lemma not32_word x : word 32 x -> word 32 (not32 x).
Proof. intros Hx. apply word_lxor; [lia|exact Hx|unfold word; lia]. Qed.

Lemma not32_involutive x : not32 (not32 x) = x.
Proof. unfold not32. now rewrite Z.lxor_assoc, Z.lxor_nilpotent, Z.lxor_0_r. Qed.

Lemma not32_inj x y : not32 x = not32 y -> x = y.
Proof. intros E. now apply lxor_cancel_r in E. Qed.

(** ** The loops of [crc32c_sse42] *)

Lemma firstn_add_skipn (l : list Z) : forall n m,
  firstn (n + m) l = firstn n l ++ firstn m (skipn n l).
Proof.
  intros n m.
  rewrite <- (firstn_skipn n (firstn (n + m) l)) at 1.
  rewrite firstn_firstn, <- firstn_skipn_comm.
  replace (Nat.min n (n + m)) with n by lia. reflexivity.
Qed.

Lemma bytes_firstn n : forall l, Forall byte l -> Forall byte (firstn n l).
Proof.
  induction n as [|n IH]; intros [|x l] H; cbn [firstn]; try constructor.
  - now inversion H.
  - apply IH. now inversion H.
Qed.

Lemma bytes_skipn n : forall l, Forall byte l -> Forall byte (skipn n l).
Proof.
  induction n as [|n IH]; intros [|x l] H; cbn [skipn]; try assumption.
  apply IH. now inversion H.
Qed.

Lemma aget_skipn data cur (k : nat) :
  0 <= cur -> aget data (cur + Z.of_nat k) = nth k (skipn (Z.to_nat cur) data) 0.
Proof.
  intros Hc. rewrite nth_skipn. unfold aget.
  destruct (Z.ltb_spec (cur + Z.of_nat k) 0); [lia|]. f_equal. lia.
Qed.

Lemma load64_le_value data cur :
  0 <= cur -> cur + 8 <= alen data ->
  load64 data cur = le_value (firstn 8 (skipn (Z.to_nat cur) data)).
Proof.
  intros Hc Hlen. unfold load64. cbn [fold_right].
  change (cur + 0) with (cur + Z.of_nat 0). change (cur + 1) with (cur + Z.of_nat 1).
  change (cur + 2) with (cur + Z.of_nat 2). change (cur + 3) with (cur + Z.of_nat 3).
  change (cur + 4) with (cur + Z.of_nat 4). change (cur + 5) with (cur + Z.of_nat 5).
  change (cur + 6) with (cur + Z.of_nat 6). change (cur + 7) with (cur + Z.of_nat 7).
  rewrite !aget_skipn by exact Hc.
  assert (H8 : (8 <= length (skipn (Z.to_nat cur) data))%nat).
  { rewrite length_skipn. unfold alen in Hlen. lia. }
  destruct (skipn (Z.to_nat cur) data)
    as [|x0 [|x1 [|x2 [|x3 [|x4 [|x5 [|x6 [|x7 rest]]]]]]]]; cbn [length] in H8; try lia.
  reflexivity.
Qed.

Lemma load32_le_value data cur :
  0 <= cur -> cur + 4 <= alen data ->
  load32 data cur = le_value (firstn 4 (skipn (Z.to_nat cur) data)).
Proof.
  intros Hc Hlen. unfold load32. cbn [fold_right].
  change (cur + 0) with (cur + Z.of_nat 0). change (cur + 1) with (cur + Z.of_nat 1).
  change (cur + 2) with (cur + Z.of_nat 2). change (cur + 3) with (cur + Z.of_nat 3).
  rewrite !aget_skipn by exact Hc.
  assert (H4 : (4 <= length (skipn (Z.to_nat cur) data))%nat).
  { rewrite length_skipn. unfold alen in Hlen. lia. }
  destruct (skipn (Z.to_nat cur) data)
    as [|x0 [|x1 [|x2 [|x3 rest]]]]; cbn [length] in H4; try lia.
  reflexivity.
Qed.

Lemma crc32_u64_eq c v : _mm_crc32_u64 c v = crc32_accumulate 64 c v.
Proof. reflexivity. Qed.

Section CrcLoops.

Variable data : list Z.
Variable c0 L : Z.
Hypothesis Hbytes : Forall byte data.
Hypothesis Hc0 : word 32 c0.
Hypothesis HL : 0 <= L <= alen data.

Lemma crc_inv_byte crc cur len :
  crc_inv data c0 L (crc, cur, len) -> len <> 0 ->
  crc_inv data c0 L (_mm_crc32_u8 crc (aget data cur), cur + 1, len - 1).
Proof.
  intros (H1 & H2 & H3 & ->) Hlen. unfold crc_inv.
  split; [lia|]. split; [lia|]. split; [lia|].
  replace (Z.to_nat (cur + 1)) with (Z.to_nat cur + 1)%nat by lia.
  rewrite firstn_add_skipn, crc32c_bytes_app.
  pose proof (aget_skipn data cur 0 H1) as E. rewrite Z.add_0_r in E. rewrite E.
  assert (Hn : (1 <= length (skipn (Z.to_nat cur) data))%nat).
  { rewrite length_skipn. unfold alen in HL. lia. }
  destruct (skipn (Z.to_nat cur) data) as [|x rest]; cbn [length] in Hn; [lia|].
  cbn [firstn nth]. rewrite crc32c_bytes_cons, crc32c_bytes_nil. reflexivity.
Qed.

Lemma crc_inv_word8 crc cur len :
  crc_inv data c0 L (crc, cur, len) -> 8 <= len ->
  crc_inv data c0 L
    (_mm_crc32_u64 crc (load64 data cur) mod 2 ^ 32, cur + 8, len - 8).
Proof.
  intros (H1 & H2 & H3 & ->) Hlen. unfold crc_inv.
  split; [lia|]. split; [lia|]. split; [lia|].
  replace (Z.to_nat (cur + 8)) with (Z.to_nat cur + 8)%nat by lia.
  rewrite firstn_add_skipn, crc32c_bytes_app.
  set (seen := crc32c_bytes c0 (firstn (Z.to_nat cur) data)).
  set (cells := firstn 8 (skipn (Z.to_nat cur) data)).
  assert (Hseen : word 32 seen).
  { apply crc32c_bytes_word; [exact Hc0|now apply bytes_firstn]. }
  assert (Hcells : Forall byte cells) by now apply bytes_firstn, bytes_skipn.
  assert (Hlen8 : length cells = 8%nat).
  { unfold cells. rewrite length_firstn, length_skipn. unfold alen in HL. lia. }
  assert (E64 : _mm_crc32_u64 seen (le_value cells) = crc32c_bytes seen cells).
  { rewrite (crc32c_bytes_accumulate cells seen Hcells), Hlen8.
    change (8 * 8)%nat with 64%nat. apply crc32_u64_eq. }
  rewrite load64_le_value by lia. fold cells.
  rewrite E64. apply Z.mod_small. now apply crc32c_bytes_word.
Qed.

Lemma crc_head_inv addr : forall fuel s,
  crc_inv data c0 L s -> crc_inv data c0 L (crc_head fuel addr data s).
Proof.
  induction fuel as [|f IH]; intros [[crc cur] len] Hinv; [exact Hinv|].
  cbn [crc_head].
  destruct (Z.eqb_spec len 0) as [E|E]; cbn [negb andb]; [exact Hinv|].
  destruct (negb _); [|exact Hinv].
  apply IH, crc_inv_byte; assumption.
Qed.

Lemma crc_words_inv : forall fuel s,
  crc_inv data c0 L s -> crc_inv data c0 L (crc_words fuel data s).
Proof.
  induction fuel as [|f IH]; intros [[crc cur] len] Hinv; [exact Hinv|].
  cbn [crc_words].
  destruct (Z.geb_spec len 8) as [E|E]; [|exact Hinv].
  apply IH, crc_inv_word8; [exact Hinv|lia].
Qed.

Lemma crc_tail_done : forall fuel s,
  crc_inv data c0 L s -> snd s <= Z.of_nat fuel ->
  fst (fst (crc_tail fuel data s)) = crc32c_bytes c0 (firstn (Z.to_nat L) data).
Proof.
  induction fuel as [|f IH]; intros [[crc cur] len] Hinv Hfuel; cbn [snd] in Hfuel.
  - destruct Hinv as (H1 & H2 & H3 & ->). cbn [crc_tail fst].
    do 3 f_equal. lia.
  - cbn [crc_tail].
    destruct (Z.eqb_spec len 0) as [E|E]; cbn [negb].
    + destruct Hinv as (H1 & H2 & H3 & ->). cbn [fst]. do 3 f_equal. lia.
    + apply IH; [now apply crc_inv_byte|cbn [snd]; lia].
Qed.

Lemma crc_inv_length s : crc_inv data c0 L s -> 0 <= snd s <= L.
Proof. destruct s as [[crc cur] len]. intros (H1 & H2 & H3 & _). cbn [snd]. lia. Qed.

End CrcLoops.

(** [crc32c_sse42] leaves in the register what the byte instruction alone
    would leave, wherever the buffer lies. *)
Lemma crc32c_sse42_bytewise addr data L prev :
  Forall byte data -> word 32 prev -> 0 <= L <= alen data ->
  crc32c_sse42 addr data L prev
  = not32 (crc32c_bytes (not32 prev) (firstn (Z.to_nat L) data)).
Proof.
  intros Hbytes Hprev HL. unfold crc32c_sse42. cbv zeta. f_equal.
  assert (Hc0 : word 32 (not32 prev)) by now apply not32_word.
  assert (Hinv0 : crc_inv data (not32 prev) L (not32 prev, 0, L)).
  { unfold crc_inv. split; [lia|]. split; [lia|]. split; [lia|]. reflexivity. }
  pose proof (crc_head_inv data (not32 prev) L HL addr (Z.to_nat L) _ Hinv0) as Hinv1.
  pose proof (crc_words_inv data (not32 prev) L Hbytes Hc0 HL (Z.to_nat L) _ Hinv1) as Hinv2.
  apply (crc_tail_done data (not32 prev) L HL); [exact Hinv2|].
  pose proof (crc_inv_length data (not32 prev) L _ Hinv2). lia.
Qed.

Lemma crc32c_sse42_whole addr data prev :
  Forall byte data -> word 32 prev ->
  crc32c_sse42 addr data (alen data) prev = not32 (crc32c_bytes (not32 prev) data).
Proof.
  intros Hbytes Hprev.
  rewrite crc32c_sse42_bytewise; [|assumption..|unfold alen; lia].
  unfold alen. rewrite Nat2Z.id, firstn_all. reflexivity.
Qed.

(** Checksums in pieces. *)
(** The checksum of a buffer made of [a] followed by [b] is the checksum of
    [b] taken with the checksum of [a] as previousCrc32, and none of the
    three depends on the address of its buffer: the bytes before the first
    8-byte boundary, the 8-byte words and the bytes left over give what the
    byte instruction alone would. *)
Theorem crc32c_sse42_chained addr addr1 addr2 a b prev :
  Forall byte a -> Forall byte b -> 0 <= prev < 2 ^ 32 ->
  crc32c_sse42 addr (a ++ b) (alen a + alen b) prev
  = crc32c_sse42 addr2 b (alen b) (crc32c_sse42 addr1 a (alen a) prev).
Proof.
  intros Ha Hb Hprev.
  assert (Hw : word 32 prev) by exact Hprev.
  replace (alen a + alen b) with (alen (a ++ b))
    by (unfold alen; rewrite length_app; lia).
  rewrite (crc32c_sse42_whole addr (a ++ b) prev); [|now apply Forall_app|exact Hw].
  rewrite (crc32c_sse42_whole addr1 a prev Ha Hw).
  rewrite (crc32c_sse42_whole addr2 b _ Hb).
  - rewrite not32_involutive, crc32c_bytes_app. reflexivity.
  - apply not32_word, crc32c_bytes_word; [now apply not32_word|exact Ha].
Qed.

Lemma crc32c_sse42_chained_witness :
  crc32c_sse42 0 ([49; 50; 51; 52; 53] ++ [54; 55; 56; 57])
    (alen [49; 50; 51; 52; 53] + alen [54; 55; 56; 57]) 0
  = crc32c_sse42 3 [54; 55; 56; 57] (alen [54; 55; 56; 57])
      (crc32c_sse42 6 [49; 50; 51; 52; 53] (alen [49; 50; 51; 52; 53]) 0).
Proof.
  apply crc32c_sse42_chained;
    [repeat (apply Forall_cons; [unfold byte; lia|]); apply Forall_nil..|lia].
Defined.

(** The register model reproduces the check value of CRC-32C: the checksum
    of the nine characters "123456789" is 0xE3069283, at any alignment. *)
Lemma crc32c_check_value :
  crc32c_sse42 0 [49; 50; 51; 52; 53; 54; 55; 56; 57] 9 0 = 0xE3069283 /\
  crc32c_sse42 5 [49; 50; 51; 52; 53; 54; 55; 56; 57] 9 0 = 0xE3069283.
Proof. split; vm_compute; reflexivity. Qed.

(** ** Blocks *)

Lemma validate_block_accepts addr blk :
  validate_block addr blk = 1 ->
  crc32c_sse42 (addr + 4) (skipn 4 blk) (4096 - 4) 0 = block_checksum blk.
Proof.
  unfold validate_block. cbv zeta.
  destruct (Z.eqb_spec (crc32c_sse42 (addr + 4) (skipn 4 blk) (4096 - 4) 0)
                       (block_checksum blk)) as [E|E]; cbn [negb]; [auto|discriminate].
Qed.

Lemma validate_block_rejects addr blk :
  crc32c_sse42 (addr + 4) (skipn 4 blk) (4096 - 4) 0 <> block_checksum blk ->
  validate_block addr blk = 0.
Proof.
  unfold validate_block. cbv zeta.
  destruct (Z.eqb_spec (crc32c_sse42 (addr + 4) (skipn 4 blk) (4096 - 4) 0)
                       (block_checksum blk)) as [E|E]; cbn [negb]; [contradiction|auto].
Qed.

Lemma block_payload_crc addr blk :
  Forall byte blk -> length blk = 4096%nat ->
  crc32c_sse42 (addr + 4) (skipn 4 blk) (4096 - 4) 0
  = not32 (crc32c_bytes (not32 0) (skipn 4 blk)).
Proof.
  intros Hb Hlen.
  replace (4096 - 4) with (alen (skipn 4 blk))
    by (unfold alen; rewrite length_skipn; lia).
  apply crc32c_sse42_whole; [now apply bytes_skipn|unfold word; lia].
Qed.

Lemma block_checksum_le blk :
  length blk = 4096%nat -> block_checksum blk = le_value (firstn 4 blk).
Proof.
  intros Hlen. unfold block_checksum.
  rewrite load32_le_value; [reflexivity|lia|unfold alen; lia].
Qed.

(** A damaged block is rejected. *)
(** For a 4096-byte block that [validate_block] accepts, every block that
    differs from it only within a run of at most four consecutive bytes,
    the run lying after the checksum field or inside it, is rejected,
    wherever the two blocks lie in memory. *)
Theorem validate_block_detects_short_burst addr addr' pre w w' post :
  Forall byte (pre ++ w ++ post) -> Forall byte w' ->
  length (pre ++ w ++ post) = 4096%nat ->
  length w' = length w -> (length w <= 4)%nat -> w' <> w ->
  (4 <= length pre)%nat \/ (length pre + length w <= 4)%nat ->
  validate_block addr (pre ++ w ++ post) = 1 ->
  validate_block addr' (pre ++ w' ++ post) = 0.
Proof.
  intros Hb Hw' Hlen Hlw H4 Hne Hpos Hok.
  apply Forall_app in Hb. destruct Hb as (Hpre & Hb).
  apply Forall_app in Hb. destruct Hb as (Hw & Hpost).
  assert (Hb : Forall byte (pre ++ w ++ post)) by (repeat (apply Forall_app; split); assumption).
  assert (Hb' : Forall byte (pre ++ w' ++ post)) by (repeat (apply Forall_app; split); assumption).
  assert (Hlen' : length (pre ++ w' ++ post) = 4096%nat).
  { rewrite !length_app in *. lia. }
  apply validate_block_accepts in Hok.
  apply validate_block_rejects.
  rewrite block_payload_crc in * by assumption.
  rewrite block_checksum_le in * by assumption.
  destruct Hpos as [Hpay|Hsum].
  - (* the run lies in the payload *)
    assert (Hf : forall x, firstn 4 (pre ++ x) = firstn 4 pre).
    { intros x. rewrite firstn_app.
      replace (4 - length pre)%nat with 0%nat by lia. cbn [firstn]. apply app_nil_r. }
    assert (Hs : forall x, skipn 4 (pre ++ x) = skipn 4 pre ++ x).
    { intros x. rewrite skipn_app.
      replace (4 - length pre)%nat with 0%nat by lia. reflexivity. }
    rewrite Hf, Hs in *. intros E. rewrite <- Hok in E.
    apply not32_inj in E. rewrite !crc32c_bytes_app in E.
    assert (W0 : word 32 (crc32c_bytes (not32 0) (skipn 4 pre))).
    { apply crc32c_bytes_word; [unfold word, not32; cbn; lia|now apply bytes_skipn]. }
    apply crc32c_bytes_inj in E;
      [|apply crc32c_bytes_word; assumption..|exact Hpost].
    apply Hne. apply (crc32c_bytes_window _ w' w W0); try assumption. lia.
  - (* the run lies in the checksum field *)
    assert (Hs : forall x, length x = length w ->
                 skipn 4 (pre ++ x ++ post) = skipn (4 - length pre - length w) post).
    { intros x Hx. rewrite !skipn_app, Hx.
      rewrite (skipn_all2 pre) by lia. rewrite (skipn_all2 x) by lia. reflexivity. }
    assert (Hf : forall x, length x = length w ->
                 firstn 4 (pre ++ x ++ post)
                 = pre ++ x ++ firstn (4 - length pre - length w) post).
    { intros x Hx. rewrite !firstn_app, Hx.
      rewrite (firstn_all2 pre) by lia. rewrite (firstn_all2 x) by lia. reflexivity. }
    rewrite (Hs w eq_refl), (Hf w eq_refl) in Hok.
    rewrite (Hs w' Hlw), (Hf w' Hlw). rewrite Hok. intros E.
    apply le_value_inj in E.
    + apply app_inv_head, app_inv_tail in E. apply Hne. symmetry. exact E.
    + rewrite !length_app. lia.
    + repeat (apply Forall_app; split); try assumption. now apply bytes_firstn.
    + repeat (apply Forall_app; split); try assumption. now apply bytes_firstn.
Qed.

Lemma bytes_forallb l :
  forallb (fun x => (0 <=? x) && (x <? 256)) l = true -> Forall byte l.
Proof.
  intros H. apply Forall_forall. intros x Hx.
  rewrite forallb_forall in H. specialize (H x Hx). unfold byte. lia.
Qed.

Lemma validate_block_detects_short_burst_witness :
  validate_block 0 ([110; 88; 50; 167] ++ [0] ++ zeros 4091) = 1 /\
  validate_block 8 ([110; 88; 50; 167] ++ [1] ++ zeros 4091) = 0.
Proof.
  assert (Hok : validate_block 0 ([110; 88; 50; 167] ++ [0] ++ zeros 4091) = 1)
    by (vm_compute; reflexivity).
  split; [exact Hok|].
  apply (validate_block_detects_short_burst 0 8 [110; 88; 50; 167] [0] [1] (zeros 4091)).
  - apply bytes_forallb. vm_compute. reflexivity.
  - apply bytes_forallb. reflexivity.
  - vm_compute. reflexivity.
  - reflexivity.
  - cbn [length]. lia.
  - discriminate.
  - left. cbn [length]. lia.
  - exact Hok.
Defined.

(** * Sizes that are not a multiple of 16 k *)

Lemma spread_loop_stop fuel input k sz s :
  sz < size_t (16 * k) -> spread_loop fuel input k sz s = Some (snd s).
Proof.
  intros H. destruct fuel; cbn [spread_loop];
    destruct (Z.geb_spec sz (size_t (16 * k))); (lia || reflexivity).
Qed.

Lemma spread_loop_go f input k sz s :
  size_t (16 * k) <= sz ->
  spread_loop (S f) input k sz s
  = spread_loop f input k (size_t (sz - 16 * k)) (spread_round input k s).
Proof.
  intros H. cbn [spread_loop].
  destruct (Z.geb_spec sz (size_t (16 * k))); (lia || reflexivity).
Qed.

Lemma unspread_loop_stop fuel src k sz s :
  sz < size_t (16 * k) -> unspread_loop fuel src k sz s = Some (snd s).
Proof.
  intros H. destruct fuel; cbn [unspread_loop];
    destruct (Z.geb_spec sz (size_t (16 * k))); (lia || reflexivity).
Qed.

Lemma unspread_loop_go f src k sz s :
  size_t (16 * k) <= sz ->
  unspread_loop (S f) src k sz s
  = unspread_loop f src k (size_t (sz - 16 * k)) (unspread_round src k s).
Proof.
  intros H. cbn [unspread_loop].
  destruct (Z.geb_spec sz (size_t (16 * k))); (lia || reflexivity).
Qed.

Section Tail.

Variable k r : Z.
Hypothesis Hk : 1 <= k.
Hypothesis Hkmax : 16 * k <= 2147483647.
Hypothesis Hr : 0 <= r < 16 * k.

Lemma size_t_round : size_t (16 * k) = 16 * k.
Proof. apply size_t_small. change (2 ^ 64) with 18446744073709551616. lia. Qed.

(** The rounds do not depend on the [r] bytes beyond the last whole round. *)
Lemma spread_loop_tail input : forall fuel fuel' n s,
  0 <= n -> 16 * k * n + r < 2 ^ 64 ->
  (Z.to_nat n <= fuel)%nat -> (Z.to_nat n <= fuel')%nat ->
  spread_loop fuel input k (16 * k * n + r) s = spread_loop fuel' input k (16 * k * n) s.
Proof.
  induction fuel as [|f IH]; intros fuel' n s Hn Hsz Hf Hf'.
  - assert (n = 0) by lia. subst n.
    rewrite !spread_loop_stop by (rewrite size_t_round; lia). reflexivity.
  - destruct (Z.eq_dec n 0) as [->|Hne].
    + rewrite !spread_loop_stop by (rewrite size_t_round; lia). reflexivity.
    + destruct fuel' as [|f']; [lia|].
      rewrite !spread_loop_go by (rewrite size_t_round; nia).
      rewrite !size_t_small by nia.
      replace (16 * k * n + r - 16 * k) with (16 * k * (n - 1) + r) by lia.
      replace (16 * k * n - 16 * k) with (16 * k * (n - 1)) by lia.
      apply IH; lia.
Qed.

Lemma unspread_loop_tail src : forall fuel fuel' n s,
  0 <= n -> 16 * k * n + r < 2 ^ 64 ->
  (Z.to_nat n <= fuel)%nat -> (Z.to_nat n <= fuel')%nat ->
  unspread_loop fuel src k (16 * k * n + r) s = unspread_loop fuel' src k (16 * k * n) s.
Proof.
  induction fuel as [|f IH]; intros fuel' n s Hn Hsz Hf Hf'.
  - assert (n = 0) by lia. subst n.
    rewrite !unspread_loop_stop by (rewrite size_t_round; lia). reflexivity.
  - destruct (Z.eq_dec n 0) as [->|Hne].
    + rewrite !unspread_loop_stop by (rewrite size_t_round; lia). reflexivity.
    + destruct fuel' as [|f']; [lia|].
      rewrite !unspread_loop_go by (rewrite size_t_round; nia).
      rewrite !size_t_small by nia.
      replace (16 * k * n + r - 16 * k) with (16 * k * (n - 1) + r) by lia.
      replace (16 * k * n - 16 * k) with (16 * k * (n - 1)) by lia.
      apply IH; lia.
Qed.

Variable q : Z.
Hypothesis Hq : 0 <= q.
Hypothesis Hsize : 16 * k * q + r < 2 ^ 64.

Lemma spread_data_tail input blocks :
  spread_data input blocks (16 * k * q + r) k = spread_data input blocks (16 * k * q) k.
Proof. unfold spread_data. apply spread_loop_tail; nia. Qed.

Lemma unspread_data_tail src output :
  unspread_data src output (16 * k * q + r) k = unspread_data src output (16 * k * q) k.
Proof. unfold unspread_data. apply unspread_loop_tail; nia. Qed.

Variable input : list Z.
Variable src_blocks : list (list Z).
Hypothesis Hsrc_cells : forall i j, 0 <= i < k -> 0 <= j < 16 * q ->
  aget (nth (Z.to_nat i) src_blocks []) j = aget input (logical k i j).

Variable output0 : list Z.
Hypothesis Hout : 16 * k * q <= alen output0.

Lemma unspread_round_tail_inv t s :
  0 <= t < q -> unspread_tail_inv k q input output0 t 0 s ->
  unspread_tail_inv k q input output0 (t + 1) 0 (unspread_round src_blocks k s).
Proof.
  intros Ht H0. unfold unspread_round.
  assert (G : unspread_tail_inv k q input output0 t k
                (for_range 0 k
                   (fun i s =>
                      let '(dest, offset, output) := s in
                      let data := _mm_loadu_si128 (nth (Z.to_nat i) src_blocks [])
                                    (aget offset i) in
                      let output := _mm_storeu_si128 output dest data in
                      (dest + 16, aset offset i (aget offset i + 16), output)) s)).
  { apply (for_range_inv (fun i s => unspread_tail_inv k q input output0 t i s)); auto; [lia|].
    intros i [[dest offset] output] Hi (Hdest & Hlo & Hoff & Hlout & Hcells & Hrest).
    cbv zeta. unfold unspread_tail_inv.
    assert (Hoi : aget offset i = 16 * t).
    { rewrite Hoff by lia. destruct (Z.ltb_spec i i); [lia | reflexivity]. }
    destruct (copy16_spec output dest (nth (Z.to_nat i) src_blocks []) (16 * t))
      as (Hl16 & Hc16); [nia | nia |].
    rewrite Hoi.
    split; [lia|]. split; [now rewrite alen_aset|]. split; [|split; [lia|split]].
    - intros i' Hi'. rewrite aget_aset by lia.
      destruct (Z.eqb_spec i i') as [<-|Hne].
      + destruct (Z.ltb_spec i (i + 1)); lia.
      + rewrite Hoff by lia.
        destruct (Z.ltb_spec i' i), (Z.ltb_spec i' (i + 1)); lia.
    - intros j Hj. rewrite Hc16.
      destruct (Z.leb_spec dest j), (Z.ltb_spec j (dest + 16)); cbn [andb]; try lia.
      + rewrite Hsrc_cells by lia. rewrite logical_chunk by lia. f_equal. lia.
      + apply Hcells. lia.
    - intros j Hj. rewrite Hc16.
      assert (Hd16 : dest + 16 <= 16 * k * q) by nia.
      destruct (Z.leb_spec dest j), (Z.ltb_spec j (dest + 16)); cbn [andb];
        try lia; apply Hrest; lia. }
  destruct (for_range 0 k _ s) as [[dest offset] output].
  destruct G as (Hdest & Hlo & Hoff & Hlout & Hcells & Hrest).
  unfold unspread_tail_inv. split; [lia|]. split; auto. split; [|split; [auto|split; auto]].
  - intros i' Hi'. rewrite Hoff by auto.
    destruct (Z.ltb_spec i' k), (Z.ltb_spec i' 0); lia.
  - intros j Hj. apply Hcells. lia.
Qed.

Lemma unspread_loop_tail_runs : forall fuel t s,
  0 <= t <= q -> (Z.to_nat (q - t) <= fuel)%nat ->
  unspread_tail_inv k q input output0 t 0 s ->
  exists output, unspread_loop fuel src_blocks k (16 * k * (q - t)) s = Some output /\
    alen output = alen output0 /\
    (forall j, 0 <= j < 16 * k * q -> aget output j = aget input j) /\
    (forall j, 16 * k * q <= j -> aget output j = aget output0 j).
Proof.
  assert (Hdone : forall s, unspread_tail_inv k q input output0 q 0 s ->
            alen (snd s) = alen output0 /\
            (forall j, 0 <= j < 16 * k * q -> aget (snd s) j = aget input j) /\
            (forall j, 16 * k * q <= j -> aget (snd s) j = aget output0 j)).
  { intros [[dest offset] output] (_ & _ & _ & Hlout & Hcells & Hrest). cbn [snd].
    split; [exact Hlout|]. split; [|exact Hrest]. intros j Hj. apply Hcells. lia. }
  induction fuel as [|f IH]; intros t s Ht Hf Hinv.
  - assert (t = q) by lia. subst t.
    rewrite unspread_loop_stop by (rewrite size_t_round; lia).
    exists (snd s). split; [reflexivity|]. now apply Hdone.
  - destruct (Z.eq_dec t q) as [->|Hne].
    + rewrite unspread_loop_stop by (rewrite size_t_round; lia).
      exists (snd s). split; [reflexivity|]. now apply Hdone.
    + rewrite unspread_loop_go by (rewrite size_t_round; nia).
      rewrite size_t_small by nia.
      replace (16 * k * (q - t) - 16 * k) with (16 * k * (q - (t + 1))) by lia.
      apply IH; [lia|lia|]. apply unspread_round_tail_inv; [lia|exact Hinv].
Qed.

(** [unspread_data] with a size of [16 * k * q + r] bytes. *)
Lemma unspread_data_tail_spec :
  exists output, unspread_data src_blocks output0 (16 * k * q + r) k = Some output /\
    alen output = alen output0 /\
    (forall j, 0 <= j < 16 * k * q -> aget output j = aget input j) /\
    (forall j, 16 * k * q <= j -> aget output j = aget output0 j).
Proof.
  rewrite unspread_data_tail.
  unfold unspread_data. destruct (offset_init k) as (Hlo & Hoz); [lia|].
  destruct (unspread_loop_tail_runs (Z.to_nat (16 * k * q)) 0
              (0, for_range 0 k (fun i offset => aset offset i 0) (zeros k), output0))
    as (output & E & Hfin).
  - lia.
  - nia.
  - unfold unspread_tail_inv. split; [lia|]. split; [exact Hlo|].
    split; [|split; [reflexivity|split]].
    + intros i Hi. rewrite Hoz. destruct (Z.ltb_spec i 0); lia.
    + intros j Hj. lia.
    + reflexivity.
  - rewrite Z.sub_0_r in E. exists output. split; [exact E|exact Hfin].
Qed.

End Tail.

(** The round trip loses the tail. *)
(** For a buffer x of [16 * k * q + r] bytes with [0 <= r < 16 * k],
    spread over [k] shard buffers of [16 * q] bytes and unspread into a
    buffer [out] of the size of x, both calls made with the size of x:
    the first [16 * k * q] bytes come back as they were in x, and the last
    [r] bytes are neither spread nor written back: they stay what [out]
    held. *)
Theorem spread_unspread_drops_tail x blocks out k q r :
  1 <= k -> 16 * k <= 2147483647 -> 0 <= q -> 0 <= r < 16 * k ->
  alen x = 16 * k * q + r -> alen x < 2 ^ 64 ->
  Z.of_nat (length blocks) = k ->
  (forall i, 0 <= i < k -> alen (nth (Z.to_nat i) blocks []) = 16 * q) ->
  alen out = alen x ->
  exists shards out',
    spread_data x blocks (alen x) k = Some shards /\
    unspread_data shards out (alen x) k = Some out' /\
    alen out' = alen x /\
    (forall j, 0 <= j < 16 * k * q -> aget out' j = aget x j) /\
    (forall j, 16 * k * q <= j < alen x -> aget out' j = aget out j).
Proof.
  intros Hk Hkmax Hq Hr Hx Hsz Hb Hbl Hout.
  assert (Hsize : 16 * k * q + r < 2 ^ 64) by lia.
  assert (Hsize0 : 16 * k * q < 2 ^ 64) by lia.
  destruct (spread_data_spec k q Hk Hkmax Hq Hsize0 x blocks Hb Hbl) as (shards & E & Hl & Hc).
  exists shards.
  destruct (unspread_data_tail_spec k r Hk Hkmax Hr q Hq Hsize x shards Hc out)
    as (out' & E' & Hlen & Hhead & Htail); [lia|].
  exists out'. rewrite Hout in Hlen. rewrite Hx at 1 2.
  split; [|split; [exact E'|split; [exact Hlen|split; [exact Hhead|]]]].
  - rewrite (spread_data_tail k r Hk Hkmax Hr q Hq Hsize). exact E.
  - intros j Hj. apply Htail. lia.
Qed.

Lemma spread_unspread_drops_tail_witness :
  exists shards out',
    spread_data (zrange 100) [zeros 32; zeros 32; zeros 32] (alen (zrange 100)) 3
    = Some shards /\
    unspread_data shards (repeat 255 100) (alen (zrange 100)) 3 = Some out' /\
    alen out' = alen (zrange 100) /\
    (forall j, 0 <= j < 16 * 3 * 2 -> aget out' j = aget (zrange 100) j) /\
    (forall j, 16 * 3 * 2 <= j < alen (zrange 100) -> aget out' j = aget (repeat 255 100) j).
Proof.
  assert (Hbl : forall i, 0 <= i < 3 ->
            alen (nth (Z.to_nat i) [zeros 32; zeros 32; zeros 32] []) = 16 * 2).
  { intros i Hi. assert (Hc : i = 0 \/ i = 1 \/ i = 2) by lia.
    destruct Hc as [-> | [-> | ->]]; reflexivity. }
  apply (spread_unspread_drops_tail (zrange 100) [zeros 32; zeros 32; zeros 32]
           (repeat 255 100) 3 2 4);
    try (vm_compute; congruence); try exact Hbl.
  split; vm_compute; congruence.
Defined.

(** * Further properties of the field tables *)


Lemma byte_bounds a : 0 <= a <= 255 -> byte a.
Proof. unfold byte. lia. Qed.

(** After [init_gf], [gf_mul] is commutative and associative on bytes. *)
Theorem gf_mul_commutative_associative T a b c :
  init_gf = Ok T ->
  0 <= a <= 255 -> 0 <= b <= 255 -> 0 <= c <= 255 ->
  gf_mul T a b = gf_mul T b a /\
  gf_mul T (gf_mul T a b) c = gf_mul T a (gf_mul T b c).
Proof.
  intros HT Ha Hb Hc. rewrite init_gf_tables in HT. injection HT as <-.
  apply byte_bounds in Ha, Hb, Hc. split.
  - now apply gf_mul_comm.
  - now apply gf_mul_assoc.
Qed.

Lemma gf_mul_commutative_associative_witness :
  init_gf = Ok TABLES /\
  gf_mul TABLES 3 7 = gf_mul TABLES 7 3 /\
  gf_mul TABLES (gf_mul TABLES 3 7) 200 = gf_mul TABLES 3 (gf_mul TABLES 7 200).
Proof.
  split; [exact init_gf_tables|].
  apply (gf_mul_commutative_associative TABLES 3 7 200 init_gf_tables); lia.
Defined.

(** After [init_gf], [gf_mul] distributes over the field addition, the
    exclusive or, on either side. *)
Theorem gf_mul_distributes_over_xor T a b c :
  init_gf = Ok T ->
  0 <= a <= 255 -> 0 <= b <= 255 -> 0 <= c <= 255 ->
  gf_mul T a (Z.lxor b c) = Z.lxor (gf_mul T a b) (gf_mul T a c) /\
  gf_mul T (Z.lxor a b) c = Z.lxor (gf_mul T a c) (gf_mul T b c).
Proof.
  intros HT Ha Hb Hc. rewrite init_gf_tables in HT. injection HT as <-.
  apply byte_bounds in Ha, Hb, Hc. split.
  - now apply gf_mul_lxor_r.
  - now apply gf_mul_lxor_l.
Qed.

Lemma gf_mul_distributes_over_xor_witness :
  init_gf = Ok TABLES /\
  gf_mul TABLES 29 (Z.lxor 5 130) = Z.lxor (gf_mul TABLES 29 5) (gf_mul TABLES 29 130) /\
  gf_mul TABLES (Z.lxor 29 5) 130 = Z.lxor (gf_mul TABLES 29 130) (gf_mul TABLES 5 130).
Proof.
  split; [exact init_gf_tables|].
  apply (gf_mul_distributes_over_xor TABLES 29 5 130 init_gf_tables); lia.
Defined.

(** After [init_gf], a product of bytes is a byte, 1 is the unit, 0 is
    absorbing, and a product is 0 only when a factor is. *)
Theorem gf_mul_unit_zero_integral T a b :
  init_gf = Ok T ->
  0 <= a <= 255 -> 0 <= b <= 255 ->
  0 <= gf_mul T a b <= 255 /\
  gf_mul T 1 a = a /\ gf_mul T a 1 = a /\
  gf_mul T 0 a = 0 /\ gf_mul T a 0 = 0 /\
  (gf_mul T a b = 0 -> a = 0 \/ b = 0).
Proof.
  intros HT Ha Hb. rewrite init_gf_tables in HT. injection HT as <-.
  apply byte_bounds in Ha, Hb.
  split; [pose proof (gf_mul_byte a b Ha Hb) as H; unfold byte in H; lia|].
  split; [now apply gf_mul_1_l|]. split; [now apply gf_mul_1_r|].
  split; [now apply gf_mul_0_l|]. split; [now apply gf_mul_0_r|].
  intros H0. destruct (Z.eq_dec a 0) as [|Na]; [now left|].
  destruct (Z.eq_dec b 0) as [|Nb]; [now right|].
  now destruct (gf_mul_nonzero a b Ha Hb Na Nb).
Qed.

Lemma gf_mul_unit_zero_integral_witness :
  init_gf = Ok TABLES /\
  0 <= gf_mul TABLES 83 202 <= 255 /\
  gf_mul TABLES 1 83 = 83 /\ gf_mul TABLES 83 1 = 83 /\
  gf_mul TABLES 0 83 = 0 /\ gf_mul TABLES 83 0 = 0 /\
  (gf_mul TABLES 83 202 = 0 -> 83 = 0 \/ 202 = 0).
Proof.
  split; [exact init_gf_tables|].
  apply (gf_mul_unit_zero_integral TABLES 83 202 init_gf_tables); lia.
Defined.

Lemma gf_div_cell T a b : gf_div T a b = aget (gf_div_table T) (256 * a + b).
Proof. unfold gf_div, GF_SIZE. f_equal. lia. Qed.

Lemma gf_div_byte a b : byte (gf_div TABLES a b).
Proof. rewrite gf_div_cell. apply aget_DIVT_byte. Qed.

(** After [init_gf], dividing by a nonzero byte is multiplying by its
    reciprocal [gf_div(1, b)], the cell [gf_div_table[256 + b]] that
    [cauchy] and [matrix_invert] read directly; a nonzero byte divided by
    itself is 1. *)
Theorem gf_div_by_reciprocal T a b :
  init_gf = Ok T ->
  0 <= a <= 255 -> 1 <= b <= 255 ->
  gf_div T a b = gf_mul T a (gf_div T 1 b) /\
  gf_div T 1 b = aget (gf_div_table T) (256 * 1 + b) /\
  gf_div T b b = 1.
Proof.
  intros HT Ha Hb. rewrite init_gf_tables in HT. injection HT as <-.
  assert (Ba : byte a) by (unfold byte; lia).
  assert (Bb : byte b) by (unfold byte; lia).
  assert (Nb : b <> 0) by lia.
  destruct (gf_inv_spec b Bb Nb) as (Bi & Ni & Hi). rewrite gf_inv_eq in Bi, Ni, Hi.
  pose proof (gf_div_byte a b) as Bd.
  destruct (mul_div_roundtrip a b Ba ltac:(lia)) as (_ & Hq).
  destruct (mul_div_roundtrip 1 b byte_1 ltac:(lia)) as (H1 & _).
  split; [|split].
  - apply (gf_mul_cancel_l b _ _ Bd (gf_mul_byte _ _ Ba Bi) Bb Nb).
    rewrite (gf_mul_comm b (gf_div TABLES a b) Bb Bd), Hq.
    rewrite (gf_mul_comm a (gf_div TABLES 1 b) Ba Bi).
    rewrite <- (gf_mul_assoc b (gf_div TABLES 1 b) a Bb Bi Ba), Hi.
    symmetry. exact (gf_mul_1_l a Ba).
  - apply gf_div_cell.
  - rewrite (gf_mul_1_l b Bb) in H1. exact H1.
Qed.

Lemma gf_div_by_reciprocal_witness :
  init_gf = Ok TABLES /\
  gf_div TABLES 83 202 = gf_mul TABLES 83 (gf_div TABLES 1 202) /\
  gf_div TABLES 1 202 = aget (gf_div_table TABLES) (256 * 1 + 202) /\
  gf_div TABLES 202 202 = 1.
Proof.
  split; [exact init_gf_tables|].
  apply (gf_div_by_reciprocal TABLES 83 202 init_gf_tables); lia.
Defined.

Lemma exp_doubled_cells :
  forallb (fun k => aget EXP (k + 255) =? aget EXP k) (zrange 257) = true.
Proof. vm_compute. reflexivity. Qed.

(** After [init_gf], [gf_log] and [gf_exp] are inverse to each other
    between the nonzero bytes and the exponents 0 .. 254, the sentinel
    [gf_log[0]] is -1, and the upper half of [gf_exp] repeats the lower one
    with period 255. *)
Theorem gf_exp_log_inverse T a k :
  init_gf = Ok T ->
  1 <= a <= 255 -> 0 <= k < 255 ->
  0 <= aget (gf_log T) a < 255 /\
  aget (gf_exp T) (aget (gf_log T) a) = a /\
  1 <= aget (gf_exp T) k <= 255 /\
  aget (gf_log T) (aget (gf_exp T) k) = k /\
  aget (gf_exp T) (k + 255) = aget (gf_exp T) k /\
  aget (gf_log T) 0 = -1.
Proof.
  intros HT Ha Hk. rewrite init_gf_tables in HT. injection HT as <-.
  cbn [gf_log gf_exp TABLES].
  destruct (log_exp_inverse a ltac:(lia)) as (H1 & H2).
  destruct (exp_log_inverse k Hk) as (H3 & H4).
  split; [exact H1|]. split; [exact H2|]. split; [lia|]. split; [exact H4|].
  split; [|reflexivity].
  apply Z.eqb_eq. apply (forallb_zrange _ 257 exp_doubled_cells k). lia.
Qed.

Lemma gf_exp_log_inverse_witness :
  init_gf = Ok TABLES /\
  aget (gf_exp TABLES) (aget (gf_log TABLES) 29) = 29 /\
  aget (gf_log TABLES) (aget (gf_exp TABLES) 8) = 8 /\
  aget (gf_exp TABLES) (8 + 255) = aget (gf_exp TABLES) 8.
Proof.
  split; [exact init_gf_tables|].
  pose proof (gf_exp_log_inverse TABLES 29 8 init_gf_tables ltac:(lia) ltac:(lia))
    as (_ & H2 & _ & H4 & H5 & _).
  split; [exact H2|]. split; [exact H4 | exact H5].
Defined.

Lemma gf_pow_nonzero_base a n :
  1 <= a <= 255 -> 0 <= n ->
  gf_pow TABLES a n = aget EXP ((aget LOG a * n) mod 255).
Proof.
  intros Ha Hn. unfold gf_pow. cbn [gf_exp gf_log TABLES].
  destruct (log_exp_inverse a ltac:(lia)) as (HL & _).
  destruct (Z.eqb_spec n 0) as [->|Hn0].
  - rewrite Z.mul_0_r. reflexivity.
  - destruct (Z.eqb_spec a 0); [lia|].
    unfold GF_SIZE. rewrite Z.rem_mod_nonneg by nia. reflexivity.
Qed.

(** After [init_gf], [gf_pow] is repeated multiplication:
    [gf_pow(a, 0)] is 1 and [gf_pow(a, n + 1)] is
    [gf_mul(gf_pow(a, n), a)], as long as the [int] product
    [gf_log[a] * (n + 1)] cannot overflow. *)
Theorem gf_pow_repeated_multiplication T a n :
  init_gf = Ok T ->
  0 <= a <= 255 -> 0 <= n < 8388608 ->
  gf_pow T a 0 = 1 /\
  gf_pow T a (n + 1) = gf_mul T (gf_pow T a n) a.
Proof.
  intros HT Ha Hn. rewrite init_gf_tables in HT. injection HT as <-.
  split; [reflexivity|].
  destruct (Z.eq_dec a 0) as [->|Na].
  - assert (E : gf_pow TABLES 0 (n + 1) = 0).
    { unfold gf_pow. destruct (Z.eqb_spec (n + 1) 0); [lia | reflexivity]. }
    rewrite E. symmetry. apply gf_mul_0_r.
    unfold gf_pow. destruct (n =? 0); unfold byte; cbn; lia.
  - rewrite !gf_pow_nonzero_base by lia.
    destruct (log_exp_inverse a ltac:(lia)) as (HL & _).
    set (L := aget LOG a) in *.
    assert (Hm : 0 <= (L * n) mod 255 < 255) by (apply Z.mod_pos_bound; lia).
    destruct (exp_log_inverse _ Hm) as (Hp & Hlp).
    assert (Bp : byte (aget EXP ((L * n) mod 255))) by (unfold byte; lia).
    assert (Ba : byte a) by (unfold byte; lia).
    rewrite (gf_mul_direct_eq _ _ Bp Ba).
    destruct (gf_mul_direct_nonzero (aget EXP ((L * n) mod 255)) a ltac:(lia) ltac:(lia))
      as (E & _).
    rewrite E, Hlp. fold L. f_equal.
    rewrite Z.add_mod_idemp_l by lia. f_equal. lia.
Qed.

Lemma gf_pow_repeated_multiplication_witness :
  init_gf = Ok TABLES /\
  gf_pow TABLES 2 (7 + 1) = gf_mul TABLES (gf_pow TABLES 2 7) 2.
Proof.
  split; [exact init_gf_tables|].
  apply (gf_pow_repeated_multiplication TABLES 2 7 init_gf_tables); lia.
Defined.

Lemma gf_pow_order_cells :
  forallb (fun a =>
    (a =? 0) ||
    ((aget EXP ((aget LOG a * 255) mod 255) =? 1) &&
     (aget EXP ((aget LOG a * 254) mod 255) =? gf_div_value 1 a)))
    (zrange 256) = true.
Proof. vm_compute. reflexivity. Qed.

(** After [init_gf], the 255th power of a nonzero byte is 1 and its 254th
    power is its reciprocal [gf_div(1, a)]. *)
Theorem gf_pow_order T a :
  init_gf = Ok T ->
  1 <= a <= 255 ->
  gf_pow T a 255 = 1 /\ gf_pow T a 254 = gf_div T 1 a.
Proof.
  intros HT Ha. rewrite init_gf_tables in HT. injection HT as <-.
  rewrite !gf_pow_nonzero_base by lia.
  assert (Ba : byte a) by (unfold byte; lia).
  rewrite (gf_div_direct_eq 1 a byte_1 Ba).
  pose proof (forallb_bytes _ gf_pow_order_cells a Ba) as H. cbv beta in H.
  destruct (Z.eqb_spec a 0); [lia|]. cbn [orb] in H.
  apply andb_prop in H. destruct H as (H1 & H2).
  apply Z.eqb_eq in H1, H2. split; [exact H1 | exact H2].
Qed.

Lemma gf_pow_order_witness :
  init_gf = Ok TABLES /\
  gf_pow TABLES 83 255 = 1 /\ gf_pow TABLES 83 254 = gf_div TABLES 1 83.
Proof.
  split; [exact init_gf_tables|].
  apply (gf_pow_order TABLES 83 init_gf_tables); lia.
Defined.

(** * [matrix_invert]: solutions carried forward, and failure *)

Section InvertForward.

Variable T : gf_tables.
Hypothesis FT : gf_field T.
Variable n : Z.
Hypothesis Hn : 0 <= n.

Local Abbreviation cell := (ent n).
Local Infix "*g" := (gf_mul T) (at level 40, left associativity).

Lemma swap_forward i j s x y :
  WF n s -> in_range n i -> in_range n j -> i <> j ->
  Sol T n s x y -> Sol T n (for_range 0 n (swap_rows_body n i j) s) x y.
Proof.
  intros [[HlM HM] [HlN HN]] Hi Hj Hij HS. rewrite swap_rows_pair.
  destruct (swap_rows_loop n Hn i j (fst s) HlM Hi Hj Hij) as (_ & HM').
  destruct (swap_rows_loop n Hn i j (snd s) HlN Hi Hj Hij) as (_ & HN').
  set (M' := for_range 0 n (swap1 n i j) (fst s)) in *.
  set (N' := for_range 0 n (swap1 n i j) (snd s)) in *.
  intros r Hr. cbn [fst snd].
  assert (Hrow : forall r', in_range n r' ->
            (forall c, in_range n c -> cell M' r c = cell (fst s) r' c) ->
            (forall c, in_range n c -> cell N' r c = cell (snd s) r' c) ->
            dotr T n M' r x = dotr T n N' r y).
  { intros r' Hr' H1 H2.
    rewrite (dotr_row_eq T n (fst s) M' r r' x H1).
    rewrite (dotr_row_eq T n (snd s) N' r r' y H2). now apply HS. }
  destruct (Z.eq_dec r i) as [->|Hri]; [|destruct (Z.eq_dec r j) as [->|Hrj]].
  - apply (Hrow j Hj); intros c Hc; rewrite ?HM', ?HN' by auto; now rewrite Z.eqb_refl.
  - apply (Hrow i Hi); intros c Hc; rewrite ?HM', ?HN' by auto;
      (destruct (Z.eqb_spec j i); [congruence|]); now rewrite Z.eqb_refl.
  - apply (Hrow r Hr); intros c Hc; rewrite ?HM', ?HN' by auto;
      (destruct (Z.eqb_spec r i); [congruence|]);
      (destruct (Z.eqb_spec r j); [congruence|]); reflexivity.
Qed.

Lemma scale_forward i t s x y :
  WF n s -> in_range n i -> byte t -> vec n x -> vec n y ->
  Sol T n s x y -> Sol T n (for_range 0 n (scale_row_body T n i t) s) x y.
Proof.
  intros [[HlM HM] [HlN HN]] Hi Ht Hx Hy HS. rewrite scale_row_pair.
  destruct (scale_row_loop T n Hn i t (fst s) HlM Hi) as (_ & HM').
  destruct (scale_row_loop T n Hn i t (snd s) HlN Hi) as (_ & HN').
  set (M' := for_range 0 n (scale1 T n i t) (fst s)) in *.
  set (N' := for_range 0 n (scale1 T n i t) (snd s)) in *.
  intros r Hr. cbn [fst snd].
  destruct (Z.eq_dec r i) as [->|Hri].
  - rewrite (dotr_scaled T FT n Hn (fst s) M' i i t x); auto; [|split; auto|].
    2:{ intros c Hc. rewrite HM' by auto. now rewrite Z.eqb_refl. }
    rewrite (dotr_scaled T FT n Hn (snd s) N' i i t y); auto; [|split; auto|].
    2:{ intros c Hc. rewrite HN' by auto. now rewrite Z.eqb_refl. }
    f_equal. now apply HS.
  - rewrite (dotr_row_eq T n (fst s) M' r r x), (dotr_row_eq T n (snd s) N' r r y).
    + now apply HS.
    + intros c Hc. rewrite HN' by auto. destruct (Z.eqb_spec r i); [congruence|]. reflexivity.
    + intros c Hc. rewrite HM' by auto. destruct (Z.eqb_spec r i); [congruence|]. reflexivity.
Qed.

Lemma eliminate_forward i j t s x y :
  WF n s -> in_range n i -> in_range n j -> byte t -> vec n x -> vec n y ->
  Sol T n s x y -> Sol T n (for_range 0 n (eliminate_body T n i j t) s) x y.
Proof.
  intros [[HlM HM] [HlN HN]] Hi Hj Ht Hx Hy HS. rewrite eliminate_pair.
  destruct (eliminate_row_loop T n Hn i j t (fst s) HlM Hi Hj) as (_ & HM').
  destruct (eliminate_row_loop T n Hn i j t (snd s) HlN Hi Hj) as (_ & HN').
  set (M' := for_range 0 n (elim1 T n i j t) (fst s)) in *.
  set (N' := for_range 0 n (elim1 T n i j t) (snd s)) in *.
  intros r Hr. cbn [fst snd].
  destruct (Z.eq_dec r j) as [->|Hrj].
  - rewrite (dotr_eliminated T FT n Hn (fst s) M' j i j t x); auto; [|split; auto|].
    2:{ intros c Hc. rewrite HM' by auto. now rewrite Z.eqb_refl. }
    rewrite (dotr_eliminated T FT n Hn (snd s) N' j i j t y); auto; [|split; auto|].
    2:{ intros c Hc. rewrite HN' by auto. now rewrite Z.eqb_refl. }
    rewrite (HS j Hj), (HS i Hi). reflexivity.
  - rewrite (dotr_row_eq T n (fst s) M' r r x), (dotr_row_eq T n (snd s) N' r r y).
    + now apply HS.
    + intros c Hc. rewrite HN' by auto. destruct (Z.eqb_spec r j); [congruence|]. reflexivity.
    + intros c Hc. rewrite HM' by auto. destruct (Z.eqb_spec r j); [congruence|]. reflexivity.
Qed.

Lemma find_pivot_forward i s s1 x y :
  WF n s -> in_range n i -> find_pivot n i s = inr s1 ->
  Sol T n s x y -> Sol T n s1 x y.
Proof.
  intros HWF Hi. unfold find_pivot.
  destruct (Z.eqb_spec (aget (fst s) (i * n + i)) 0) as [E|E]; [|now intros [= <-]].
  assert (H := pivot_loop_spec n i s Hi (Z.to_nat (n - (i + 1))) (i + 1)).
  assert (H1 : i < i + 1) by lia.
  assert (H2 : i + 1 + Z.of_nat (Z.to_nat (n - (i + 1))) = n)
    by (unfold in_range in Hi; lia).
  specialize (H H1 H2). clear H1 H2.
  destruct (pivot_loop (Z.to_nat (n - (i + 1))) n i (i + 1) s) as [j s'].
  cbn [fst snd] in H.
  destruct H as [[-> ->] | (Hj & Hij & Hnz & ->)].
  - rewrite Z.eqb_refl. discriminate.
  - destruct (Z.eqb_spec j n) as [->|_]; [unfold in_range in Hj; lia|].
    intros [= <-] HS. apply swap_forward; auto. lia.
Qed.

Lemma scale_row_forward i s x y :
  WF n s -> in_range n i -> vec n x -> vec n y ->
  Sol T n s x y -> Sol T n (scale_row T n i s) x y.
Proof.
  intros HWF Hi Hx Hy HS. unfold scale_row.
  destruct (Z.eqb_spec (aget (fst s) (i * n + i)) 1); cbn [negb]; auto.
  apply scale_forward; auto. apply (fld_div_byte T FT).
Qed.

Lemma eliminate_all_forward i s x y :
  WF n s -> in_range n i -> vec n x -> vec n y ->
  Sol T n s x y -> Sol T n (eliminate T n i s) x y.
Proof.
  intros HWF Hi Hx Hy HS. unfold eliminate.
  destruct (for_range_inv
              (fun (_ : Z) s' => WF n s' /\ Sol T n s' x y)
              0 n
              (fun j s =>
                 if negb (i =? j)
                 then let temp := aget (fst s) (j * n + i) in
                      if negb (temp =? 0)
                      then for_range 0 n (eliminate_body T n i j temp) s
                      else s
                 else s) s) as (_ & H); auto.
  intros j s' Hj (HWF' & HS').
  destruct (Z.eqb_spec i j) as [<-|Hij]; cbn [negb]; [now split|].
  cbv zeta. fold (cell (fst s') j i).
  destruct (Z.eqb_spec (cell (fst s') j i) 0) as [E|E]; cbn [negb]; [now split|].
  assert (Htb : byte (cell (fst s') j i)) by (apply HWF'; auto).
  destruct (eliminate_state T FT n Hn i j _ s' HWF' Hi Hj Hij Htb) as (HWF'' & _ & _).
  split; auto. apply eliminate_forward; auto.
Qed.

Lemma invert_step_forward s0 i s s' x y :
  in_range n i -> Inv T n s0 i s -> vec n x -> vec n y ->
  invert_step T n i s = inr s' -> Sol T n s x y -> Sol T n s' x y.
Proof.
  intros Hi HI Hx Hy. unfold invert_step.
  destruct (find_pivot n i s) as [s1|s1] eqn:EP; [discriminate|].
  intros [= <-] HS.
  destruct (find_pivot_inv T n Hn s0 i s s1 Hi HI EP) as (HI1 & Hp1).
  destruct (scale_row_inv T FT n Hn s0 i s1 Hi HI1 Hp1) as (HI2 & _).
  apply eliminate_all_forward; auto; [apply HI2|].
  apply scale_row_forward; auto; [apply HI1|].
  apply (find_pivot_forward i s s1); auto. apply HI.
Qed.

Lemma invert_loop_forward s0 x y : forall cnt i s s',
  0 <= i -> i + Z.of_nat cnt = n -> Inv T n s0 i s -> vec n x -> vec n y ->
  invert_loop T cnt n i s = inr s' -> Sol T n s x y -> Sol T n s' x y.
Proof.
  induction cnt as [|c IH]; intros i s s' Hi Hc HI Hx Hy; cbn [invert_loop].
  - now intros [= <-].
  - destruct (invert_step T n i s) as [s1|s1] eqn:ES; [discriminate|].
    intros EL HS.
    assert (Hr : in_range n i) by (unfold in_range; lia).
    apply (IH (i + 1) s1 s'); auto; try lia.
    + apply (invert_step_inv T FT n Hn s0 i s s1); auto.
    + apply (invert_step_forward s0 i s s1); auto.
Qed.

End InvertForward.

Lemma xsum_zero n : 0 <= n -> xsum n (fun _ => 0) = 0.
Proof.
  revert n. apply upto_ind; [apply xsum_0|].
  intros n Hn IH. rewrite xsum_succ by auto. now rewrite IH.
Qed.

Section InvertFailure.

Variable T : gf_tables.
Hypothesis FT : gf_field T.
Variable n : Z.
Hypothesis Hn : 0 <= n.

Local Abbreviation cell := (ent n).
Local Infix "*g" := (gf_mul T) (at level 40, left associativity).

(** The pivot search that runs to [j == n] has seen only zeros and has
    changed nothing. *)
Lemma pivot_loop_none i s : forall cnt j,
  j + Z.of_nat cnt = n ->
  fst (pivot_loop cnt n i j s) = n ->
  snd (pivot_loop cnt n i j s) = s /\ forall r, j <= r < n -> cell (fst s) r i = 0.
Proof.
  induction cnt as [|c IH]; intros j Hc; cbn [pivot_loop].
  - intros _. split; [reflexivity | intros; lia].
  - destruct (Z.eqb_spec (aget (fst s) (j * n + i)) 0) as [E|E]; cbn [negb].
    + intros H. destruct (IH (j + 1) ltac:(lia) H) as (Hs & Hz). split; auto.
      intros r Hr. destruct (Z.eq_dec r j) as [->|]; [exact E | apply Hz; lia].
    + cbn [fst]. lia.
Qed.

Lemma find_pivot_none i s s1 :
  in_range n i -> find_pivot n i s = inl s1 ->
  s1 = s /\ forall r, i <= r < n -> cell (fst s) r i = 0.
Proof.
  intros Hi. unfold find_pivot.
  destruct (Z.eqb_spec (aget (fst s) (i * n + i)) 0) as [E|E]; [|discriminate].
  pose proof (pivot_loop_none i s (Z.to_nat (n - (i + 1))) (i + 1)) as H.
  destruct (pivot_loop (Z.to_nat (n - (i + 1))) n i (i + 1) s) as [j s'].
  cbn [fst snd] in H.
  destruct (Z.eqb_spec j n) as [->|]; [|discriminate].
  intros [= <-].
  destruct H as (Hs & Hz); [unfold in_range in Hi; lia | reflexivity |].
  split; auto. intros r Hr. destruct (Z.eq_dec r i) as [->|]; [exact E | apply Hz; lia].
Qed.

Lemma invert_loop_failure s0 : forall cnt i s s',
  0 <= i -> i + Z.of_nat cnt = n -> Inv T n s0 i s ->
  invert_loop T cnt n i s = inl s' ->
  exists i', in_range n i' /\ Inv T n s0 i' s' /\
    forall r, i' <= r < n -> cell (fst s') r i' = 0.
Proof.
  induction cnt as [|c IH]; intros i s s' Hi Hc HI; cbn [invert_loop]; [discriminate|].
  assert (Hr : in_range n i) by (unfold in_range; lia).
  destruct (invert_step T n i s) as [s1|s1] eqn:ES.
  - intros [= <-]. unfold invert_step in ES.
    destruct (find_pivot n i s) as [s2|s2] eqn:EP; [|discriminate].
    injection ES as <-.
    destruct (find_pivot_none i s s2 Hr EP) as (-> & Hz).
    exists i. auto.
  - apply IH; [lia | lia |].
    apply (invert_step_inv T FT n Hn s0 i s s1); auto.
Qed.

(** A vector that the stalled system sends to zero. *)
Lemma stalled_kernel i s :
  in_range n i -> WF n s -> Cols n i (fst s) ->
  (forall r, i <= r < n -> cell (fst s) r i = 0) ->
  let x := fun c => if c <? i then cell (fst s) c i else if c =? i then 1 else 0 in
  vec n x /\ x i = 1 /\ forall r, in_range n r -> dotr T n (fst s) r x = 0.
Proof.
  intros Hi [[HlM HM] _] HC Hz x.
  assert (Hx : vec n x).
  { intros c Hc. unfold x. destruct (Z.ltb_spec c i); [apply HM; auto|].
    destruct (c =? i); unfold byte; lia. }
  split; [exact Hx|]. split.
  { unfold x. rewrite Z.ltb_irrefl, Z.eqb_refl. reflexivity. }
  intros r Hr. unfold dotr.
  rewrite (xsum_ext n _
             (fun c => Z.lxor (if c =? r then (if r <? i then x r else 0) else 0)
                              (if c =? i then cell (fst s) r i else 0))).
  - rewrite xsum_lxor by auto.
    rewrite (xsum_single n r (fun _ => if r <? i then x r else 0)) by auto.
    rewrite (xsum_single n i (fun _ => cell (fst s) r i)) by auto.
    unfold in_range in Hi, Hr.
    destruct (Z.leb_spec 0 r); [|lia]. destruct (Z.ltb_spec r n); [|lia].
    destruct (Z.leb_spec 0 i); [|lia]. destruct (Z.ltb_spec i n); [|lia].
    cbn [andb]. unfold x.
    destruct (Z.ltb_spec r i).
    + apply Z.lxor_nilpotent.
    + rewrite Hz by lia. reflexivity.
  - intros c Hc.
    assert (Bc : byte (cell (fst s) r c)) by (apply HM; auto; exact Hc).
    destruct (Z.ltb_spec c i) as [Hlt|Hge].
    + rewrite (HC r c Hr) by lia. unfold delta. rewrite (Z.eqb_sym c r).
      destruct (Z.eqb_spec c i); [lia|].
      destruct (Z.eqb_spec r c) as [->|].
      * destruct (Z.ltb_spec c i); [|lia].
        rewrite Z.lxor_0_r. apply (fld_1_l T FT). now apply Hx.
      * rewrite Z.lxor_0_r. apply (fld_0_l T FT). now apply Hx.
    + destruct (Z.eqb_spec c i) as [->|Hne].
      * assert (E : x i = 1) by (unfold x; now rewrite Z.ltb_irrefl, Z.eqb_refl).
        rewrite E, (fmul_1_r T FT) by exact Bc.
        destruct (Z.eqb_spec i r) as [<-|]; [|reflexivity].
        rewrite Z.ltb_irrefl. reflexivity.
      * assert (E : x c = 0).
        { unfold x. destruct (Z.ltb_spec c i); [lia|].
          destruct (Z.eqb_spec c i); [lia | reflexivity]. }
        rewrite E, (fmul_0_r T FT) by exact Bc.
        destruct (Z.eqb_spec c r) as [->|]; [|reflexivity].
        destruct (Z.ltb_spec r i); [lia | reflexivity].
Qed.

Lemma dotr_zero m r : bytes_mat n m -> in_range n r -> dotr T n m r (fun _ => 0) = 0.
Proof.
  intros [_ Hm] Hr. unfold dotr.
  rewrite (xsum_ext n _ (fun _ => 0)); [now apply xsum_zero|].
  intros c Hc. apply (fmul_0_r T FT). now apply Hm.
Qed.

Lemma initial_inv A :
  bytes_mat n A ->
  Inv T n (A, for_range 0 n (fun i inv => aset inv (i * n + i) 1) (zeros (n * n))) 0
          (A, for_range 0 n (fun i inv => aset inv (i * n + i) 1) (zeros (n * n))).
Proof.
  intros HA. destruct (identity_init n Hn) as (HI & _).
  split; [split; auto|split].
  - intros r c Hr Hc. lia.
  - intros x y _ _ H. exact H.
Qed.

(** When [matrix_invert] returns 0, some nonzero vector is sent to zero by
    the matrix it was given. *)
Lemma matrix_invert_failure A :
  bytes_mat n A -> fst (matrix_invert T A n) = 0 ->
  exists x, vec n x /\ (exists k, in_range n k /\ x k <> 0) /\
    forall r, in_range n r -> dotr T n A r x = 0.
Proof.
  intros HA. unfold matrix_invert.
  pose proof (initial_inv A HA) as H0.
  destruct (identity_init n Hn) as (HI & HId).
  set (I0 := for_range 0 n (fun i inv => aset inv (i * n + i) 1) (zeros (n * n))) in *.
  destruct (invert_loop T (Z.to_nat n) n 0 (A, I0)) as [[m inv]|[m inv]] eqn:EL;
    cbn [fst]; [|discriminate].
  intros _.
  destruct (invert_loop_failure (A, I0) (Z.to_nat n) 0 (A, I0) (m, inv))
    as (i & Hi & (HWF & HC & HB) & Hz); auto; try lia.
  destruct (stalled_kernel i (m, inv) Hi HWF HC Hz) as (Hx & Hxi & Hk).
  set (x := fun c => if c <? i then cell (fst (m, inv)) c i else if c =? i then 1 else 0) in *.
  exists x. split; [exact Hx|]. split.
  { exists i. split; [exact Hi|]. unfold x. rewrite Z.ltb_irrefl, Z.eqb_refl. lia. }
  intros r Hr.
  assert (Hy : vec n (fun _ => 0)) by (intros k _; unfold byte; lia).
  assert (HS : Sol T n (m, inv) x (fun _ => 0)).
  { intros r' Hr'. rewrite Hk by auto. symmetry. apply dotr_zero; auto. apply HWF. }
  specialize (HB x (fun _ => 0) Hx Hy HS r Hr). cbn [fst snd] in HB.
  rewrite HB. now apply dotr_zero.
Qed.

(** When [matrix_invert] returns 1, what it leaves in [matrix] undoes the
    matrix it was given: [x = E . (A . x)]. *)
Lemma matrix_invert_left_inverse A E x y :
  bytes_mat n A -> matrix_invert T A n = (1, E) ->
  vec n x -> vec n y ->
  (forall r, in_range n r -> dotr T n A r x = y r) ->
  forall r, in_range n r -> x r = dotr T n E r y.
Proof.
  intros HA. unfold matrix_invert.
  pose proof (initial_inv A HA) as H0.
  destruct (identity_init n Hn) as (HI & HId).
  set (I0 := for_range 0 n (fun i inv => aset inv (i * n + i) 1) (zeros (n * n))) in *.
  destruct (invert_loop T (Z.to_nat n) n 0 (A, I0)) as [[m inv]|[m inv]] eqn:EL;
    [discriminate|].
  intros [= <-] Hx Hy HAx r Hr.
  assert (HInv : Inv T n (A, I0) n (m, inv)).
  { apply (invert_loop_inv T FT n Hn (A, I0) (Z.to_nat n) 0 (A, I0)); auto; lia. }
  assert (HS : Sol T n (m, inv) x y).
  { apply (invert_loop_forward T FT n Hn (A, I0) x y (Z.to_nat n) 0 (A, I0)); auto; try lia.
    intros r' Hr'. cbn [fst snd]. rewrite HAx by auto. symmetry.
    apply (dotr_identity T FT n Hn); auto. }
  destruct HInv as ((HWm & HWi) & HC & _). cbn [fst snd] in *.
  rewrite (copy_back n Hn) by (apply HWm || apply HWi).
  specialize (HS r Hr). cbn [fst snd] in HS. rewrite <- HS. symmetry.
  apply (dotr_identity T FT n Hn); auto.
Qed.

End InvertFailure.

(** * Matrices: filling, products and the identity test *)

Lemma upd_nth_twice {A} (l : list A) : forall k v w,
  upd_nth k (upd_nth k l v) w = upd_nth k l w.
Proof.
  induction l as [|h t IH]; intros [|k] v w; cbn; auto. now rewrite IH.
Qed.

Lemma upd_nth_same {A} (l : list A) : forall k d, upd_nth k l (nth k l d) = l.
Proof.
  induction l as [|h t IH]; intros [|k] d; cbn; auto. now rewrite IH.
Qed.

Lemma nth_upd_nth_zero (l : list Z) : forall k, nth k (upd_nth k l 0) 0 = 0.
Proof.
  induction l as [|h t IH]; intros [|k]; cbn; auto.
Qed.

Lemma aset_twice a i v w : aset (aset a i v) i w = aset a i w.
Proof. unfold aset. destruct (i <? 0); auto. apply upd_nth_twice. Qed.

Lemma aset_same a i : aset a i (aget a i) = a.
Proof. unfold aset, aget. destruct (i <? 0); auto. apply upd_nth_same. Qed.

Lemma aget_aset_zero a i : aget (aset a i 0) i = 0.
Proof. unfold aset, aget. destruct (i <? 0); auto. apply nth_upd_nth_zero. Qed.

Lemma for_range_shift {S} lo hi (body : Z -> S -> S) s :
  for_range lo hi body s = for_range 0 (hi - lo) (fun k => body (lo + k)) s.
Proof.
  unfold for_range. rewrite Z.sub_0_r.
  replace lo with (lo + 0) at 2 by lia. generalize 0 as d.
  generalize (Z.to_nat (hi - lo)) as cnt. intros cnt. revert s.
  induction cnt as [|c IH]; intros s d; cbn [for_loop]; auto.
  rewrite <- Z.add_assoc. apply IH.
Qed.

(** Two nested loops that write every cell of a [rows] x [cols] array. *)
Lemma fill_cells (v : Z -> Z -> Z) rows cols m0 :
  0 <= rows -> 0 <= cols -> alen m0 = rows * cols ->
  alen (for_range 0 rows
          (fun i m => for_range 0 cols (fun j m => aset m (i * cols + j) (v i j)) m) m0)
  = rows * cols /\
  forall i j, 0 <= i < rows -> 0 <= j < cols ->
    ent cols (for_range 0 rows
                (fun i m => for_range 0 cols (fun j m => aset m (i * cols + j) (v i j)) m) m0)
      i j = v i j.
Proof.
  intros Hr Hc Hl0.
  destruct (for_range_inv
              (fun i m => alen m = rows * cols /\
                 forall r c, 0 <= r < i -> 0 <= c < cols -> ent cols m r c = v r c)
              0 rows
              (fun i m => for_range 0 cols (fun j m => aset m (i * cols + j) (v i j)) m)
              m0) as (Hl & Hcells); auto.
  - split; [exact Hl0 | intros; lia].
  - intros i m Hi (Hl & Hcells).
    destruct (for_range_inv
                (fun j m' => alen m' = rows * cols /\
                   forall r c, 0 <= r < i \/ (r = i /\ 0 <= c < j) -> 0 <= c < cols ->
                               ent cols m' r c = v r c)
                0 cols (fun j m => aset m (i * cols + j) (v i j)) m) as (Hl' & Hcells'); auto.
    + split; auto. intros r c [H|H] Hc'; [now apply Hcells | lia].
    + intros j m' Hj (Hl' & Hcells'). rewrite alen_aset. split; auto.
      intros r c H Hc'.
      assert (Hrr : 0 <= r < rows) by lia.
      rewrite (ent_aset cols rows) by auto.
      destruct (Z.eqb_spec i r) as [<-|Hne]; simpl.
      * destruct (Z.eqb_spec j c) as [<-|Hne']; auto. apply Hcells'; auto. lia.
      * apply Hcells'; auto. lia.
    + split; auto. intros r c H Hc'. apply Hcells'; auto.
      destruct (Z.eq_dec r i); [right | left]; lia.
Qed.

(** [sub_matrix] copies the block of rows [rmin .. rmax-1] and columns
    [cmin .. cmax-1]; [nrows] is not used. *)
Lemma sub_matrix_block m rmin cmin rmax cmax nrows ncols :
  rmin <= rmax -> cmin <= cmax ->
  alen (sub_matrix m rmin cmin rmax cmax nrows ncols) = (rmax - rmin) * (cmax - cmin) /\
  forall r c, 0 <= r < rmax - rmin -> 0 <= c < cmax - cmin ->
    ent (cmax - cmin) (sub_matrix m rmin cmin rmax cmax nrows ncols) r c
    = aget m ((rmin + r) * ncols + (cmin + c)).
Proof.
  intros Hr Hc. unfold sub_matrix. rewrite for_range_shift.
  rewrite (for_range_ext 0 (rmax - rmin) _
             (fun r s => for_range 0 (cmax - cmin)
                (fun c s => (fst s + 1,
                             aset (snd s) (fst s) (aget m ((rmin + r) * ncols + (cmin + c))))) s)).
  - apply (fill_rows (fun r c => aget m ((rmin + r) * ncols + (cmin + c)))); lia.
  - intros r s _. apply for_range_shift.
Qed.

Lemma in_zrange_inv n k : In k (zrange n) -> 0 <= k < Z.of_nat n.
Proof.
  unfold zrange. assert (H : forall cnt s, In k (zseq cnt s) -> s <= k < s + Z.of_nat cnt).
  { induction cnt as [|c IH]; intros s; cbn [zseq In]; [tauto|].
    intros [<-|Hin]; [lia|]. apply IH in Hin. lia. }
  intros Hin. apply H in Hin. lia.
Qed.

(** [is_identity] returns 1 exactly on the identity matrix. *)
Lemma is_identity_spec m n :
  0 <= n ->
  is_identity m n = 1 <->
  forall i j, 0 <= i < n -> 0 <= j < n -> aget m (i * n + j) = delta i j.
Proof.
  intros Hn. unfold is_identity.
  set (row := fun i => forallb (fun j =>
       if i =? j then aget m (i * n + j) =? 1 else aget m (i * n + j) =? 0)
       (zrange (Z.to_nat n))).
  destruct (forallb row (zrange (Z.to_nat n))) eqn:E.
  - split; [intros _|reflexivity]. intros i j Hi Hj.
    pose proof (forallb_zrange _ _ E i ltac:(lia)) as Hrow. unfold row in Hrow.
    pose proof (forallb_zrange _ _ Hrow j ltac:(lia)) as Hcell. cbv beta in Hcell.
    unfold delta. destruct (i =? j); now apply Z.eqb_eq.
  - split; [discriminate|]. intros H. exfalso.
    assert (E' : forallb row (zrange (Z.to_nat n)) = true); [|congruence].
    apply forallb_forall. intros i Hi. apply in_zrange_inv in Hi.
    unfold row. apply forallb_forall. intros j Hj. apply in_zrange_inv in Hj.
    specialize (H i j ltac:(lia) ltac:(lia)). rewrite H. unfold delta.
    destruct (i =? j); reflexivity.
Qed.

Lemma aset_out a i v : i < 0 \/ alen a <= i -> aset a i v = a.
Proof.
  intros H. apply array_ext; [apply alen_aset|].
  intros k Hk. rewrite alen_aset in Hk. apply aget_aset_other. lia.
Qed.

(** The innermost loop of [matrix_multiply] accumulates in one cell. *)
Lemma accumulate_cell (f : Z -> Z) idx cnt r :
  0 <= cnt ->
  for_range 0 cnt (fun k r => aset r idx (Z.lxor (aget r idx) (f k))) (aset r idx 0)
  = aset r idx (xsum cnt f).
Proof.
  revert cnt. apply upto_ind.
  - rewrite for_range_empty by lia. now rewrite xsum_0.
  - intros c Hc IH. rewrite for_range_snoc by lia. rewrite IH.
    rewrite xsum_succ by lia. rewrite aset_twice.
    destruct (Z.ltb_spec idx 0) as [Hneg|Hpos]; [now rewrite !aset_out by lia|].
    destruct (Z.ltb_spec idx (alen r)) as [Hin|Hout]; [|now rewrite !aset_out by lia].
    rewrite aget_aset_same by lia. reflexivity.
Qed.

Lemma matrix_multiply_cells T a b res n :
  0 <= n -> alen res = n * n ->
  alen (matrix_multiply T a b res n) = n * n /\
  forall i j, 0 <= i < n -> 0 <= j < n ->
    ent n (matrix_multiply T a b res n) i j
    = xsum n (fun k => gf_mul T (aget a (i * n + k)) (aget b (k * n + j))).
Proof.
  intros Hn Hl. unfold matrix_multiply.
  rewrite (for_range_ext 0 n _
             (fun i m => for_range 0 n
                (fun j m => aset m (i * n + j)
                   (xsum n (fun k => gf_mul T (aget a (i * n + k)) (aget b (k * n + j))))) m)).
  - apply (fill_cells
             (fun i j => xsum n (fun k => gf_mul T (aget a (i * n + k)) (aget b (k * n + j)))));
      auto.
  - intros i s _. apply for_range_ext. intros j s' _. cbv zeta.
    apply (accumulate_cell
             (fun k => gf_mul T (aget a (i * n + k)) (aget b (k * n + j)))). exact Hn.
Qed.

Lemma byte_matrix_bytes_mat n m : 0 <= n -> byte_matrix n n m -> bytes_mat n m.
Proof.
  intros Hn [Hl Hb]. split; auto. intros r c Hr Hc. unfold in_range in *.
  pose proof (cell_index_bounds n r c n Hr Hc) as Hk.
  specialize (Hb _ Hk). unfold byte, ent. lia.
Qed.

Lemma bytes_mat_byte_matrix n m : 0 <= n -> bytes_mat n m -> byte_matrix n n m.
Proof.
  intros Hn [Hl Hb]. split; auto. intros k Hk.
  assert (Hpos : 0 < n) by nia.
  assert (Hr : in_range n (k / n)).
  { unfold in_range. split; [apply Z.div_pos; lia|]. apply Z.div_lt_upper_bound; lia. }
  assert (Hc : in_range n (k mod n)) by (unfold in_range; apply Z.mod_pos_bound; lia).
  specialize (Hb _ _ Hr Hc). unfold ent in Hb.
  replace (k / n * n + k mod n) with k in Hb by (rewrite (Z.div_mod k n) at 1; lia).
  unfold byte in Hb. lia.
Qed.

Section MatrixInvertResults.

Variable T : gf_tables.
Hypothesis FT : gf_field T.
Variable n : Z.
Hypothesis Hn : 0 <= n.

Lemma matrix_invert_products A E res :
  bytes_mat n A -> alen res = n * n -> matrix_invert T A n = (1, E) ->
  bytes_mat n E /\
  is_identity (matrix_multiply T A E res n) n = 1 /\
  is_identity (matrix_multiply T E A res n) n = 1.
Proof.
  intros HA Hres HE.
  destruct (matrix_invert_right_inverse T FT n Hn A E HA HE) as (HEb & Hright).
  split; [exact HEb|]. split; apply is_identity_spec; auto; intros i j Hi Hj.
  - destruct (matrix_multiply_cells T A E res n Hn Hres) as (_ & Hc).
    fold (ent n (matrix_multiply T A E res n) i j). rewrite Hc by auto.
    apply Hright; auto.
  - destruct (matrix_multiply_cells T E A res n Hn Hres) as (_ & Hc).
    fold (ent n (matrix_multiply T E A res n) i j). rewrite Hc by auto.
    assert (Hx : vec n (fun k => delta k j)) by (intros k _; apply byte_delta).
    assert (Hy : vec n (fun k => ent n A k j)) by (intros k Hk; apply HA; auto).
    pose proof (matrix_invert_left_inverse T FT n Hn A E
                  (fun k => delta k j) (fun k => ent n A k j) HA HE Hx Hy) as H.
    symmetry. apply H; auto.
    intros r Hr. apply (dotr_unit T FT n Hn); auto.
Qed.

Lemma matrix_invert_kernel A :
  bytes_mat n A ->
  fst (matrix_invert T A n) = 0 <->
  exists x, vec n x /\ (exists k, in_range n k /\ x k <> 0) /\
    forall r, in_range n r -> dotr T n A r x = 0.
Proof.
  intros HA. split; [now apply matrix_invert_failure|].
  intros (x & Hx & (k & Hk & Hxk) & Hker).
  destruct (matrix_invert_code T A n) as [H|H]; [exact H|]. exfalso.
  destruct (matrix_invert T A n) as [ret E] eqn:EI. cbn [fst] in H. subst ret.
  destruct (matrix_invert_right_inverse T FT n Hn A E HA EI) as (HEb & _).
  assert (Hy : vec n (fun _ => 0)) by (intros ? _; unfold byte; lia).
  pose proof (matrix_invert_left_inverse T FT n Hn A E x (fun _ => 0) HA EI Hx Hy Hker k Hk)
    as H.
  rewrite (dotr_zero T FT n Hn) in H by auto. contradiction.
Qed.

(** [matrix_invert] accepts the identity and leaves it in place. *)
Lemma matrix_invert_identity A :
  alen A = n * n ->
  (forall r c, in_range n r -> in_range n c -> ent n A r c = delta r c) ->
  matrix_invert T A n = (1, A).
Proof.
  intros Hl Hid.
  assert (HA : bytes_mat n A).
  { split; auto. intros r c Hr Hc. rewrite Hid by auto. apply byte_delta. }
  destruct (matrix_invert T A n) as [ret E] eqn:EI.
  assert (Hret : ret = 1).
  { destruct (matrix_invert_code T A n) as [H|H]; rewrite EI in H; cbn [fst] in H; auto.
    exfalso.
    assert (H0 : fst (matrix_invert T A n) = 0) by now rewrite EI.
    apply (matrix_invert_kernel A HA) in H0.
    destruct H0 as (x & Hx & (k & Hk & Hxk) & Hker).
    specialize (Hker k Hk). rewrite (dotr_identity T FT n Hn) in Hker; auto. }
  subst ret. f_equal.
  destruct (matrix_invert_right_inverse T FT n Hn A E HA EI) as ((HlE & HEb) & Hright).
  apply array_ext; [lia|]. intros k Hk. rewrite HlE in Hk.
  assert (Hpos : 0 < n) by nia.
  assert (Hr : in_range n (k / n)).
  { unfold in_range. split; [apply Z.div_pos; lia|]. apply Z.div_lt_upper_bound; lia. }
  assert (Hc : in_range n (k mod n)) by (unfold in_range; apply Z.mod_pos_bound; lia).
  assert (Ek : k = k / n * n + k mod n) by (rewrite (Z.div_mod k n) at 1; lia).
  rewrite Ek. fold (ent n E (k / n) (k mod n)). fold (ent n A (k / n) (k mod n)).
  rewrite Hid by auto. rewrite <- (Hright (k / n) (k mod n)) by auto.
  assert (Hcol : vec n (fun c => ent n E c (k mod n))) by (intros c Hc'; apply HEb; auto).
  pose proof (dotr_identity T FT n Hn A (k / n) (fun c => ent n E c (k mod n)) Hcol Hr) as H.
  unfold dotr in H. symmetry. apply H. intros c Hc'. now apply Hid.
Qed.

End MatrixInvertResults.

(** * [matrix_invert], [matrix_multiply] and [is_identity] after [init_gf] *)

Lemma byte_matrix_forallb rows cols m :
  alen m = rows * cols ->
  forallb (fun v => (0 <=? v) && (v <=? 255)) m = true ->
  byte_matrix rows cols m.
Proof.
  intros Hl Hb. split; auto. intros k Hk.
  rewrite forallb_forall in Hb.
  assert (Hin : In (aget m k) m).
  { unfold aget. destruct (Z.ltb_spec k 0); [lia|]. apply nth_In. unfold alen in Hl. lia. }
  apply Hb in Hin. lia.
Qed.

Lemma vec_bounds n x : (forall k, 0 <= k < n -> 0 <= x k <= 255) <-> vec n x.
Proof.
  split; intros H k Hk; specialize (H k Hk); unfold byte in *; lia.
Qed.

(** After [init_gf], when [matrix_invert] returns 1 on an [n] x [n] matrix
    of bytes, what it leaves in [matrix] is again a matrix of bytes, and
    both products with the matrix it was given, computed by
    [matrix_multiply], pass [is_identity]. *)
Theorem matrix_invert_two_sided_inverse T A E res n :
  init_gf = Ok T ->
  0 <= n -> n * n <= 2147483647 ->
  byte_matrix n n A -> alen res = n * n ->
  matrix_invert T A n = (1, E) ->
  byte_matrix n n E /\
  is_identity (matrix_multiply T A E res n) n = 1 /\
  is_identity (matrix_multiply T E A res n) n = 1.
Proof.
  intros HT Hn _ HA Hres HE. rewrite init_gf_tables in HT. injection HT as <-.
  apply byte_matrix_bytes_mat in HA; auto.
  destruct (matrix_invert_products TABLES TABLES_field n Hn A E res HA Hres HE)
    as (HEb & H1 & H2).
  split; [now apply bytes_mat_byte_matrix|]. split; assumption.
Qed.

Lemma matrix_invert_two_sided_inverse_witness :
  init_gf = Ok TABLES /\
  matrix_invert TABLES [2; 3; 1; 1] 2 = (1, [1; 3; 1; 2]) /\
  is_identity (matrix_multiply TABLES [2; 3; 1; 1] [1; 3; 1; 2] (zeros 4) 2) 2 = 1 /\
  is_identity (matrix_multiply TABLES [1; 3; 1; 2] [2; 3; 1; 1] (zeros 4) 2) 2 = 1.
Proof.
  assert (HE : matrix_invert TABLES [2; 3; 1; 1] 2 = (1, [1; 3; 1; 2]))
    by (vm_compute; reflexivity).
  split; [exact init_gf_tables|]. split; [exact HE|].
  apply (matrix_invert_two_sided_inverse TABLES [2; 3; 1; 1] [1; 3; 1; 2] (zeros 4) 2
           init_gf_tables ltac:(lia) ltac:(lia)
           (byte_matrix_forallb 2 2 [2; 3; 1; 1] eq_refl eq_refl) eq_refl HE).
Defined.

(** After [init_gf], [matrix_invert] returns 0 or 1, and it returns 0 on an
    [n] x [n] matrix of bytes exactly when the matrix is singular: some
    nonzero vector of bytes is sent to zero by it. *)
Theorem matrix_invert_fails_iff_singular T A n :
  init_gf = Ok T ->
  0 <= n -> n * n <= 2147483647 ->
  byte_matrix n n A ->
  (fst (matrix_invert T A n) = 0 \/ fst (matrix_invert T A n) = 1) /\
  (fst (matrix_invert T A n) = 0 <->
   exists x, (forall k, 0 <= k < n -> 0 <= x k <= 255) /\
             (exists k, 0 <= k < n /\ x k <> 0) /\
             in_kernel T n A x).
Proof.
  intros HT Hn _ HA. rewrite init_gf_tables in HT. injection HT as <-.
  apply byte_matrix_bytes_mat in HA; auto.
  split; [apply matrix_invert_code|].
  rewrite (matrix_invert_kernel TABLES TABLES_field n Hn A HA).
  split; intros (x & Hx & Hk & Hker); exists x; (split; [now apply vec_bounds|]);
    (split; [exact Hk | exact Hker]).
Qed.

Lemma matrix_invert_fails_iff_singular_witness :
  init_gf = Ok TABLES /\
  fst (matrix_invert TABLES [2; 3; 4; 6] 2) = 0 /\
  exists x, (forall k, 0 <= k < 2 -> 0 <= x k <= 255) /\
            (exists k, 0 <= k < 2 /\ x k <> 0) /\
            in_kernel TABLES 2 [2; 3; 4; 6] x.
Proof.
  assert (H0 : fst (matrix_invert TABLES [2; 3; 4; 6] 2) = 0) by (vm_compute; reflexivity).
  split; [exact init_gf_tables|]. split; [exact H0|].
  apply (proj1 (proj2 (matrix_invert_fails_iff_singular TABLES [2; 3; 4; 6] 2
           init_gf_tables ltac:(lia) ltac:(lia)
           (byte_matrix_forallb 2 2 [2; 3; 4; 6] eq_refl eq_refl)))).
  exact H0.
Defined.

(** After [init_gf], on a matrix that passes [is_identity], [matrix_invert]
    returns 1 and leaves the matrix as it was. *)
Theorem matrix_invert_of_identity T A n :
  init_gf = Ok T ->
  0 <= n -> n * n <= 2147483647 ->
  alen A = n * n -> is_identity A n = 1 ->
  matrix_invert T A n = (1, A).
Proof.
  intros HT Hn _ Hl Hid. rewrite init_gf_tables in HT. injection HT as <-.
  apply (matrix_invert_identity TABLES TABLES_field n Hn A Hl).
  intros r c Hr Hc. apply (proj1 (is_identity_spec A n Hn) Hid); assumption.
Qed.

Lemma matrix_invert_of_identity_witness :
  init_gf = Ok TABLES /\
  is_identity [1; 0; 0; 0; 1; 0; 0; 0; 1] 3 = 1 /\
  matrix_invert TABLES [1; 0; 0; 0; 1; 0; 0; 0; 1] 3 = (1, [1; 0; 0; 0; 1; 0; 0; 0; 1]).
Proof.
  split; [exact init_gf_tables|]. split; [reflexivity|].
  apply (matrix_invert_of_identity TABLES [1; 0; 0; 0; 1; 0; 0; 0; 1] 3
           init_gf_tables ltac:(lia) ltac:(lia) eq_refl eq_refl).
Defined.

(** * The matrix constructors and [rs_new] *)

Lemma lxor_bit8_one_side :
  forallb (fun i => forallb (fun s => Z.lxor (256 * 1 + i) s =? 256 * 1 + Z.lxor i s)
                      (zrange 256)) (zrange 256) = true.
Proof. vm_compute. reflexivity. Qed.

Lemma lxor_bit8_both_sides :
  forallb (fun i => forallb (fun s => Z.lxor (256 * 1 + i) (256 + s) =? Z.lxor i s)
                      (zrange 256)) (zrange 256) = true.
Proof. vm_compute. reflexivity. Qed.

Lemma div_table_row_zero k : 0 <= k < 256 -> aget (gf_div_table TABLES) k = 0.
Proof.
  intros Hk. cbn [gf_div_table TABLES]. rewrite DIVT_cells by lia.
  unfold div_cell, gf_div_value, GF_SIZE.
  rewrite (Z.div_small k 256) by lia.
  destruct (k mod 256 =? 0); reflexivity.
Qed.

(** The cells [cauchy] reads from the division table. *)
Lemma cauchy_entry i s :
  0 <= i < 256 -> i < s ->
  (s < 256 ->
     aget (gf_div_table TABLES) (Z.lxor (256 * 1 + i) s) = gf_div TABLES 1 (Z.lxor i s) /\
     aget (gf_div_table TABLES) (Z.lxor (256 * 1 + i) s) <> 0) /\
  (256 <= s < 512 -> aget (gf_div_table TABLES) (Z.lxor (256 * 1 + i) s) = 0).
Proof.
  intros Hi His. split.
  - intros Hs.
    assert (Bi : byte i) by (unfold byte; lia).
    assert (Bs : byte s) by (unfold byte; lia).
    pose proof (forallb_bytes2 _ lxor_bit8_one_side i s Bi Bs) as E.
    apply Z.eqb_eq in E. rewrite E.
    pose proof (byte_lxor i s Bi Bs) as Bx.
    assert (Nx : Z.lxor i s <> 0) by (intros H; apply Z.lxor_eq in H; lia).
    destruct (gf_inv_spec _ Bx Nx) as (_ & Hnz & _).
    split; [symmetry; apply gf_div_cell | exact Hnz].
  - intros Hs.
    assert (Bi : byte i) by (unfold byte; lia).
    assert (Bs : byte (s - 256)) by (unfold byte; lia).
    pose proof (forallb_bytes2 _ lxor_bit8_both_sides i (s - 256) Bi Bs) as E.
    apply Z.eqb_eq in E. replace (256 + (s - 256)) with s in E by lia. rewrite E.
    pose proof (byte_lxor i (s - 256) Bi Bs) as Bx.
    apply div_table_row_zero. exact Bx.
Qed.

(** After [init_gf], for [rows <= 256] and a size [rows * cols] that fits an
    [int], the cell [(i, j)] of [cauchy(rows, cols)] is the reciprocal
    [1 / (i ^ (rows + j))], not zero, when [rows + j < 256], and is zero
    when [256 <= rows + j < 512]: the table index [256*1 + i ^ (rows + j)]
    is read as [(256 + i) ^ (rows + j)]. *)
Theorem cauchy_cells T rows cols i j :
  init_gf = Ok T ->
  0 <= i < rows -> 0 <= j < cols -> rows <= 256 -> rows * cols <= 2147483647 ->
  (rows + j < 256 ->
     aget (cauchy T rows cols) (i * cols + j) = gf_div T 1 (Z.lxor i (rows + j)) /\
     aget (cauchy T rows cols) (i * cols + j) <> 0) /\
  (256 <= rows + j < 512 -> aget (cauchy T rows cols) (i * cols + j) = 0).
Proof.
  intros HT Hi Hj Hrows _. rewrite init_gf_tables in HT. injection HT as <-.
  destruct (cauchy_spec TABLES rows cols ltac:(lia) ltac:(lia)) as (_ & Hc).
  specialize (Hc i j Hi Hj). unfold ent in Hc. rewrite Hc.
  destruct (cauchy_entry i (rows + j) ltac:(lia) ltac:(lia)) as (H1 & H2).
  split; [exact H1|exact H2].
Qed.

Lemma cauchy_cells_witness :
  init_gf = Ok TABLES /\
  aget (cauchy TABLES 255 2) (3 * 2 + 0) = gf_div TABLES 1 (Z.lxor 3 (255 + 0)) /\
  aget (cauchy TABLES 255 2) (3 * 2 + 0) <> 0 /\
  aget (cauchy TABLES 255 2) (3 * 2 + 1) = 0.
Proof.
  split; [exact init_gf_tables|].
  pose proof (cauchy_cells TABLES 255 2 3 0 init_gf_tables
                ltac:(lia) ltac:(lia) ltac:(lia) ltac:(lia)) as (H1 & _).
  pose proof (cauchy_cells TABLES 255 2 3 1 init_gf_tables
                ltac:(lia) ltac:(lia) ltac:(lia) ltac:(lia)) as (_ & H2).
  destruct (H1 ltac:(lia)) as (Ha & Hb).
  split; [exact Ha|]. split; [exact Hb|]. apply H2. lia.
Defined.

Section CoderShape.

Variable T : gf_tables.
Hypothesis FT : gf_field T.

(** The Cauchy block [rs_new] inverts. *)
Lemma rs_new_top_block K M :
  1 <= K -> 1 <= M ->
  bytes_mat K (sub_matrix (cauchy T (K + M) K) 0 0 K K (K + M) K) /\
  forall r c, 0 <= r < K -> 0 <= c < K ->
    ent K (sub_matrix (cauchy T (K + M) K) 0 0 K K (K + M) K) r c
    = aget (gf_div_table T) (Z.lxor (256 * 1 + r) (K + M + c)).
Proof.
  intros HK HM.
  destruct (cauchy_spec T (K + M) K) as (Hlv & Hv); [lia | lia|].
  destruct (sub_matrix_top (cauchy T (K + M) K) K K (K + M) K) as (Hlt & Ht); [lia | lia|].
  assert (Hcells : forall r c, 0 <= r < K -> 0 <= c < K ->
            ent K (sub_matrix (cauchy T (K + M) K) 0 0 K K (K + M) K) r c
            = aget (gf_div_table T) (Z.lxor (256 * 1 + r) (K + M + c))).
  { intros r c Hr Hc. rewrite Ht by auto. fold (ent K (cauchy T (K + M) K) r c).
    apply Hv; lia. }
  split; [|exact Hcells]. split; auto.
  intros r c Hr Hc. rewrite Hcells by auto. apply (fld_div_byte T FT).
Qed.

(** What [rs_new] returns when it returns a coder. *)
Lemma rs_new_shape K M rs :
  rs_new T K M = Ok (Some rs) ->
  1 <= K /\ 1 <= M /\ K + M <= 255 /\
  data_shards rs = K /\ parity_shards rs = M /\ shards rs = K + M /\
  alen (matrix rs) = (K + M) * K /\
  (forall r c, 0 <= r < K + M -> 0 <= c < K -> byte (ent K (matrix rs) r c)) /\
  alen (parity rs) = M * K /\
  (forall i j, 0 <= i < M -> 0 <= j < K ->
     ent K (parity rs) i j = ent K (matrix rs) (K + i) j).
Proof.
  unfold rs_new, DATA_SHARDS_MAX.
  destruct (Z.gtb_spec (K + M) 255); [discriminate|].
  destruct (Z.leb_spec K 0); [discriminate|].
  destruct (Z.leb_spec M 0); [discriminate|]. cbn [orb].
  destruct (rs_new_top_block K M ltac:(lia) ltac:(lia)) as (Htop & _).
  destruct (cauchy_spec T (K + M) K) as (Hlv & Hv); [lia | lia|].
  set (vm := cauchy T (K + M) K) in *.
  set (top := sub_matrix vm 0 0 K K (K + M) K) in *.
  pose proof (matrix_invert_code T top K) as Hcode.
  destruct (matrix_invert T top K) as [err E] eqn:EI. cbn [fst] in Hcode.
  destruct Hcode as [-> | ->]; [discriminate|]. cbn [Z.eqb].
  destruct (multiply1_spec T vm (K + M) K E K) as (m & Em & Hlm & Hm); [lia | lia|].
  rewrite Em. cbn [bind]. intros [= <-].
  cbn [data_shards parity_shards shards matrix parity].
  destruct (matrix_invert_right_inverse T FT K ltac:(lia) top E Htop EI) as ((_ & HE) & _).
  destruct (sub_matrix_block m K 0 (K + M) K (K + M) K) as (Hlp & Hp); [lia | lia|].
  replace (K + M - K) with M in * by lia. rewrite Z.sub_0_r in *.
  repeat (split; [auto; lia|]). split; [|split; [exact Hlp|]].
  - intros r c Hr Hc. rewrite Hm by auto. apply xsum_byte; [lia|].
    intros k Hk. apply (fld_byte T FT).
    + fold (ent K vm r k). rewrite Hv by lia. apply (fld_div_byte T FT).
    + apply (HE k c); unfold in_range; lia.
  - intros i j Hi Hj. rewrite Hp by lia. unfold ent. f_equal; lia.
Qed.

(** [rs_new] finds the top block singular when one of its columns lies at
    or beyond column [256 - (K + M)] of the Cauchy matrix. *)
Lemma rs_new_null K M :
  1 <= K -> 1 <= M -> K + M <= 255 -> 256 < 2 * K + M ->
  (forall k, 0 <= k < 256 -> aget (gf_div_table T) k = 0) ->
  (forall i s, 0 <= i < 256 -> 0 <= s < 256 ->
     Z.lxor (256 * 1 + i) (256 + s) = Z.lxor i s) ->
  rs_new T K M = Ok None.
Proof.
  intros HK HM HKM Hbig Hrow0 Hbits. unfold rs_new, DATA_SHARDS_MAX.
  destruct (Z.gtb_spec (K + M) 255); [lia|].
  destruct (Z.leb_spec K 0); [lia|].
  destruct (Z.leb_spec M 0); [lia|]. cbn [orb].
  destruct (rs_new_top_block K M ltac:(lia) ltac:(lia)) as (Htop & Hcells).
  set (top := sub_matrix (cauchy T (K + M) K) 0 0 K K (K + M) K) in *.
  assert (Hfail : fst (matrix_invert T top K) = 0).
  { apply (matrix_invert_kernel T FT K ltac:(lia) top Htop).
    set (c0 := 256 - (K + M)).
    assert (Hc0 : in_range K c0) by (unfold in_range, c0; lia).
    exists (fun k => delta k c0). split; [intros k _; apply byte_delta|]. split.
    - exists c0. split; auto. unfold delta. now rewrite Z.eqb_refl.
    - intros r Hr. rewrite (dotr_unit T FT K ltac:(lia)) by auto.
      unfold in_range in Hr. rewrite Hcells by (unfold c0; lia).
      replace (K + M + c0) with (256 + 0) by (unfold c0; lia).
      rewrite Hbits by lia. apply Hrow0.
      assert (B : byte (Z.lxor r 0)) by (apply byte_lxor; unfold byte; lia).
      exact B. }
  destruct (matrix_invert T top K) as [err E]. cbn [fst] in Hfail. subst err. reflexivity.
Qed.

End CoderShape.

(** After [init_gf], a coder returned by [rs_new(K, M)] has
    1 <= K, 1 <= M and K + M <= 255, records K, M and K + M, its generator
    matrix is a (K + M) x K matrix of bytes, and [parity] is a copy of the
    last M rows of [matrix]. *)
Theorem rs_new_coder_shape T K M rs :
  init_gf = Ok T ->
  rs_new T K M = Ok (Some rs) ->
  1 <= K /\ 1 <= M /\ K + M <= 255 /\
  data_shards rs = K /\ parity_shards rs = M /\ shards rs = K + M /\
  byte_matrix (K + M) K (matrix rs) /\
  byte_matrix M K (parity rs) /\
  forall i j, 0 <= i < M -> 0 <= j < K ->
    aget (parity rs) (i * K + j) = aget (matrix rs) ((K + i) * K + j).
Proof.
  intros HT Hnew. rewrite init_gf_tables in HT. injection HT as <-.
  destruct (rs_new_shape TABLES TABLES_field K M rs Hnew)
    as (HK & HM & HKM & Hd & Hp & Hs & Hlm & Hbm & Hlp & Hpar).
  repeat (split; [assumption|]).
  assert (Hflat : forall rows m, 0 <= rows -> alen m = rows * K ->
            (forall r c, 0 <= r < rows -> 0 <= c < K -> byte (ent K m r c)) ->
            byte_matrix rows K m).
  { intros rows m Hrows Hl Hb. split; auto. intros k Hk.
    assert (Hr : 0 <= k / K < rows).
    { split; [apply Z.div_pos; lia|]. apply Z.div_lt_upper_bound; lia. }
    assert (Hc : 0 <= k mod K < K) by (apply Z.mod_pos_bound; lia).
    specialize (Hb _ _ Hr Hc). unfold ent in Hb.
    replace (k / K * K + k mod K) with k in Hb by (rewrite (Z.div_mod k K) at 1; lia).
    unfold byte in Hb. lia. }
  split; [apply Hflat; auto; lia|]. split; [|exact Hpar].
  apply Hflat; auto; [lia|]. intros r c Hr Hc. rewrite Hpar by auto. apply Hbm; lia.
Qed.

Lemma rs_new_coder_shape_witness :
  init_gf = Ok TABLES /\
  rs_new TABLES 4 2 = Ok (Some rs_4_2) /\
  byte_matrix (4 + 2) 4 (matrix rs_4_2) /\
  byte_matrix 2 4 (parity rs_4_2) /\
  aget (parity rs_4_2) (1 * 4 + 2) = aget (matrix rs_4_2) ((4 + 1) * 4 + 2).
Proof.
  split; [exact init_gf_tables|]. split; [exact rs_new_4_2|].
  pose proof (rs_new_coder_shape TABLES 4 2 rs_4_2 init_gf_tables rs_new_4_2)
    as (_ & _ & _ & _ & _ & _ & Hm & Hp & Hrows).
  split; [exact Hm|]. split; [exact Hp|]. apply Hrows; lia.
Defined.

(** After [init_gf], for [int] arguments K and M whose sum is an [int],
    [rs_new] returns, and it returns NULL for K <= 0, M <= 0, K + M > 255
    and also whenever 2 K + M > 256: the top K x K block of the Cauchy
    matrix then has a zero column. *)
Theorem rs_new_returns_null T K M :
  init_gf = Ok T ->
  - 2 ^ 31 <= K < 2 ^ 31 -> - 2 ^ 31 <= M < 2 ^ 31 -> - 2 ^ 31 <= K + M < 2 ^ 31 ->
  (exists r, rs_new T K M = Ok r) /\
  (K <= 0 \/ M <= 0 \/ 255 < K + M \/ 256 < 2 * K + M -> rs_new T K M = Ok None).
Proof.
  intros HT _ _ _. rewrite init_gf_tables in HT. injection HT as <-.
  assert (Hnull : K <= 0 \/ M <= 0 \/ 255 < K + M \/ 256 < 2 * K + M ->
                  rs_new TABLES K M = Ok None).
  { intros H.
    destruct (Z.leb_spec K 0) as [HK|HK];
      [unfold rs_new; destruct (Z.leb_spec K 0); [|lia];
       now rewrite orb_true_r|].
    destruct (Z.leb_spec M 0) as [HM|HM];
      [unfold rs_new; destruct (Z.leb_spec M 0); [|lia];
       now rewrite orb_true_r|].
    destruct (Z.ltb_spec 255 (K + M)) as [HKM|HKM];
      [unfold rs_new, DATA_SHARDS_MAX; destruct (Z.gtb_spec (K + M) 255); [|lia];
       reflexivity|].
    apply (rs_new_null TABLES TABLES_field); try lia.
    - apply div_table_row_zero.
    - intros i s Hi Hs. apply Z.eqb_eq.
      apply (forallb_bytes2 _ lxor_bit8_both_sides i s); unfold byte; lia. }
  split; [|exact Hnull].
  unfold rs_new.
  destruct ((K + M >? DATA_SHARDS_MAX) || (K <=? 0) || (M <=? 0)); [now eexists|].
  destruct (matrix_invert TABLES _ K) as [err E].
  destruct (err =? 0); [now eexists|].
  destruct (Z.leb_spec 0 (K + M)) as [H1|H1].
  - destruct (Z.leb_spec 0 K) as [H2|H2].
    + destruct (multiply1_spec TABLES (cauchy TABLES (K + M) K) (K + M) K E K H1 H2)
        as (m & Em & _).
      rewrite Em. cbn [bind]. now eexists.
    + unfold multiply1. rewrite Z.eqb_refl. cbn [negb bind]. now eexists.
  - unfold multiply1. rewrite Z.eqb_refl. cbn [negb bind]. now eexists.
Qed.

Lemma rs_new_returns_null_witness :
  init_gf = Ok TABLES /\ rs_new TABLES 3 251 = Ok None.
Proof.
  split; [exact init_gf_tables|].
  apply (proj2 (rs_new_returns_null TABLES 3 251 init_gf_tables
                  ltac:(lia) ltac:(lia) ltac:(lia))). lia.
Defined.

Lemma vandermonde_fill T rows cols (rowv : Z -> Z) :
  0 <= rows -> 0 <= cols ->
  forall i j, 0 <= i < rows -> 0 <= j < cols ->
    aget (for_range 0 rows
            (fun i m =>
               for_range 0 cols
                 (fun j m =>
                    if (i =? 0) || (j =? 0)
                    then aset m (i * cols + j) 1
                    else aset m (i * cols + j) (aget (gf_exp T) (Z.rem (rowv i * j) 255))) m)
            (zeros (rows * cols))) (i * cols + j)
    = if (i =? 0) || (j =? 0) then 1 else aget (gf_exp T) (Z.rem (rowv i * j) 255).
Proof.
  intros Hr Hc i j Hi Hj.
  rewrite (for_range_ext 0 rows _
             (fun i m => for_range 0 cols
                (fun j m => aset m (i * cols + j)
                   (if (i =? 0) || (j =? 0) then 1
                    else aget (gf_exp T) (Z.rem (rowv i * j) 255))) m)).
  - destruct (fill_cells
                (fun i j => if (i =? 0) || (j =? 0) then 1
                            else aget (gf_exp T) (Z.rem (rowv i * j) 255))
                rows cols (zeros (rows * cols)) Hr Hc) as (_ & H).
    + apply alen_zeros. apply Z.mul_nonneg_nonneg; auto.
    + apply (H i j Hi Hj).
  - intros i' s _. apply for_range_ext. intros j' s' _.
    destruct ((i' =? 0) || (j' =? 0)); reflexivity.
Qed.

(** After [init_gf], [vandermonde(rows, cols)] holds the powers
    [(2^i)^j] of the field elements [2^i = gf_exp[i]]: a Vandermonde
    matrix on the nodes [gf_exp[0 .. rows-1]]. *)
Theorem vandermonde_cells T rows cols i j :
  init_gf = Ok T ->
  0 <= i < rows -> 0 <= j < cols -> rows <= 255 -> cols <= 8388608 ->
  aget (vandermonde T rows cols) (i * cols + j) = gf_pow T (aget (gf_exp T) i) j /\
  aget (gf_exp T) i = gf_pow T 2 i.
Proof.
  intros HT Hi Hj Hrows Hcols. rewrite init_gf_tables in HT. injection HT as <-.
  unfold vandermonde.
  rewrite (vandermonde_fill TABLES rows cols (fun i => i)) by lia.
  cbn [gf_exp TABLES].
  destruct (exp_log_inverse i ltac:(lia)) as (Hexp & Hlog).
  split.
  - destruct (Z.eqb_spec j 0) as [->|Hj0].
    + rewrite orb_true_r. reflexivity.
    + rewrite gf_pow_nonzero_base by lia. rewrite Hlog.
      rewrite Z.rem_mod_nonneg by nia.
      destruct (Z.eqb_spec i 0) as [->|Hi0]; cbn [orb]; [|reflexivity].
      rewrite Z.mul_0_l. reflexivity.
  - destruct (Z.eq_dec i 0) as [->|Hi0]; [reflexivity|].
    rewrite gf_pow_nonzero_base by lia.
    replace (aget LOG 2) with 1 by reflexivity.
    rewrite Z.mul_1_l, Z.mod_small by lia. reflexivity.
Qed.

Lemma vandermonde_cells_witness :
  init_gf = Ok TABLES /\
  aget (vandermonde TABLES 6 4) (3 * 4 + 2) = gf_pow TABLES (aget (gf_exp TABLES) 3) 2 /\
  aget (gf_exp TABLES) 3 = gf_pow TABLES 2 3.
Proof.
  split; [exact init_gf_tables|].
  apply (vandermonde_cells TABLES 6 4 3 2 init_gf_tables); lia.
Defined.







(** * The bulk kernels on whole buffers *)

Lemma buf_upd_same m p a : (p < length m)%nat -> buf (upd_nth p m a) p = a.
Proof. intros Hp. unfold buf. now apply nth_upd_nth_same. Qed.

Lemma buf_upd_other m p p' a : p <> p' -> buf (upd_nth p m a) p' = buf m p'.
Proof. intros Hp. unfold buf. now apply nth_upd_nth_other. Qed.

(** What a byte loop [for (i = lo; i < sz; i++) dst[i] = g(dst[i], src[i])]
    leaves: only [dst[lo .. sz-1]] has changed. [dst] and [src] may be
    the same buffer. *)
Lemma byte_loop_spec (g : Z -> Z -> Z) m dst src lo sz :
  0 <= lo <= sz -> (dst < length m)%nat -> sz <= alen (buf m dst) ->
  length (for_range lo sz
            (fun i m => storeb m dst i (g (loadb m dst i) (loadb m src i))) m)
  = length m /\
  (forall p, p <> dst ->
     buf (for_range lo sz
            (fun i m => storeb m dst i (g (loadb m dst i) (loadb m src i))) m) p
     = buf m p) /\
  alen (buf (for_range lo sz
               (fun i m => storeb m dst i (g (loadb m dst i) (loadb m src i))) m) dst)
  = alen (buf m dst) /\
  (forall i, lo <= i < sz ->
     loadb (for_range lo sz
              (fun i m => storeb m dst i (g (loadb m dst i) (loadb m src i))) m) dst i
     = g (loadb m dst i) (loadb m src i)) /\
  (forall i, i < lo \/ sz <= i ->
     loadb (for_range lo sz
              (fun i m => storeb m dst i (g (loadb m dst i) (loadb m src i))) m) dst i
     = loadb m dst i).
Proof.
  intros Hsz Hdst Hlen.
  destruct (for_range_inv
              (fun i m' =>
                 length m' = length m /\ alen (buf m' dst) = alen (buf m dst) /\
                 (forall p, p <> dst -> buf m' p = buf m p) /\
                 (forall j, lo <= j < i -> loadb m' dst j = g (loadb m dst j) (loadb m src j)) /\
                 (forall j, j < lo \/ i <= j -> loadb m' dst j = loadb m dst j))
              lo sz (fun i m => storeb m dst i (g (loadb m dst i) (loadb m src i))) m)
    as (Hl & Hb & Hf & Hdone & Hrest); auto; try lia.
  - repeat split; auto. intros; lia.
  - intros i m' Hi (Hl & Hbl & Hother & Hlow & Hhigh).
    assert (Hsrc : loadb m' src i = loadb m src i).
    { destruct (Nat.eq_dec src dst) as [->|Hne]; [apply Hhigh; lia|].
      unfold loadb. now rewrite Hother. }
    assert (Hd : loadb m' dst i = loadb m dst i) by (apply Hhigh; lia).
    rewrite Hsrc, Hd. split; [now rewrite length_storeb|].
    split; [rewrite buf_storeb_same, alen_aset by lia; exact Hbl|].
    split; [intros p Hp; rewrite buf_storeb_other by auto; now apply Hother|].
    split; intros j Hj; unfold loadb; rewrite buf_storeb_same by lia.
    + rewrite aget_aset by lia. destruct (Z.eqb_spec i j) as [<-|]; auto.
      apply Hlow; lia.
    + rewrite aget_aset_other by lia. apply Hhigh; lia.
Qed.

Lemma store32_spec a off v :
  0 <= off -> off + 32 <= alen a ->
  alen (_mm256_storeu_si256 a off v) = alen a /\
  forall j, aget (_mm256_storeu_si256 a off v) j
            = if (off <=? j) && (j <? off + 32) then aget v (j - off) else aget a j.
Proof.
  intros Hoff Hlen. unfold _mm256_storeu_si256.
  destruct (for_range_inv
              (fun k a' => alen a' = alen a /\
                 forall j, aget a' j
                           = if (off <=? j) && (j <? off + k) then aget v (j - off) else aget a j)
              0 32 (fun k a => aset a (off + k) (aget v k)) a) as (Hl & Hc); auto; try lia.
  - split; auto. intros j.
    destruct (Z.leb_spec off j), (Z.ltb_spec j (off + 0)); simpl; auto; lia.
  - intros k a' Hk (Hl & Hc). rewrite alen_aset. split; auto. intros j.
    rewrite aget_aset by lia. rewrite Hc.
    destruct (Z.eqb_spec (off + k) j) as [<-|Hne].
    + destruct (Z.leb_spec off (off + k)), (Z.ltb_spec (off + k) (off + (k + 1)));
        simpl; try lia. f_equal. lia.
    + destruct (Z.leb_spec off j), (Z.ltb_spec j (off + k)), (Z.ltb_spec j (off + (k + 1)));
        simpl; auto; lia.
Qed.

Lemma chunk_loop_inv {S} (P : Z -> S -> Prop) sz (body : Z -> S -> S) :
  (forall i s, 0 <= i -> i + 64 <= sz -> P i s -> P (i + 64) (body i s)) ->
  forall fuel i s,
    0 <= i <= sz -> (Z.to_nat (sz - i) <= fuel)%nat -> P i s ->
    P (fst (chunk_loop fuel i sz body s)) (snd (chunk_loop fuel i sz body s)) /\
    i <= fst (chunk_loop fuel i sz body s) <= sz /\
    sz < fst (chunk_loop fuel i sz body s) + 64.
Proof.
  intros Hstep. induction fuel as [|f IH]; intros i s Hi Hf HP; cbn [chunk_loop].
  - cbn [fst snd]. split; auto. lia.
  - destruct (Z.leb_spec (i + 64) sz) as [Hle|Hgt].
    + destruct (IH (i + 64) (body i s)) as (H1 & H2 & H3); try lia.
      * apply Hstep; auto; lia.
      * split; auto. lia.
    + cbn [fst snd]. split; auto. lia.
Qed.

(** One round of the 64-byte loop of [add1_avx2]. *)
Lemma add1_chunk m dst src i :
  (dst < length m)%nat -> 0 <= i -> i + 64 <= alen (buf m dst) ->
  let m' :=
    (let src_lo := _mm256_loadu_si256 (buf m src) i in
     let src_hi := _mm256_loadu_si256 (buf m src) (i + 32) in
     let dst_lo := _mm256_loadu_si256 (buf m dst) i in
     let dst_hi := _mm256_loadu_si256 (buf m dst) (i + 32) in
     let m := upd_nth dst m
                (_mm256_storeu_si256 (buf m dst) i (_mm256_xor_si256 src_lo dst_lo)) in
     upd_nth dst m
       (_mm256_storeu_si256 (buf m dst) (i + 32) (_mm256_xor_si256 src_hi dst_hi))) in
  length m' = length m /\
  (forall p, p <> dst -> buf m' p = buf m p) /\
  alen (buf m' dst) = alen (buf m dst) /\
  forall j, loadb m' dst j
            = if (i <=? j) && (j <? i + 64)
              then Z.lxor (loadb m dst j) (loadb m src j) else loadb m dst j.
Proof.
  intros Hdst Hi Hlen. cbv zeta.
  set (X := _mm256_xor_si256 (_mm256_loadu_si256 (buf m src) i)
              (_mm256_loadu_si256 (buf m dst) i)).
  set (Y := _mm256_xor_si256 (_mm256_loadu_si256 (buf m src) (i + 32))
              (_mm256_loadu_si256 (buf m dst) (i + 32))).
  destruct (store32_spec (buf m dst) i X) as (Hl1 & Hc1); try lia.
  set (m1 := upd_nth dst m (_mm256_storeu_si256 (buf m dst) i X)).
  assert (Hb1 : buf m1 dst = _mm256_storeu_si256 (buf m dst) i X)
    by (apply buf_upd_same; auto).
  assert (Hlm1 : length m1 = length m) by apply upd_nth_length.
  rewrite Hb1.
  destruct (store32_spec (_mm256_storeu_si256 (buf m dst) i X) (i + 32) Y)
    as (Hl2 & Hc2); try lia.
  split; [rewrite upd_nth_length; exact Hlm1|].
  split; [intros p Hp; rewrite buf_upd_other by auto; unfold m1;
          now rewrite buf_upd_other by auto|].
  rewrite buf_upd_same by lia.
  split; [lia|]. intros j. unfold loadb. rewrite buf_upd_same by lia.
  rewrite Hc2, Hc1.
  assert (HX : forall k, 0 <= k < 32 ->
            aget X k = Z.lxor (aget (buf m dst) (i + k)) (aget (buf m src) (i + k))).
  { intros k Hk. unfold X, _mm256_xor_si256, _mm256_loadu_si256.
    rewrite !aget_lanes by (simpl; lia). apply Z.lxor_comm. }
  assert (HY : forall k, 0 <= k < 32 ->
            aget Y k = Z.lxor (aget (buf m dst) (i + 32 + k)) (aget (buf m src) (i + 32 + k))).
  { intros k Hk. unfold Y, _mm256_xor_si256, _mm256_loadu_si256.
    rewrite !aget_lanes by (simpl; lia). apply Z.lxor_comm. }
  destruct (Z.leb_spec (i + 32) j), (Z.ltb_spec j (i + 32 + 32)),
           (Z.leb_spec i j), (Z.ltb_spec j (i + 32)), (Z.ltb_spec j (i + 64));
    cbn [andb]; try lia; auto.
  - rewrite HY by lia. now replace (i + 32 + (j - (i + 32))) with j by lia.
  - rewrite HX by lia. now replace (i + (j - i)) with j by lia.
Qed.

(** [add1_avx2], through both of its loops: [dst[i] ^= src[i]] for
    [i < sz], and nothing else changes. *)
Lemma add1_avx2_spec m dst src sz :
  0 <= sz -> (dst < length m)%nat -> sz <= alen (buf m dst) ->
  length (add1_avx2 m dst src sz) = length m /\
  (forall p, p <> dst -> buf (add1_avx2 m dst src sz) p = buf m p) /\
  alen (buf (add1_avx2 m dst src sz) dst) = alen (buf m dst) /\
  (forall i, 0 <= i < sz ->
     loadb (add1_avx2 m dst src sz) dst i = Z.lxor (loadb m dst i) (loadb m src i)) /\
  (forall i, sz <= i -> loadb (add1_avx2 m dst src sz) dst i = loadb m dst i).
Proof.
  intros Hsz Hdst Hlen. unfold add1_avx2.
  set (body := fun i m =>
         let src_lo := _mm256_loadu_si256 (buf m src) i in
         let src_hi := _mm256_loadu_si256 (buf m src) (i + 32) in
         let dst_lo := _mm256_loadu_si256 (buf m dst) i in
         let dst_hi := _mm256_loadu_si256 (buf m dst) (i + 32) in
         let m := upd_nth dst m
                    (_mm256_storeu_si256 (buf m dst) i (_mm256_xor_si256 src_lo dst_lo)) in
         upd_nth dst m
           (_mm256_storeu_si256 (buf m dst) (i + 32) (_mm256_xor_si256 src_hi dst_hi))).
  set (P := fun (i : Z) (m' : mem) =>
         length m' = length m /\ alen (buf m' dst) = alen (buf m dst) /\
         (forall p, p <> dst -> buf m' p = buf m p) /\
         (forall j, j < i -> 0 <= j ->
            loadb m' dst j = Z.lxor (loadb m dst j) (loadb m src j)) /\
         (forall j, j < 0 \/ i <= j -> loadb m' dst j = loadb m dst j)).
  assert (Hsrc : forall i m', P i m' -> forall j, i <= j -> loadb m' src j = loadb m src j).
  { intros i m' (_ & _ & Hf & _ & Hhigh) j Hj.
    destruct (Nat.eq_dec src dst) as [->|Hne]; [apply Hhigh; lia|].
    unfold loadb. now rewrite Hf. }
  assert (Hchunk : forall m' i,
            (dst < length m')%nat -> 0 <= i -> i + 64 <= alen (buf m' dst) ->
            length (body i m') = length m' /\
            (forall p, p <> dst -> buf (body i m') p = buf m' p) /\
            alen (buf (body i m') dst) = alen (buf m' dst) /\
            forall j, loadb (body i m') dst j
                      = if (i <=? j) && (j <? i + 64)
                        then Z.lxor (loadb m' dst j) (loadb m' src j) else loadb m' dst j)
    by (intros m' i H1 H2 H3; exact (add1_chunk m' dst src i H1 H2 H3)).
  destruct (chunk_loop_inv P sz body) with (fuel := Z.to_nat sz) (i := 0) (s := m)
    as (HP & Hi1 & Hi2); try lia.
  - intros i m' Hi Hle HP. pose proof (Hsrc i m' HP) as Hs.
    destruct HP as (Hl & Hbl & Hf & Hlow & Hhigh).
    destruct (Hchunk m' i) as (Hl' & Hf' & Hbl' & Hc'); try lia.
    split; [lia|]. split; [lia|].
    split; [intros p Hp; rewrite Hf' by auto; now apply Hf|].
    split; intros j Hj; [intros Hj0|]; rewrite Hc'.
    + destruct (Z.leb_spec i j), (Z.ltb_spec j (i + 64)); cbn [andb]; try lia.
      * rewrite Hhigh, Hs by lia. reflexivity.
      * apply Hlow; lia.
    + destruct (Z.leb_spec i j), (Z.ltb_spec j (i + 64)); cbn [andb]; try lia;
        apply Hhigh; lia.
  - unfold P. repeat split; auto. intros; lia.
  - remember (chunk_loop (Z.to_nat sz) 0 sz body m) as r eqn:EC.
    destruct r as [i1 m1]. cbn [fst snd] in HP, Hi1, Hi2.
    pose proof (Hsrc i1 m1 HP) as Hs.
    destruct HP as (Hl & Hbl & Hf & Hlow & Hhigh).
    destruct (byte_loop_spec (fun d s => Z.lxor d s) m1 dst src i1 sz)
      as (Hl' & Hf' & Hbl' & Hin & Hout); try lia.
    cbv beta in Hl', Hf', Hbl', Hin, Hout.
    split; [lia|]. split; [intros p Hp; rewrite Hf' by auto; now apply Hf|].
    split; [lia|]. split.
    + intros i Hi. destruct (Z.ltb_spec i i1).
      * rewrite Hout by lia. apply Hlow; lia.
      * rewrite Hin by lia. rewrite Hhigh, Hs by lia. reflexivity.
    + intros i Hi. rewrite Hout by lia. apply Hhigh; lia.
Qed.

Lemma byte_loop_bytewise (g : Z -> Z -> Z) m dst src sz :
  0 <= sz -> (dst < length m)%nat -> sz <= alen (buf m dst) ->
  bytewise g m dst src sz
    (for_range 0 sz (fun i m => storeb m dst i (g (loadb m dst i) (loadb m src i))) m).
Proof.
  intros Hsz Hdst Hlen.
  destruct (byte_loop_spec g m dst src 0 sz) as (H1 & H2 & H3 & H4 & H5); try lia.
  split; [exact H1|]. split; [exact H2|]. split; [exact H3|]. split; [exact H4|].
  intros i Hi. apply H5. lia.
Qed.

Lemma memcpy_bytewise m dst src n :
  0 <= n -> (dst < length m)%nat -> n <= alen (buf m dst) ->
  bytewise (fun _ s => s) m dst src n (memcpy m dst src n).
Proof. intros. unfold memcpy. now apply (byte_loop_bytewise (fun _ s => s)). Qed.

Lemma memset_bytewise m dst v n :
  0 <= n -> (dst < length m)%nat -> n <= alen (buf m dst) ->
  bytewise (fun _ _ => v) m dst dst n (memset m dst v n).
Proof. intros. unfold memset. now apply (byte_loop_bytewise (fun _ _ => v)). Qed.

Lemma add1_avx2_bytewise m dst src sz :
  0 <= sz -> (dst < length m)%nat -> sz <= alen (buf m dst) ->
  bytewise Z.lxor m dst src sz (add1_avx2 m dst src sz).
Proof. intros. now apply add1_avx2_spec. Qed.

Lemma mul_table_cell T c v : aget (gf_mul_table T) (Z.shiftl c 8 + v) = gf_mul T c v.
Proof. unfold gf_mul, GF_SIZE. rewrite Z.shiftl_mul_pow2 by lia. reflexivity. Qed.

Lemma bytewise_ext g g' m dst src sz m' :
  (forall d s, g d s = g' d s) -> bytewise g m dst src sz m' -> bytewise g' m dst src sz m'.
Proof.
  intros E (H1 & H2 & H3 & H4 & H5). repeat split; auto.
  intros i Hi. rewrite <- E. now apply H4.
Qed.

(** Below 64 bytes the two table kernels run only their byte loops. *)
Lemma mul1_avx2_short T m dst src c sz :
  0 <= sz < 64 -> (dst < length m)%nat -> sz <= alen (buf m dst) ->
  bytewise (fun _ s => gf_mul T c s) m dst src sz (mul1_avx2 T m dst src c sz).
Proof.
  intros Hsz Hdst Hlen. unfold mul1_avx2. rewrite chunk_loop_short by lia.
  apply (bytewise_ext (fun _ s => aget (gf_mul_table T) (Z.shiftl c 8 + s))).
  - intros d s. apply mul_table_cell.
  - apply (byte_loop_bytewise (fun _ s => aget (gf_mul_table T) (Z.shiftl c 8 + s)));
      auto; lia.
Qed.

Lemma mul_add1_avx2_short T m dst src c sz :
  0 <= sz < 64 -> (dst < length m)%nat -> sz <= alen (buf m dst) ->
  bytewise (fun d s => Z.lxor d (gf_mul T c s)) m dst src sz (mul_add1_avx2 T m dst src c sz).
Proof.
  intros Hsz Hdst Hlen. unfold mul_add1_avx2. rewrite chunk_loop_short by lia.
  apply (bytewise_ext (fun d s => Z.lxor d (aget (gf_mul_table T) (Z.shiftl c 8 + s)))).
  - intros d s. now rewrite mul_table_cell.
  - apply (byte_loop_bytewise
             (fun d s => Z.lxor d (aget (gf_mul_table T) (Z.shiftl c 8 + s)))); auto; lia.
Qed.

Lemma bytewise_only_writes g m dst src sz m' :
  bytewise g m dst src sz m' -> only_writes dst m m'.
Proof. intros (H1 & H2 & H3 & _). repeat split; auto. Qed.

Lemma only_writes_refl dst m : only_writes dst m m.
Proof. repeat split; auto. Qed.

Lemma only_writes_trans dst m1 m2 m3 :
  only_writes dst m1 m2 -> only_writes dst m2 m3 -> only_writes dst m1 m3.
Proof.
  intros (A1 & A2 & A3) (B1 & B2 & B3). split; [congruence|]. split; [|congruence].
  intros p Hp. rewrite B2 by auto. now apply A2.
Qed.

(** The 64-byte rounds of the table kernels store only into [dst]. *)
Lemma two_stores_only_write m dst i lo hi :
  (dst < length m)%nat -> 0 <= i -> i + 64 <= alen (buf m dst) ->
  only_writes dst m
    (upd_nth dst (upd_nth dst m (_mm256_storeu_si256 (buf m dst) i lo))
       (_mm256_storeu_si256
          (buf (upd_nth dst m (_mm256_storeu_si256 (buf m dst) i lo)) dst) (i + 32) hi)).
Proof.
  intros Hdst Hi Hlen.
  destruct (store32_spec (buf m dst) i lo) as (Hl1 & _); try lia.
  rewrite (buf_upd_same m dst) by auto.
  destruct (store32_spec (_mm256_storeu_si256 (buf m dst) i lo) (i + 32) hi)
    as (Hl2 & _); try lia.
  split; [now rewrite !upd_nth_length|]. split.
  - intros p Hp. now rewrite !buf_upd_other by auto.
  - rewrite buf_upd_same by (rewrite upd_nth_length; auto). lia.
Qed.

Lemma mul1_avx2_only_writes T m dst src c sz :
  0 <= sz -> (dst < length m)%nat -> sz <= alen (buf m dst) ->
  only_writes dst m (mul1_avx2 T m dst src c sz).
Proof.
  intros Hsz Hdst Hlen. unfold mul1_avx2.
  match goal with |- context [chunk_loop _ _ _ ?b _] => set (body := b) end.
  destruct (chunk_loop_inv (fun (_ : Z) (m' : mem) => only_writes dst m m') sz body)
    with (fuel := Z.to_nat sz) (i := 0) (s := m) as (HP & Hi1 & Hi2); try lia.
  - intros i m' Hi Hle HP. apply (only_writes_trans dst m m'); auto.
    unfold body. destruct (mul_chunk T c (buf m' src) i) as [lo hi].
    destruct HP as (A1 & A2 & A3). apply two_stores_only_write; lia.
  - apply only_writes_refl.
  - remember (chunk_loop (Z.to_nat sz) 0 sz body m) as r eqn:EC.
    destruct r as [i1 m1]. cbn [fst snd] in HP, Hi1, Hi2.
    apply (only_writes_trans dst m m1); auto.
    destruct HP as (A1 & A2 & A3).
    destruct (byte_loop_spec (fun _ s => aget (gf_mul_table T) (Z.shiftl c 8 + s))
                m1 dst src i1 sz) as (H1 & H2 & H3 & _); try lia.
    repeat split; auto.
Qed.

Lemma mul_add1_avx2_only_writes T m dst src c sz :
  0 <= sz -> (dst < length m)%nat -> sz <= alen (buf m dst) ->
  only_writes dst m (mul_add1_avx2 T m dst src c sz).
Proof.
  intros Hsz Hdst Hlen. unfold mul_add1_avx2.
  match goal with |- context [chunk_loop _ _ _ ?b _] => set (body := b) end.
  destruct (chunk_loop_inv (fun (_ : Z) (m' : mem) => only_writes dst m m') sz body)
    with (fuel := Z.to_nat sz) (i := 0) (s := m) as (HP & Hi1 & Hi2); try lia.
  - intros i m' Hi Hle HP. apply (only_writes_trans dst m m'); auto.
    unfold body. destruct (mul_chunk T c (buf m' src) i) as [lo hi].
    destruct HP as (A1 & A2 & A3). apply two_stores_only_write; lia.
  - apply only_writes_refl.
  - remember (chunk_loop (Z.to_nat sz) 0 sz body m) as r eqn:EC.
    destruct r as [i1 m1]. cbn [fst snd] in HP, Hi1, Hi2.
    apply (only_writes_trans dst m m1); auto.
    destruct HP as (A1 & A2 & A3).
    destruct (byte_loop_spec
                (fun d s => Z.lxor d (aget (gf_mul_table T) (Z.shiftl c 8 + s)))
                m1 dst src i1 sz) as (H1 & H2 & H3 & _); try lia.
    repeat split; auto.
Qed.

(** * [rs_encode] *)

Section Encode.

Variable T : gf_tables.
Hypothesis FT : gf_field T.

Lemma code_term_zero dst src sz s : code_term T dst src 0 sz s = s.
Proof. destruct s as [first m]. reflexivity. Qed.

(** One output row as [rs_encode] builds it from its nonzero coefficients,
    for shards below 64 bytes. *)
Lemma code_row_short dst (srcs : Z -> ptr) (coeffs : Z -> Z) K sz m :
  0 <= K -> 0 <= sz < 64 -> (dst < length m)%nat -> sz <= alen (buf m dst) ->
  (forall j, 0 <= j < K -> srcs j <> dst) ->
  (forall j i, 0 <= j < K -> 0 <= i < sz -> byte (loadb m (srcs j) i)) ->
  only_writes dst m
    (snd (for_range 0 K (fun j s => code_term T dst (srcs j) (coeffs j) sz s) (true, m))) /\
  (forall i, sz <= i ->
     loadb (snd (for_range 0 K (fun j s => code_term T dst (srcs j) (coeffs j) sz s)
                   (true, m))) dst i = loadb m dst i) /\
  ((forall j, 0 <= j < K -> coeffs j = 0) ->
     snd (for_range 0 K (fun j s => code_term T dst (srcs j) (coeffs j) sz s) (true, m)) = m) /\
  ((exists j, 0 <= j < K /\ coeffs j <> 0) ->
     forall i, 0 <= i < sz ->
       loadb (snd (for_range 0 K (fun j s => code_term T dst (srcs j) (coeffs j) sz s)
                     (true, m))) dst i
       = xsum K (fun j => gf_mul T (coeffs j) (loadb m (srcs j) i))).
Proof.
  intros HK Hsz Hdst Hlen Hne Hbytes.
  set (f := fun i j => gf_mul T (coeffs j) (loadb m (srcs j) i)).
  set (Q := fun (j : Z) (s : bool * mem) =>
         only_writes dst m (snd s) /\
         (forall i, sz <= i -> loadb (snd s) dst i = loadb m dst i) /\
         (fst s = true -> snd s = m /\ forall j', 0 <= j' < j -> coeffs j' = 0) /\
         (fst s = false ->
            (exists j', 0 <= j' < j /\ coeffs j' <> 0) /\
            forall i, 0 <= i < sz -> loadb (snd s) dst i = xsum j (f i))).
  assert (HQ : Q K (for_range 0 K (fun j s => code_term T dst (srcs j) (coeffs j) sz s)
                      (true, m))).
  { apply for_range_inv; auto.
    - unfold Q. cbn [fst snd]. split; [apply only_writes_refl|]. split; [auto|].
      split; [|discriminate]. intros _. split; auto. intros; lia.
    - intros j [first m'] Hj (Hw & Hhi & Htrue & Hfalse). cbv beta. cbn [fst snd] in *.
      assert (Hsrc : forall i, loadb m' (srcs j) i = loadb m (srcs j) i).
      { intros i. unfold loadb. destruct Hw as (_ & Hf & _). rewrite Hf; auto. }
      assert (Hzero : forall i, 0 <= i < sz ->
                (forall j', 0 <= j' < j -> coeffs j' = 0) -> xsum j (f i) = 0).
      { intros i Hi Hz. rewrite (xsum_ext j _ (fun _ => 0)); [apply xsum_zero; lia|].
        intros j' Hj'. unfold f. rewrite Hz by lia. apply (fld_0_l T FT).
        apply Hbytes; lia. }
      destruct (Z.eq_dec (coeffs j) 0) as [E0|N0].
      { rewrite E0, code_term_zero. unfold Q. cbn [fst snd].
        split; [exact Hw|]. split; [exact Hhi|]. split.
        - intros Ht. destruct (Htrue Ht) as (Hm & Hz). split; auto.
          intros j' Hj'. destruct (Z.eq_dec j' j) as [->|]; auto. apply Hz; lia.
        - intros Hf. destruct (Hfalse Hf) as ((j' & Hj' & Hnz) & Hsum).
          split; [exists j'; split; [lia | exact Hnz]|].
          intros i Hi. rewrite xsum_succ by lia. rewrite Hsum by auto.
          replace (f i j) with 0; [now rewrite Z.lxor_0_r|].
          unfold f. rewrite E0. symmetry. apply (fld_0_l T FT). apply Hbytes; lia. }
      assert (Hdst' : (dst < length m')%nat) by (destruct Hw as (Hl & _); lia).
      assert (Hlen' : sz <= alen (buf m' dst)) by (destruct Hw as (_ & _ & Ha); lia).
      assert (Hstep : forall g m'',
                bytewise g m' dst (srcs j) sz m'' ->
                (forall i, 0 <= i < sz ->
                   g (loadb m' dst i) (loadb m (srcs j) i)
                   = Z.lxor (if first then 0 else loadb m' dst i) (f i j)) ->
                Q (j + 1) (false, m'')).
      { intros g m'' Hb Hg. unfold Q. cbn [fst snd].
        split; [apply (only_writes_trans dst m m'); auto;
                apply (bytewise_only_writes g m' dst (srcs j) sz); exact Hb|].
        destruct Hb as (_ & _ & _ & Hin & Hout).
        split; [intros i Hi; rewrite Hout by auto; now apply Hhi|].
        split; [discriminate|]. intros _.
        split; [exists j; split; [lia | exact N0]|].
        intros i Hi. rewrite Hin by auto. rewrite Hsrc, Hg by auto.
        rewrite xsum_succ by lia. f_equal.
        destruct first.
        - destruct (Htrue eq_refl) as (_ & Hz). symmetry. now apply Hzero.
        - destruct (Hfalse eq_refl) as (_ & Hsum). now apply Hsum. }
      unfold code_term.
      destruct (Z.eqb_spec (coeffs j) 0) as [|_]; [contradiction|].
      assert (H1 : forall i, 0 <= i < sz -> gf_mul T 1 (loadb m (srcs j) i) = loadb m (srcs j) i)
        by (intros i Hi; apply (fld_1_l T FT); apply Hbytes; lia).
      destruct first; destruct (Z.eqb_spec (coeffs j) 1) as [E1|N1].
      + apply (Hstep (fun _ s => s)); [apply memcpy_bytewise; lia|].
        intros i Hi. unfold f. rewrite E1, H1 by auto. reflexivity.
      + apply (Hstep (fun _ s => gf_mul T (coeffs j) s)); [apply mul1_avx2_short; lia|].
        intros i Hi. reflexivity.
      + apply (Hstep Z.lxor); [apply add1_avx2_bytewise; lia|].
        intros i Hi. unfold f. rewrite E1, H1 by auto. reflexivity.
      + apply (Hstep (fun d s => Z.lxor d (gf_mul T (coeffs j) s)));
          [apply mul_add1_avx2_short; lia|].
        intros i Hi. reflexivity. }
  destruct (for_range 0 K (fun j s => code_term T dst (srcs j) (coeffs j) sz s) (true, m))
    as [first m'].
  destruct HQ as (Hw & Hhi & Htrue & Hfalse). cbn [fst snd] in *.
  split; [exact Hw|]. split; [exact Hhi|]. split.
  - intros Hz. destruct first; [now apply Htrue|].
    destruct (Hfalse eq_refl) as ((j & Hj & Hnz) & _). now rewrite Hz in Hnz.
  - intros (j & Hj & Hnz). destruct first; [|now apply Hfalse].
    destruct (Htrue eq_refl) as (_ & Hz). now rewrite Hz in Hnz.
Qed.

End Encode.

(** Distinct places of a list without repetition hold distinct pointers. *)
Lemma nth_NoDup_neq (l : list ptr) i j :
  NoDup l -> 0 <= i < Z.of_nat (length l) -> 0 <= j < Z.of_nat (length l) -> i <> j ->
  nth (Z.to_nat i) l 0%nat <> nth (Z.to_nat j) l 0%nat.
Proof.
  intros Hnd Hi Hj Hij E.
  apply (proj1 (NoDup_nth l 0%nat) Hnd) in E; lia.
Qed.

Lemma nth_app_neq (a b : list ptr) j i :
  NoDup (a ++ b) -> 0 <= j < Z.of_nat (length a) -> 0 <= i < Z.of_nat (length b) ->
  nth (Z.to_nat j) a 0%nat <> nth (Z.to_nat i) b 0%nat.
Proof.
  intros Hnd Hj Hi E.
  assert (E' : nth (Z.to_nat j) (a ++ b) 0%nat = nth (length a + Z.to_nat i) (a ++ b) 0%nat).
  { rewrite app_nth1 by lia. rewrite app_nth2 by lia.
    replace (length a + Z.to_nat i - length a)%nat with (Z.to_nat i) by lia. exact E. }
  apply (proj1 (NoDup_nth (a ++ b) 0%nat) Hnd) in E'; rewrite ?length_app; lia.
Qed.

Lemma nth_In_Z (l : list ptr) i : 0 <= i < Z.of_nat (length l) -> In (nth (Z.to_nat i) l 0%nat) l.
Proof. intros Hi. apply nth_In. lia. Qed.

Section EncodeLoop.

Variable T : gf_tables.
Hypothesis FT : gf_field T.

Variable rs : reed_solomon.
Variable data parity : list ptr.
Variable m0 : mem.
Variable sz : Z.

Local Abbreviation K := (data_shards rs).
Local Abbreviation M := (parity_shards rs).
Local Abbreviation dat := (shard_ptr data).
Local Abbreviation par := (shard_ptr parity).
Local Abbreviation G := (parity_coeff rs).
Local Abbreviation row := (encode_row T rs data parity sz).
Local Abbreviation encoded := (encoded parity m0).
Local Abbreviation encoded_rows := (encoded_rows T rs data parity m0 sz).

Hypothesis HK : Z.of_nat (length data) = K.
Hypothesis HM : Z.of_nat (length parity) = M.
Hypothesis Hnd : NoDup (data ++ parity).
Hypothesis Hbufs : forall p, In p (data ++ parity) ->
  (p < length m0)%nat /\ sz <= alen (buf m0 p).
Hypothesis Hsz : 0 <= sz.

Lemma rs_encode_rows :
  bufs (rs_encode T (mk_heap rs m0) data parity sz) = for_range 0 M row m0.
Proof. reflexivity. Qed.

Lemma row_only_writes i m :
  (par i < length m)%nat -> sz <= alen (buf m (par i)) ->
  only_writes (par i) m (row i m).
Proof.
  intros Hp Hl. unfold row.
  assert (H : only_writes (par i) m
                (snd (for_range 0 K
                        (fun j s =>
                           let coeff :=
                             aget (matrix rs) ((data_shards rs + i) * data_shards rs + j) in
                           code_term T (nth (Z.to_nat i) parity 0%nat)
                             (nth (Z.to_nat j) data 0%nat) coeff sz s)
                        (true, m)))); [|exact H].
  apply (for_range_inv (fun (_ : Z) (s : bool * mem) => only_writes (par i) m (snd s)));
    [lia | apply only_writes_refl |].
  intros j [first m'] Hj Hw. cbv beta zeta. cbn [snd] in *.
  apply (only_writes_trans (par i) m m'); auto.
  assert (Hp' : (par i < length m')%nat) by (destruct Hw as (Hl' & _); lia).
  assert (Hl' : sz <= alen (buf m' (par i))) by (destruct Hw as (_ & _ & Ha); lia).
  fold (par i). fold (dat j). unfold code_term.
  destruct (_ =? 0); [apply only_writes_refl|].
  destruct first; destruct (_ =? 1); cbn [snd].
  - apply (bytewise_only_writes (fun _ s => s) m' (par i) (dat j) sz).
    now apply memcpy_bytewise.
  - now apply mul1_avx2_only_writes.
  - apply (bytewise_only_writes Z.lxor m' (par i) (dat j) sz).
    now apply add1_avx2_bytewise.
  - now apply mul_add1_avx2_only_writes.
Qed.

Lemma par_in i : 0 <= i < M -> In (par i) (data ++ parity).
Proof. intros Hi. apply in_or_app. right. apply nth_In_Z. lia. Qed.

Lemma dat_in j : 0 <= j < K -> In (dat j) (data ++ parity).
Proof. intros Hj. apply in_or_app. left. apply nth_In_Z. lia. Qed.

Lemma par_neq i i' : 0 <= i < M -> 0 <= i' < M -> i <> i' -> par i <> par i'.
Proof.
  intros Hi Hi' Hne. apply nth_NoDup_neq; try lia.
  now apply NoDup_app_remove_l in Hnd.
Qed.

Lemma dat_neq_par j i : 0 <= j < K -> 0 <= i < M -> dat j <> par i.
Proof. intros Hj Hi. apply nth_app_neq; auto; lia. Qed.

Lemma rs_encode_loop_frame :
  0 <= M -> encoded M (for_range 0 M row m0).
Proof.
  intros HM0. apply for_range_inv; auto.
  - repeat split; auto.
  - intros i m Hi (Hlm & Ham & Hfm).
    destruct (Hbufs (par i) (par_in i Hi)) as (Hp & Hlen).
    destruct (row_only_writes i m) as (Hl' & Hf' & Ha'); try lia.
    { rewrite Ham. exact Hlen. }
    split; [lia|]. split.
    + intros p. destruct (Nat.eq_dec p (par i)) as [->|Hne].
      * rewrite Ha'. apply Ham.
      * rewrite Hf' by auto. apply Ham.
    + intros p Hp'. rewrite Hf' by (apply Hp'; lia). apply Hfm.
      intros i' Hi'. apply Hp'. lia.
Qed.

Hypothesis Hshort : sz < 64.
Hypothesis Hdata : forall j b, 0 <= j < K -> 0 <= b < sz -> byte (loadb m0 (dat j) b).

Lemma rs_encode_loop_rows :
  0 <= K -> 0 <= M -> encoded_rows M (for_range 0 M row m0).
Proof.
  intros HK0 HM0. apply for_range_inv; auto.
  - split; [repeat split; auto|]. intros; lia.
  - intros i m Hi ((Hlm & Ham & Hfm) & Hrows).
    destruct (Hbufs (par i) (par_in i Hi)) as (Hp & Hlen).
    assert (Hdat : forall j, 0 <= j < K -> buf m (dat j) = buf m0 (dat j)).
    { intros j Hj. apply Hfm. intros i' Hi'. apply dat_neq_par; lia. }
    assert (Hrow :
      only_writes (par i) m (row i m) /\
      (forall b, sz <= b -> loadb (row i m) (par i) b = loadb m (par i) b) /\
      ((forall j, 0 <= j < K -> G i j = 0) -> row i m = m) /\
      ((exists j, 0 <= j < K /\ G i j <> 0) ->
         forall b, 0 <= b < sz ->
           loadb (row i m) (par i) b
           = xsum K (fun j => gf_mul T (G i j) (loadb m (dat j) b)))).
    { apply (code_row_short T FT (par i) dat (G i) K sz m); try lia.
      - rewrite Ham. exact Hlen.
      - intros j Hj. apply dat_neq_par; lia.
      - intros j b Hj Hb. unfold loadb. rewrite Hdat by auto. now apply Hdata. }
    destruct Hrow as ((Hl' & Hf' & Ha') & _ & Hzero & Hnz).
    split; [split; [lia|split]|].
    + intros p. destruct (Nat.eq_dec p (par i)) as [->|Hne].
      * rewrite Ha'. apply Ham.
      * rewrite Hf' by auto. apply Ham.
    + intros p Hp'. rewrite Hf' by (apply Hp'; lia). apply Hfm.
      intros i' Hi'. apply Hp'. lia.
    + intros i' Hi'. destruct (Z.eq_dec i' i) as [->|Hne].
      * split.
        -- intros Hz. rewrite (Hzero Hz). apply Hfm.
           intros i' Hi''. apply par_neq; lia.
        -- intros He b Hb. rewrite (Hnz He b Hb). apply xsum_ext.
           intros j Hj. unfold loadb. now rewrite Hdat.
      * assert (Hpp : par i' <> par i) by (apply par_neq; lia).
        destruct (Hrows i' ltac:(lia)) as (Hz' & Hn').
        split.
        -- intros Hz. rewrite Hf' by auto. now apply Hz'.
        -- intros He b Hb. unfold loadb. rewrite Hf' by auto. now apply Hn'.
Qed.

End EncodeLoop.

(** * [rs_decode] *)

Lemma rd_ok a i : 0 <= i < alen a -> rd a i = Ok (aget a i).
Proof.
  intros Hi. unfold rd.
  destruct (Z.leb_spec 0 i), (Z.ltb_spec i (alen a)); simpl; auto; lia.
Qed.

Lemma rd_fault a i : alen a <= i -> rd a i = Fault.
Proof.
  intros Hi. unfold rd.
  destruct (Z.leb_spec 0 i), (Z.ltb_spec i (alen a)); simpl; auto; lia.
Qed.

Lemma wr_ok a i v : 0 <= i < alen a -> wr a i v = Ok (aset a i v).
Proof.
  intros Hi. unfold wr.
  destruct (Z.leb_spec 0 i), (Z.ltb_spec i (alen a)); simpl; auto; lia.
Qed.

Lemma rd_ptr_ok p i :
  0 <= i < Z.of_nat (length p) -> rd_ptr p i = Ok (shard_ptr p i).
Proof.
  intros Hi. unfold rd_ptr, shard_ptr.
  destruct (Z.leb_spec 0 i), (Z.ltb_spec i (Z.of_nat (length p))); simpl; auto; lia.
Qed.

Lemma alen_malloc n junk : 0 <= n -> alen (malloc n junk) = n.
Proof. intros Hn. unfold malloc. rewrite alen_map_zrange. lia. Qed.

(** [memcpy(&dst[d], &src[s], n)] inside both allocations. *)
Lemma copy_cells_spec dst d src s n :
  0 <= n -> 0 <= s -> s + n <= alen src -> 0 <= d -> d + n <= alen dst ->
  exists dst', copy_cells dst d src s n = Ok dst' /\
    alen dst' = alen dst /\
    forall k, aget dst' k
              = if (d <=? k) && (k <? d + n) then aget src (s + (k - d)) else aget dst k.
Proof.
  intros Hn Hs Hsl Hd Hdl. unfold copy_cells.
  destruct (for_rangeM_inv
              (fun i a => alen a = alen dst /\
                 forall k, aget a k
                           = if (d <=? k) && (k <? d + i) then aget src (s + (k - d))
                             else aget dst k)
              0 n (fun k dst => v <- rd src (s + k) ;; wr dst (d + k) v) dst)
    as (dst' & E & Hl & Hc); auto.
  - split; auto. intros k.
    destruct (Z.leb_spec d k), (Z.ltb_spec k (d + 0)); simpl; auto; lia.
  - intros i a Hi (Hl & Hc). rewrite rd_ok by lia. cbn [bind].
    rewrite wr_ok by lia. eexists. split; [reflexivity|].
    rewrite alen_aset. split; auto. intros k. rewrite aget_aset by lia. rewrite Hc.
    destruct (Z.eqb_spec (d + i) k) as [<-|Hne].
    + destruct (Z.leb_spec d (d + i)), (Z.ltb_spec (d + i) (d + (i + 1))); simpl; try lia.
      f_equal. lia.
    + destruct (Z.leb_spec d k), (Z.ltb_spec k (d + i)), (Z.ltb_spec k (d + (i + 1)));
        simpl; auto; lia.
  - exists dst'. auto.
Qed.

Section Scan.

Variable rs : reed_solomon.
Variable erasures : list Z.

Local Abbreviation K := (data_shards rs).
Local Abbreviation M := (parity_shards rs).

Hypothesis HK : 0 <= K.
Hypothesis HM : 0 <= M.
Hypothesis HG : alen (matrix rs) = (K + M) * K.
Hypothesis He : K + M <= alen erasures.

Lemma scanned_mono i i' s : i <= i' -> scanned rs erasures i s -> scanned rs erasures i' s.
Proof.
  intros Hi. destruct s as [[sub vs] vc]. intros (H1 & H2 & H3 & H4).
  split; [exact H1|]. split; [exact H2|]. split; [exact H3|].
  intros j Hj. destruct (H4 j Hj) as (A & B & C). split; [lia|]. split; auto.
Qed.

(** The survivor scan finds [K] unflagged shards when there are that many
    left, and stays inside its arrays. *)
Lemma scan_loop_spec : forall cnt i sub vs vc,
  0 <= i -> i + Z.of_nat cnt = K + M ->
  scanned rs erasures i (sub, vs, vc) ->
  K - vc <= survivors erasures i cnt ->
  exists sub' vs',
    scan_loop rs erasures cnt i (sub, vs, vc) = Ok (sub', vs', K) /\
    scanned rs erasures (K + M) (sub', vs', K).
Proof.
  induction cnt as [|c IH]; intros i sub vs vc Hi Hc HS Hsurv; cbn [scan_loop survivors] in *.
  - destruct HS as (H1 & H2 & H3 & H4).
    assert (vc = K) by lia. subst vc.
    exists sub, vs. split; [reflexivity|]. replace (K + M) with i by lia.
    split; [exact H1|]. split; [exact H2|]. split; [lia | exact H4].
  - destruct (Z.ltb_spec vc K) as [Hlt|Hge].
    + rewrite rd_ok by lia. cbn [bind].
      destruct (Z.eqb_spec (aget erasures i) 0) as [E0|N0].
      * destruct HS as (H1 & H2 & H3 & H4).
        destruct (copy_cells_spec sub (vc * K) (matrix rs) (i * K) K)
          as (sub1 & Ec & Hl1 & Hc1); try nia.
        rewrite Ec. cbn [bind]. rewrite wr_ok by lia. cbn [bind].
        apply IH; try lia.
        split; [lia|]. split; [now rewrite alen_aset|]. split; [lia|].
        intros j Hj. rewrite aget_aset by lia.
        destruct (Z.eqb_spec vc j) as [<-|Hne].
        -- split; [lia|]. split; [exact E0|]. intros c0 Hc0. rewrite Hc1.
           destruct (Z.leb_spec (vc * K) (vc * K + c0)), (Z.ltb_spec (vc * K + c0) (vc * K + K));
             simpl; try lia. f_equal. lia.
        -- destruct (H4 j ltac:(lia)) as (A & B & C). split; [lia|]. split; [exact B|].
           intros c0 Hc0. rewrite Hc1.
           destruct (Z.leb_spec (vc * K) (j * K + c0)), (Z.ltb_spec (j * K + c0) (vc * K + K));
             simpl; try (apply C; lia). nia.
      * apply IH; try lia. apply (scanned_mono i); [lia | exact HS].
    + destruct HS as (H1 & H2 & H3 & H4). assert (vc = K) by lia. subst vc.
      exists sub, vs. split; [reflexivity|].
      apply (scanned_mono i); [lia|].
      split; [exact H1|]. split; [exact H2|]. split; [lia | exact H4].
Qed.

End Scan.

Section Rebuild.

Variable T : gf_tables.
Variable rs : reed_solomon.
Variable shards : list ptr.
Variable erasures : list Z.
Variable m0 : mem.
Variable sz : Z.
Variable sub0 sub vs : list Z.

Local Abbreviation K := (data_shards rs).
Local Abbreviation M := (parity_shards rs).
Local Abbreviation sh := (shard_ptr shards).

Hypothesis HK : 0 <= K.
Hypothesis HM : 0 <= M.
Hypothesis Hlen : Z.of_nat (length shards) = K + M.
Hypothesis Hnd : NoDup shards.
Hypothesis Hbufs : forall p, In p shards -> (p < length m0)%nat /\ sz <= alen (buf m0 p).
Hypothesis Hsz : 0 <= sz < 64.
Hypothesis Hflags : forall i, 0 <= i < K + M -> aget erasures i = 1 -> i < K.
Hypothesis He : K + M <= alen erasures.
Hypothesis Hscan : scanned rs erasures (K + M) (sub0, vs, K).
Hypothesis Hsub : alen sub = K * K.

Lemma sh_in i : 0 <= i < K + M -> In (sh i) shards.
Proof. intros Hi. apply nth_In_Z. lia. Qed.

Lemma sh_neq i i' : 0 <= i < K + M -> 0 <= i' < K + M -> i <> i' -> sh i <> sh i'.
Proof. intros Hi Hi' Hne. apply nth_NoDup_neq; auto; lia. Qed.

Lemma survivor_index j :
  0 <= j < K -> 0 <= aget vs j < K + M /\ aget erasures (aget vs j) = 0.
Proof.
  intros Hj. destruct Hscan as (_ & _ & _ & H). destruct (H j Hj) as (A & B & _). auto.
Qed.

Lemma survivor_neq j i :
  0 <= j < K -> 0 <= i < K + M -> aget erasures i = 1 -> sh (aget vs j) <> sh i.
Proof.
  intros Hj Hi Hf. destruct (survivor_index j Hj) as (A & B).
  apply sh_neq; auto. intros E. rewrite E in B. lia.
Qed.

(** The inner loop of the reconstruction adds to [dst] the row [i] of
    [sub] applied to the survivors. *)
Lemma rebuild_row_spec i m :
  0 <= i < K -> aget erasures i = 1 ->
  (sh i < length m)%nat -> sz <= alen (buf m (sh i)) ->
  exists m', rebuild_row T rs shards sz sub vs i (sh i) m = Ok m' /\
    only_writes (sh i) m m' /\
    forall b, 0 <= b < sz ->
      loadb m' (sh i) b
      = Z.lxor (loadb m (sh i) b)
          (xsum K (fun j => gf_mul T (aget sub (i * K + j)) (loadb m (sh (aget vs j)) b))).
Proof.
  intros Hi Hf Hp Hl. unfold rebuild_row.
  destruct (for_rangeM_inv
              (fun j (m' : mem) =>
                 only_writes (sh i) m m' /\
                 forall b, 0 <= b < sz ->
                   loadb m' (sh i) b
                   = Z.lxor (loadb m (sh i) b)
                       (xsum j (fun j => gf_mul T (aget sub (i * K + j))
                                           (loadb m (sh (aget vs j)) b))))
              0 K
              (fun j m =>
                 v <- rd vs j ;;
                 shard <- rd_ptr shards v ;;
                 coeff <- rd sub (i * K + j) ;;
                 Ok (mul_add1_avx2 T m (sh i) shard coeff sz)) m)
    as (m' & E & Hw & Hc); auto.
  - split; [apply only_writes_refl|]. intros b Hb. rewrite xsum_0. now rewrite Z.lxor_0_r.
  - intros j m1 Hj (Hw & Hc).
    destruct (survivor_index j Hj) as (Hv & Hv0).
    destruct Hscan as (_ & Hlvs & _ & _).
    rewrite rd_ok by lia. cbn [bind]. rewrite rd_ptr_ok by lia. cbn [bind].
    rewrite rd_ok by nia. cbn [bind]. eexists. split; [reflexivity|].
    assert (Hne : sh (aget vs j) <> sh i) by (apply survivor_neq; auto; lia).
    destruct Hw as (Hl1 & Hf1 & Ha1).
    destruct (mul_add1_avx2_short T m1 (sh i) (sh (aget vs j)) (aget sub (i * K + j)) sz)
      as (Hl2 & Hf2 & Ha2 & Hin & _); try lia.
    split; [split; [lia | split; [|lia]]|].
    + intros p Hp'. rewrite Hf2 by auto. now apply Hf1.
    + intros b Hb. rewrite Hin by auto. rewrite Hc by auto.
      rewrite xsum_succ by lia. rewrite Z.lxor_assoc. do 3 f_equal.
      unfold loadb. now rewrite Hf1.
  - exists m'. auto.
Qed.

Lemma rebuild_step_spec i m :
  0 <= i < K + M -> rebuilt T rs shards erasures m0 sz sub vs i m ->
  exists m', rebuild_step T rs shards erasures sz sub vs i m = Ok m' /\
    rebuilt T rs shards erasures m0 sz sub vs (i + 1) m'.
Proof.
  intros Hi (Hl & Ha & Hf & Hrows). unfold rebuild_step.
  rewrite rd_ok by lia. cbn [bind].
  destruct (Z.eqb_spec (aget erasures i) 1) as [E1|N1].
  - pose proof (Hflags i Hi E1) as HiK.
    rewrite rd_ptr_ok by lia. cbn [bind].
    destruct (Hbufs (sh i) (sh_in i Hi)) as (Hp & Hlen').
    destruct (memset_bytewise m (sh i) 0 sz) as (Hl1 & Hf1 & Ha1 & Hin1 & _);
      try lia; [rewrite Ha; lia|].
    set (m1 := memset m (sh i) 0 sz) in *.
    destruct (rebuild_row_spec i m1) as (m' & E & (Hl2 & Hf2 & Ha2) & Hc);
      try lia; [rewrite Ha1, Ha; lia|].
    unfold rebuild_row in E. rewrite E. exists m'. split; [reflexivity|].
    assert (Hsurv : forall j, 0 <= j < K -> buf m1 (sh (aget vs j)) = buf m0 (sh (aget vs j))).
    { intros j Hj. rewrite Hf1 by (apply survivor_neq; auto). apply Hf.
      intros i' Hi' Hf'. apply survivor_neq; auto; lia. }
    split; [lia|]. split; [|split].
    + intros p. destruct (Nat.eq_dec p (sh i)) as [->|Hne].
      * rewrite Ha2, Ha1. apply Ha.
      * rewrite Hf2, Hf1 by auto. apply Ha.
    + intros p Hp'. assert (Hne : p <> sh i) by (apply Hp'; auto; lia).
      rewrite Hf2, Hf1 by auto. apply Hf. intros i' Hi' Hf'. apply Hp'; auto; lia.
    + intros i' Hi' Hf' b Hb. destruct (Z.eq_dec i' i) as [->|Hne].
      * rewrite Hc by auto. rewrite Hin1 by auto. rewrite Z.lxor_0_l.
        apply xsum_ext. intros j Hj. unfold loadb. now rewrite Hsurv.
      * assert (Hpp : sh i' <> sh i) by (apply sh_neq; lia).
        unfold loadb. rewrite Hf2, Hf1 by auto. apply Hrows; auto; lia.
  - exists m. split; [reflexivity|]. split; [exact Hl|]. split; [exact Ha|]. split.
    + intros p Hp'. apply Hf. intros i' Hi' Hf'. apply Hp'; auto; lia.
    + intros i' Hi' Hf' b Hb. apply Hrows; auto.
      destruct (Z.eq_dec i' i) as [->|]; [contradiction | lia].
Qed.

Lemma rebuild_all :
  exists m', for_rangeM 0 (K + M) (rebuild_step T rs shards erasures sz sub vs) m0 = Ok m' /\
    rebuilt T rs shards erasures m0 sz sub vs (K + M) m'.
Proof.
  apply for_rangeM_inv; [lia | |].
  - split; [reflexivity|]. split; [reflexivity|]. split; [reflexivity|]. intros; lia.
  - intros i m Hi HR. now apply rebuild_step_spec.
Qed.

End Rebuild.

(** [rs_decode] in terms of its two loops. *)
Lemma rs_decode_loops T junk_sub junk_valid h shards erasures erasure_count sz :
  rs_decode T junk_sub junk_valid h shards erasures erasure_count sz
  = if data_shards (coder h) + parity_shards (coder h) - erasure_count <? data_shards (coder h)
    then Ok (0, h)
    else
      s <- scan_loop (coder h) erasures
             (Z.to_nat (data_shards (coder h) + parity_shards (coder h))) 0
             (malloc (data_shards (coder h) * data_shards (coder h)) junk_sub,
              malloc (data_shards (coder h)) junk_valid, 0) ;;
      let '(ok, sub) := matrix_invert T (fst (fst s)) (data_shards (coder h)) in
      if ok =? 0 then Ok (0, h)
      else
        m <- for_rangeM 0 (data_shards (coder h) + parity_shards (coder h))
               (rebuild_step T (coder h) shards erasures sz sub (snd (fst s))) (bufs h) ;;
        Ok (1, mk_heap (coder h) m).
Proof.
  unfold rs_decode. destruct (_ <? _); [reflexivity|].
  destruct (scan_loop _ _ _ _ _) as [[[sub vs] vc]| |]; reflexivity.
Qed.

Section DecodeSpec.

Variable T : gf_tables.
Hypothesis FT : gf_field T.
Variable junk_sub junk_valid : Z -> Z.
Variable h : heap.
Variable shards : list ptr.
Variable erasures : list Z.
Variable sz : Z.
Variable d : Z -> Z -> Z.

Local Abbreviation rs := (coder h).
Local Abbreviation K := (data_shards (coder h)).
Local Abbreviation M := (parity_shards (coder h)).
Local Abbreviation sh := (shard_ptr shards).

Hypothesis HK : 0 <= K.
Hypothesis HM : 0 <= M.
Hypothesis HG : alen (matrix rs) = (K + M) * K.
Hypothesis HGb : forall r c, 0 <= r < K + M -> 0 <= c < K -> byte (ent K (matrix rs) r c).
Hypothesis Hlen : Z.of_nat (length shards) = K + M.
Hypothesis Hnd : NoDup shards.
Hypothesis Hbufs : forall p, In p shards ->
  (p < length (bufs h))%nat /\ sz <= alen (buf (bufs h) p).
Hypothesis Hsz : 0 <= sz < 64.
Hypothesis He : alen erasures = K + M.
Hypothesis Hflags : forall i, 0 <= i < K + M -> aget erasures i = 1 -> i < K.
Hypothesis Hsurv : K <= survivors erasures 0 (Z.to_nat (K + M)).
Hypothesis Hd : forall c b, 0 <= c < K -> 0 <= b < sz -> byte (d c b).
Hypothesis Hcode : forall s b, 0 <= s < K + M -> aget erasures s = 0 -> 0 <= b < sz ->
  loadb (bufs h) (sh s) b
  = xsum K (fun c => gf_mul T (aget (matrix rs) (s * K + c)) (d c b)).

(** With shards below 64 bytes and only data shards flagged, [rs_decode]
    stays inside its arrays and returns 0, with the memory as it was, or 1,
    with every flagged shard restored and nothing else written. *)
Lemma rs_decode_spec erasure_count :
  exists ret h',
    rs_decode T junk_sub junk_valid h shards erasures erasure_count sz = Ok (ret, h') /\
    ((ret = 0 /\ h' = h) \/
     (ret = 1 /\ coder h' = coder h /\
      length (bufs h') = length (bufs h) /\
      (forall p, (forall i, 0 <= i < K + M -> aget erasures i = 1 -> p <> sh i) ->
         buf (bufs h') p = buf (bufs h) p) /\
      forall i b, 0 <= i < K + M -> aget erasures i = 1 -> 0 <= b < sz ->
        loadb (bufs h') (sh i) b = d i b)).
Proof.
  rewrite rs_decode_loops.
  destruct (K + M - erasure_count <? K); [exists 0, h; split; [reflexivity | now left]|].
  destruct (scan_loop_spec rs erasures HK HG ltac:(lia) (Z.to_nat (K + M)) 0
              (malloc (K * K) junk_sub) (malloc K junk_valid) 0)
    as (sub0 & vs & Escan & Hscan); try lia.
  { split; [apply alen_malloc; nia|]. split; [now apply alen_malloc|].
    split; [lia|]. intros; lia. }
  rewrite Escan. cbn [bind fst snd].
  assert (Hsub0 : bytes_mat K sub0).
  { destruct Hscan as (Hl & _ & _ & Hrows). split; auto.
    intros r c Hr Hc. unfold in_range in *. destruct (Hrows r Hr) as (Hv & _ & Hcells).
    unfold ent. rewrite Hcells by auto. apply (HGb (aget vs r) c); lia. }
  pose proof (matrix_invert_code T sub0 K) as Hcode'.
  destruct (matrix_invert T sub0 K) as [ok E] eqn:EI. cbn [fst] in Hcode'.
  destruct Hcode' as [-> | ->]; [exists 0, h; split; [reflexivity | now left]|].
  cbn [Z.eqb].
  destruct (matrix_invert_right_inverse T FT K HK sub0 E Hsub0 EI) as ((HlE & HEb) & _).
  destruct (rebuild_all T rs shards erasures (bufs h) sz sub0 E vs)
    as (m' & Em & Hl & Ha & Hf & Hrows); auto; try lia.
  rewrite Em. cbn [bind].
  exists 1, (mk_heap rs m'). split; [reflexivity|]. right.
  split; [reflexivity|]. split; [reflexivity|]. cbn [bufs]. split; [exact Hl|].
  split; [exact Hf|].
  intros i b Hi Hfl Hb. rewrite (Hrows i Hi Hfl b Hb).
  pose proof (Hflags i Hi Hfl) as HiK.
  set (x := fun c => d c b).
  set (y := fun j => loadb (bufs h) (sh (aget vs j)) b).
  destruct Hscan as (_ & _ & _ & Hvs).
  assert (Hx : vec K x) by (intros c Hc; apply Hd; auto).
  assert (Hxy : forall r, in_range K r -> dotr T K sub0 r x = y r).
  { intros r Hr. destruct (Hvs r Hr) as (Hv & Hv0 & Hcells).
    unfold y. rewrite (Hcode (aget vs r) b) by (auto; lia).
    unfold dotr. apply xsum_ext. intros c Hc. unfold ent. now rewrite Hcells. }
  assert (Hy : vec K y).
  { intros r Hr. rewrite <- Hxy by auto. apply (dotr_byte T FT K HK); auto. }
  symmetry.
  apply (matrix_invert_left_inverse T FT K HK sub0 E x y Hsub0 EI Hx Hy Hxy i).
  unfold in_range. lia.
Qed.

End DecodeSpec.

(** * The round trip with shards below 64 bytes *)

Lemma xsum_exchange a b (f : Z -> Z -> Z) :
  0 <= a -> 0 <= b ->
  xsum a (fun c => xsum b (fun k => f k c)) = xsum b (fun k => xsum a (fun c => f k c)).
Proof.
  intros Ha Hb. revert a Ha. apply upto_ind.
  - rewrite xsum_0. symmetry. rewrite (xsum_ext b _ (fun _ => 0)); [now apply xsum_zero|].
    intros k _. apply xsum_0.
  - intros a Ha IH. rewrite xsum_succ by auto. rewrite IH.
    rewrite <- xsum_lxor by auto. apply xsum_ext. intros k Hk.
    now rewrite xsum_succ by auto.
Qed.

(** Either some value of a finite family is nonzero or all are zero. *)
Lemma some_nonzero_or_all_zero (f : Z -> Z) n :
  0 <= n -> (exists j, 0 <= j < n /\ f j <> 0) \/ (forall j, 0 <= j < n -> f j = 0).
Proof.
  intros Hn. revert n Hn. apply upto_ind.
  - right. intros; lia.
  - intros n Hn [(j & Hj & Hnz)|Hz].
    + left. exists j. split; [lia | exact Hnz].
    + destruct (Z.eq_dec (f n) 0) as [E|N].
      * right. intros j Hj. destruct (Z.eq_dec j n) as [->|]; auto. apply Hz; lia.
      * left. exists n. split; [lia | exact N].
Qed.

Section LeftInverseCells.

Variable T : gf_tables.
Hypothesis FT : gf_field T.
Variable n : Z.
Hypothesis Hn : 0 <= n.

Lemma matrix_invert_left_inverse_cells A E r c :
  bytes_mat n A -> matrix_invert T A n = (1, E) ->
  in_range n r -> in_range n c ->
  xsum n (fun k => gf_mul T (ent n E r k) (ent n A k c)) = delta r c.
Proof.
  intros HA HE Hr Hc.
  assert (Hx : vec n (fun k => delta k c)) by (intros k _; apply byte_delta).
  assert (Hy : vec n (fun k => ent n A k c)) by (intros k Hk; apply HA; auto).
  pose proof (matrix_invert_left_inverse T FT n Hn A E
                (fun k => delta k c) (fun k => ent n A k c) HA HE Hx Hy) as H.
  symmetry. apply H; auto.
  intros r' Hr'. apply (dotr_unit T FT n Hn); auto.
Qed.

(** A row vector that the inverse sends to zero is zero. *)
Lemma inverse_row_injective A E (v : Z -> Z) :
  bytes_mat n A -> matrix_invert T A n = (1, E) -> vec n v ->
  (forall c, in_range n c -> xsum n (fun k => gf_mul T (v k) (ent n E k c)) = 0) ->
  forall j, in_range n j -> v j = 0.
Proof.
  intros HA HE Hv Hzero j Hj.
  destruct (matrix_invert_right_inverse T FT n Hn A E HA HE) as ((_ & HEb) & _).
  assert (HAb : forall r c, in_range n r -> in_range n c -> byte (ent n A r c)) by apply HA.
  assert (H0 : xsum n (fun c => gf_mul T (xsum n (fun k => gf_mul T (v k) (ent n E k c)))
                                  (ent n A c j)) = 0).
  { rewrite (xsum_ext n _ (fun _ => 0)); [now apply xsum_zero|].
    intros c Hc. rewrite Hzero by exact Hc. apply (fld_0_l T FT). now apply HAb. }
  assert (Bprod : forall k c, in_range n k -> in_range n c ->
            byte (gf_mul T (v k) (ent n E k c))).
  { intros k c Hk Hc. apply (fld_byte T FT); [apply Hv | apply HEb]; auto. }
  assert (Binner : forall k c, in_range n k -> in_range n c ->
            byte (gf_mul T (ent n E k c) (ent n A c j))).
  { intros k c Hk Hc. apply (fld_byte T FT); [apply HEb | apply HAb]; auto. }
  rewrite (xsum_ext n _
             (fun c => xsum n (fun k => gf_mul T (v k)
                                          (gf_mul T (ent n E k c) (ent n A c j))))) in H0.
  2:{ intros c Hc.
      assert (Bc : byte (ent n A c j)) by (apply HAb; auto).
      assert (Bs : byte (xsum n (fun k => gf_mul T (v k) (ent n E k c)))).
      { apply xsum_byte; auto; intros k Hk; apply Bprod; auto. }
      rewrite (fld_comm T FT _ _ Bs Bc).
      rewrite <- (xsum_fmul_l T FT n Hn (ent n A c j)
                    (fun k => gf_mul T (v k) (ent n E k c)) Bc)
        by (intros k Hk; apply Bprod; auto).
      apply xsum_ext. intros k Hk.
      assert (Bv : byte (v k)) by (apply Hv; auto).
      assert (Be : byte (ent n E k c)) by (apply HEb; auto).
      rewrite (fld_comm T FT _ _ Bc (Bprod k c Hk Hc)).
      apply (fld_assoc T FT); assumption. }
  rewrite (xsum_exchange n n (fun k c => gf_mul T (v k) (gf_mul T (ent n E k c) (ent n A c j))))
    in H0 by auto.
  rewrite (xsum_ext n _ (fun k => if k =? j then v k else 0)) in H0.
  - rewrite xsum_single in H0 by auto. unfold in_range in Hj.
    destruct (Z.leb_spec 0 j), (Z.ltb_spec j n); simpl in H0; auto; lia.
  - intros k Hk.
    assert (Bv : byte (v k)) by (apply Hv; auto).
    rewrite (xsum_fmul_l T FT n Hn (v k)
               (fun c => gf_mul T (ent n E k c) (ent n A c j)) Bv)
      by (intros c Hc; apply Binner; auto).
    rewrite (matrix_invert_left_inverse_cells A E k j HA HE Hk Hj).
    unfold delta. destruct (k =? j).
    + now apply (fmul_1_r T FT).
    + now apply (fmul_0_r T FT).
Qed.

End LeftInverseCells.

Section ParityRows.

Variable T : gf_tables.
Hypothesis FT : gf_field T.
Hypothesis Hcauchy : forall i s, 0 <= i < 256 -> i < s -> s < 256 ->
  aget (gf_div_table T) (Z.lxor (256 * 1 + i) s) <> 0.

(** No parity row of a coder from [rs_new] is zero, so [rs_encode] writes
    every parity shard. *)
Lemma rs_new_parity_row_nonzero K M rs i :
  rs_new T K M = Ok (Some rs) -> 0 <= i < M ->
  exists j, 0 <= j < K /\ parity_coeff rs i j <> 0.
Proof.
  intros Hnew Hi.
  destruct (rs_new_shape T FT K M rs Hnew) as (HK & HM & HKM & Hd & _).
  destruct (some_nonzero_or_all_zero (parity_coeff rs i) K ltac:(lia)) as [H|Hz]; [exact H|].
  exfalso. revert Hnew Hz. unfold rs_new, DATA_SHARDS_MAX.
  destruct (Z.gtb_spec (K + M) 255); [discriminate|].
  destruct (Z.leb_spec K 0); [discriminate|].
  destruct (Z.leb_spec M 0); [discriminate|]. cbn [orb].
  destruct (rs_new_top_block T FT K M ltac:(lia) ltac:(lia)) as (Htop & _).
  destruct (cauchy_spec T (K + M) K) as (Hlv & Hv); [lia | lia|].
  set (vm := cauchy T (K + M) K) in *.
  set (top := sub_matrix vm 0 0 K K (K + M) K) in *.
  pose proof (matrix_invert_code T top K) as Hcode.
  destruct (matrix_invert T top K) as [err E] eqn:EI. cbn [fst] in Hcode.
  destruct Hcode as [-> | ->]; [discriminate|]. cbn [Z.eqb].
  destruct (multiply1_spec T vm (K + M) K E K) as (m & Em & Hlm & Hm); [lia | lia|].
  rewrite Em. cbn [bind]. intros [= <-]. unfold parity_coeff.
  cbn [data_shards matrix]. intros Hz.
  set (v := fun k => ent K vm (K + i) k).
  assert (Hvb : vec K v).
  { intros k Hk. unfold v, in_range in *. rewrite Hv by lia. apply (fld_div_byte T FT). }
  assert (Hv0 : v 0 = 0).
  { apply (inverse_row_injective T FT K ltac:(lia) top E v Htop EI Hvb);
      [|unfold in_range; lia].
    intros c Hc. unfold in_range in Hc. rewrite <- (Hz c Hc).
    fold (ent K m (K + i) c). rewrite Hm by lia. reflexivity. }
  unfold v in Hv0. rewrite Hv in Hv0 by lia.
  apply (Hcauchy (K + i) (K + M + 0)); auto; lia.
Qed.

End ParityRows.

Lemma firstn_length_app {A} (l1 l2 : list A) : firstn (length l1) (l1 ++ l2) = l1.
Proof. induction l1 as [|a l IH]; cbn; [now destruct l2 | now rewrite IH]. Qed.

Lemma skipn_length_app {A} (l1 l2 : list A) : skipn (length l1) (l1 ++ l2) = l2.
Proof. induction l1 as [|a l IH]; cbn; auto. Qed.

Lemma firstn_seq_data k m : firstn k (seq 0 (k + m)) = seq 0 k.
Proof.
  rewrite seq_app. rewrite <- (length_seq k 0) at 1. apply firstn_length_app.
Qed.

Lemma skipn_seq_parity k m : skipn k (seq 0 (k + m)) = seq k m.
Proof.
  rewrite seq_app. rewrite <- (length_seq k 0) at 1. apply skipn_length_app.
Qed.

Lemma shard_ptr_seq start len i :
  0 <= i < Z.of_nat len -> shard_ptr (seq start len) i = (start + Z.to_nat i)%nat.
Proof. intros Hi. unfold shard_ptr. apply seq_nth. lia. Qed.

(** The erasure zeroes the first [sz] bytes of the flagged shards and
    touches nothing else. *)
Lemma erase_flagged_spec erasures total sz m :
  0 <= total -> 0 <= sz -> Z.of_nat (length m) = total ->
  (forall p, (p < length m)%nat -> sz <= alen (buf m p)) ->
  length (erase_flagged erasures total sz m) = length m /\
  (forall p, alen (buf (erase_flagged erasures total sz m) p) = alen (buf m p)) /\
  (forall p, aget erasures (Z.of_nat p) <> 1 ->
     buf (erase_flagged erasures total sz m) p = buf m p).
Proof.
  intros Htot Hsz Hlen Hbufs. unfold erase_flagged.
  apply (for_range_inv
           (fun (i : Z) (m' : mem) =>
              length m' = length m /\
              (forall p, alen (buf m' p) = alen (buf m p)) /\
              (forall p, aget erasures (Z.of_nat p) <> 1 -> buf m' p = buf m p)));
    [lia | repeat split; auto |].
  intros i m' Hi (Hl & Ha & Hf).
  destruct (Z.eqb_spec (aget erasures i) 1) as [E1|N1]; [|repeat split; auto].
  destruct (memset_bytewise m' (Z.to_nat i) 0 sz) as (Hl1 & Hf1 & Ha1 & _); try lia.
  { rewrite Ha. apply Hbufs. lia. }
  split; [lia|]. split.
  - intros p. destruct (Nat.eq_dec p (Z.to_nat i)) as [->|Hne].
    + rewrite Ha1. apply Ha.
    + rewrite Hf1 by auto. apply Ha.
  - intros p Hp. rewrite Hf1; [now apply Hf|].
    intros ->. apply Hp. rewrite Z2Nat.id by lia. exact E1.
Qed.

Section RoundTrip.

Variable T : gf_tables.
Hypothesis FT : gf_field T.
Hypothesis Hcauchy : forall i s, 0 <= i < 256 -> i < s -> s < 256 ->
  aget (gf_div_table T) (Z.lxor (256 * 1 + i) s) <> 0.

Variable junk_sub junk_valid : Z -> Z.
Variable K M : Z.
Variable rs : reed_solomon.
Variable contents : mem.
Variable erasures : list Z.
Variable erasure_count sz : Z.

Hypothesis Hnew : rs_new T K M = Ok (Some rs).
Hypothesis Hcontents : Z.of_nat (length contents) = K + M.
Hypothesis Hsz : 0 <= sz < 64.
Hypothesis Hbufs : forall p, (p < length contents)%nat -> sz <= alen (buf contents p).
Hypothesis Hdata : forall c b, 0 <= c < K -> 0 <= b < sz ->
  byte (loadb contents (Z.to_nat c) b).
Hypothesis He : alen erasures = K + M.
Hypothesis Hflags : forall i, 0 <= i < K + M -> aget erasures i = 1 -> i < K.
Hypothesis Hsurv : K <= survivors erasures 0 (Z.to_nat (K + M)).

Lemma round_trip_short :
  exists ret h',
    encode_erase_decode T junk_sub junk_valid K M contents erasures erasure_count sz
    = Ok (ret, h') /\
    (ret = 0 \/ ret = 1) /\
    (ret = 1 ->
     forall c b, 0 <= c < K -> 0 <= b < sz ->
       loadb (bufs h') (Z.to_nat c) b = loadb contents (Z.to_nat c) b).
Proof.
  destruct (rs_new_shape T FT K M rs Hnew)
    as (HK & HM & HKM & Hd & Hp & _ & HG & HGb & _).
  destruct (rs_new_systematic T K M rs FT Hnew) as (_ & _ & Htop).
  pose proof (rs_new_parity_row_nonzero T FT Hcauchy K M rs) as Hrows.
  unfold encode_erase_decode. rewrite Hnew. cbn [bind].
  replace (Z.to_nat (K + M)) with (Z.to_nat K + Z.to_nat M)%nat by lia.
  rewrite firstn_seq_data, skipn_seq_parity.
  set (data := seq 0 (Z.to_nat K)).
  set (parity := seq (Z.to_nat K) (Z.to_nat M)).
  set (ps := seq 0 (Z.to_nat K + Z.to_nat M)).
  assert (Eps : @app ptr data parity = ps) by (unfold data, parity, ps; now rewrite seq_app).
  assert (Hdat : forall j, 0 <= j < K -> shard_ptr data j = Z.to_nat j).
  { intros j Hj. unfold data. rewrite shard_ptr_seq by lia. lia. }
  assert (Hpar : forall i, 0 <= i < M -> shard_ptr parity i = Z.to_nat (K + i)).
  { intros i Hi. unfold parity. rewrite shard_ptr_seq by lia. lia. }
  assert (Hsh : forall s, 0 <= s < K + M -> shard_ptr ps s = Z.to_nat s).
  { intros s Hs. unfold ps. rewrite shard_ptr_seq by lia. lia. }
  assert (Hin : forall p, In p ps -> (p < length contents)%nat).
  { intros p Hp'. apply in_seq in Hp'. lia. }
  (* encoding *)
  rewrite rs_encode_rows.
  assert (Henc : encoded_rows T rs data parity contents sz (parity_shards rs)
                   (for_range 0 (parity_shards rs) (encode_row T rs data parity sz) contents)).
  { apply (rs_encode_loop_rows T FT); try lia.
    - unfold data. rewrite length_seq. lia.
    - unfold parity. rewrite length_seq. lia.
    - rewrite Eps. apply seq_NoDup.
    - rewrite Eps. intros p Hp'. split; [now apply Hin|]. apply Hbufs. now apply Hin.
    - intros j b Hj Hb. rewrite Hdat by lia. apply Hdata; lia. }
  set (m1 := for_range 0 (parity_shards rs) (encode_row T rs data parity sz) contents) in *.
  destruct Henc as ((Hl1 & Ha1 & Hf1) & Hrows1).
  rewrite Hp in Hf1. rewrite Hd, Hp in Hrows1.
  (* erasing *)
  fold (erase_flagged erasures (K + M) sz m1).
  destruct (erase_flagged_spec erasures (K + M) sz m1) as (Hl2 & Ha2 & Hf2); try lia.
  { intros p Hp'. rewrite Ha1. apply Hbufs. lia. }
  set (m2 := erase_flagged erasures (K + M) sz m1) in *.
  assert (Hkeep : forall s, 0 <= s < K + M -> aget erasures s <> 1 ->
            buf m2 (Z.to_nat s) = buf m1 (Z.to_nat s)).
  { intros s Hs Hne. apply Hf2. rewrite Z2Nat.id by lia. exact Hne. }
  assert (Hdata1 : forall c, 0 <= c < K -> buf m1 (Z.to_nat c) = buf contents (Z.to_nat c)).
  { intros c Hc. apply Hf1. intros i' Hi'. rewrite Hpar by lia. lia. }
  (* decoding *)
  set (d := fun c b => loadb contents (Z.to_nat c) b).
  destruct (rs_decode_spec T FT junk_sub junk_valid (mk_heap rs m2) ps erasures sz d)
    with (erasure_count := erasure_count)
    as (ret & h' & Edec & Hres); cbn [coder bufs]; rewrite ?Hd, ?Hp; try lia; auto.
  - unfold ps. rewrite length_seq. lia.
  - apply seq_NoDup.
  - intros p Hp'. apply Hin in Hp'. split; [lia|]. rewrite Ha2, Ha1. now apply Hbufs.
  - intros s b Hs Hflag Hb. rewrite Hsh by lia. unfold loadb at 1.
    rewrite Hkeep by lia.
    destruct (Z.ltb_spec s K) as [Hdata_s|Hpar_s].
    + rewrite Hdata1 by lia.
      assert (Hx : vec K (fun c => d c b)) by (intros c Hc; apply Hdata; auto).
      pose proof (dotr_identity T FT K ltac:(lia) (matrix rs) s (fun c => d c b) Hx) as Hid.
      unfold dotr, ent in Hid. rewrite Hid.
      * reflexivity.
      * unfold in_range. lia.
      * intros c Hc. apply Htop; auto. lia.
    + destruct (Hrows1 (s - K) ltac:(lia)) as (_ & Hnz).
      rewrite Hpar in Hnz by lia. replace (K + (s - K)) with s in Hnz by lia.
      fold (loadb m1 (Z.to_nat s) b). rewrite Hnz; [|apply Hrows; [exact Hnew | lia] | lia].
      apply xsum_ext. intros c Hc. rewrite Hdat by lia.
      unfold parity_coeff. rewrite Hd. f_equal. f_equal. lia.
  - exists ret, h'. split; [exact Edec|].
    destruct Hres as [(-> & _) | (-> & _ & _ & Hframe & Hrest)]; [split; [now left | lia]|].
    cbn [coder bufs] in Hframe, Hrest. rewrite ?Hd, ?Hp in Hframe, Hrest.
    split; [now right|]. intros _ c b Hc Hb.
    destruct (Z.eq_dec (aget erasures c) 1) as [E1|N1].
    + change (loadb contents (Z.to_nat c) b) with (d c b).
      rewrite <- (Hsh c) by lia. apply Hrest; auto; lia.
    + unfold loadb. rewrite Hframe.
      * rewrite Hkeep by lia. now rewrite Hdata1.
      * intros i Hi Hfl. rewrite Hsh by lia. intros E. apply Z2Nat.inj in E; try lia.
        subst i. contradiction.
Qed.

End RoundTrip.

(** * The kernels and the coder after [init_gf] *)

Lemma range2_forallb (P : Z -> Z -> bool) n m :
  forallb (fun c => forallb (P c) (zrange m)) (zrange n) = true ->
  forall c b, 0 <= c < Z.of_nat n -> 0 <= b < Z.of_nat m -> P c b = true.
Proof.
  intros H c b Hc Hb.
  pose proof (forallb_zrange _ n H c Hc) as Hrow. cbv beta in Hrow.
  exact (forallb_zrange _ m Hrow b Hb).
Qed.

Lemma cauchy_entry_nonzero i s :
  0 <= i < 256 -> i < s -> s < 256 ->
  aget (gf_div_table TABLES) (Z.lxor (256 * 1 + i) s) <> 0.
Proof.
  intros Hi His Hs. destruct (cauchy_entry i s Hi His) as (H & _).
  destruct (H Hs) as (_ & Hnz). exact Hnz.
Qed.

(** [add1_avx2] adds [src] to [dst] byte by byte for every size, through
    its 64-byte loop and its byte loop alike, and writes nothing else. *)
Theorem add1_avx2_adds m dst src sz i :
  0 <= sz <= 2147483583 ->
  (dst < length m)%nat -> (src < length m)%nat ->
  sz <= alen (buf m dst) -> sz <= alen (buf m src) ->
  (0 <= i < sz ->
     loadb (add1_avx2 m dst src sz) dst i = Z.lxor (loadb m dst i) (loadb m src i)) /\
  (sz <= i -> loadb (add1_avx2 m dst src sz) dst i = loadb m dst i) /\
  (forall p, p <> dst -> buf (add1_avx2 m dst src sz) p = buf m p).
Proof.
  intros Hsz Hdst _ Hlen _.
  destruct (add1_avx2_spec m dst src sz) as (_ & Hf & _ & Hin & Hout); try lia.
  split; [apply Hin|]. split; [apply Hout | exact Hf].
Qed.

Lemma add1_avx2_adds_witness :
  loadb (add1_avx2 [zrange 70; map (fun k => 3 * k) (zrange 70)] 0%nat 1%nat 70) 0%nat 3
  = Z.lxor (loadb [zrange 70; map (fun k => 3 * k) (zrange 70)] 0%nat 3)
           (loadb [zrange 70; map (fun k => 3 * k) (zrange 70)] 1%nat 3).
Proof.
  apply (add1_avx2_adds [zrange 70; map (fun k => 3 * k) (zrange 70)] 0%nat 1%nat 70 3);
    try lia; try (simpl; lia); apply Z.leb_le; vm_compute; reflexivity.
Defined.

(** Below 64 bytes, [mul1_avx2] stores [gf_mul(c, src[i])] and
    [mul_add1_avx2] adds it to [dst[i]], for [i < sz], and both write
    nothing else. *)
Theorem mul_kernels_below_64 T m dst src c sz i :
  0 <= sz < 64 ->
  (dst < length m)%nat -> (src < length m)%nat ->
  sz <= alen (buf m dst) -> sz <= alen (buf m src) ->
  (0 <= i < sz ->
     loadb (mul1_avx2 T m dst src c sz) dst i = gf_mul T c (loadb m src i) /\
     loadb (mul_add1_avx2 T m dst src c sz) dst i
     = Z.lxor (loadb m dst i) (gf_mul T c (loadb m src i))) /\
  (sz <= i ->
     loadb (mul1_avx2 T m dst src c sz) dst i = loadb m dst i /\
     loadb (mul_add1_avx2 T m dst src c sz) dst i = loadb m dst i) /\
  (forall p, p <> dst ->
     buf (mul1_avx2 T m dst src c sz) p = buf m p /\
     buf (mul_add1_avx2 T m dst src c sz) p = buf m p).
Proof.
  intros Hsz Hdst _ Hlen _.
  destruct (mul1_avx2_short T m dst src c sz) as (_ & Hf1 & _ & Hin1 & Hout1); try lia.
  destruct (mul_add1_avx2_short T m dst src c sz) as (_ & Hf2 & _ & Hin2 & Hout2); try lia.
  split; [intros Hi; split; [now apply Hin1 | now apply Hin2]|].
  split; [intros Hi; split; [now apply Hout1 | now apply Hout2]|].
  intros p Hp. split; [now apply Hf1 | now apply Hf2].
Qed.

Lemma mul_kernels_below_64_witness :
  loadb (mul1_avx2 TABLES [zeros 4; [1; 2; 3; 4]] 0%nat 1%nat 29 4) 0%nat 2
  = gf_mul TABLES 29 (loadb [zeros 4; [1; 2; 3; 4]] 1%nat 2).
Proof.
  apply (mul_kernels_below_64 TABLES [zeros 4; [1; 2; 3; 4]] 0%nat 1%nat 29 4 2);
    try lia; try (simpl; lia); apply Z.leb_le; vm_compute; reflexivity.
Defined.

(** For every shard size, [rs_encode] writes only the parity buffers: the
    coder, the number of buffers, the size of each buffer and every buffer
    that is not a parity shard are as before. *)
Theorem rs_encode_writes_only_parity T h data parity sz p :
  Z.of_nat (length data) = data_shards (coder h) ->
  Z.of_nat (length parity) = parity_shards (coder h) ->
  (forall q, In q (data ++ parity) ->
     (q < length (bufs h))%nat /\ sz <= alen (buf (bufs h) q)) ->
  0 <= sz <= 2147483583 ->
  coder (rs_encode T h data parity sz) = coder h /\
  length (bufs (rs_encode T h data parity sz)) = length (bufs h) /\
  alen (buf (bufs (rs_encode T h data parity sz)) p) = alen (buf (bufs h) p) /\
  (~ In p parity -> buf (bufs (rs_encode T h data parity sz)) p = buf (bufs h) p).
Proof.
  intros Hd Hp Hbufs Hsz. destruct h as [rs m0]. cbn [coder bufs] in *.
  split; [reflexivity|]. rewrite rs_encode_rows.
  destruct (rs_encode_loop_frame T rs data parity m0 sz Hd Hp Hbufs) as (Hl & Ha & Hf);
    try lia.
  split; [exact Hl|]. split; [apply Ha|].
  intros Hnot. apply Hf. intros i Hi E. apply Hnot. rewrite E. apply nth_In_Z.
  unfold ptr in *. lia.
Qed.

Lemma rs_encode_writes_only_parity_witness :
  buf (bufs (rs_encode TABLES (mk_heap rs_4_2 test_shards) [0; 1; 2; 3]%nat [4; 5]%nat 4))
    2%nat
  = buf test_shards 2%nat.
Proof.
  apply (rs_encode_writes_only_parity TABLES (mk_heap rs_4_2 test_shards)
           [0; 1; 2; 3]%nat [4; 5]%nat 4 2%nat); try reflexivity; try lia.
  - intros q Hq. simpl in Hq.
    repeat (destruct Hq as [<-|Hq]; [split; [simpl; lia | apply Z.leb_le; reflexivity]|]).
    contradiction.
  - simpl. lia.
Defined.

(** After [init_gf], with shards below 64 bytes in pairwise distinct
    buffers, [rs_encode] leaves in each parity shard the product of its row
    of the generator matrix with the data shards, byte by byte; a parity
    shard whose row is all zero is not written at all. *)
Theorem rs_encode_parity_products T h data parity sz i b :
  init_gf = Ok T ->
  Z.of_nat (length data) = data_shards (coder h) ->
  Z.of_nat (length parity) = parity_shards (coder h) ->
  NoDup (data ++ parity) ->
  (forall q, In q (data ++ parity) ->
     (q < length (bufs h))%nat /\ sz <= alen (buf (bufs h) q)) ->
  (forall j c, 0 <= j < data_shards (coder h) -> 0 <= c < sz ->
     0 <= loadb (bufs h) (shard_ptr data j) c <= 255) ->
  0 <= sz < 64 ->
  0 <= i < parity_shards (coder h) -> 0 <= b < sz ->
  ((exists j, 0 <= j < data_shards (coder h) /\ parity_coeff (coder h) i j <> 0) ->
     loadb (bufs (rs_encode T h data parity sz)) (shard_ptr parity i) b
     = xsum (data_shards (coder h))
         (fun j => gf_mul T (parity_coeff (coder h) i j)
                     (loadb (bufs h) (shard_ptr data j) b))) /\
  ((forall j, 0 <= j < data_shards (coder h) -> parity_coeff (coder h) i j = 0) ->
     buf (bufs (rs_encode T h data parity sz)) (shard_ptr parity i)
     = buf (bufs h) (shard_ptr parity i)).
Proof.
  intros HT Hd Hp Hnd Hbufs Hbytes Hsz Hi Hb.
  rewrite init_gf_tables in HT. injection HT as <-.
  destruct h as [rs m0]. cbn [coder bufs] in *. rewrite rs_encode_rows.
  destruct (rs_encode_loop_rows TABLES TABLES_field rs data parity m0 sz Hd Hp Hnd Hbufs)
    as (_ & Hrows); try (unfold ptr in *; lia).
  { intros j c Hj Hc. specialize (Hbytes j c Hj Hc). unfold byte. lia. }
  destruct (Hrows i Hi) as (Hz & Hnz). split.
  - intros He. now apply Hnz.
  - exact Hz.
Qed.

Lemma rs_encode_parity_products_witness :
  init_gf = Ok TABLES /\
  loadb (bufs (rs_encode TABLES (mk_heap rs_4_2 test_shards)
                 [0; 1; 2; 3]%nat [4; 5]%nat 4)) (shard_ptr [4; 5]%nat 1) 2
  = xsum (data_shards rs_4_2)
      (fun j => gf_mul TABLES (parity_coeff rs_4_2 1 j)
                  (loadb test_shards (shard_ptr [0; 1; 2; 3]%nat j) 2)).
Proof.
  split; [exact init_gf_tables|].
  apply (rs_encode_parity_products TABLES (mk_heap rs_4_2 test_shards)
           [0; 1; 2; 3]%nat [4; 5]%nat 4 1 2 init_gf_tables); try reflexivity;
    try (simpl; lia).
  - repeat constructor; simpl; intuition lia.
  - intros q Hq. simpl in Hq.
    repeat (destruct Hq as [<-|Hq]; [split; [simpl; lia | apply Z.leb_le; reflexivity]|]).
    contradiction.
  - intros j c Hj Hc.
    pose proof (range2_forallb
                  (fun j c => (0 <=? loadb test_shards (shard_ptr [0; 1; 2; 3]%nat j) c)
                              && (loadb test_shards (shard_ptr [0; 1; 2; 3]%nat j) c <=? 255))
                  4 4 eq_refl j c Hj Hc) as H.
    cbv beta in H. apply andb_prop in H. destruct H as (H1 & H2).
    split; [now apply Z.leb_le | now apply Z.leb_le].
  - exists 0. split; [simpl; lia|]. vm_compute. discriminate.
Defined.



Lemma six_buffers (m : mem) :
  length m = 6%nat ->
  forallb (fun a => 4 <=? alen a) m = true ->
  forall p, In p [0; 1; 2; 3; 4; 5]%nat -> (p < length m)%nat /\ 4 <= alen (buf m p).
Proof.
  intros Hl Hb p Hp. assert (Hlt : (p < length m)%nat).
  { rewrite Hl. simpl in Hp. intuition lia. }
  split; [exact Hlt|]. apply Z.leb_le.
  rewrite forallb_forall in Hb. apply Hb. unfold buf. now apply nth_In.
Qed.


(** After [init_gf], for a coder returned by [rs_new(K, M)] and K + M
    shards below 64 bytes: encoding, zeroing the flagged shards and decoding
    returns 0 or 1, and when it returns 1 every data shard holds its
    original bytes again, provided only data shards are flagged and at least
    K shards are not. *)
Theorem encode_erase_decode_short_shards T junk_sub junk_valid K M rs contents erasures
    erasure_count sz :
  init_gf = Ok T ->
  rs_new T K M = Ok (Some rs) ->
  Z.of_nat (length contents) = K + M ->
  0 <= sz < 64 ->
  (forall p, (p < length contents)%nat -> sz <= alen (buf contents p)) ->
  (forall c b, 0 <= c < K -> 0 <= b < sz -> 0 <= loadb contents (Z.to_nat c) b <= 255) ->
  alen erasures = K + M ->
  (forall i, 0 <= i < K + M -> aget erasures i = 1 -> i < K) ->
  K <= survivors erasures 0 (Z.to_nat (K + M)) ->
  exists ret h',
    encode_erase_decode T junk_sub junk_valid K M contents erasures erasure_count sz
    = Ok (ret, h') /\
    (ret = 0 \/ ret = 1) /\
    (ret = 1 ->
     forall c b, 0 <= c < K -> 0 <= b < sz ->
       loadb (bufs h') (Z.to_nat c) b = loadb contents (Z.to_nat c) b).
Proof.
  intros HT Hnew Hlen Hsz Hbufs Hdata He Hflags Hsurv.
  rewrite init_gf_tables in HT. injection HT as <-.
  apply (round_trip_short TABLES TABLES_field cauchy_entry_nonzero junk_sub junk_valid
           K M rs contents erasures erasure_count sz); auto.
  intros c b Hc Hb. specialize (Hdata c b Hc Hb). unfold byte. lia.
Qed.

Lemma encode_erase_decode_short_shards_witness :
  exists ret h',
    encode_erase_decode TABLES (fun _ => 0) (fun _ => 0) 4 2 test_shards
      [0; 1; 0; 0; 0; 0] 1 4 = Ok (ret, h') /\
    (ret = 0 \/ ret = 1) /\
    (ret = 1 ->
     forall c b, 0 <= c < 4 -> 0 <= b < 4 ->
       loadb (bufs h') (Z.to_nat c) b = loadb test_shards (Z.to_nat c) b).
Proof.
  apply (encode_erase_decode_short_shards TABLES (fun _ => 0) (fun _ => 0) 4 2 rs_4_2
           test_shards [0; 1; 0; 0; 0; 0] 1 4 init_gf_tables rs_new_4_2).
  - reflexivity.
  - lia.
  - intros p Hp.
    apply (proj2 (six_buffers test_shards eq_refl eq_refl p
                    ltac:(simpl in Hp |- *; lia))).
  - intros c b Hc Hb.
    pose proof (range2_forallb
                  (fun c b => (0 <=? test_data c b) && (test_data c b <=? 255))
                  4 4 eq_refl c b Hc Hb) as H.
    cbv beta in H. apply andb_prop in H. destruct H as (H1 & H2).
    split; [now apply Z.leb_le | now apply Z.leb_le].
  - reflexivity.
  - intros i Hi Hf. simpl in Hi |- *.
    assert (Hcases : i = 0 \/ i = 1 \/ i = 2 \/ i = 3 \/ i = 4 \/ i = 5) by lia.
    destruct Hcases as [->|[->|[->|[->|[->| ->]]]]]; unfold aget in Hf; simpl in Hf; lia.
  - apply Z.leb_le. vm_compute. reflexivity.
Defined.

(** * Decoding when no shard is flagged *)

Section CleanScan.

Variable rs : reed_solomon.
Variable erasures : list Z.

Local Abbreviation K := (data_shards rs).
Local Abbreviation M := (parity_shards rs).

Hypothesis HK : 0 <= K.
Hypothesis HM : 0 <= M.
Hypothesis HG : alen (matrix rs) = (K + M) * K.
Hypothesis He : alen erasures = K + M.
Hypothesis Hclean : forall i, 0 <= i < K + M -> aget erasures i = 0.

(** With no flag set the scan copies the first [K] rows of the generator
    matrix, in order. *)
Lemma scan_loop_clean : forall cnt i sub vs,
  0 <= i -> i + Z.of_nat cnt = K + M ->
  alen sub = K * K -> alen vs = K ->
  (forall r c, 0 <= r < Z.min i K -> 0 <= c < K ->
     aget sub (r * K + c) = aget (matrix rs) (r * K + c)) ->
  exists s', scan_loop rs erasures cnt i (sub, vs, Z.min i K) = Ok s' /\
    alen (fst (fst s')) = K * K /\
    forall r c, 0 <= r < K -> 0 <= c < K ->
      aget (fst (fst s')) (r * K + c) = aget (matrix rs) (r * K + c).
Proof.
  induction cnt as [|n IH]; intros i sub vs Hi Hcnt Hls Hlv Hrows; cbn [scan_loop].
  - exists (sub, vs, Z.min i K). split; [reflexivity|]. cbn [fst]. split; [exact Hls|].
    intros r c Hr Hc. apply Hrows; lia.
  - destruct (Z.ltb_spec (Z.min i K) K) as [Hlt|Hge].
    + assert (HiK : i < K) by lia.
      replace (Z.min i K) with i in * by lia.
      rewrite rd_ok by lia. cbn [bind]. rewrite Hclean by lia. cbn [Z.eqb].
      destruct (copy_cells_spec sub (i * K) (matrix rs) (i * K) K)
        as (sub1 & Ec & Hl1 & Hc1); try nia.
      rewrite Ec. cbn [bind]. rewrite wr_ok by lia. cbn [bind].
      destruct (IH (i + 1) sub1 (aset vs i i)) as (s' & Es & Hs); try lia.
      * now rewrite alen_aset.
      * intros r c Hr Hc. rewrite Hc1.
        destruct (Z.leb_spec (i * K) (r * K + c)), (Z.ltb_spec (r * K + c) (i * K + K));
          cbn [andb].
        -- f_equal. lia.
        -- nia.
        -- apply Hrows; nia.
        -- nia.
      * replace (Z.min (i + 1) K) with (i + 1) in Es by lia.
        exists s'. split; [exact Es|exact Hs].
    + exists (sub, vs, Z.min i K). split; [reflexivity|]. cbn [fst]. split; [exact Hls|].
      intros r c Hr Hc. apply Hrows; lia.
Qed.

(** With no flag set the reconstruction loop writes nothing. *)
Lemma rebuild_clean T shards sz sub vs m :
  for_rangeM 0 (K + M) (rebuild_step T rs shards erasures sz sub vs) m = Ok m.
Proof.
  destruct (for_rangeM_inv (fun (_ : Z) (m' : mem) => m' = m) 0 (K + M)
              (rebuild_step T rs shards erasures sz sub vs) m) as (m' & E & ->);
    [lia|reflexivity| |exact E].
  intros i m' Hi ->. exists m. split; [|reflexivity].
  unfold rebuild_step. rewrite rd_ok by lia. cbn [bind].
  rewrite Hclean by lia. reflexivity.
Qed.

End CleanScan.

(** For a coder returned by [rs_new(K, M)], erasure flags that are all 0
    and an erasure count of at most M, [rs_decode] returns 1 and leaves the
    memory as it was, whatever the shard buffers and the shard size are:
    the rows it collects are the first K rows of the generator matrix, the
    identity, which [matrix_invert] accepts. *)
Theorem rs_decode_nothing_flagged T K M rs h shards erasures erasure_count sz
    junk_sub junk_valid :
  init_gf = Ok T ->
  rs_new T K M = Ok (Some rs) ->
  coder h = rs ->
  alen erasures = K + M ->
  (forall i, 0 <= i < K + M -> aget erasures i = 0) ->
  erasure_count <= M ->
  rs_decode T junk_sub junk_valid h shards erasures erasure_count sz = Ok (1, h).
Proof.
  intros HT Hnew Hh He Hclean Hcount.
  rewrite init_gf_tables in HT. injection HT as <-.
  destruct (rs_new_shape TABLES TABLES_field K M rs Hnew)
    as (HK & HM & _ & Hd & Hp & _ & Hlm & _).
  destruct (rs_new_systematic TABLES K M rs TABLES_field Hnew) as (_ & _ & Hid).
  rewrite rs_decode_loops. rewrite Hh, Hd, Hp.
  destruct (Z.ltb_spec (K + M - erasure_count) K) as [Hlt|_]; [lia|].
  destruct (scan_loop_clean rs erasures
              ltac:(rewrite Hd; lia) ltac:(rewrite Hp; lia)
              ltac:(rewrite Hd, Hp; exact Hlm) ltac:(rewrite Hd, Hp; exact He)
              ltac:(rewrite Hd, Hp; exact Hclean)
              (Z.to_nat (K + M)) 0 (malloc (K * K) junk_sub) (malloc K junk_valid))
    as (s' & Escan & Hls & Hrows).
  - lia.
  - rewrite Hd, Hp. lia.
  - rewrite Hd. apply alen_malloc. nia.
  - rewrite Hd. apply alen_malloc. lia.
  - rewrite Hd. intros r c Hr Hc. lia.
  - rewrite Hd in Escan, Hls, Hrows.
    replace (Z.min 0 K) with 0 in Escan by lia.
    rewrite Escan. cbn [bind].
    rewrite (matrix_invert_identity TABLES TABLES_field K ltac:(lia) (fst (fst s')) Hls).
    + cbn [Z.eqb].
      pose proof (rebuild_clean rs erasures) as Hreb.
      rewrite Hd, Hp in Hreb.
      rewrite Hreb by (try exact He; try exact Hclean; lia).
      cbn [bind]. destruct h as [c b]. cbn [coder bufs] in *. subst c. reflexivity.
    + intros r c Hr Hc. unfold in_range in *. unfold ent, delta.
      rewrite Hrows by lia. apply Hid; lia.
Qed.

Lemma rs_decode_nothing_flagged_witness :
  rs_decode TABLES (fun _ => 7) (fun _ => 9) (mk_heap rs_4_2 test_shards)
    [0; 1; 2; 3; 4; 5]%nat [0; 0; 0; 0; 0; 0] 0 4
  = Ok (1, mk_heap rs_4_2 test_shards).
Proof.
  apply (rs_decode_nothing_flagged TABLES 4 2 rs_4_2).
  - exact init_gf_tables.
  - exact rs_new_4_2.
  - reflexivity.
  - reflexivity.
  - intros i Hi. assert (Hc : i = 0 \/ i = 1 \/ i = 2 \/ i = 3 \/ i = 4 \/ i = 5) by lia.
    destruct Hc as [-> | [-> | [-> | [-> | [-> | ->]]]]]; reflexivity.
  - lia.
Defined.
